(** * redux-saga core: scheduler, channels, fork queue and effect completion

    A shallow embedding of the callback-driven core of redux-saga
    ([scheduler.js], [channel.js] and [proc.js]).  JavaScript closures that
    the library calls back (queued tasks, takers, member tasks, continuations)
    are user code that may call straight back into the library before it
    returns.  They are modelled as scripts: the series of library calls the
    closure makes when it is invoked.  Every library function is written in
    open-recursion style over [rec], the interpreter one callback deeper, and
    tied with a fuel counter, so that closures that call each other forever
    simply run out of fuel. *)

From stdpp Require Import base numbers option list gmap.

Set Default Proof Using "Type*".
Set Warnings "-register-all".

(** ** Outcomes and call trees *)

(** How a JavaScript call ends: it returns, it throws, or (for the
    interpreter only) the fuel ran out before it returned. *)
Inductive outcome := Returned | Thrown | OutOfFuel.

Global Instance outcome_eq_dec : EqDecision outcome.
Proof. solve_decision. Defined.

(** The callbacks made during a call, in order; under every callback the
    calls it made in turn before it returned. *)
Inductive tree (L : Type) := Node (label : L) (sub : list (tree L)).
Arguments Node {L} label sub.

Definition label {L} (t : tree L) : L := match t with Node l _ => l end.
Definition sub {L} (t : tree L) : list (tree L) := match t with Node _ s => s end.

(** The callbacks a call made itself, leaving out what they did. *)
Definition direct {L} (tr : list (tree L)) : list L := map label tr.

(** Every callback made, at any depth, in the order the calls began. *)
Fixpoint flat {L} (t : tree L) : list L :=
  match t with Node l s => l :: flat_map flat s end.
Definition everything {L} (tr : list (tree L)) : list L := flat_map flat tr.
Arguments everything : simpl never.
Arguments direct : simpl never.

Record result (S L : Type) := Result {
    state : S;
    trace : list (tree L);
    outcome_of : outcome
  }.
Arguments Result {S L} state trace outcome_of.
Arguments state {S L} r.
Arguments trace {S L} r.
Arguments outcome_of {S L} r.

Definition ret {S L} (s : S) : result S L := Result s [] Returned.
Definition throw {S L} (s : S) : result S L := Result s [] Thrown.
Definition out_of_fuel {S L} (s : S) : result S L := Result s [] OutOfFuel.

(** Sequencing: the second call runs only if the first returned. *)
Definition and_then {S L} (r : result S L) (k : S → result S L) : result S L :=
  match outcome_of r with
  | Returned => let r' := k (state r) in
                Result (state r') (trace r ++ trace r') (outcome_of r')
  | o => Result (state r) (trace r) o
  end.

(** Calls made one after the other by separate callers: one that throws
    does not stop the next. *)
Definition then_anyway {S L} (r : result S L) (k : S → result S L) : result S L :=
  match outcome_of r with
  | OutOfFuel => r
  | _ => let r' := k (state r) in
         Result (state r') (trace r ++ trace r') (outcome_of r')
  end.

(** A callback invocation: the calls made inside it hang under its node. *)
Definition under {S L} (l : L) (r : result S L) : result S L :=
  Result (state r) [Node l (trace r)] (outcome_of r).

(** ** Components of a larger state *)

(** Each component below (scheduler, channel, ...) keeps its variables in a
    record of its own.  Callbacks see the whole program state [G], of which
    the component's record is one part. *)
Record lens (G S : Type) := Lens { view : G → S; update : S → G → G }.
Arguments Lens {G S} view update.
Arguments view {G S} l g.
Arguments update {G S} l s g.

Definition whole {S} : lens S S := Lens (λ s, s) (λ s _, s).
Definition over {G S} (l : lens G S) (f : S → S) (g : G) : G :=
  update l (f (view l g)) g.

(** ** The scheduler ([scheduler.js]) *)

Module Scheduler.

(** [let semaphore = 0] and [const queue = []]; [T] is the type of the
    queued closures. *)
Record sched (T : Type) := Sched { semaphore : Z; queue : list T }.
Arguments Sched {T} semaphore queue.
Arguments semaphore {T} s.
Arguments queue {T} s.

Definition initial {T} : sched T := Sched 0 [].

Section Scheduler.
Context {G T L : Type} (here : lens G (sched T)).
(** [task()], which runs user code, and the next test of the [while]
  loop of [flush]: both are taken from the interpreter one step deeper.
  [began t n] is the label of the call of [t], where [n] is the value of
  the semaphore that the loop found. *)
Variable call_task : T → G → result G L.
Variable again : G → result G L.
Variable began : T → Z → L.

Definition suspend (g : G) : G :=
  over here (λ s, Sched (semaphore s + 1) (queue s)) g.
Definition release (g : G) : G :=
  over here (λ s, Sched (semaphore s - 1) (queue s)) g.

(** [try { suspend(); task() } finally { release() }] *)
Definition exec (t : T) (g : G) : result G L :=
  let r := call_task t (suspend g) in
  let g' := match outcome_of r with
            | OutOfFuel => state r
            | _ => release (state r)
            end in
  Result g' [Node (began t (semaphore (view here g))) (trace r)] (outcome_of r).

(** One test of [while (!semaphore && (task = queue.shift()) !== undefined)]
  and, when it passes, one turn of the loop. *)
Definition flush_loop (g : G) : result G L :=
  if bool_decide (semaphore (view here g) = 0%Z) then
    match queue (view here g) with
    | [] => ret g
    | t :: q => and_then (exec t (over here (λ s, Sched (semaphore s) q) g)) again
    end
  else ret g.

Definition flush (g : G) : result G L := flush_loop (release g).

Definition asap (t : T) (g : G) : result G L :=
  let g1 := over here (λ s, Sched (semaphore s) (queue s ++ [t])) g in
  if bool_decide (semaphore (view here g1) = 0%Z) then flush (suspend g1) else ret g1.
End Scheduler.

End Scheduler.

(** *** Tasks that call the scheduler *)

Module Tasks.
Import Scheduler.

(** A queued task is a closure; what matters of it here is the series of
    scheduler calls it makes.  [Raise] is a task that throws. *)
Inductive cmd := Asap (t : nat) | Suspend | Flush | Raise.

Global Instance cmd_eq_dec : EqDecision cmd.
Proof. solve_decision. Defined.

(** What is observed: a task being started by the loop of [flush], and each
    scheduler call; both with the semaphore at that moment. *)
Inductive event :=
  | Begin (t : nat) (sem : Z)
  | Called (c : cmd) (sem : Z).

Global Instance event_eq_dec : EqDecision event.
Proof. solve_decision. Defined.

Abbreviation st := (sched nat).
Abbreviation res := (result st event).

(** The two places where control leaves straight-line code: calling the
    task closure, and going round the [while] loop of [flush] again. *)
Inductive jump := Body (t : nat) | Again.

Section Semantics.
Variable body : nat → list cmd.

Section Open.
Variable rec : jump → st → res.

Definition call (c : cmd) (s : st) : res :=
  match c with
  | Asap t => asap whole (λ t, rec (Body t)) (rec Again) Begin t s
  | Suspend => ret (suspend whole s)
  | Flush => flush whole (λ t, rec (Body t)) (rec Again) Begin s
  | Raise => throw s
  end.

(** The code of a closure: its calls one after the other; a call that
throws ends the closure. *)
Fixpoint run_cmds (cs : list cmd) (s : st) : res :=
  match cs with
  | [] => ret s
  | c :: cs' => and_then (under (Called c (semaphore s)) (call c s)) (run_cmds cs')
  end.

Definition step (j : jump) (s : st) : res :=
  match j with
  | Body t => run_cmds (body t) s
  | Again => flush_loop whole (λ t, rec (Body t)) (rec Again) Begin s
  end.
End Open.

Fixpoint run (fuel : nat) (j : jump) (s : st) : res :=
  match fuel with
  | 0 => out_of_fuel s
  | S f => step (run f) j s
  end.

(** A trace of scheduler operations made from outside any task: each is a
  call of its own, so one that throws does not stop the next. *)
Fixpoint run_trace (fuel : nat) (ops : list cmd) (s : st) : res :=
  match ops with
  | [] => ret s
  | c :: ops' =>
      then_anyway (under (Called c (semaphore s)) (call (run fuel) c s))
                  (run_trace fuel ops')
  end.
End Semantics.

(** A task keeps the locks in balance when, at every point of its code, it
    has called [flush] at most as often as it has called [suspend] ([n] is
    the number of locks it holds on entry).  Code after a throw never runs. *)
Fixpoint balanced (n : nat) (cs : list cmd) : bool :=
  match cs with
  | [] => true
  | Asap _ :: cs' => balanced n cs'
  | Suspend :: cs' => balanced (S n) cs'
  | Flush :: cs' => match n with 0 => false | S m => balanced m cs' end
  | Raise :: _ => true
  end.

(** [calm inside t]: in the call tree [t], no task is started while another
    is on the stack, and every scheduler call made while a task is on the
    stack finds the semaphore at 1 or more.  [inside] tells whether [t]
    itself sits under a running task. *)
Fixpoint calm (inside : bool) (t : tree event) : bool :=
  match t with
  | Node (Begin _ _) calls => negb inside && forallb (calm true) calls
  | Node (Called _ sem) calls =>
      (negb inside || bool_decide (1 ≤ sem)%Z) && forallb (calm inside) calls
  end.

Definition fine (inside : bool) (r : res) : Prop :=
  forallb (calm inside) (trace r) = true.

(** The scheduler is atomic on a trace of operations. *)
Definition atomic (body : nat → list cmd) (fuel : nat) (ops : list cmd) : Prop :=
  fine false (run_trace body fuel ops initial).

(** A task that releases a lock it never took: it queues task 1 and calls
    [flush] without a [suspend] of its own. *)
Definition unbalanced_body (t : nat) : list cmd :=
  match t with
  | 0 => [Asap 1; Flush]
  | _ => []
  end.

(** Tasks as [runForkEffect] writes them: [suspend], work that queues more
    tasks, then [flush]. *)
Definition forking_body (t : nat) : list cmd :=
  match t with
  | 0 => [Asap 1; Suspend; Asap 2; Flush; Asap 3]
  | 1 => [Asap 3]
  | 2 => [Suspend; Raise]
  | _ => []
  end.

End Tasks.

(** ** Inputs *)

(** What is put on a channel: [undefined], or an object with a [type] and
    possibly the [SAGA_ACTION] flag. *)
Inductive atype := CHANNEL_END_TYPE | UserType (n : nat).
Record action := Action { type : atype; saga_action : bool }.
Inductive input := undefined | Obj (a : action).

Global Instance atype_eq_dec : EqDecision atype.
Proof. solve_decision. Defined.
Global Instance action_eq_dec : EqDecision action.
Proof. solve_decision. Defined.
Global Instance input_eq_dec : EqDecision input.
Proof. solve_decision. Defined.

(** [export const END = { type: CHANNEL_END_TYPE }] *)
Definition END : input := Obj (Action CHANNEL_END_TYPE false).

(** [export const isEnd = a => a && a.type === CHANNEL_END_TYPE] *)
Definition isEnd (a : input) : bool :=
  match a with
  | undefined => false
  | Obj a => bool_decide (type a = CHANNEL_END_TYPE)
  end.

(** Modelled from the spec: [is.notUndef] of [utils.js], which is not among
    the sources.  The spec lists the undefined put among the programmer
    errors that fail loudly at the call site in development mode. *)
Definition notUndef (a : input) : bool :=
  match a with
  | undefined => false
  | Obj _ => true
  end.

(** Modelled from the spec: [remove(array, item)] of [utils.js], which is not
    among the sources.  A taker's cancel removes it from the queue: one
    entry, the oldest, when the same callback was queued more than once. *)
Fixpoint remove (item : nat) (array : list nat) : list nat :=
  match array with
  | [] => []
  | x :: rest => if bool_decide (x = item) then rest else x :: remove item rest
  end.

(** ** Buffers *)

(** The interface a channel needs of its buffer.  [buf_put] gives [None]
    when the buffer throws. *)
Class Buffer (B : Type) := {
    isEmpty : B → bool;
    buf_put : B → input → option B;
    buf_take : B → input * B;
    buf_flush : B → list input * B
  }.

(** Modelled from the spec: the buffers of [buffers.js], which is not among
    the sources: [none] (size 0), [fixed n] (rejects when full),
    [dropping n] (drops the new item), [sliding n] (drops the oldest) and
    [expanding] (unbounded); [take] is first in first out, [flush] drains. *)
Inductive policy := none | fixed (n : nat) | dropping (n : nat) | sliding (n : nat) | expanding.
Record ring := Ring { overflow : policy; items : list input }.

Definition ring_put (b : ring) (v : input) : option ring :=
  match overflow b with
  | none => Some b
  | expanding => Some (Ring expanding (items b ++ [v]))
  | fixed n =>
      if bool_decide (length (items b) < n) then Some (Ring (fixed n) (items b ++ [v]))
      else None
  | dropping n =>
      if bool_decide (length (items b) < n) then Some (Ring (dropping n) (items b ++ [v]))
      else Some b
  | sliding n =>
      if bool_decide (length (items b) < n) then Some (Ring (sliding n) (items b ++ [v]))
      else Some (Ring (sliding n) (tail (items b ++ [v])))
  end.

Definition ring_take (b : ring) : input * ring :=
  match items b with
  | [] => (undefined, b)
  | v :: rest => (v, Ring (overflow b) rest)
  end.

Global Instance ring_buffer : Buffer ring := {
    isEmpty b := bool_decide (items b = []);
    buf_put := ring_put;
    buf_take := ring_take;
    buf_flush b := (items b, Ring (overflow b) [])
  }.

(** ** The single-consumer channel ([channel], [channel.js]) *)

Module Channel.

(** [closed], [takers] and [buffer] are the variables of the closure;
    [cancels] is the set of callbacks that carry the [cancel] property which
    [take] hangs on them. *)
Record chan (B : Type) := Chan {
    closed : bool;
    takers : list nat;
    buffer : B;
    cancels : gset nat
  }.
Arguments Chan {B} closed takers buffer cancels.
Arguments closed {B} c.
Arguments takers {B} c.
Arguments buffer {B} c.
Arguments cancels {B} c.

(** What a callback is called with: one input, or what [buffer.flush()]
    gave. *)
Inductive arg := One (v : input) | Many (vs : list input).

Global Instance arg_eq_dec : EqDecision arg.
Proof. solve_decision. Defined.

Definition fresh {B} (b : B) : chan B := Chan false [] b ∅.

Definition nonempty {A} (l : list A) : bool :=
  match l with [] => false | _ => true end.

Section Channel.
Context {G B L : Type} `{Buffer B} (here : lens G (chan B)).
(** [process.env.NODE_ENV === 'development'] *)
Variable dev : bool.
(** [cb(arg)]: runs user code, taken from the interpreter one step deeper. *)
Variable invoke : nat → arg → G → result G L.

(** The two tests of [checkForbiddenStates]; [true] when it throws. *)
Definition checkForbiddenStates (c : chan B) : bool :=
  (closed c && nonempty (takers c))
  || (nonempty (takers c) && negb (isEmpty (buffer c))).

Definition put (v : input) (g : G) : result G L :=
  let c := view here g in
  if checkForbiddenStates c then throw g
  else if dev && negb (notUndef v) then throw g
  else if closed c then ret g
  else match takers c with
       | [] => match buf_put (buffer c) v with
               | Some b => ret (update here (Chan (closed c) [] b (cancels c)) g)
               | None => throw g
               end
       | cb :: rest =>
           invoke cb (One v)
                  (update here (Chan (closed c) rest (buffer c) (cancels c)) g)
       end.

Definition take (cb : nat) (g : G) : result G L :=
  let c := view here g in
  if checkForbiddenStates c then throw g
  else if closed c && isEmpty (buffer c) then invoke cb (One END) g
  else if negb (isEmpty (buffer c)) then
    let '(v, b) := buf_take (buffer c) in
    invoke cb (One v) (update here (Chan (closed c) (takers c) b (cancels c)) g)
  else
    ret (update here (Chan (closed c) (takers c ++ [cb]) (buffer c)
                           (cancels c ∪ {[cb]})) g).

(** [cb.cancel()], for the [cancel] that [take] left on [cb]: it throws
  when [cb] has none. *)
Definition cancel (cb : nat) (g : G) : result G L :=
  let c := view here g in
  if bool_decide (cb ∈ cancels c) then
    ret (update here (Chan (closed c) (remove cb (takers c)) (buffer c) (cancels c)) g)
  else throw g.

Definition flush (cb : nat) (g : G) : result G L :=
  let c := view here g in
  if checkForbiddenStates c then throw g
  else if closed c && isEmpty (buffer c) then invoke cb (One END) g
  else
    let '(vs, b) := buf_flush (buffer c) in
    invoke cb (Many vs) (update here (Chan (closed c) (takers c) b (cancels c)) g).

(** The loop of [close] over [arr], the takers that were waiting. *)
Fixpoint end_all (arr : list nat) (g : G) : result G L :=
  match arr with
  | [] => ret g
  | taker :: arr' => and_then (invoke taker (One END) g) (end_all arr')
  end.

Definition close (g : G) : result G L :=
  let c := view here g in
  if checkForbiddenStates c then throw g
  else if closed c then ret g
  else
    end_all (takers c) (update here (Chan true [] (buffer c) (cancels c)) g).
End Channel.

(** The two channel invariants of the spec. *)
Definition invariant {B} `{Buffer B} (c : chan B) : Prop :=
  (closed c = true → takers c = []) ∧
  (takers c ≠ [] → isEmpty (buffer c) = true).

End Channel.

(** *** Callers of a channel *)

Module Callers.
Import Channel.

(** The calls user code can make on a channel it holds; [Raise] is user
    code that throws. *)
Inductive op :=
  | Put (v : input)
  | Take (cb : nat)
  | Flush (cb : nat)
  | Close
  | Cancel (cb : nat)
  | Raise.

Global Instance op_eq_dec : EqDecision op.
Proof. solve_decision. Defined.

(** The only event: callback [cb] called with [a]. *)
Inductive event := Call (cb : nat) (a : arg).

Global Instance event_eq_dec : EqDecision event.
Proof. solve_decision. Defined.

Definition is_flush (o : op) : bool :=
  match o with Flush _ => true | _ => false end.

Abbreviation res B := (result (chan B) event).

Section Semantics.
Context {B : Type} `{Buffer B}.
Variable dev : bool.
(** What callback [cb] does when it is called with [a]. *)
Variable react : nat → arg → list op.

Section Open.
Variable rec : op → chan B → res B.

Fixpoint script (os : list op) (c : chan B) : res B :=
  match os with
  | [] => ret c
  | o :: os' => and_then (rec o c) (script os')
  end.

Definition invoke (cb : nat) (a : arg) (c : chan B) : res B :=
  under (Call cb a) (script (react cb a) c).

Definition step (o : op) (c : chan B) : res B :=
  match o with
  | Put v => put whole dev invoke v c
  | Take cb => take whole invoke cb c
  | Flush cb => flush whole invoke cb c
  | Close => close whole invoke c
  | Cancel cb => cancel whole cb c
  | Raise => throw c
  end.
End Open.

Fixpoint run (fuel : nat) (o : op) (c : chan B) : res B :=
  match fuel with
  | 0 => out_of_fuel c
  | S f => step (run f) o c
  end.

(** Calls made from outside any callback. *)
Fixpoint run_all (fuel : nat) (ops : list op) (c : chan B) : res B :=
  match ops with
  | [] => ret c
  | o :: ops' => then_anyway (run fuel o c) (run_all fuel ops')
  end.

(** C4 as the spec words it. *)
Definition put_as_specified (fuel : nat) (v : input) (c : chan B) : Prop :=
  let r := run (S fuel) (Put v) c in
  if closed c then r = ret c
  else match takers c with
       | cb :: rest =>
           r = invoke (run fuel) cb (One v)
                      (Chan (closed c) rest (buffer c) (cancels c))
       | [] =>
           r = match buf_put (buffer c) v with
               | Some b => ret (Chan (closed c) [] b (cancels c))
               | None => throw c
               end
       end.
End Semantics.

(** A taker that takes again, one that closes the channel, and one that
    puts back what it got. *)
Definition sample_react (cb : nat) (a : arg) : list op :=
  match cb with
  | 0 => [Take 0]
  | 1 => [Close; Take 2]
  | 2 => match a with One v => [Put v; Cancel 3] | Many _ => [] end
  | _ => []
  end.

(** An open channel on which callback 0 waits, and a closed, drained one. *)
Definition waiting : chan ring := Chan false [0] (Ring expanding []) {[0]}.
Definition drained : chan ring := Chan true [] (Ring (fixed 2) []) ∅.

Definition U (n : nat) : input := Obj (Action (UserType n) false).

End Callers.

(** ** The event channel ([eventChannel], [channel.js]) *)

Module EventChannel.

(** The variable [unsubscribe]: [undefined] while [subscribe] runs, then
    what [subscribe] returned (a function or not), then that function
    wrapped by [once].

    Modelled from the spec: [once(fn)] of [utils.js], which is not among the
    sources: a wrapper that calls [fn] the first time it is called and does
    nothing afterwards.  [Once called] is the wrapper with its flag. *)
Inductive unsub := Unset | Raw (is_func : bool) | Once (called : bool).

Global Instance unsub_eq_dec : EqDecision unsub.
Proof. solve_decision. Defined.

(** [closed] and [unsubscribe] are the variables of [eventChannel]; [chan]
    is the channel it makes. *)
Record echan (B : Type) := EChan {
    closed : bool;
    unsubscribe : unsub;
    chan : Channel.chan B
  }.
Arguments EChan {B} closed unsubscribe chan.
Arguments closed {B} e.
Arguments unsubscribe {B} e.
Arguments chan {B} e.

Definition inner {B} : lens (echan B) (Channel.chan B) :=
  Lens chan (λ c e, EChan (closed e) (unsubscribe e) c).

(** The calls user code can make: the emitter handed to [subscribe], the
    three methods of the channel returned, and the [cancel] left on a
    taker. *)
Inductive op :=
  | Emit (v : input)
  | Take (cb : nat)
  | Flush (cb : nat)
  | Close
  | Cancel (cb : nat)
  | Raise.

Global Instance op_eq_dec : EqDecision op.
Proof. solve_decision. Defined.

Inductive event :=
  | Subscribe
  | Unsubscribe
  | Call (cb : nat) (a : Channel.arg).

Global Instance event_eq_dec : EqDecision event.
Proof. solve_decision. Defined.

(** The user code: what a taker does when called, what [subscribe] does and
    whether it returns a function, and what that function does. *)
Record user := User {
    react : nat → Channel.arg → list op;
    on_subscribe : list op;
    returns_function : bool;
    on_unsubscribe : list op
  }.

Abbreviation res B := (result (echan B) event).

Section Semantics.
Context {B : Type} `{Buffer B}.
Variable dev : bool.
Variable code : user.

Section Open.
Variable rec : op → echan B → res B.

Fixpoint script (os : list op) (e : echan B) : res B :=
  match os with
  | [] => ret e
  | o :: os' => and_then (rec o e) (script os')
  end.

Definition invoke (cb : nat) (a : Channel.arg) (e : echan B) : res B :=
  under (Call cb a) (script (react code cb a) e).

(** [unsubscribe()] where the variable holds a function. *)
Definition call_unsubscribe (e : echan B) : res B :=
  match unsubscribe e with
  | Raw true => under Unsubscribe (script (on_unsubscribe code) e)
  | Once false =>
    under Unsubscribe
          (script (on_unsubscribe code) (EChan (closed e) (Once true) (chan e)))
  | _ => ret e
  end.

(** [const close = () => { if (is.func(unsubscribe)) unsubscribe(); chan.close() }] *)
Definition close (e : echan B) : res B :=
  and_then (call_unsubscribe e) (Channel.close inner invoke).

(** The function handed to [subscribe]. *)
Definition emitter (v : input) (e : echan B) : res B :=
  if isEnd v then
  and_then (close e) (λ e', ret (EChan true (unsubscribe e') (chan e')))
  else Channel.put inner dev invoke v e.

Definition step (o : op) (e : echan B) : res B :=
  match o with
  | Emit v => emitter v e
  | Take cb => Channel.take inner invoke cb e
  | Flush cb => Channel.flush inner invoke cb e
  | Close => close e
  | Cancel cb => Channel.cancel inner cb e
  | Raise => throw e
  end.

(** What [subscribe] leaves: the state in which it returned. *)
Definition subscribed (buffer : B) : res B :=
  script (on_subscribe code) (EChan false Unset (Channel.fresh buffer)).

Definition eventChannel (buffer : B) : res B :=
  and_then (under Subscribe (subscribed buffer)) (λ e1,
  let e2 := EChan (closed e1) (Raw (returns_function code)) (chan e1) in
  if negb (returns_function code) then throw e2
  else
    let e3 := EChan (closed e1) (Once false) (chan e1) in
    if closed e3 then call_unsubscribe e3 else ret e3).
End Open.

Fixpoint run (fuel : nat) (o : op) (e : echan B) : res B :=
  match fuel with
  | 0 => out_of_fuel e
  | S f => step (run f) o e
  end.
End Semantics.

(** The variable [unsubscribe] holds nothing that a call could run. *)
Definition quiet (u : unsub) : Prop :=
  match u with
  | Raw true | Once false => False
  | _ => True
  end.

(** [unsubscribe] is [u]; the flag of the event channel is set if [a] is,
    and the channel inside is closed if [b] is. *)
Definition at_least {B} (u : unsub) (a b : bool) (e : echan B) : Prop :=
  unsubscribe e = u ∧
  (a = true → closed e = true) ∧
  (b = true → Channel.closed (chan e) = true).

Definition not_unsubscribe (l : event) : Prop := l ≠ Unsubscribe.

(** A source that emits one value and then the end while [subscribe] is
    still running, and whose unsubscribe function emits the end again. *)
Definition eager : user :=
  User (λ _ _, [])
       [Emit (Obj (Action (UserType 1) false)); Emit END; Emit (Obj (Action (UserType 2) false))]
       true
       [Emit END].

(** A source that emits the end while [subscribe] is still running, and
    whose unsubscribe function throws. *)
Definition sulky : user :=
  User (λ _ _, []) [Emit END] true [Raise].

End EventChannel.

(** ** Properties kept by every call *)

(** [f] keeps [I] and makes only callbacks in [E]. *)
Definition sound {G L} (I : G → Prop) (E : L → Prop) (f : G → result G L) : Prop :=
  ∀ g, I g → I (state (f g)) ∧ Forall E (everything (trace (f g))).

(** ** The multicast channel ([multicastChannel], [channel.js]) *)

Module Multicast.

(** Modelled from the spec: [matchers.wildcard] of [matcher.js], which is
    not among the sources: the pattern that accepts every input. *)
Definition wildcard : input → bool := λ _, true.

(** The second argument of [take]: left out, something that is not a
    function (proc.js passes [null] for a take without a pattern), or a
    predicate. *)
Inductive matcher := Default | NotAFunction | Matches (p : input → bool).

(** What [take] stores under [cb[MATCH]]: [None] is a value that cannot be
    called. *)
Definition compile (m : matcher) : option (input → bool) :=
  match m with
  | Default => Some wildcard
  | NotAFunction => None
  | Matches p => Some p
  end.

(** [currentTakers] and [nextTakers] hold references to arrays, and two
    variables can hold the same array: [arrays] is the store of all arrays of
    takers made so far, and the two variables are addresses in it.
    [MATCH] and [cancel_of] are the properties [cb[MATCH]] and [cb.cancel]
    of the callbacks; [cancel_of] gives the address in [onces] of a closure
    made by [once]: the callback it removes and whether it was called.

    Modelled from the spec: [once(fn)] of [utils.js], which is not among the
    sources: [fn] runs on the first call only. *)
Record mchan := MChan {
  closed : bool;
  arrays : list (list nat);
  currentTakers : nat;
  nextTakers : nat;
  MATCH : gmap nat (option (input → bool));
  cancel_of : gmap nat nat;
  onces : list (nat * bool)
}.

(** [let closed = false; let currentTakers = []; let nextTakers = currentTakers] *)
Definition initial : mchan := MChan false [[]] 0 0 ∅ ∅ [].

(** The array at address [a]. *)
Definition array (s : mchan) (a : nat) : list nat := default [] (arrays s !! a).

Definition ensureCanMutateNextTakers (s : mchan) : mchan :=
  if bool_decide (nextTakers s = currentTakers s) then
    MChan (closed s) (arrays s ++ [array s (currentTakers s)]) (currentTakers s)
          (length (arrays s)) (MATCH s) (cancel_of s) (onces s)
  else s.

(** A change in place of the array that [nextTakers] refers to. *)
Definition mutate_next (f : list nat → list nat) (s : mchan) : mchan :=
  MChan (closed s) (<[nextTakers s := f (array s (nextTakers s))]> (arrays s))
        (currentTakers s) (nextTakers s) (MATCH s) (cancel_of s) (onces s).

(** The closure [once(() => { ensureCanMutateNextTakers(); remove(nextTakers, cb) })]
    at address [k]; [None] when there is no such closure. *)
Definition call_once (k : nat) (s : mchan) : option mchan :=
  match onces s !! k with
  | None => None
  | Some (_, true) => Some s
  | Some (cb, false) =>
      let s1 := MChan (closed s) (arrays s) (currentTakers s) (nextTakers s)
                      (MATCH s) (cancel_of s) (<[k := (cb, true)]> (onces s)) in
      Some (mutate_next (remove cb) (ensureCanMutateNextTakers s1))
  end.

(** What [take] does on an open channel. *)
Definition register (cb : nat) (m : matcher) (s : mchan) : mchan :=
  let s1 := MChan (closed s) (arrays s) (currentTakers s) (nextTakers s)
                  (<[cb := compile m]> (MATCH s)) (cancel_of s) (onces s) in
  let s2 := mutate_next (λ l, l ++ [cb]) (ensureCanMutateNextTakers s1) in
  MChan (closed s2) (arrays s2) (currentTakers s2) (nextTakers s2) (MATCH s2)
        (<[cb := length (onces s2)]> (cancel_of s2)) (onces s2 ++ [(cb, false)]).

Section Multicast.
Context {G L : Type} (here : lens G mchan).
Variable dev : bool.
(** [taker(input)], which runs user code, and the next turns of the two
    [for] loops: all taken from the interpreter one step deeper. *)
Variable invoke : nat → input → G → result G L.
Variable walk_again : nat → nat → input → G → result G L.
Variable close_again : nat → nat → G → result G L.

(** [cb.cancel()], through the property: it throws when [cb] has none. *)
Definition cancel (cb : nat) (g : G) : result G L :=
  match cancel_of (view here g) !! cb with
  | None => throw g
  | Some k =>
      match call_once k (view here g) with
      | Some s => ret (update here s g)
      | None => throw g
      end
  end.

(** One test of [i < takers.length] in [close] and, when it passes, one
    turn: [taker(END)]. *)
Definition close_walk (arr i : nat) (g : G) : result G L :=
  match array (view here g) arr !! i with
  | None => ret g
  | Some taker => and_then (invoke taker END g) (close_again arr (S i))
  end.

Definition close (g : G) : result G L :=
  let s := view here g in
  let s1 := MChan true (arrays s) (nextTakers s) (nextTakers s)
                  (MATCH s) (cancel_of s) (onces s) in
  and_then (close_walk (currentTakers s1) 0 (update here s1 g)) (λ g2,
    let s2 := view here g2 in
    ret (update here (MChan (closed s2) (arrays s2 ++ [[]]) (currentTakers s2)
                            (length (arrays s2)) (MATCH s2) (cancel_of s2) (onces s2))
                g2)).

(** One test of [i < takers.length] in [put] and, when it passes, one turn:
    [if (taker[MATCH](input)) { taker.cancel(); taker(input) }]. *)
Definition walk (arr i : nat) (v : input) (g : G) : result G L :=
  match array (view here g) arr !! i with
  | None => ret g
  | Some taker =>
      match (MATCH (view here g) !! taker : option (option (input → bool))) with
      | Some (Some accepts) =>
          if accepts v then
            and_then (cancel taker g) (λ g1,
              and_then (invoke taker v g1) (walk_again arr (S i) v))
          else walk_again arr (S i) v g
      | _ => throw g
      end
  end.

Definition put (v : input) (g : G) : result G L :=
  let s := view here g in
  if dev && negb (notUndef v) then throw g
  else if closed s then ret g
  else if isEnd v then close g
  else
    let s1 := MChan (closed s) (arrays s) (nextTakers s) (nextTakers s)
                    (MATCH s) (cancel_of s) (onces s) in
    walk (currentTakers s1) 0 v (update here s1 g).

Definition take (cb : nat) (m : matcher) (g : G) : result G L :=
  let s := view here g in
  if closed s then invoke cb END g
  else ret (update here (register cb m s) g).
End Multicast.

End Multicast.

(** *** Callers of a multicast channel *)

Module Listeners.
Import Multicast.

(** The calls user code can make; [Cancel cb] is [cb.cancel()]. *)
Inductive op :=
  | Put (v : input)
  | Take (cb : nat) (m : matcher)
  | Close
  | Cancel (cb : nat)
  | Raise.

(** Callback [cb] called with [v]; and, for each call a callback makes that
    registers or removes a taker, a note of it. *)
Inductive event :=
  | Call (cb : nat) (v : input)
  | Registers (cb : nat)
  | Removes (cb : nat)
  | Other.

Global Instance event_eq_dec : EqDecision event.
Proof. solve_decision. Defined.

Definition note (o : op) : event :=
  match o with
  | Take cb _ => Registers cb
  | Cancel cb => Removes cb
  | _ => Other
  end.

Inductive jump :=
  | Do (o : op)
  | Walk (arr i : nat) (v : input)
  | CloseWalk (arr i : nat).

Abbreviation res := (result mchan event).

Section Semantics.
Variable dev : bool.
Variable react : nat → input → list op.

Section Open.
Variable rec : jump → mchan → res.

Fixpoint script (os : list op) (s : mchan) : res :=
  match os with
  | [] => ret s
  | o :: os' => and_then (under (note o) (rec (Do o) s)) (script os')
  end.

Definition invoke (cb : nat) (v : input) (s : mchan) : res :=
  under (Call cb v) (script (react cb v) s).

Definition walk_again (arr i : nat) (v : input) : mchan → res := rec (Walk arr i v).
Definition close_again (arr i : nat) : mchan → res := rec (CloseWalk arr i).

Definition step (j : jump) (s : mchan) : res :=
  match j with
  | Do (Put v) => put whole dev invoke walk_again close_again v s
  | Do (Take cb m) => take whole invoke cb m s
  | Do Close => close whole invoke close_again s
  | Do (Cancel cb) => cancel whole cb s
  | Do Raise => throw s
  | Walk arr i v => walk whole invoke walk_again arr i v s
  | CloseWalk arr i => close_walk whole invoke close_again arr i s
  end.
End Open.

Fixpoint run (fuel : nat) (j : jump) (s : mchan) : res :=
  match fuel with
  | 0 => out_of_fuel s
  | S f => step (run f) j s
  end.

(** Calls made from outside any callback. *)
Fixpoint run_all (fuel : nat) (ops : list op) (s : mchan) : res :=
  match ops with
  | [] => ret s
  | o :: ops' => then_anyway (run fuel (Do o) s) (run_all fuel ops')
  end.
End Semantics.

End Listeners.

(** *** What a put walks over *)

Module Snapshot.
Import Multicast Listeners.

(** [pattern cb] is the predicate that callback [cb] is registered with,
    every time it is registered. *)
Definition accepts (pattern : nat → option (input → bool)) (v : input) (cb : nat) : bool :=
  match pattern cb with
  | Some p => p v
  | None => false
  end.

Definition stable_op (pattern : nat → option (input → bool)) (o : op) : Prop :=
  match o with
  | Take cb m => compile m = pattern cb
  | _ => True
  end.

Definition stable_jump (pattern : nat → option (input → bool)) (j : jump) : Prop :=
  match j with
  | Do o => stable_op pattern o
  | _ => True
  end.

Definition stable (pattern : nat → option (input → bool)) (s : mchan) : Prop :=
  ∀ cb p, MATCH s !! cb = Some p → p = pattern cb.

(** The array at address [arr] holds [X], and no variable through which the
    code changes an array refers to it: [nextTakers] does not, or it refers
    to the same array as [currentTakers], in which case
    [ensureCanMutateNextTakers] copies before any change. *)
Definition keeps_snapshot (arr : nat) (X : list nat) (s : mchan) : Prop :=
  arrays s !! arr = Some X ∧ (arr = nextTakers s → nextTakers s = currentTakers s).

Definition kept (pattern : nat → option (input → bool)) (arr : nat) (X : list nat)
    (s : mchan) : Prop :=
  keeps_snapshot arr X s ∧ stable pattern s.

(** The calls a put of [v] owes to the takers in [X]. *)
Definition expected (pattern : nat → option (input → bool)) (v : input)
    (X : list nat) : list event :=
  map (λ cb, Call cb v) (filter (λ cb, accepts pattern v cb = true) X).

(** C5 as the spec words it, for a put of [v] in state [s], where each
    callback [cb] is registered under [pattern cb]. *)
Definition put_as_specified (dev : bool) (react : nat → input → list op)
    (pattern : nat → option (input → bool)) (fuel : nat) (v : input) (s : mchan) : Prop :=
  let r := run dev react (S fuel) (Do (Put v)) s in
  direct (trace r) = expected pattern v (array s (nextTakers s)) ∧
  ∀ cb, Registers cb ∈ everything (trace r) ∨ Removes cb ∈ everything (trace r) →
        Call cb v ∉ direct (trace r).

(** Callback 0, when called, cancels callback 1 and registers callback 2 and
    itself again. *)
Definition meddling (cb : nat) (v : input) : list op :=
  match cb with
  | 0 => [Cancel 1; Take 2 Default; Take 0 Default]
  | _ => []
  end.

Definition everyone (cb : nat) : option (input → bool) := Some wildcard.

Definition tick : input := Obj (Action (UserType 7) false).

(** Callbacks 0 and 1 wait on the channel. *)
Definition two_waiting : mchan :=
  state (run_all false meddling 4 [Take 0 Default; Take 1 Default] initial).

(** Callback 0, when called, registers callback 1 again, this time for
    every input. *)
Definition reregistering (cb : nat) (v : input) : list op :=
  match cb with
  | 0 => [Take 1 Default]
  | _ => []
  end.

(** The predicates at entry to the put: callback 1 waits for no input,
    the others for every input. *)
Definition refusing : input → bool := λ _, false.

Definition at_entry (cb : nat) : option (input → bool) :=
  match cb with
  | 1 => Some refusing
  | _ => Some wildcard
  end.

(** Callbacks 0 and 1 wait on the channel, callback 1 for no input. *)
Definition one_refusing : mchan :=
  state (run_all false reregistering 4 [Take 0 Default; Take 1 (Matches refusing)] initial).

End Snapshot.

(** ** The standard channel ([stdChannel], [channel.js]) *)

Module Std.

(** The closures on the scheduler's queue: [() => put(input)], made by the
    channel, and closures that user code hands to [asap] itself. *)
Inductive task := PutOf (v : input) | Closure (n : nat).

(** The program state: the scheduler and one standard channel. *)
Record world := World {
  scheduler : Scheduler.sched task;
  channel : Multicast.mchan
}.

Definition the_scheduler : lens world (Scheduler.sched task) :=
  Lens scheduler (λ s w, World s (channel w)).
Definition the_channel : lens world Multicast.mchan :=
  Lens channel (λ c w, World (scheduler w) c).

Definition initial : world := World Scheduler.initial Multicast.initial.

(** The calls user code can make: on the channel ([Put] is the [put] that
    [stdChannel] installs; the other methods are the multicast ones) and on
    the scheduler. *)
Inductive op :=
  | Put (v : input)
  | Take (cb : nat) (m : Multicast.matcher)
  | Close
  | Cancel (cb : nat)
  | Asap (n : nat)
  | Suspend
  | Flush
  | Raise.

(** Taker [cb] called with [v]; a queued closure started by the loop of
    [flush], with the semaphore the loop found. *)
Inductive event :=
  | Call (cb : nat) (v : input)
  | Begin (t : task) (sem : Z).

Inductive jump :=
  | Do (o : op)
  | Run (t : task)
  | Again
  | Walk (arr i : nat) (v : input)
  | CloseWalk (arr i : nat).

Abbreviation res := (result world event).

Section Semantics.
Variable dev : bool.
(** What taker [cb] does when called with [v], and what closure [n] does. *)
Variable react : nat → input → list op.
Variable body : nat → list op.

Section Open.
Variable rec : jump → world → res.

Fixpoint script (os : list op) (w : world) : res :=
  match os with
  | [] => ret w
  | o :: os' => and_then (rec (Do o) w) (script os')
  end.

Definition invoke (cb : nat) (v : input) (w : world) : res :=
  under (Call cb v) (script (react cb v) w).

(** [const { put } = chan]: the multicast put. *)
Definition multicast_put (v : input) (w : world) : res :=
  Multicast.put the_channel dev invoke (λ arr i v, rec (Walk arr i v))
                (λ arr i, rec (CloseWalk arr i)) v w.

Definition asap (t : task) (w : world) : res :=
  Scheduler.asap the_scheduler (λ t, rec (Run t)) (rec Again) Begin t w.

(** [chan.put = input => { if (input[SAGA_ACTION]) { put(input); return };
    asap(() => put(input)) }].  Reading a property of [undefined] throws. *)
Definition put (v : input) (w : world) : res :=
  match v with
  | undefined => throw w
  | Obj a => if saga_action a then multicast_put v w else asap (PutOf v) w
  end.

Definition step (j : jump) (w : world) : res :=
  match j with
  | Do (Put v) => put v w
  | Do (Take cb m) => Multicast.take the_channel invoke cb m w
  | Do Close =>
      Multicast.close the_channel invoke (λ arr i, rec (CloseWalk arr i)) w
  | Do (Cancel cb) => Multicast.cancel the_channel cb w
  | Do (Asap n) => asap (Closure n) w
  | Do Suspend => ret (Scheduler.suspend the_scheduler w)
  | Do Flush =>
      Scheduler.flush the_scheduler (λ t, rec (Run t)) (rec Again) Begin w
  | Do Raise => throw w
  | Run (PutOf v) => multicast_put v w
  | Run (Closure n) => script (body n) w
  | Again =>
      Scheduler.flush_loop the_scheduler (λ t, rec (Run t)) (rec Again) Begin w
  | Walk arr i v =>
      Multicast.walk the_channel invoke (λ arr i v, rec (Walk arr i v)) arr i v w
  | CloseWalk arr i =>
      Multicast.close_walk the_channel invoke (λ arr i, rec (CloseWalk arr i)) arr i w
  end.
End Open.

Fixpoint run (fuel : nat) (j : jump) (w : world) : res :=
  match fuel with
  | 0 => out_of_fuel w
  | S f => step (run f) j w
  end.

(** Whether [v] carries the flag [SAGA_ACTION]. *)
Definition flagged (v : input) : bool :=
  match v with
  | undefined => false
  | Obj a => saga_action a
  end.

(** C6 as the spec words it: a flagged input goes to the multicast put in
    the same call, any other input goes through [asap]. *)
Definition put_as_specified (fuel : nat) (v : input) (w : world) : Prop :=
  run (S fuel) (Do (Put v)) w =
  if flagged v then multicast_put (run fuel) v w else asap (run fuel) (PutOf v) w.
End Semantics.

(** The scheduler is released when the loop of [flush] starts a closure. *)
Definition released (e : event) : Prop :=
  match e with
  | Begin _ sem => sem = 0%Z
  | Call _ _ => True
  end.

(** A taker that answers every input with a put of its own and takes again. *)
Definition echo (cb : nat) (v : input) : list op :=
  [Put (Obj (Action (UserType 1) false)); Take cb Multicast.Default].

Definition idle (n : nat) : list op := [].

Definition plain : input := Obj (Action (UserType 0) false).
Definition internal : input := Obj (Action (UserType 0) true).

(** The scheduler holds one lock and callback 0 waits on the channel. *)
Definition locked : world :=
  World (Scheduler.Sched 1 [])
        (Multicast.register 0 Multicast.Default Multicast.initial).

End Std.

(** ** Completion of an effect ([digestEffect], [proc.js]) *)

Module Digest.

(** The variables of one call of [digestEffect]: the flag [effectSettled];
    whether [cb.cancel] is still the closure installed here (it is [noop]
    otherwise); what [currCb.cancel] is: [None] for [noop], [Some k] for the
    cancel logic [k] attached by the effect runner; and whether
    [crashedEffect] was set to this effect. *)
Record effect := Effect {
  effectSettled : bool;
  cb_cancel : bool;
  currCb_cancel : option nat;
  crashedEffect : bool
}.

(** The calls code outside can make: [currCb(res, isErr)]; the closure
    that [digestEffect] installed as [cb.cancel], called directly; [cb.cancel()]
    through the property; and [currCb.cancel = k], by which an effect
    runner attaches its cancel logic. *)
Inductive op :=
  | Complete (res : nat) (isErr : bool)
  | CancelInstalled
  | CancelProperty
  | Attach (k : nat)
  | Raise.

(** [Continue] is the call of the continuation [cb]; [Cancelling] marks the
    installed cancel getting past its guard, and [Downstream k] the call of
    the cancel logic [k] from there; the others are calls of the monitor and
    of [logError]. *)
Inductive event :=
  | Continue (res : nat) (isErr : bool)
  | Cancelling
  | Downstream (k : nat)
  | effectTriggered
  | effectResolved (res : nat)
  | effectRejected (res : nat)
  | effectCancelled
  | logError.

Global Instance event_eq_dec : EqDecision event.
Proof. solve_decision. Defined.

(** The code around: what the effect runner does with [currCb] before it
    returns, what the continuation does when called, and what the cancel
    logic [k] does when called. *)
Record user := User {
  runner : list op;
  on_continue : nat → bool → list op;
  on_downstream : nat → list op
}.

Abbreviation res := (result effect event).

Definition leaf (l : event) (s : effect) : res := Result s [Node l []] Returned.

Section Semantics.
(** Whether there is a [sagaMonitor]. *)
Variable monitor : bool.
Variable code : user.

Section Open.
Variable rec : op → effect → res.

Fixpoint script (os : list op) (s : effect) : res :=
  match os with
  | [] => ret s
  | o :: os' => and_then (rec o s) (script os')
  end.

Definition tell (l : event) (s : effect) : res :=
  if monitor then leaf l s else ret s.

Definition currCb (r : nat) (isErr : bool) (s : effect) : res :=
  if effectSettled s then ret s
  else
    let s1 := Effect true false (currCb_cancel s) (crashedEffect s) in
    and_then (tell (if isErr then effectRejected r else effectResolved r) s1) (λ s2,
      let s3 := Effect (effectSettled s2) (cb_cancel s2) (currCb_cancel s2)
                       (if isErr then true else crashedEffect s2) in
      under (Continue r isErr) (script (on_continue code r isErr) s3)).

(** [try { currCb.cancel() } catch (err) { logError(err) }] *)
Definition try_downstream (s : effect) : res :=
  match currCb_cancel s with
  | None => ret s
  | Some k =>
      let r := under (Downstream k) (script (on_downstream code k) s) in
      match outcome_of r with
      | Thrown => Result (state r) (trace r ++ [Node logError []]) Returned
      | _ => r
      end
  end.

(** The closure that [digestEffect] installs as [cb.cancel]. *)
Definition installed_cancel (s : effect) : res :=
  if effectSettled s then ret s
  else
    let s1 := Effect true (cb_cancel s) (currCb_cancel s) (crashedEffect s) in
    under Cancelling
      (and_then (try_downstream s1) (λ s2,
         tell effectCancelled
              (Effect (effectSettled s2) (cb_cancel s2) None (crashedEffect s2)))).

Definition step (o : op) (s : effect) : res :=
  match o with
  | Complete r isErr => currCb r isErr s
  | CancelInstalled => installed_cancel s
  | CancelProperty => if cb_cancel s then installed_cancel s else ret s
  | Attach k => ret (Effect (effectSettled s) (cb_cancel s) (Some k) (crashedEffect s))
  | Raise => throw s
  end.

(** [digestEffect]: the variables as it sets them, then the effect runner. *)
Definition digestEffect : res :=
  and_then (tell effectTriggered (Effect false true None false)) (script (runner code)).
End Open.

Fixpoint run (fuel : nat) (o : op) (s : effect) : res :=
  match fuel with
  | 0 => out_of_fuel s
  | S f => step (run f) o s
  end.

Fixpoint run_all (fuel : nat) (ops : list op) (s : effect) : res :=
  match ops with
  | [] => ret s
  | o :: ops' => then_anyway (run fuel o s) (run_all fuel ops')
  end.

(** The life of one effect: [digestEffect], then any calls made later from
    outside. *)
Definition life (fuel : nat) (later : list op) : res :=
  then_anyway (digestEffect (run fuel)) (run_all fuel later).
End Semantics.

(** The events that settle the effect. *)
Definition settles (l : event) : bool :=
  match l with
  | Continue _ _ | Cancelling => true
  | _ => false
  end.

Definition is_continue (l : event) : bool :=
  match l with
  | Continue _ _ => true
  | _ => false
  end.

Definition count (f : event → bool) (tr : list (tree event)) : nat :=
  length (filter (λ l, f l = true) (everything tr)).

(** A take-like effect: the runner attaches cancel logic 1 and returns; when
    the cancel logic runs it still tries to complete, and the continuation,
    when called, tries to cancel and to complete again. *)
Definition pending : user :=
  User [Attach 1]
       (λ _ _, [CancelProperty; CancelInstalled; Complete 9 false])
       (λ _, [Complete 3 false; Raise]).

Definition settled_one : effect := Effect true false None false.

(** [r] kept the effect settled and made no call that settles. *)
Definition silent (r : res) : Prop :=
  effectSettled (state r) = true ∧ count settles (trace r) = 0.

(** [r] settled the effect at most once, and left it settled if it did, or
    if it was. *)
Definition once_at_most (s : effect) (r : res) : Prop :=
  count settles (trace r) ≤ 1 ∧
  (count settles (trace r) = 1 ∨ effectSettled s = true → effectSettled (state r) = true).

End Digest.

(** ** The fork queue ([forkQueue], [proc.js]) *)

(** What a task ends with, or a continuation is called with. *)
Inductive value := undef | TASK_CANCEL | Val (n : nat).

Global Instance value_eq_dec : EqDecision value.
Proof. solve_decision. Defined.

Module ForkQueue.

(** [tasks], [result] (here [queue_result]) and [completed] are the
    variables of the closure;
    [live] is the set of tasks whose [cont] property is the continuation
    that [addTask] installed (it is [noop] for the others). *)
Record fq := FQ {
  tasks : list nat;
  queue_result : value;
  completed : bool;
  live : gset nat
}.

(** The main task, among the task identities. *)
Definition mainTask : nat := 0.

Definition silence (t : nat) (q : fq) : fq :=
  FQ (tasks q) (queue_result q) (completed q) (live q ∖ {[t]}).

Section ForkQueue.
Context {G L : Type} (here : lens G fq).
(** [t.cancel()], and the two callbacks the queue is made with. *)
Variable cancel_member : nat → G → result G L.
Variable onAbort : G → result G L.
Variable cb : value → bool → G → result G L.

Definition addTask (t : nat) (g : G) : result G L :=
  ret (over here (λ q, FQ (tasks q ++ [t]) (queue_result q) (completed q) (live q ∪ {[t]})) g).

(** [tasks.forEach(t => { t.cont = noop; t.cancel() })] from index [k], for
    [n] more indices: [forEach] fixes the range when it starts and reads
    the array at each step. *)
Fixpoint cancel_each (n k : nat) (g : G) : result G L :=
  match n with
  | 0 => ret g
  | S n' =>
      match tasks (view here g) !! k with
      | Some t =>
          and_then (cancel_member t (over here (silence t) g)) (cancel_each n' (S k))
      | None => cancel_each n' (S k) g
      end
  end.

Definition cancelAll (g : G) : result G L :=
  let q := view here g in
  if completed q then ret g
  else
    and_then (cancel_each (length (tasks q)) 0
                (update here (FQ (tasks q) (queue_result q) true (live q)) g))
             (λ g', ret (over here (λ q', FQ [] (queue_result q') (completed q') (live q')) g')).

Definition abort (err : value) (g : G) : result G L :=
  and_then (onAbort g) (λ g1, and_then (cancelAll g1) (cb err true)).

(** The continuation that [addTask] installs on [t]. *)
Definition continuation (t : nat) (res : value) (isErr : bool) (g : G) : result G L :=
  let q := view here g in
  if completed q then ret g
  else
    let q1 := FQ (remove t (tasks q)) (queue_result q) (completed q) (live q ∖ {[t]}) in
    if isErr then abort res (update here q1 g)
    else
      let q2 := FQ (tasks q1) (if bool_decide (t = mainTask) then res else queue_result q1)
                   (completed q1) (live q1) in
      match tasks q2 with
      | [] => cb (queue_result q2) false
                 (update here (FQ (tasks q2) (queue_result q2) true (live q2)) g)
      | _ => ret (update here q2 g)
      end.

(** [t.cont(res, isErr)], through the property. *)
Definition cont (t : nat) (res : value) (isErr : bool) (g : G) : result G L :=
  if bool_decide (t ∈ live (view here g)) then continuation t res isErr g else ret g.
End ForkQueue.

End ForkQueue.

(** ** A running procedure: its task and its queue ([proc], [proc.js]) *)

Module Proc.
Import ForkQueue.

(** [iterator._isRunning] and the other flags and results that [proc]
    keeps on the iterator; the list [cancelledDueToErrorTasks]; the array
    [task.joiners] with a flag for the property having been set to [null];
    and whether [iterator._deferredEnd] was made. *)
Record proc := Proc {
  queue : fq;
  cancelledDueToErrorTasks : list nat;
  isRunning : bool;
  isCancelled : bool;
  isAborted : bool;
  task_result : value;
  task_error : value;
  joiners : list nat;
  joiners_null : bool;
  deferredEnd : bool
}.

Definition the_queue : lens proc fq :=
  Lens queue (λ q p, Proc q (cancelledDueToErrorTasks p) (isRunning p) (isCancelled p)
                          (isAborted p) (task_result p) (task_error p) (joiners p)
                          (joiners_null p) (deferredEnd p)).

(** The procedure as [proc] starts it: the queue holds the main task. *)
Definition started : proc :=
  Proc (FQ [mainTask] undef false {[mainTask]}) [] true false false undef undef [] false false.

(** The calls code outside can make on a procedure: a member ends
    ([t.cont(res, isErr)]); [runForkEffect] adds a child or reports one that
    failed at once; [task.cancel()]; a join on the task and its cancel;
    [task.toPromise()]. *)
Inductive op :=
  | Cont (t : nat) (res : value) (isErr : bool)
  | AddTask (t : nat)
  | Abort (err : value)
  | Cancel
  | Join (j : nat)
  | Unjoin (j : nat)
  | ToPromise
  | Raise.

(** Calls of code outside: [t.cancel()], [task.cont], a joiner's callback,
    the error sinks and the promise; and three marks: the queue calling
    [onAbort], the queue calling its continuation, which is [end], and
    [cancel] getting past its guard. *)
Inductive event :=
  | CancelMember (t : nat)
  | OnAbort
  | Ended (res : value) (isErr : bool)
  | Propagate
  | Continuation (res : value) (isErr : bool)
  | Joiner (j : nat) (res : value) (isErr : bool)
  | onError (err : value)
  | logError (err : value)
  | Resolved (res : value)
  | Rejected (err : value).

Global Instance event_eq_dec : EqDecision event.
Proof. solve_decision. Defined.

(** The code around: what cancelling member [t] does, what the parent's
    continuation does, and what a joiner does when it is called. *)
Record user := User {
  on_cancel : nat → list op;
  on_continuation : value → bool → list op;
  on_joiner : nat → value → bool → list op
}.

Abbreviation res := (result proc event).

Definition leaf (l : event) (p : proc) : res := Result p [Node l []] Returned.

Section Semantics.
(** [meta.name] of each task; whether the procedure was given a
    continuation [cont]; whether the options hold an [onError]. *)
Variable name : nat → nat.
Variable has_cont : bool.
Variable has_onError : bool.
Variable code : user.

Section Open.
Variable rec : op → proc → res.

Fixpoint script (os : list op) (p : proc) : res :=
  match os with
  | [] => ret p
  | o :: os' => and_then (rec o p) (script os')
  end.

Definition cancel_member (t : nat) (p : proc) : res :=
  under (CancelMember t) (script (on_cancel code t) p).

(** [cancelledDueToErrorTasks.push(...taskQueue.getTaskNames())] *)
Definition onAbort (p : proc) : res :=
  leaf OnAbort
       (Proc (queue p) (cancelledDueToErrorTasks p ++ map name (tasks (queue p)))
             (isRunning p) (isCancelled p) (isAborted p) (task_result p) (task_error p)
             (joiners p) (joiners_null p) (deferredEnd p)).

(** [task.joiners.forEach(j => j.cb(result, isErr))] from index [k], for [n]
    more indices. *)
Fixpoint each_joiner (r : value) (isErr : bool) (n k : nat) (p : proc) : res :=
  match n with
  | 0 => ret p
  | S n' =>
      match joiners p !! k with
      | Some j =>
          and_then (under (Joiner j r isErr) (script (on_joiner code j r isErr) p))
                   (each_joiner r isErr n' (S k))
      | None => each_joiner r isErr n' (S k) p
      end
  end.

Definition settle (l : event) (p : proc) : res :=
  if deferredEnd p then leaf l p else ret p.

(** [end(result, isErr)] *)
Definition end_ (r : value) (isErr : bool) (p : proc) : res :=
  let p1 := Proc (queue p) (cancelledDueToErrorTasks p) false (isCancelled p)
                 (isAborted p) (task_result p) (task_error p) (joiners p)
                 (joiners_null p) (deferredEnd p) in
  and_then
    (if isErr then
       and_then (if has_cont then ret p1
                 else leaf (if has_onError then onError r else logError r) p1)
         (λ p2, settle (Rejected r)
                  (Proc (queue p2) (cancelledDueToErrorTasks p2) (isRunning p2)
                        (isCancelled p2) true (task_result p2) r (joiners p2)
                        (joiners_null p2) (deferredEnd p2)))
     else
       settle (Resolved r)
              (Proc (queue p1) (cancelledDueToErrorTasks p1) (isRunning p1)
                    (isCancelled p1) (isAborted p1) r (task_error p1) (joiners p1)
                    (joiners_null p1) (deferredEnd p1)))
    (λ p3,
       and_then (if has_cont then
                   under (Continuation r isErr) (script (on_continuation code r isErr) p3)
                 else ret p3)
         (λ p4,
            if joiners_null p4 then throw p4
            else
              and_then (each_joiner r isErr (length (joiners p4)) 0 p4)
                (λ p5, ret (Proc (queue p5) (cancelledDueToErrorTasks p5) (isRunning p5)
                                 (isCancelled p5) (isAborted p5) (task_result p5)
                                 (task_error p5) (joiners p5) true (deferredEnd p5))))).

(** The continuation the queue is made with. *)
Definition queue_cb (r : value) (isErr : bool) (p : proc) : res :=
  under (Ended r isErr) (end_ r isErr p).

Definition cancel (p : proc) : res :=
  if isRunning p && negb (isCancelled p) then
    under Propagate
      (and_then
         (cancelAll the_queue cancel_member
            (Proc (queue p) (cancelledDueToErrorTasks p) (isRunning p) true (isAborted p)
                  (task_result p) (task_error p) (joiners p) (joiners_null p)
                  (deferredEnd p)))
         (queue_cb TASK_CANCEL false))
  else ret p.

(** [runJoinEffect] on this task, for the joiner [j]. *)
Definition join (j : nat) (p : proc) : res :=
  if isRunning p then
    ret (Proc (queue p) (cancelledDueToErrorTasks p) (isRunning p) (isCancelled p)
              (isAborted p) (task_result p) (task_error p) (joiners p ++ [j])
              (joiners_null p) (deferredEnd p))
  else if isAborted p then
    under (Joiner j (task_error p) true) (script (on_joiner code j (task_error p) true) p)
  else
    under (Joiner j (task_result p) false) (script (on_joiner code j (task_result p) false) p).

(** The [cancel] that [runJoinEffect] leaves on the joiner's callback:
    [remove(t.joiners, joiner)], which throws once [joiners] is [null]. *)
Definition unjoin (j : nat) (p : proc) : res :=
  if joiners_null p then throw p
  else
    ret (Proc (queue p) (cancelledDueToErrorTasks p) (isRunning p) (isCancelled p)
              (isAborted p) (task_result p) (task_error p) (remove j (joiners p))
              (joiners_null p) (deferredEnd p)).

Definition toPromise (p : proc) : res :=
  if deferredEnd p then ret p
  else
    let p1 := Proc (queue p) (cancelledDueToErrorTasks p) (isRunning p) (isCancelled p)
                   (isAborted p) (task_result p) (task_error p) (joiners p)
                   (joiners_null p) true in
    if isRunning p1 then ret p1
    else if isAborted p1 then leaf (Rejected (task_error p1)) p1
    else leaf (Resolved (task_result p1)) p1.

Definition step (o : op) (p : proc) : res :=
  match o with
  | Cont t r isErr => cont the_queue cancel_member onAbort queue_cb t r isErr p
  | AddTask t => addTask the_queue t p
  | Abort err => abort the_queue cancel_member onAbort queue_cb err p
  | Cancel => cancel p
  | Join j => join j p
  | Unjoin j => unjoin j p
  | ToPromise => toPromise p
  | Raise => throw p
  end.
End Open.

Fixpoint run (fuel : nat) (o : op) (p : proc) : res :=
  match fuel with
  | 0 => out_of_fuel p
  | S f => step (run f) o p
  end.

Fixpoint run_all (fuel : nat) (ops : list op) (p : proc) : res :=
  match ops with
  | [] => ret p
  | o :: ops' => then_anyway (run fuel o p) (run_all fuel ops')
  end.
End Semantics.

(** The task is over or cancelled: [cancel] does not get past its guard. *)
Definition dead (p : proc) : Prop := isRunning p = false ∨ isCancelled p = true.

Definition propagations (tr : list (tree event)) : nat :=
  length (filter (λ l, l = Propagate) (everything tr)).

(** The queue has completed and its array still begins with [T]. *)
Definition sealed (T : list nat) (p : proc) : Prop :=
  completed (queue p) = true ∧ T `prefix_of` tasks (queue p).

(** A parent with two children; child 2, when cancelled, has the parent
    fork once more and ends itself; the continuation cancels again, and
    joiner 7 joins again as joiner 9. *)
Definition family : user :=
  User (λ t, match t with 2 => [AddTask 3; Cont 2 TASK_CANCEL false] | _ => [] end)
       (λ _ _, [Cancel])
       (λ j _ _, match j with 7 => [Join 9] | _ => [] end).

Definition with_children : proc :=
  Proc (FQ [mainTask; 1; 2] undef false {[mainTask; 1; 2]}) [] true false false
       undef undef [7] false false.

End Proc.

(** *** What calls on a procedure keep *)

Module Later.
Import ForkQueue Proc.

(** [p'] is a state after [p]: a queue that was completed is still, and its
    array has only grown; the list of recorded names has only grown; a task
    that was over or cancelled still is. *)
Definition later (p p' : proc) : Prop :=
  (completed (queue p) = true →
   completed (queue p') = true ∧ tasks (queue p) `prefix_of` tasks (queue p')) ∧
  cancelledDueToErrorTasks p `prefix_of` cancelledDueToErrorTasks p' ∧
  (dead p → dead p').

(** [r] goes to a later state and gets [cancel] past its guard at most
    once, and not at all if the task was over or cancelled; if it does, the
    task is over or cancelled afterwards. *)
Definition good (p : proc) (r : res) : Prop :=
  later p (state r) ∧
  propagations (trace r) ≤ 1 ∧
  (dead p → propagations (trace r) = 0) ∧
  (propagations (trace r) = 1 → dead (state r)).

End Later.

(** ** Order of the queued tasks *)

Module Fifo.
Import Scheduler Tasks.

(** The tasks handed to [asap], and the tasks started by the loop of
    [flush], in the order of the calls. *)
Definition asapped (l : event) : list nat :=
  match l with Called (Asap t) _ => [t] | _ => [] end.
Definition begun (l : event) : list nat :=
  match l with Begin t _ => [t] | _ => [] end.

Definition asaps (tr : list (tree event)) : list nat := flat_map asapped (everything tr).
Definition begins (tr : list (tree event)) : list nat := flat_map begun (everything tr).
Arguments asaps : simpl never.
Arguments begins : simpl never.

(** [r], a run from [s], started the tasks from the head of the queue,
    with the tasks it queued behind. *)
Definition in_order (s : st) (r : res) : Prop :=
  queue s ++ asaps (trace r) = begins (trace r) ++ queue (state r).

(** A task that takes and releases no lock of its own: it only queues
    tasks, and may throw. *)
Definition plain (cs : list cmd) : bool :=
  forallb (λ c, match c with Asap _ | Raise => true | _ => false end) cs.

(** [r], a run from [s] that ended, left the semaphore as it found it. *)
Definition steady (s : st) (r : res) : Prop :=
  outcome_of r ≠ OutOfFuel → semaphore (state r) = semaphore s.

(** [r] did not return with the scheduler released and tasks waiting. *)
Definition drained (r : res) : Prop :=
  outcome_of r = Returned → semaphore (state r) = 0%Z → queue (state r) = [].

(** Task 0 queues task 1 and throws; task 1 queues task 2. *)
Definition failing_body (t : nat) : list cmd :=
  match t with
  | 0 => [Asap 1; Raise]
  | 1 => [Asap 2]
  | _ => []
  end.

End Fifo.

(** *** Callers that give a channel no reason to throw *)

Module Gentle.
Import Channel Callers.

(** Calls that are no programmer error: no [undefined] put in development
    mode, and [cancel] only on the callbacks of [K], which carry one. *)
Definition gentle (dev : bool) (K : gset nat) (o : op) : Prop :=
  match o with
  | Put v => dev = false ∨ v ≠ undefined
  | Take _ | Flush _ | Close => True
  | Cancel cb => cb ∈ K
  | Raise => False
  end.

(** [Good] holds of buffers that never refuse an input and stay empty when
    they are flushed empty, and it is kept by the buffer's operations. *)
Definition accepting {B} `{Buffer B} (Good : B → Prop) : Prop :=
  ∀ b, Good b →
    (∀ v, ∃ b', buf_put b v = Some b' ∧ Good b') ∧
    Good (buf_take b).2 ∧ Good (buf_flush b).2 ∧
    (isEmpty b = true → isEmpty (buf_flush b).2 = true).

Definition at_ease {B} `{Buffer B} (Good : B → Prop) (K : gset nat) (c : chan B) : Prop :=
  invariant c ∧ K ⊆ cancels c ∧ Good (buffer c).

(** [rec] keeps the channel at ease and does not throw. *)
Definition safe {B} `{Buffer B} (dev : bool) (Good : B → Prop) (K : gset nat)
    (rec : op → chan B → res B) : Prop :=
  ∀ o c, gentle dev K o → at_ease Good K c →
         at_ease Good K (state (rec o c)) ∧ outcome_of (rec o c) ≠ Thrown.

(** The buffers of [ring] other than the fixed ones. *)
Definition unbounded (b : ring) : Prop :=
  match overflow b with fixed _ => False | _ => True end.

(** The [END] callbacks that [close] owes to the takers [ts]. *)
Definition ends (ts : list nat) : list event := map (λ t, Call t (One END)) ts.

(** Taker 3, when called, puts and flushes with callback 5; taker 4 takes
    again with callback 6. *)
Definition busy (cb : nat) (a : arg) : list op :=
  match cb with
  | 3 => [Put (U 1); Flush 5]
  | 4 => [Take 6]
  | _ => []
  end.

(** Callbacks 3 and 4 wait on an open channel. *)
Definition two_takers : chan ring := Chan false [3; 4] (Ring (sliding 2) []) {[3; 4]}.

End Gentle.

(** ** Counting callbacks against a budget *)

(** The callbacks of a call tree, weighed by [w]. *)
Definition weight {L} (w : L → nat) (tr : list (tree L)) : nat :=
  sum_list_with w (everything tr).
Arguments weight : simpl never.

(** [f] keeps [I], and the callbacks it makes are paid for by the budget
    [m] of the state: what they weigh and what is left after the call is
    no more than what there was before it. *)
Definition paid {G L} (I : G → Prop) (m : G → nat) (w : L → nat)
    (f : G → result G L) : Prop :=
  ∀ g, I g → I (state (f g)) ∧ weight w (trace (f g)) + m (state (f g)) ≤ m g.

(** *** The life of an event channel *)

Module Subscription.
Import EventChannel.

Section Semantics.
Context {B : Type} `{Buffer B}.
Variable dev : bool.
Variable code : user.

(** Calls made from outside any callback. *)
Fixpoint run_all (fuel : nat) (ops : list op) (e : echan B) : res B :=
  match ops with
  | [] => ret e
  | o :: ops' => then_anyway (run dev code fuel o e) (run_all fuel ops')
  end.

(** [eventChannel(subscribe, buffer)], then any calls made later. *)
Definition life (fuel : nat) (buffer : B) (later : list op) : res B :=
  then_anyway (eventChannel code (run dev code fuel) buffer) (run_all fuel later).
End Semantics.

Definition unsubscribing (l : event) : nat :=
  match l with Unsubscribe => 1 | _ => 0 end.

(** The calls of the function that [subscribe] returned. *)
Definition unsubscribes (tr : list (tree event)) : nat := weight unsubscribing tr.

(** The calls of that function still to come: one while the variable holds
    the [once] wrapper and it was not called. *)
Definition owed {B} (e : echan B) : nat :=
  match unsubscribe e with Once false => 1 | _ => 0 end.

(** No user code runs while the variable holds the bare function. *)
Definition wrapped {B} (e : echan B) : Prop := unsubscribe e ≠ Raw true.

(** A source that emits a value while [subscribe] runs; the taker of the
    channel closes it when called, and the unsubscribe function closes it
    again. *)
Definition closing : user :=
  User (λ _ _, [Close])
       [Emit (Obj (Action (UserType 1) false))]
       true
       [Close; Emit END].

End Subscription.

(** *** What a close walks over *)

Module Broadcast.
Import Multicast Listeners Snapshot.

(** The array at [arr] holds [X] and is not changed in place; and the
    channel is closed if it was ([was] is the flag before). *)
Definition held (arr : nat) (X : list nat) (was : bool) (s : mchan) : Prop :=
  keeps_snapshot arr X s ∧ (was = true → closed s = true).

(** The [END] callbacks that [close] owes to the takers [X]. *)
Definition farewells (X : list nat) : list event := map (λ cb, Call cb END) X.

(** The takers that are waiting: the array that [nextTakers] refers to. *)
Definition waiting (s : mchan) : list nat := array s (nextTakers s).

(** Callback 0, when it is called, cancels callback 1 and takes with
    callback 2; callback 1 closes the channel once more. *)
Definition restless (cb : nat) (v : input) : list op :=
  match cb with
  | 0 => [Cancel 1; Take 2 Default]
  | 1 => [Close]
  | _ => []
  end.

(** Callback 1 is registered the way [runTakeEffect] registers a take
    without a pattern: with [null] for a matcher. *)
Definition with_null : mchan :=
  state (run_all false (λ _ _, []) 4 [Take 0 Default; Take 1 NotAFunction] initial).

Definition null_for_1 (cb : nat) : option (input → bool) :=
  match cb with 1 => None | _ => Some wildcard end.

End Broadcast.

(** *** Takers that wait once *)

Module OneShot.
Import Multicast Listeners Snapshot Broadcast.

(** Whether the predicate stored on [cb] accepts [v]. *)
Definition matches (s : mchan) (v : input) (cb : nat) : bool :=
  match (MATCH s !! cb : option (option (input → bool))) with
  | Some (Some p) => p v
  | _ => false
  end.

(** Taker [cb] is registered and was not cancelled: it carries a predicate,
    and its [cancel] is a [once] closure for [cb] that was not called. *)
Definition armed (s : mchan) (cb : nat) : Prop :=
  (∃ p, MATCH s !! cb = Some (Some p)) ∧
  ∃ k, cancel_of s !! cb = Some k ∧ onces s !! k = Some (cb, false).

(** The takers [X] wait, each registered once. *)
Definition tidy (s : mchan) (X : list nat) : Prop :=
  arrays s !! nextTakers s = Some X ∧ NoDup X ∧ ∀ cb, cb ∈ X → armed s cb.

(** The state of the loop of [put] over the array at [arr], which holds
    [X], at index [i], for an input [v] that the predicates of the takers in
    [acc] accept: the takers passed that accepted the input are gone from the
    waiting ones, and the takers to come are armed. *)
Definition walking (acc : nat → bool) (v : input) (arr : nat) (X : list nat) (i : nat)
    (s : mchan) : Prop :=
  keeps_snapshot arr X s ∧
  nextTakers s < length (arrays s) ∧
  waiting s = filter (λ cb, acc cb = false) (firstn i X) ++ drop i X ∧
  ∀ cb, cb ∈ drop i X → armed s cb ∧ matches s v cb = acc cb.

(** Callbacks that call nothing back. *)
Definition inert (cb : nat) (v : input) : list op := [].

(** Three takers: 0 and 2 wait for inputs of type 7, 1 for inputs of type
    8. *)
Definition of_type (n : nat) : matcher :=
  Matches (λ v, match v with
                | Obj a => bool_decide (type a = UserType n)
                | undefined => false
                end).

Definition three_waiting : mchan :=
  state (run_all false inert 4
           [Take 0 (of_type 7); Take 1 (of_type 8); Take 2 (of_type 7)] initial).

End OneShot.

(** ** States that only move forward *)

(** [f] takes every state to one that [R] relates it to; [R] is meant to be
    a preorder: what was settled stays settled. *)
Definition advances {G L} (R : G → G → Prop) (f : G → result G L) : Prop :=
  ∀ g, R g (state (f g)).

(** ** Effects run together ([runAllEffect] and [runRaceEffect], [proc.js]) *)

Module Parallel.

(** What a child effect completes with: a plain value, the [END] action
    (for which [isEnd] holds), or one of the two objects [CHANNEL_END] and
    [TASK_CANCEL]. *)
Inductive answer := Plain (n : nat) | AnEnd | CHANNEL_END | A_TASK_CANCEL.

Global Instance answer_eq_dec : EqDecision answer.
Proof. solve_decision. Defined.

(** [isEnd(res) || res === CHANNEL_END || res === TASK_CANCEL] *)
Definition stops (a : answer) : bool :=
  match a with Plain _ => false | _ => true end.

(** The variables of one call of [digestEffect] for the child at a key:
    [effectSettled]; whether [childCbs[key].cancel] is the closure that
    [digestEffect] installed ([noop] otherwise); and [currCb.cancel]: [None]
    for [noop], [Some k] for the cancel logic [k] attached by the effect
    runner. *)
Record child := Child {
  effectSettled : bool;
  installed : bool;
  attached : option nat
}.

(** The variables of one call of [runAllEffect] or [runRaceEffect]:
    [completedCount] (not used by a race), [completed], [results] (a race
    has the single [response]), the children digested so far, whether
    [cb.cancel] is the closure set here ([noop] otherwise), and the variable
    [crashedEffect] of [proc]. *)
Record par := Par {
  completedCount : nat;
  completed : bool;
  results : gmap nat answer;
  children : gmap nat child;
  cb_cancel : bool;
  crashedEffect : option nat
}.

(** The state before the call: [cb.cancel] is the [noop] that the
    [digestEffect] of the parent effect left. *)
Definition before : par := Par 0 false ∅ ∅ false None.

(** The calls code outside can make: the completion callback [currCb] that
    the child at [key] was run with; [currCb.cancel = k] on it; and what the
    [digestEffect] of the effect itself does to cancel it:
    [try { currCb.cancel() } catch (err) { logError(err) }] followed by
    [currCb.cancel = noop]. *)
Inductive op :=
  | Complete (key : nat) (res : answer) (isErr : bool)
  | Attach (key k : nat)
  | CancelIt
  | Raise.

(** Calls of code outside: the continuation [cb], with an answer passed on
    or with the results; the effect runner of a child; the cancel logic
    attached by one; the monitor and [logError].  And two marks: the
    completion of the child at [key] getting past the guard of
    [digestEffect], and the [cancel] set on [cb] getting past its guard. *)
Inductive event :=
  | Passed (res : answer) (isErr : bool)
  | Gathered (results : gmap nat answer)
  | Runner (key : nat)
  | Downstream (key k : nat)
  | Settled (key : nat) (res : answer) (isErr : bool)
  | CancelledAll
  | effectTriggered (key : nat)
  | effectResolved (key : nat) (res : answer)
  | effectRejected (key : nat) (res : answer)
  | effectCancelled (key : nat)
  | logError.

Global Instance event_eq_dec : EqDecision event.
Proof. solve_decision. Defined.

(** The code around: what the effect runner of the child at [key] does
    before it returns, what the continuation does when called (with an
    answer passed on, or with the results), and what the cancel logic [k]
    of a child does when called. *)
Record user := User {
  runner : nat → list op;
  on_passed : answer → bool → list op;
  on_gathered : gmap nat answer → list op;
  on_downstream : nat → nat → list op
}.

Abbreviation res := (result par event).

Definition leaf (l : event) (s : par) : res := Result s [Node l []] Returned.

Definition with_child (key : nat) (c : child) (s : par) : par :=
  Par (completedCount s) (completed s) (results s) (<[key := c]> (children s))
      (cb_cancel s) (crashedEffect s).

Definition with_completed (b : bool) (s : par) : par :=
  Par (completedCount s) b (results s) (children s) (cb_cancel s) (crashedEffect s).

Section Semantics.
(** Whether it is a race; whether there is a [sagaMonitor]; the keys of
    the effects, in the order of [Object.keys]. *)
Variable race : bool.
Variable monitor : bool.
Variable keys : list nat.
Variable code : user.

Section Open.
Variable rec : op → par → res.

Fixpoint script (os : list op) (s : par) : res :=
  match os with
  | [] => ret s
  | o :: os' => and_then (rec o s) (script os')
  end.

Definition tell (l : event) (s : par) : res :=
  if monitor then leaf l s else ret s.

(** [cb(res, isErr)] and [cb(results)] *)
Definition pass (a : answer) (isErr : bool) (s : par) : res :=
  under (Passed a isErr) (script (on_passed code a isErr) s).
Definition gather (m : gmap nat answer) (s : par) : res :=
  under (Gathered m) (script (on_gathered code m) s).

(** The closure that [digestEffect] installs as [childCbs[key].cancel]. *)
Definition child_cancel (key : nat) (c : child) (s : par) : res :=
  if effectSettled c then ret s
  else
    let s1 := with_child key (Child true (installed c) (attached c)) s in
    let r := match attached c with
             | None => ret s1
             | Some k =>
                 let d := under (Downstream key k) (script (on_downstream code key k) s1) in
                 match outcome_of d with
                 | Thrown => Result (state d) (trace d ++ [Node logError []]) Returned
                 | _ => d
                 end
             end in
    and_then r (λ s2,
      tell (effectCancelled key)
           (match children s2 !! key with
            | Some c2 => with_child key (Child (effectSettled c2) (installed c2) None) s2
            | None => s2
            end)).

(** [childCbs[key].cancel()], through the property. *)
Definition cancel_child (key : nat) (s : par) : res :=
  match children s !! key with
  | Some c => if installed c then child_cancel key c s else ret s
  | None => ret s
  end.

(** [keys.forEach(key => childCbs[key].cancel())] *)
Fixpoint cancel_children (ks : list nat) (s : par) : res :=
  match ks with
  | [] => ret s
  | key :: ks' => and_then (cancel_child key s) (cancel_children ks')
  end.

(** The closure set as [cb.cancel]. *)
Definition cancel_all (s : par) : res :=
  if completed s then ret s
  else under CancelledAll (cancel_children keys (with_completed true s)).

(** [cb.cancel()], through the property. *)
Definition cb_dot_cancel (s : par) : res :=
  if cb_cancel s then cancel_all s else ret s.

(** [chCbAtKey(res, isErr)] of [runAllEffect]. *)
Definition all_child_done (key : nat) (a : answer) (isErr : bool) (s : par) : res :=
  if completed s then ret s
  else if isErr || stops a then and_then (cb_dot_cancel s) (pass a isErr)
  else
    let s1 := Par (S (completedCount s)) (completed s) (<[key := a]> (results s))
                  (children s) (cb_cancel s) (crashedEffect s) in
    if bool_decide (completedCount s1 = length keys) then
      gather (results s1) (with_completed true s1)
    else ret s1.

(** [chCbAtKey(res, isErr)] of [runRaceEffect]. *)
Definition race_child_done (key : nat) (a : answer) (isErr : bool) (s : par) : res :=
  if completed s then ret s
  else if isErr then and_then (cb_dot_cancel s) (pass a true)
  else if negb (stops a) then
    and_then (cb_dot_cancel s) (λ s1, gather {[key := a]} (with_completed true s1))
  else ret s.

(** The [currCb] that [digestEffect] makes for the child at [key].  Before
    the child is digested there is no such callback: code that calls it
    throws. *)
Definition currCb (key : nat) (a : answer) (isErr : bool) (s : par) : res :=
  match children s !! key with
  | None => throw s
  | Some c =>
      if effectSettled c then ret s
      else
        let s1 := with_child key (Child true false (attached c)) s in
        under (Settled key a isErr)
          (and_then (tell (if isErr then effectRejected key a else effectResolved key a) s1)
             (λ s2,
                let s3 := Par (completedCount s2) (completed s2) (results s2) (children s2)
                              (cb_cancel s2)
                              (if isErr then Some key else crashedEffect s2) in
                if race then race_child_done key a isErr s3
                else all_child_done key a isErr s3))
  end.

Definition step (o : op) (s : par) : res :=
  match o with
  | Complete key a isErr => currCb key a isErr s
  | Attach key k =>
      match children s !! key with
      | Some c => ret (with_child key (Child (effectSettled c) (installed c) (Some k)) s)
      | None => throw s
      end
  | CancelIt =>
      let r := cb_dot_cancel s in
      let s1 := state r in
      let off := Par (completedCount s1) (completed s1) (results s1) (children s1) false
                     (crashedEffect s1) in
      match outcome_of r with
      | OutOfFuel => r
      | Thrown => Result off (trace r ++ [Node logError []]) Returned
      | Returned => Result off (trace r) Returned
      end
  | Raise => throw s
  end.

(** [digestEffect(effects[key], effectId, key, childCbs[key])] *)
Definition digest_child (key : nat) (s : par) : res :=
  and_then (tell (effectTriggered key) s) (λ s1,
    under (Runner key) (script (runner code key) (with_child key (Child false true None) s1))).

(** The last [forEach] of [runAllEffect], and that of [runRaceEffect], which
    skips the keys left once the race is over. *)
Fixpoint digest_children (ks : list nat) (s : par) : res :=
  match ks with
  | [] => ret s
  | key :: ks' =>
      if race && completed s then digest_children ks' s
      else and_then (digest_child key s) (digest_children ks')
  end.

(** [runAllEffect(effects, effectId, cb)] and [runRaceEffect]: only the
    first returns at once when there are no keys. *)
Definition run_effect (s : par) : res :=
  let s0 := Par 0 false ∅ ∅ (cb_cancel s) (crashedEffect s) in
  if negb race && bool_decide (keys = []) then gather ∅ s0
  else
    digest_children keys
      (Par (completedCount s0) (completed s0) (results s0) (children s0) true
           (crashedEffect s0)).
End Open.

Fixpoint run (fuel : nat) (o : op) (s : par) : res :=
  match fuel with
  | 0 => out_of_fuel s
  | S f => step (run f) o s
  end.

Fixpoint run_all (fuel : nat) (ops : list op) (s : par) : res :=
  match ops with
  | [] => ret s
  | o :: ops' => then_anyway (run fuel o s) (run_all fuel ops')
  end.

(** The life of the effect: the call of the runner, then any calls made
    later from outside. *)
Definition life (fuel : nat) (later : list op) : res :=
  then_anyway (run_effect (run fuel) before) (run_all fuel later).
End Semantics.

(** The calls of the continuation [cb]. *)
Definition reporting (l : event) : nat :=
  match l with Passed _ _ | Gathered _ => 1 | _ => 0 end.
Definition reports (tr : list (tree event)) : nat := weight reporting tr.

(** While the effect is not completed, [cb.cancel] is the closure set
    here. *)
Definition guarded (s : par) : Prop := completed s = false → cb_cancel s = true.

(** One call of [cb] is still possible while the effect is not completed. *)
Definition open_calls (s : par) : nat := if completed s then 0 else 1.

(** The effect has completed. *)
Definition over_ (s : par) : Prop := completed s = true.

(** No child was digested. *)
Definition childless (s : par) : Prop := children s = ∅.

(** Every child digested so far is settled. *)
Definition all_settled (s : par) : Prop :=
  ∀ key c, children s !! key = Some c → effectSettled c = true.

(** A child that is not settled still has the cancel that [digestEffect]
    installed for it. *)
Definition cancellable (s : par) : Prop :=
  ∀ key c, children s !! key = Some c → effectSettled c = false → installed c = true.

(** The children digested are among the keys. *)
Definition within (keys : list nat) (s : par) : Prop :=
  ∀ key, is_Some (children s !! key) → key ∈ keys.

(** From [s] to [s'] no child was added, the children that were settled
    still are, the effect is still completed if it was, and the two
    properties above still hold if they did. *)
Definition grown (keys : list nat) (s s' : par) : Prop :=
  (∀ key, children s !! key = None → children s' !! key = None) ∧
  (∀ key c, children s !! key = Some c → effectSettled c = true →
            ∃ c', children s' !! key = Some c' ∧ effectSettled c' = true) ∧
  (completed s = true → completed s' = true) ∧
  (cancellable s → cancellable s') ∧
  (within keys s → within keys s').

(** With the callbacks [h] made so far: the results written are answers
    that children completed with, without error; [completedCount] counts
    them; a child whose answer was written is settled; and the children are
    among the keys. *)
Definition recorded (keys : list nat) (h : list event) (s : par) : Prop :=
  (∀ key a, results s !! key = Some a → Settled key a false ∈ h) ∧
  completedCount s = size (results s) ∧
  (∀ key, is_Some (results s !! key) →
          ∃ c, children s !! key = Some c ∧ effectSettled c = true) ∧
  within keys s.

(** The results [m] hold an answer for every key, and each is one that the
    child at the key completed with. *)
Definition complete_for (keys : list nat) (h : list event) (m : gmap nat answer) : Prop :=
  dom m = list_to_set keys ∧ ∀ key a, m !! key = Some a → Settled key a false ∈ h.

(** Every call of the continuation with results, in [tr], which comes after
    [h], is with results that are complete. *)
Definition gathers_well (keys : list nat) (h : list event) (tr : list (tree event)) : Prop :=
  ∀ m, Gathered m ∈ everything tr → complete_for keys (h ++ everything tr) m.

Definition tracked (keys : list nat) (f : par → res) : Prop :=
  ∀ h s, recorded keys h s →
         recorded keys (h ++ everything (trace (f s))) (state (f s)) ∧
         gathers_well keys h (trace (f s)).

(** The completions of the child at [key] that got past the guard, and the
    calls of the cancel logic attached for it. *)
Definition settling (key : nat) (l : event) : nat :=
  match l with
  | Settled k _ _ | Downstream k _ => if bool_decide (k = key) then 1 else 0
  | _ => 0
  end.

(** One completion of the child at [key] is still possible while it is not
    settled. *)
Definition unsettled (key : nat) (s : par) : nat :=
  match children s !! key with
  | Some c => if effectSettled c then 0 else 1
  | None => 1
  end.

(** The children whose runner was started, in order. *)
Definition starting (l : event) : list nat :=
  match l with Runner key => [key] | _ => [] end.
Definition started (tr : list (tree event)) : list nat := flat_map starting (direct tr).

(** Three effects: the runner of the first attaches cancel logic, the
    second completes at once with an error, the third attaches cancel logic;
    the cancel logic of a child tries to complete it. *)
Definition failing_second : user :=
  User (λ key, match key with
               | 1 => [Complete 1 (Plain 7) true]
               | _ => [Attach key 0]
               end)
       (λ _ _, [CancelIt; Complete 0 (Plain 1) false])
       (λ _, [])
       (λ key _, [Complete key (Plain 2) false]).

(** Three effects that wait, each with cancel logic attached. *)
Definition patient : user :=
  User (λ key, [Attach key (10 + key)])
       (λ _ _, [])
       (λ _, [])
       (λ _ _, []).

(** Two effects that complete at once. *)
Definition both_at_once : user :=
  User (λ key, [Complete key (Plain (10 + key)) false; Complete key (Plain 0) false])
       (λ _ _, [])
       (λ _, [CancelIt])
       (λ _ _, []).

End Parallel.

(** *** Members of a fork queue that end one after the other *)

Module Completion.
Import ForkQueue Proc.

(** The members [rs.*1] end without error, each with its result, in the
    order of [rs]. *)
Definition finishing (rs : list (nat * value)) : list op :=
  map (λ x, Cont x.1 x.2 false) rs.

(** What [result] holds after these: the result of the main task if it
    was among them. *)
Definition main_result (d : value) (rs : list (nat * value)) : value :=
  foldl (λ acc x, if bool_decide (x.1 = mainTask) then x.2 else acc) d rs.

End Completion.
(** ** The generator driver ([next] and [cancelMain], [proc.js]) *)

Module Driver.

(** What [next] is called with and what the generator returns or throws:
    [undefined], the objects [TASK_CANCEL] and [CHANNEL_END], any other value;
    [Caught] stands for what a callback threw, which is not tracked. *)
Inductive sent := Undef | Other (n : nat) | TASK_CANCEL | CHANNEL_END | Caught.

Global Instance sent_eq_dec : EqDecision sent.
Proof. solve_decision. Defined.

(** The calls on the iterator: [iterator.next(arg)], [iterator.throw(arg)]
    and [iterator.return(arg)]; and how a call ends: [{ done: false, value }]
    with an effect, [{ done: true, value }], or an exception. *)
Inductive resume := Next (a : sent) | Throw (a : sent) | Return (a : sent).
Inductive reply := Yield (e : nat) | Done (v : sent) | Throws (err : sent).

Global Instance resume_eq_dec : EqDecision resume.
Proof. solve_decision. Defined.

(** The variables of one call of [digestEffect] with [next] as [cb]:
    [effectSettled], and [currCb.cancel]: [None] for [noop], [Some k] for the
    cancel logic [k] attached by the effect runner. *)
Record effect := Effect {
  effectSettled : bool;
  attached : option nat
}.

(** The state of the iterator and what [proc] keeps for the main task:
    [mainTask.isRunning], which is set when the task is made,
    [mainTask.isCancelled], [mainTask.isMainRunning] ([None] while it is
    not set); the effects digested, by [effectId]; [next.cancel]: [Some i]
    for the cancel that [digestEffect] installed for effect [i], [None] for
    [noop]; the counter behind [nextEffectId]; and [crashedEffect]. *)
Record drv (T : Type) := Drv {
  iterator : T;
  isRunning : bool;
  isCancelled : bool;
  isMainRunning : option bool;
  effects : gmap nat effect;
  next_cancel : option nat;
  nextEffectId : nat;
  crashedEffect : option nat
}.
Arguments Drv {T} iterator isRunning isCancelled isMainRunning effects next_cancel
  nextEffectId crashedEffect.
Arguments iterator {T} d.
Arguments isRunning {T} d.
Arguments isCancelled {T} d.
Arguments isMainRunning {T} d.
Arguments effects {T} d.
Arguments next_cancel {T} d.
Arguments nextEffectId {T} d.
Arguments crashedEffect {T} d.

(** The calls code outside can make: the completion callback [currCb] of
    effect [i]; [currCb.cancel = k] on it; [mainTask.cancel()], which is
    [cancelMain]. *)
Inductive op :=
  | Complete (i : nat) (res : sent) (isErr : bool)
  | Attach (i k : nat)
  | CancelMain
  | Raise.

(** Calls of code outside: the iterator; the effect runner, for effect [i]
    with the value [e] that the generator yielded; the cancel logic [k]
    attached for effect [i]; [mainTask.cont]; [logError]; the monitor. *)
Inductive event :=
  | Resumed (r : resume)
  | Runner (i e : nat)
  | Downstream (i k : nat)
  | MainCont (res : sent) (isErr : bool)
  | logError (err : sent)
  | effectTriggered (i : nat)
  | effectResolved (i : nat) (res : sent)
  | effectRejected (i : nat) (res : sent)
  | effectCancelled (i : nat).

Global Instance event_eq_dec : EqDecision event.
Proof. solve_decision. Defined.

(** The code around: what the effect runner does before it returns, what
    the cancel logic [k] of effect [i] does, and what [mainTask.cont] does. *)
Record user := User {
  runner : nat → nat → list op;
  on_downstream : nat → nat → list op;
  on_main_cont : sent → bool → list op
}.

Section Semantics.
Context {T : Type}.
(** The generator: what a call on the iterator in a state gives, and the
    state it leaves; the code of the generator calls nothing of [proc]
    while it runs.  Whether the iterator has a [return] method; whether
    there is a [sagaMonitor] (there is no effect middleware). *)
Variable iterate : T → resume → T * reply.
Variable has_return : bool.
Variable monitor : bool.
Variable code : user.

Abbreviation res := (result (drv T) event).

Definition leaf (l : event) (s : drv T) : res := Result s [Node l []] Returned.

Definition with_iterator (it : T) (s : drv T) : drv T :=
  Drv it (isRunning s) (isCancelled s) (isMainRunning s) (effects s) (next_cancel s)
      (nextEffectId s) (crashedEffect s).

Definition with_cancelled (s : drv T) : drv T :=
  Drv (iterator s) (isRunning s) true (isMainRunning s) (effects s) (next_cancel s)
      (nextEffectId s) (crashedEffect s).

Definition main_over (s : drv T) : drv T :=
  Drv (iterator s) (isRunning s) (isCancelled s) (Some false) (effects s) (next_cancel s)
      (nextEffectId s) (crashedEffect s).

Definition with_effect (i : nat) (c : effect) (s : drv T) : drv T :=
  Drv (iterator s) (isRunning s) (isCancelled s) (isMainRunning s) (<[i := c]> (effects s))
      (next_cancel s) (nextEffectId s) (crashedEffect s).

Definition with_next_cancel (k : option nat) (s : drv T) : drv T :=
  Drv (iterator s) (isRunning s) (isCancelled s) (isMainRunning s) (effects s) k
      (nextEffectId s) (crashedEffect s).

Section Open.
Variable rec : op → drv T → res.

Fixpoint script (os : list op) (s : drv T) : res :=
  match os with
  | [] => ret s
  | o :: os' => and_then (rec o s) (script os')
  end.

Definition tell (l : event) (s : drv T) : res :=
  if monitor then leaf l s else ret s.

(** [mainTask.cont(res, isErr)] after [mainTask.isMainRunning = false] *)
Definition main_cont (v : sent) (isErr : bool) (s : drv T) : res :=
  under (MainCont v isErr) (script (on_main_cont code v isErr) (main_over s)).

(** The [catch] block of [next]. *)
Definition handler (err : sent) (s : drv T) : res :=
  and_then (if isCancelled s then leaf (logError err) s else ret s) (main_cont err true).

(** [r] is what ran in the [try] block of [next]: when it threw, the
    [catch] block runs. *)
Definition tried (r : res) : res :=
  match outcome_of r with
  | Thrown =>
      let h := handler Caught (state r) in
      Result (state h) (trace r ++ trace h) (outcome_of h)
  | _ => r
  end.

(** [digestEffect(result.value, parentEffectId, '', next)] *)
Definition digestEffect (e : nat) (s : drv T) : res :=
  let i := nextEffectId s in
  let s1 := Drv (iterator s) (isRunning s) (isCancelled s) (isMainRunning s) (effects s)
                (next_cancel s) (S i) (crashedEffect s) in
  and_then (tell (effectTriggered i) s1) (λ s2,
    under (Runner i e)
      (script (runner code i e)
         (with_next_cancel (Some i) (with_effect i (Effect false None) s2)))).

(** The call on the iterator and the rest of the [try] block. *)
Definition go (r : resume) (s : drv T) : res :=
  let called := leaf (Resumed r) (with_iterator (iterate (iterator s) r).1 s) in
  match (iterate (iterator s) r).2 with
  | Throws err => and_then called (handler err)
  | Yield e => tried (and_then called (digestEffect e))
  | Done v => tried (and_then called (main_cont v false))
  end.

(** The closure that [digestEffect] installs as [cb.cancel], for effect
    [i]. *)
Definition installed_cancel (i : nat) (s : drv T) : res :=
  match effects s !! i with
  | None => ret s
  | Some c =>
      if effectSettled c then ret s
      else
        let s1 := with_effect i (Effect true (attached c)) s in
        let d := match attached c with
                 | None => ret s1
                 | Some k =>
                     let d := under (Downstream i k) (script (on_downstream code i k) s1) in
                     match outcome_of d with
                     | Thrown =>
                         Result (state d) (trace d ++ [Node (logError Caught) []]) Returned
                     | _ => d
                     end
                 end in
        and_then d (λ s2,
          tell (effectCancelled i)
               (match effects s2 !! i with
                | Some c2 => with_effect i (Effect (effectSettled c2) None) s2
                | None => s2
                end))
  end.

(** [next.cancel()], through the property. *)
Definition next_dot_cancel (s : drv T) : res :=
  match next_cancel s with
  | Some i => installed_cancel i s
  | None => ret s
  end.

(** [next(arg, isErr)] *)
Definition next (a : sent) (isErr : bool) (s : drv T) : res :=
  if negb (isRunning s) then throw s
  else if isErr then go (Throw a) s
  else
    match a with
    | TASK_CANCEL =>
        let c := next_dot_cancel (with_cancelled s) in
        match outcome_of c with
        | Thrown => tried c
        | _ =>
            and_then c (λ s1,
              if has_return then go (Return TASK_CANCEL) s1
              else tried (main_cont TASK_CANCEL false s1))
        end
    | CHANNEL_END =>
        if has_return then go (Return Undef) s else tried (main_cont Undef false s)
    | _ => go (Next a) s
    end.

(** The [currCb] that [digestEffect] makes for effect [i].  Before the
    effect is digested there is no such callback: code that calls it
    throws. *)
Definition currCb (i : nat) (a : sent) (isErr : bool) (s : drv T) : res :=
  match effects s !! i with
  | None => throw s
  | Some c =>
      if effectSettled c then ret s
      else
        let s1 := with_next_cancel None (with_effect i (Effect true (attached c)) s) in
        and_then (tell (if isErr then effectRejected i a else effectResolved i a) s1)
          (λ s2,
             next a isErr
                  (Drv (iterator s2) (isRunning s2) (isCancelled s2) (isMainRunning s2)
                       (effects s2) (next_cancel s2) (nextEffectId s2)
                       (if isErr then Some i else crashedEffect s2)))
  end.

Definition cancelMain (s : drv T) : res :=
  if isRunning s && negb (isCancelled s) then next TASK_CANCEL false (with_cancelled s)
  else ret s.

Definition step (o : op) (s : drv T) : res :=
  match o with
  | Complete i a isErr => currCb i a isErr s
  | Attach i k =>
      match effects s !! i with
      | Some c => ret (with_effect i (Effect (effectSettled c) (Some k)) s)
      | None => throw s
      end
  | CancelMain => cancelMain s
  | Raise => throw s
  end.
End Open.

Fixpoint run (fuel : nat) (o : op) (s : drv T) : res :=
  match fuel with
  | 0 => out_of_fuel s
  | S f => step (run f) o s
  end.

Fixpoint run_all (fuel : nat) (ops : list op) (s : drv T) : res :=
  match ops with
  | [] => ret s
  | o :: ops' => then_anyway (run fuel o s) (run_all fuel ops')
  end.

(** The main task as [proc] makes it, for an iterator in state [it]. *)
Definition fresh_main (it : T) : drv T := Drv it true false None ∅ None 0 None.

(** The life of the main task: the [next()] by which [proc] starts the
    generator, then any calls made later from outside. *)
Definition life (it : T) (fuel : nat) (later : list op) : res :=
  then_anyway (next (run fuel) Undef false (fresh_main it)) (run_all fuel later).
End Semantics.

(** The calls on the iterator, and the effects digested. *)
Definition resuming (l : event) : nat :=
  match l with Resumed _ => 1 | _ => 0 end.
Definition resumes (tr : list (tree event)) : nat := weight resuming tr.
Definition digesting (l : event) : nat :=
  match l with Runner _ _ => 1 | _ => 0 end.
Definition digested (tr : list (tree event)) : nat := weight digesting tr.

(** An effect that is not settled is the one that [next.cancel] cancels. *)
Definition one_pending {T} (s : drv T) : Prop :=
  ∀ i c, effects s !! i = Some c → effectSettled c = false → next_cancel s = Some i.

Definition all_settled {T} (s : drv T) : Prop :=
  ∀ i c, effects s !! i = Some c → effectSettled c = true.

(** The main task is cancelled and waits for nothing. *)
Definition quiet {T} (s : drv T) : Prop := all_settled s ∧ isCancelled s = true.

(** What can still resume the generator: the effect that [next.cancel]
    cancels, while it is not settled, and the first cancellation of the
    main task. *)
Definition pending {T} (s : drv T) : nat :=
  match next_cancel s with
  | Some i =>
      match effects s !! i with
      | Some c => if effectSettled c then 0 else 1
      | None => 0
      end
  | None => 0
  end.
Definition token {T} (s : drv T) : nat := if isCancelled s then 0 else 1.

(** From [s], [r] keeps [one_pending] and resumes the generator no more
    often than it uses up of what can resume it, but for the effects it
    digests and for [credit]. *)
Definition driven {T} (credit : nat) (s : drv T) (r : result (drv T) event) : Prop :=
  one_pending (state r) ∧
  resumes (trace r) + pending (state r) + token (state r)
  ≤ pending s + token s + digested (trace r) + credit.

(** A generator that yields three effects and returns: its state counts
    the calls. *)
Definition three_steps (n : nat) (r : resume) : nat * reply :=
  match r with
  | Next _ => (S n, if bool_decide (n < 3) then Yield n else Done (Other n))
  | Throw a => (S n, Throws a)
  | Return a => (S n, Done a)
  end.

(** Effect runners that attach cancel logic and wait, except the second,
    which completes at once and twice; cancel logic that tries to complete
    its effect. *)
Definition eager_second : user :=
  User (λ i _, match i with
               | 1 => [Complete 1 (Other 5) false; Complete 1 (Other 6) false]
               | _ => [Attach i 0]
               end)
       (λ i _, [Complete i (Other 7) false])
       (λ _ _, [CancelMain]).

End Driver.
(** *** The end of a task *)

Module Ending.
Import ForkQueue Proc.

(** Calls that cancel no join. *)
Definition keeps_joins (o : op) : Prop :=
  match o with Unjoin _ => False | _ => True end.

(** The callbacks of [code] make calls that [allowed] holds of. *)
Definition calls_only (allowed : op → Prop) (code : user) : Prop :=
  (∀ t, Forall allowed (on_cancel code t)) ∧
  (∀ v e, Forall allowed (on_continuation code v e)) ∧
  (∀ j v e, Forall allowed (on_joiner code j v e)).

(** Code around that never cancels a join. *)
Definition never_unjoins (code : user) : Prop := calls_only keeps_joins code.

(** The task is over and its joiners are [J]. *)
Definition over_with (J : list nat) (p : proc) : Prop :=
  isRunning p = false ∧ joiners p = J.

(** [task.joiners] is [null]: [end] has run to its last line. *)
Definition nulled (p : proc) : Prop := joiners_null p = true.

(** [f] keeps the property [I] of the task. *)
Definition kept (I : proc → Prop) (f : proc → res) : Prop :=
  ∀ p, I p → I (state (f p)).

(** The calls that [end(result, isErr)] makes itself when every one
    returns: the error sink, the promise of [toPromise], the continuation,
    the joiners. *)
Definition farewell (has_cont has_onError : bool) (v : value) (isErr : bool)
    (p : proc) : list event :=
  (if isErr && negb has_cont then [if has_onError then onError v else logError v] else []) ++
  (if deferredEnd p then [if isErr then Rejected v else Resolved v] else []) ++
  (if has_cont then [Continuation v isErr] else []) ++
  map (λ j, Joiner j v isErr) (joiners p).

(** [r] made the calls [C] itself, in order: all of them if it returned,
    the first of them otherwise. *)
Definition tells (C : list event) (r : res) : Prop :=
  direct (trace r) `prefix_of` C ∧ (outcome_of r = Returned → direct (trace r) = C).

(** A task with a promise and the joiners 7 and 8; joiner 7, when called,
    joins again as joiner 9 and cancels the task. *)
Definition two_joiners : proc :=
  Proc (FQ [] undef true ∅) [] true false false undef undef [7; 8] false true.

Definition rejoining : user :=
  User (λ _, [])
       (λ _ _, [ToPromise])
       (λ j _ _, match j with 7 => [Join 9; Cancel] | _ => [] end).

End Ending.
(** *** Callbacks that call back into the queue *)

Module Reentry.
Import ForkQueue Proc Ending.

(** Calls that do not abort the queue, and code around that never does. *)
Definition no_abort (o : op) : Prop :=
  match o with Abort _ => False | _ => True end.

Definition never_aborts (code : user) : Prop := calls_only no_abort code.

(** Calls that neither abort the queue nor cancel a join, and code around
    that makes no others. *)
Definition tame (o : op) : Prop :=
  match o with Abort _ | Unjoin _ => False | _ => True end.

Definition undisturbing (code : user) : Prop := calls_only tame code.

(** The calls of the queue's continuation with an error, at any depth. *)
Definition error_report (l : event) : nat :=
  match l with Ended _ true => 1 | _ => 0 end.
Definition error_reports (tr : list (tree event)) : nat := weight error_report tr.

Definition no_error_report (l : event) : Prop := error_report l = 0.

(** The queue has completed and the names recorded are [N]. *)
Definition aborted_with (N : list nat) (p : proc) : Prop :=
  completed (queue p) = true ∧ cancelledDueToErrorTasks p = N.

(** The member [t] has been taken out of the queue, as its continuation
    does first. *)
Definition left_by (t : nat) (p : proc) : proc :=
  update the_queue
    (FQ (remove t (tasks (queue p))) (queue_result (queue p)) (completed (queue p))
        (live (queue p) ∖ {[t]})) p.

(** The state in which [abort] comes to [cancelAll] when the member [t]
    has ended with an error: [t] is out of the queue and [onAbort] has
    recorded the names of the members left. *)
Definition names_recorded (name : nat → nat) (t : nat) (p : proc) : proc :=
  state (onAbort name (left_by t p)).

(** C7 as the spec words it, for the member [t] that ends with the error
    [err] in state [p]: the names of the members left are recorded, each of
    them is cancelled, and the error is reported upward, once. *)
Definition member_error_as_specified (name : nat → nat) (has_cont has_onError : bool)
    (code : user) (fuel : nat) (t : nat) (err : value) (p : proc) : Prop :=
  let others := remove t (tasks (queue p)) in
  let r := run name has_cont has_onError code (S fuel) (Cont t err true) p in
  cancelledDueToErrorTasks (state r) = cancelledDueToErrorTasks p ++ map name others ∧
  direct (trace r) = [OnAbort] ++ map CancelMember others ++ [Ended err true] ∧
  error_reports (trace r) = 1.

(** *** Cancelling a task whose queue has not completed *)

(** The calls of the queue's continuation, and of the continuation of the
    procedure, at any depth. *)
Definition ending (l : event) : nat :=
  match l with Ended _ _ => 1 | _ => 0 end.
Definition endings (tr : list (tree event)) : nat := weight ending tr.

Definition continuing (l : event) : nat :=
  match l with Continuation _ _ => 1 | _ => 0 end.
Definition continuations (tr : list (tree event)) : nat := weight continuing tr.

Definition is_cancel_member (l : event) : Prop :=
  match l with CancelMember _ => True | _ => False end.

Definition is_joiner (l : event) : Prop :=
  match l with Joiner _ _ _ => True | _ => False end.

Global Instance is_joiner_dec (l : event) : Decision (is_joiner l).
Proof. destruct l; simpl; apply _. Defined.

(** What is still called once the task is over and its queue has
    completed: joiners, the promise, the error sinks. *)
Definition aftermath (l : event) : Prop :=
  match l with
  | Joiner _ _ _ | Resolved _ | Rejected _ | onError _ | logError _ => True
  | _ => False
  end.

(** [cancel] has got past its guard: the state in which it comes to
    [cancelAll]. *)
Definition marked (p : proc) : proc :=
  Proc (queue p) (cancelledDueToErrorTasks p) (isRunning p) true (isAborted p)
       (task_result p) (task_error p) (joiners p) (joiners_null p) (deferredEnd p).

(** The task is being cancelled: the queue has completed, the task is
    still running and marked as cancelled, [end] has not run, and the
    joiners begin with [J]. *)
Definition cancelling (J : list nat) (p : proc) : Prop :=
  completed (queue p) = true ∧ isRunning p = true ∧ isCancelled p = true ∧
  joiners_null p = false ∧ J `prefix_of` joiners p.

(** The task is over and its queue has completed. *)
Definition finished (p : proc) : Prop :=
  completed (queue p) = true ∧ isRunning p = false.

(** C8 as the spec words it, for a [cancel] that gets past its guard in
    state [p]: the cancellation goes to each member of the queue (the main
    task, which cancels the current effect, and the children), to the
    continuation and to each joiner, once. *)
Definition cancel_as_specified (name : nat → nat) (has_cont has_onError : bool)
    (code : user) (fuel : nat) (p : proc) : Prop :=
  let r := run name has_cont has_onError code (S fuel) Cancel p in
  ∃ calls told more,
    trace r = [Node Propagate (calls ++ [Node (Ended TASK_CANCEL false) told])] ∧
    direct calls = map CancelMember (tasks (queue p)) ∧
    endings (trace r) = 1 ∧
    continuations (trace r) = (if has_cont then 1 else 0) ∧
    filter is_joiner (direct told)
    = map (λ j, Joiner j TASK_CANCEL false) (joiners p ++ more).

(** What [end(result, isErr)] leaves before it calls the continuation. *)
Definition ended (v : value) (isErr : bool) (p : proc) : proc :=
  if isErr then
    Proc (queue p) (cancelledDueToErrorTasks p) false (isCancelled p) true
         (task_result p) v (joiners p) (joiners_null p) (deferredEnd p)
  else
    Proc (queue p) (cancelledDueToErrorTasks p) false (isCancelled p) (isAborted p)
         v (task_error p) (joiners p) (joiners_null p) (deferredEnd p).

(** The calls that [end(result, isErr)] makes before it comes to the
    joiners: the error sink, the promise of [toPromise], the continuation. *)
Definition notices (has_cont has_onError : bool) (v : value) (isErr : bool)
    (p : proc) : list event :=
  (if isErr && negb has_cont then [if has_onError then onError v else logError v] else []) ++
  (if deferredEnd p then [if isErr then Rejected v else Resolved v] else []) ++
  (if has_cont then [Continuation v isErr] else []).

(** A parent with two children; cancelling the main task aborts the queue,
    as [runForkEffect] does for a fork that fails at once. *)
Definition aborting : user :=
  User (λ t, match t with 0 => [Abort (Val 5)] | _ => [] end)
       (λ _ _, [])
       (λ _ _ _, []).

End Reentry.
(** * Proofs *)

(** ** Call trees *)

Lemma direct_app {L} (a b : list (tree L)) : direct (a ++ b) = direct a ++ direct b.
Proof. apply map_app. Qed.

Lemma everything_app {L} (a b : list (tree L)) :
  everything (a ++ b) = everything a ++ everything b.
Proof. apply flat_map_app. Qed.

Lemma everything_node {L} (l : L) (s : list (tree L)) :
  everything [Node l s] = l :: everything s.
Proof. unfold everything. simpl. by rewrite app_nil_r. Qed.

Lemma everything_nil {L} : everything (@nil (tree L)) = [].
Proof. done. Qed.

Lemma direct_nil {L} : direct (@nil (tree L)) = [].
Proof. done. Qed.

Lemma direct_cons {L} (t : tree L) tr : direct (t :: tr) = label t :: direct tr.
Proof. done. Qed.

Section TraceFacts.
Context {S L : Type}.
Implicit Types (r : result S L) (P : L → Prop).

Lemma and_then_returned r k :
  outcome_of r = Returned →
  and_then r k = Result (state (k (state r))) (trace r ++ trace (k (state r)))
                        (outcome_of (k (state r))).
Proof. intros H. unfold and_then. by rewrite H. Qed.

Lemma and_then_ret_l (g : S) (k : S → result S L) : and_then (ret g) k = k g.
Proof. unfold and_then. simpl. by destruct (k g). Qed.

Lemma and_then_stopped r k :
  outcome_of r ≠ Returned → and_then r k = r.
Proof. intros H. unfold and_then. destruct r as [s t []]; simpl in *; congruence. Qed.

Lemma and_then_cases r k :
  (outcome_of r = Returned ∧
   and_then r k = Result (state (k (state r))) (trace r ++ trace (k (state r)))
                         (outcome_of (k (state r)))) ∨
  (outcome_of r ≠ Returned ∧ and_then r k = r).
Proof.
  destruct (decide (outcome_of r = Returned)) as [Ho|Ho]; [left|right].
  - split; [done | by apply and_then_returned].
  - split; [done | by apply and_then_stopped].
Qed.

Lemma and_then_outcome r k :
  outcome_of (and_then r k) = Returned →
  outcome_of r = Returned ∧ outcome_of (k (state r)) = Returned.
Proof. unfold and_then. destruct (outcome_of r) eqn:E; simpl; intros; by try split. Qed.

Lemma everything_and_then P r k :
  Forall P (everything (trace r)) →
  (outcome_of r = Returned → Forall P (everything (trace (k (state r))))) →
  Forall P (everything (trace (and_then r k))).
Proof.
  intros H1 H2. unfold and_then.
  destruct (outcome_of r) eqn:E; simpl; try done.
  rewrite everything_app. apply Forall_app. auto.
Qed.

Lemma everything_then_anyway P r k :
  Forall P (everything (trace r)) →
  Forall P (everything (trace (k (state r)))) →
  Forall P (everything (trace (then_anyway r k))).
Proof.
  intros H1 H2. unfold then_anyway.
  destruct (outcome_of r) eqn:E; simpl; try done;
    rewrite everything_app; apply Forall_app; auto.
Qed.

Lemma everything_under P (l : L) r :
  P l → Forall P (everything (trace r)) →
  Forall P (everything (trace (under l r))).
Proof. intros. simpl. rewrite everything_node. by constructor. Qed.

Lemma direct_and_then_prefix r k :
  direct (trace r) `prefix_of` direct (trace (and_then r k)).
Proof.
  unfold and_then. destruct (outcome_of r); simpl; try done.
  rewrite direct_app. by apply prefix_app_r.
Qed.
End TraceFacts.

(** ** Scheduler *)

Module TasksFacts.
Import Scheduler Tasks.

Section Facts.
Variable body : nat → list cmd.
Implicit Types (s : st) (rec : jump → st → res).

(** With a lock held, [asap] only appends to the queue. *)
Lemma asap_locked rec t s :
  semaphore s ≠ 0%Z →
  asap whole (λ t, rec (Body t)) (rec Again) Begin t s
  = ret (Sched (semaphore s) (queue s ++ [t])).
Proof. intros H. unfold asap. simpl. by rewrite bool_decide_eq_false_2. Qed.

(** With a lock still held after the release, [flush] runs nothing. *)
Lemma flush_locked rec s :
  semaphore s ≠ 1%Z →
  flush whole (λ t, rec (Body t)) (rec Again) Begin s = ret (release whole s).
Proof.
  intros H. unfold flush, flush_loop. simpl.
  rewrite bool_decide_eq_false_2; [done | lia].
Qed.

Lemma fine_and_then inside (r : res) k :
  fine inside r →
  (outcome_of r = Returned → fine inside (k (state r))) →
  fine inside (and_then r k).
Proof.
  unfold fine, and_then. intros H1 H2.
  destruct (outcome_of r); simpl; try done.
  rewrite forallb_app, H1. simpl. by apply H2.
Qed.

Lemma fine_then_anyway inside (r : res) k :
  fine inside r → fine inside (k (state r)) → fine inside (then_anyway r k).
Proof.
  unfold fine, then_anyway. intros H1 H2.
  destruct (outcome_of r); simpl; try done; by rewrite forallb_app, H1, H2.
Qed.

(** Inside a task that keeps the locks in balance nothing is run: the
  interpreter one level deeper is never entered. *)
Lemma balanced_body_fine rec cs : ∀ n s,
  balanced n cs = true →
  (1 + Z.of_nat n ≤ semaphore s)%Z →
  fine true (run_cmds rec cs s).
Proof.
  induction cs as [|c cs IH]; intros n s Hb Hs; simpl; [done|].
  assert (bool_decide (1 ≤ semaphore s)%Z = true) as Hsem
    by (apply bool_decide_eq_true_2; lia).
  destruct c; simpl in Hb.
  - apply fine_and_then; simpl.
    + rewrite asap_locked by lia. unfold fine. simpl. by rewrite Hsem.
    + intros _. rewrite asap_locked by lia. by apply (IH n).
  - apply fine_and_then; simpl.
    + unfold fine. simpl. by rewrite Hsem.
    + intros _. apply (IH (S n)); [done | simpl; lia].
  - destruct n as [|m]; [done|].
    apply fine_and_then; simpl.
    + rewrite flush_locked by lia. unfold fine. simpl. by rewrite Hsem.
    + intros _. rewrite flush_locked by lia. apply (IH m); [done | simpl; lia].
  - apply fine_and_then; simpl; [|done].
    unfold fine. simpl. by rewrite Hsem.
Qed.

Hypothesis all_balanced : ∀ t, balanced 0 (body t) = true.

(** The loop of [flush], entered outside any task, starts every task on an
  empty stack; a task body entered under one lock runs nothing. *)
Lemma run_fine fuel : ∀ j s,
  match j with
  | Body _ => (1 ≤ semaphore s)%Z → fine true (run body fuel j s)
  | Again => fine false (run body fuel j s)
  end.
Proof.
  induction fuel as [|f IH]; intros j s; [by destruct j|].
  destruct j as [t|]; simpl.
  - intros Hs. apply (balanced_body_fine _ _ 0); [apply all_balanced | simpl; lia].
  - unfold flush_loop. simpl.
    case_bool_decide as Hz; [|done].
    destruct (queue s) as [|t q]; [done|].
    apply fine_and_then.
    + unfold exec, fine. simpl. rewrite andb_true_r.
      apply (IH (Body t)). simpl. lia.
    + intros _. apply (IH Again).
Qed.

Lemma call_fine fuel c s : fine false (call (run body fuel) c s).
Proof.
  destruct c; simpl; try done.
  - unfold asap. simpl. case_bool_decide; [|done].
    apply (run_fine (S fuel) Again).
  - apply (run_fine (S fuel) Again).
Qed.

Lemma run_trace_fine fuel ops : ∀ s, fine false (run_trace body fuel ops s).
Proof.
  induction ops as [|c ops IH]; intros s; simpl; [done|].
  apply fine_then_anyway; [|apply IH].
  pose proof (call_fine fuel c s) as H. unfold fine in *. simpl. by rewrite H.
Qed.
End Facts.

(** C2, as stated, fails: a task that calls [flush] without a matching
    [suspend] brings the semaphore to 0 while it is still running, and the
    loop of [flush] starts the task it queued on top of it. *)
Lemma C2_unbalanced_flush_nests : ¬ atomic unbalanced_body 5 [Asap 0].
Proof. unfold atomic, fine. vm_compute. discriminate. Qed.

(** C2, amended: when no task releases more locks than it took, then on every
    trace of [asap], [suspend] and [flush] calls no task is started while
    another is on the stack and every call made inside a task finds the
    semaphore at 1 or more; and an [asap] under a lock only appends to the
    queue. *)
Theorem C2_asap_is_atomic (body : nat → list cmd) (fuel : nat) (ops : list cmd) :
  (∀ t, balanced 0 (body t) = true) →
  atomic body fuel ops ∧
  (∀ rec t s, semaphore s ≠ 0%Z →
     asap whole (λ t, rec (Body t)) (rec Again) Begin t s
     = ret (Sched (semaphore s) (queue s ++ [t]))).
Proof.
  intros Hb. split.
  - by apply run_trace_fine.
  - intros. by apply asap_locked.
Qed.

Lemma C2_asap_is_atomic_witness :
  atomic forking_body 20 [Asap 0; Suspend; Asap 1; Flush; Flush].
Proof.
  apply (C2_asap_is_atomic forking_body 20).
  intros [|[|[|t]]]; reflexivity.
Defined.

End TasksFacts.

(** ** Single-consumer channel *)

Module ChannelFacts.
Import Channel Callers.

Section Facts.
Context {B : Type} `{Buffer B}.
Variable dev : bool.
Variable react : nat → arg → list op.
Implicit Types (c : chan B) (rec : op → chan B → res B) (o : op).

(** [checkForbiddenStates] passes exactly on the states that satisfy the
  two invariants. *)
Lemma checkForbiddenStates_invariant c :
  checkForbiddenStates c = false ↔ invariant c.
Proof.
  unfold checkForbiddenStates, invariant.
  destruct (closed c), (takers c) as [|t ts], (isEmpty (buffer c)); simpl;
    split; try done; intros [H1 H2]; try (by specialize (H1 eq_refl));
    by specialize (H2 ltac:(done)).
Qed.

(** The operations a caller may use, and what is asked of the buffer when
  [flush] is among them: flushing an empty buffer leaves it empty. *)
Variable allowed : op → Prop.
Hypothesis react_allowed : ∀ cb a, Forall allowed (react cb a).
Hypothesis flush_allowed :
  ∀ cb, allowed (Flush cb) →
        ∀ b : B, isEmpty b = true → isEmpty (buf_flush b).2 = true.

Definition keeps rec : Prop :=
  ∀ o c, allowed o → invariant c → invariant (state (rec o c)).

Lemma script_keeps rec os : keeps rec →
  ∀ c, Forall allowed os → invariant c → invariant (state (script rec os c)).
Proof.
  intros Hrec. induction os as [|o os IH]; intros c Hos Hc; simpl; [done|].
  inversion_clear Hos as [|?? Ho Hos'].
  pose proof (Hrec o c Ho Hc) as H1.
  unfold and_then. destruct (outcome_of (rec o c)); simpl; auto.
Qed.

Lemma invoke_keeps rec cb a c : keeps rec →
  invariant c → invariant (state (invoke react rec cb a c)).
Proof. intros Hrec Hc. simpl. by apply script_keeps. Qed.

Lemma end_all_keeps rec arr : keeps rec →
  ∀ c, invariant c → invariant (state (end_all (invoke react rec) arr c)).
Proof.
  intros Hrec. induction arr as [|t arr IH]; intros c Hc; simpl; [done|].
  pose proof (invoke_keeps rec t (One END) c Hrec Hc) as H1.
  unfold and_then. simpl in *.
  destruct (outcome_of (script rec (react t (One END)) c)); simpl; auto.
Qed.

Lemma remove_nil_inv (cb : nat) (l : list nat) : l = [] → remove cb l = [].
Proof. by intros ->. Qed.

Lemma step_keeps rec : keeps rec → keeps (step dev react rec).
Proof.
  intros Hrec o c Ho Hc.
  pose proof (proj2 (checkForbiddenStates_invariant c) Hc) as Hf.
  pose proof Hc as [Hc1 Hc2].
  destruct o as [v|cb|cb| |cb|]; simpl.
  - (* put *)
    unfold put. simpl. rewrite Hf.
    destruct (dev && negb (notUndef v)); [done|].
    destruct (closed c) eqn:Ecl; [done|].
    destruct (takers c) as [|t ts] eqn:Et.
    + destruct (buf_put (buffer c) v); simpl; [|done].
      split; simpl; [done | congruence].
    + apply invoke_keeps; [done|]. split; simpl; [congruence|].
      intros _. apply Hc2. congruence.
  - (* take *)
    unfold take. simpl. rewrite Hf.
    destruct (closed c) eqn:Ecl, (isEmpty (buffer c)) eqn:Eem; simpl.
    + by apply invoke_keeps.
    + destruct (buf_take (buffer c)) as [v b] eqn:Et.
      apply invoke_keeps; [done|]. split; simpl; [auto|].
      intros Hne. specialize (Hc1 eq_refl). congruence.
    + split; simpl; [done | auto].
    + destruct (buf_take (buffer c)) as [v b] eqn:Et.
      apply invoke_keeps; [done|]. split; simpl; [done|].
      intros Hne. specialize (Hc2 Hne). congruence.
  - (* flush *)
    unfold flush. simpl. rewrite Hf.
    destruct (closed c && isEmpty (buffer c)) eqn:E; [by apply invoke_keeps|].
    destruct (buf_flush (buffer c)) as [vs b] eqn:Ef.
    apply invoke_keeps; [done|]. split; simpl; [done|].
    intros Hne. specialize (Hc2 Hne).
    pose proof (flush_allowed cb Ho (buffer c) Hc2) as Hb. by rewrite Ef in Hb.
  - (* close *)
    unfold close. simpl. rewrite Hf.
    destruct (closed c) eqn:Ecl; [done|].
    apply end_all_keeps; [done|]. by split.
  - (* cancel *)
    unfold cancel. simpl. case_bool_decide; simpl; [|done].
    split; simpl.
    + intros Hcl. by rewrite (Hc1 Hcl).
    + intros Hne. apply Hc2. intros Hnil. by rewrite Hnil in Hne.
  - done.
Qed.

Lemma run_keeps fuel : keeps (run dev react fuel).
Proof.
  induction fuel as [|f IH]; [by intros o c|].
  simpl. by apply step_keeps.
Qed.

Lemma run_all_keeps fuel ops : ∀ c,
  Forall allowed ops → invariant c →
  invariant (state (run_all dev react fuel ops c)).
Proof.
  induction ops as [|o ops IH]; intros c Hops Hc; simpl; [done|].
  inversion_clear Hops as [|?? Ho Hops'].
  pose proof (run_keeps fuel o c Ho Hc) as H1.
  unfold then_anyway. destruct (outcome_of (run dev react fuel o c)); simpl; auto.
Qed.
End Facts.

Lemma fresh_invariant {B} `{Buffer B} (b : B) : invariant (fresh b).
Proof. by split. Qed.

(** C3: starting from a fresh channel, after any sequence of [put], [take]
    and [close] calls (and of cancels of pending takers), made from outside
    or by the callbacks while they are being called, a closed channel has no
    takers and a channel with takers has an empty buffer. *)
Theorem C3_channel_invariants {B} `{Buffer B} (dev : bool)
    (react : nat → arg → list op) (fuel : nat) (ops : list op) (b : B) :
  (∀ cb a, Forall (λ o, is_flush o = false) (react cb a)) →
  Forall (λ o, is_flush o = false) ops →
  let c := state (run_all dev react fuel ops (fresh b)) in
  (closed c = true → takers c = []) ∧
  (takers c ≠ [] → isEmpty (buffer c) = true).
Proof.
  intros Hreact Hops.
  apply (run_all_keeps dev react (λ o, is_flush o = false)); auto.
  - intros cb Hcb. done.
  - apply fresh_invariant.
Qed.

Lemma C3_channel_invariants_witness :
  let c := state (run_all true sample_react 9
                    [Take 0; Put (U 1); Take 1; Put undefined; Take 2; Put (U 2); Close; Take 0]
                    (fresh (Ring (sliding 1) []))) in
  (closed c = true → takers c = []) ∧
  (takers c ≠ [] → isEmpty (buffer c) = true).
Proof.
  apply (C3_channel_invariants true sample_react 9).
  - intros [|[|[|cb]]] [v|vs]; repeat constructor.
  - repeat constructor.
Defined.

(** The same with [flush] among the calls, for a buffer that stays empty
    when it is flushed empty. *)
Lemma channel_invariants_with_flush {B} `{Buffer B} (dev : bool)
    (react : nat → arg → list op) (fuel : nat) (ops : list op) (b : B) :
  (∀ b : B, isEmpty b = true → isEmpty (buf_flush b).2 = true) →
  invariant (state (run_all dev react fuel ops (fresh b))).
Proof.
  intros Hflush.
  apply (run_all_keeps dev react (λ _, True)); auto.
  - intros. by apply Forall_true.
  - by apply Forall_true.
  - apply fresh_invariant.
Qed.

(** C4, as stated, fails: in development mode [put(undefined)] throws before
    it looks at the takers, so the waiting taker is not called. *)
Lemma C4_put_undefined_throws :
  ¬ put_as_specified true sample_react 3 undefined waiting.
Proof.
  unfold put_as_specified. simpl. intros Heq.
  apply (f_equal outcome_of) in Heq. vm_compute in Heq. discriminate.
Qed.

(** C4, amended: on a channel in a state allowed by the invariants, and
    unless the input is [undefined] in development mode, [put v] does
    nothing when the channel is closed; otherwise it calls the oldest
    taker with [v], after taking it off the queue; otherwise it hands [v]
    to the buffer. *)
Theorem C4_put (B : Type) `{Buffer B} (dev : bool) (react : nat → arg → list op)
    (fuel : nat) (v : input) (c : chan B) :
  invariant c →
  dev = false ∨ v ≠ undefined →
  put_as_specified dev react fuel v c.
Proof.
  intros Hc Hv. apply checkForbiddenStates_invariant in Hc.
  unfold put_as_specified. simpl. unfold put. simpl. rewrite Hc.
  assert (dev && negb (notUndef v) = false) as ->.
  { destruct Hv as [->|Hv]; [done|]. destruct v; [done|]. apply andb_false_r. }
  destruct (closed c); [done|]. by destruct (takers c).
Qed.

Lemma C4_put_witness : put_as_specified true sample_react 3 (U 5) waiting.
Proof.
  apply (C4_put ring true sample_react 3 (U 5) waiting).
  - split; [discriminate | reflexivity].
  - right. discriminate.
Defined.

(** C9: on a closed channel with an empty buffer, [take(cb)] calls [cb]
    with [END], once, at once and in the state it found: [cb] is not put
    on the takers queue, which is empty. *)
Theorem C9_take_closed_empty (B : Type) `{Buffer B} (dev : bool)
    (react : nat → arg → list op) (fuel : nat) (cb : nat) (c : chan B) :
  invariant c →
  closed c = true →
  isEmpty (buffer c) = true →
  let r := run dev react (S fuel) (Take cb) c in
  r = invoke react (run dev react fuel) cb (One END) c ∧
  direct (trace r) = [Call cb (One END)] ∧
  takers c = [].
Proof.
  intros Hc Hcl Hem. pose proof Hc as [Hc1 _].
  apply checkForbiddenStates_invariant in Hc.
  simpl. unfold take. simpl. rewrite Hc, Hcl, Hem. simpl. auto.
Qed.

Lemma C9_take_closed_empty_witness :
  let r := run false sample_react 4 (Take 1) drained in
  r = invoke sample_react (run false sample_react 3) 1 (One END) drained ∧
  direct (trace r) = [Call 1 (One END)] ∧
  takers drained = [].
Proof.
  apply (C9_take_closed_empty ring false sample_react 3 1 drained).
  - split; [reflexivity | intros Hne; by contradict Hne].
  - reflexivity.
  - reflexivity.
Defined.

End ChannelFacts.

(** ** Properties kept by every call *)

Section Sound.
Context {G L : Type} (I : G → Prop) (E : L → Prop).
Implicit Types (f k : G → result G L).

Lemma sound_ret : sound I E ret.
Proof. intros g Hg. split; [done | apply Forall_nil_2]. Qed.

Lemma sound_throw : sound I E throw.
Proof. intros g Hg. split; [done | apply Forall_nil_2]. Qed.

Lemma sound_out_of_fuel : sound I E out_of_fuel.
Proof. intros g Hg. split; [done | apply Forall_nil_2]. Qed.

Lemma sound_and_then f k :
  sound I E f → sound I E k → sound I E (λ g, and_then (f g) k).
Proof.
  intros Hf Hk g Hg. destruct (Hf g Hg) as [H1 H2].
  unfold and_then. destruct (outcome_of (f g)); simpl; try done.
  destruct (Hk _ H1) as [H3 H4]. split; [done|].
  rewrite everything_app. by apply Forall_app.
Qed.

Lemma sound_under l f : E l → sound I E f → sound I E (λ g, under l (f g)).
Proof.
  intros Hl Hf g Hg. destruct (Hf g Hg) as [H1 H2]. split; [done|].
  simpl. rewrite everything_node. by constructor.
Qed.

Lemma sound_before f (h : G → G) :
  (∀ g, I g → I (h g)) → sound I E f → sound I E (λ g, f (h g)).
Proof. intros Hh Hf g Hg. apply Hf. by apply Hh. Qed.
End Sound.

(** What the channel functions keep, whatever the program state around the
    channel: any property that does not mind the channel being closed, its
    takers and its buffer being changed. *)
Section ChannelSound.
Import Channel.
Context {G B L : Type} `{Buffer B} (here : lens G (chan B)).
Variable dev : bool.
Variable invoke : nat → arg → G → result G L.
Variables (I : G → Prop) (E : L → Prop).
Hypothesis frame :
  ∀ g c, I g → (closed (view here g) = true → closed c = true) → I (update here c g).
Hypothesis invoke_sound : ∀ cb a, sound I E (invoke cb a).

Lemma put_sound v : sound I E (put here dev invoke v).
Proof.
  intros g Hg. unfold put.
  destruct (checkForbiddenStates _); [by apply sound_throw|].
  destruct (dev && _); [by apply sound_throw|].
  destruct (closed (view here g)) eqn:Ecl; [by apply sound_ret|].
  destruct (takers (view here g)) as [|t ts].
  - destruct (buf_put _ v); [|by apply sound_throw].
    apply sound_ret. apply frame; [done | by rewrite Ecl].
  - apply invoke_sound. apply frame; [done | by rewrite Ecl].
Qed.

Lemma take_sound cb : sound I E (take here invoke cb).
Proof.
  intros g Hg. unfold take.
  destruct (checkForbiddenStates _); [by apply sound_throw|].
  destruct (closed (view here g) && isEmpty _); [by apply invoke_sound|].
  destruct (negb _).
  - destruct (buf_take _) as [v b]. apply invoke_sound. by apply frame.
  - apply sound_ret. by apply frame.
Qed.

Lemma flush_sound cb : sound I E (flush here invoke cb).
Proof.
  intros g Hg. unfold flush.
  destruct (checkForbiddenStates _); [by apply sound_throw|].
  destruct (closed (view here g) && isEmpty _); [by apply invoke_sound|].
  destruct (buf_flush _) as [vs b]. apply invoke_sound. by apply frame.
Qed.

Lemma cancel_sound cb : sound I E (cancel (L:=L) here cb).
Proof.
  intros g Hg. unfold cancel.
  case_bool_decide; [|by apply sound_throw].
  apply sound_ret. by apply frame.
Qed.

Lemma end_all_sound arr : sound I E (end_all invoke arr).
Proof.
  induction arr as [|t arr IH]; simpl; [apply sound_ret|].
  by apply (sound_and_then I E (invoke t (One END))).
Qed.

Lemma close_sound : sound I E (close here invoke).
Proof.
  intros g Hg. unfold close.
  destruct (checkForbiddenStates _); [by apply sound_throw|].
  destruct (closed (view here g)); [by apply sound_ret|].
  apply end_all_sound. by apply frame.
Qed.
End ChannelSound.

(** ** Event channel *)

Module EventChannelFacts.
Import EventChannel.

Section Facts.
Context {B : Type} `{Buffer B}.
Variable dev : bool.
Variable code : user.
Implicit Types (e : echan B) (rec : op → echan B → res B).

Lemma at_least_frame u a b e c :
  at_least u a b e →
  (Channel.closed (view inner e) = true → Channel.closed c = true) →
  at_least u a b (update inner c e).
Proof. intros (Hu & Ha & Hb) Hc. by (repeat split; simpl; intros; auto). Qed.

Lemma at_least_weaken u a b e : at_least u true true e → at_least u a b e.
Proof. intros (Hu & Ha & Hb). by (repeat split; simpl; intros; auto). Qed.

Lemma call_unsubscribe_quiet rec u a b e :
  quiet u → at_least u a b e → call_unsubscribe code rec e = ret e.
Proof.
  intros Hq (Hu & _). unfold call_unsubscribe. rewrite Hu.
  by destruct u as [|[]|[]].
Qed.

Section Step.
Variable rec : op → echan B → res B.
Variables (u : unsub) (a b : bool).
Hypothesis u_quiet : quiet u.
Hypothesis rec_sound : ∀ o, sound (at_least u a b) not_unsubscribe (rec o).

Lemma script_sound os : sound (at_least u a b) not_unsubscribe (script rec os).
Proof.
  induction os as [|o os IH]; simpl; [apply sound_ret|].
  by apply (sound_and_then _ _ (rec o)).
Qed.

Lemma invoke_sound cb x : sound (at_least u a b) not_unsubscribe (invoke code rec cb x).
Proof. apply (sound_under _ _ (Call cb x)); [done | apply script_sound]. Qed.

Lemma close_sound_here : sound (at_least u a b) not_unsubscribe (close code rec).
Proof.
  intros e He. unfold close. rewrite (call_unsubscribe_quiet rec u a b e u_quiet He).
  unfold and_then. simpl.
  pose proof (close_sound inner (invoke code rec) (at_least u a b) not_unsubscribe
              (at_least_frame u a b) invoke_sound e He) as [H1 H2].
  by destruct (Channel.close inner (invoke code rec) e) as [s t []].
Qed.

Lemma step_sound o : sound (at_least u a b) not_unsubscribe (step dev code rec o).
Proof.
  destruct o as [v|cb|cb| |cb|]; simpl.
  - intros e He. unfold step, emitter. destruct (isEnd v).
  + refine (sound_and_then _ _ (close code rec)
              (λ e', ret (EChan true (unsubscribe e') (chan e'))) _ _ e He).
    * apply close_sound_here.
    * intros e' (Hu & Ha & Hb). split; [|apply Forall_nil_2].
      by (repeat split; simpl; intros; auto).
  + apply put_sound; [apply at_least_frame | apply invoke_sound | done].
  - apply take_sound; [apply at_least_frame | apply invoke_sound].
  - apply flush_sound; [apply at_least_frame | apply invoke_sound].
  - apply close_sound_here.
  - apply cancel_sound with (invoke := invoke code rec);
    [apply at_least_frame | apply invoke_sound].
  - apply sound_throw.
Qed.
End Step.

Lemma run_sound u a b fuel : quiet u →
  ∀ o, sound (at_least u a b) not_unsubscribe (run dev code fuel o).
Proof.
  intros Hu. induction fuel as [|f IH]; intros o; simpl.
  - apply sound_out_of_fuel.
  - by apply step_sound.
Qed.

(** A call of the emitter with the end that returns leaves the flag set and
  the channel inside closed. *)
Lemma emit_end_closes u fuel v e :
  quiet u → isEnd v = true → at_least u false false e →
  outcome_of (run dev code fuel (Emit v) e) = Returned →
  at_least u true true (state (run dev code fuel (Emit v) e)).
Proof.
  intros Hq Hv He. destruct fuel as [|f]; [done|].
  simpl. unfold emitter. rewrite Hv. unfold close.
  rewrite (call_unsubscribe_quiet _ u false false e Hq He), and_then_ret_l.
  set (r := Channel.close inner (invoke code (run dev code f)) e).
  assert (outcome_of r = Returned → at_least u false true (state r)) as Hr.
  { subst r. unfold Channel.close.
    destruct (Channel.checkForbiddenStates _); [done|].
    destruct (Channel.closed (view inner e)) eqn:Ecl.
    - intros _. destruct He as (Hu & _). by (repeat split; simpl; intros; auto).
    - intros _.
      apply (end_all_sound inner (invoke code (run dev code f))
               (at_least u false true) not_unsubscribe).
      + apply at_least_frame.
      + intros cb x. apply invoke_sound; [done | intros; by apply run_sound].
      + destruct He as (Hu & _). by (repeat split; simpl; intros; auto). }
  intros Ho. apply and_then_outcome in Ho as Ho'. destruct Ho' as [Hor _].
  destruct (Hr Hor) as (Hu & _ & Hb).
  rewrite and_then_returned by done. simpl.
  by (repeat split; simpl; intros; auto).
Qed.

(** A script that emits the end and returns leaves the flag set and the
  channel inside closed. *)
Lemma script_emit_end u fuel v os : quiet u → isEnd v = true →
  ∀ e, at_least u false false e →
  Emit v ∈ os →
  outcome_of (script (run dev code fuel) os e) = Returned →
  at_least u true true (state (script (run dev code fuel) os e)).
Proof.
  intros Hq Hv. induction os as [|o os IH]; intros e He Hin Ho.
  - by apply elem_of_nil in Hin.
  - simpl in *. apply and_then_outcome in Ho as Ho'. destruct Ho' as [Ho1 Ho2].
    rewrite and_then_returned by done. simpl.
    destruct (decide (o = Emit v)) as [->|Hne].
    + pose proof (emit_end_closes u fuel v e Hq Hv He Ho1) as H1.
      by apply (script_sound (run dev code fuel) u true true Hq
                  (run_sound u true true fuel Hq) os).
    + apply IH; [|by apply elem_of_cons in Hin as [?|?]|done].
      by apply (run_sound u false false fuel Hq).
Qed.

Lemma count_none (evs : list event) :
  Forall not_unsubscribe evs → length (filter (λ l, l = Unsubscribe) evs) = 0.
Proof.
  induction 1 as [|l evs Hl _ IH]; [done|].
  rewrite filter_cons. by destruct (decide (l = Unsubscribe)).
Qed.
End Facts.

(** C10, as stated, fails: [eventChannel] calls the unsubscribe function
    outside any [try], so that when [subscribe] has emitted the end and
    returns a function that throws, the construction throws too, although
    [subscribe] returned a function. *)
Lemma C10_throwing_unsubscribe :
  let r := eventChannel sulky (run true sulky 6) (Ring none []) in
  returns_function sulky = true ∧
  Emit END ∈ on_subscribe sulky ∧
  outcome_of (subscribed sulky (run true sulky 6) (Ring none [])) = Returned ∧
  direct (trace r) = [Subscribe; Unsubscribe] ∧
  outcome_of r = Thrown.
Proof.
  cbn zeta. split; [done|]. split; [apply list_elem_of_singleton; done|].
  split; by vm_compute.
Qed.

(** C10, amended: when [subscribe] emits the end while it runs, then
    returns, and what it returns is a function, [eventChannel] calls that
    function right after [subscribe], and nowhere else: once.  The channel
    inside is closed, and the construction ends as the call of that function
    ends: it succeeds when the call returns, and throws when it throws. *)
Theorem C10_end_during_subscribe (B : Type) `{Buffer B} (dev : bool) (code : user)
    (fuel : nat) (buffer : B) (v : input) :
  returns_function code = true →
  isEnd v = true →
  Emit v ∈ on_subscribe code →
  outcome_of (subscribed code (run dev code fuel) buffer) = Returned →
  let s := subscribed code (run dev code fuel) buffer in
  let u := script (run dev code fuel) (on_unsubscribe code)
                  (EChan (closed (state s)) (Once true) (chan (state s))) in
  let r := eventChannel code (run dev code fuel) buffer in
  direct (trace r) = [Subscribe; Unsubscribe] ∧
  length (filter (λ l, l = Unsubscribe) (everything (trace r))) = 1 ∧
  Channel.closed (chan (state r)) = true ∧
  outcome_of r = outcome_of u ∧
  (outcome_of u = Returned → outcome_of r = Returned) ∧
  (outcome_of u = Thrown → outcome_of r = Thrown).
Proof.
  intros Hfun Hv Hin Hs s u r.
  assert (at_least Unset false false (EChan false Unset (Channel.fresh buffer)))
    as H0 by done.
  pose proof (script_emit_end dev code Unset fuel v (on_subscribe code) I Hv _ H0 Hin Hs)
    as (Hu1 & Hc1 & Hb1).
  pose proof (script_sound (run dev code fuel) Unset false false I
                (run_sound dev code Unset false false fuel I) (on_subscribe code) _ H0)
    as [_ Hq1].
  fold (subscribed code (run dev code fuel) buffer) in Hu1, Hc1, Hb1, Hq1.
  fold s in Hu1, Hc1, Hb1, Hq1, Hs.
  assert (at_least (Once true) true true
            (EChan (closed (state s)) (Once true) (chan (state s)))) as H2.
  { repeat split; simpl; auto. }
  pose proof (script_sound (run dev code fuel) (Once true) true true I
                (run_sound dev code (Once true) true true fuel I)
                (on_unsubscribe code) _ H2) as [(_ & _ & Hb2) Hq2].
  fold u in Hb2, Hq2.
  assert (r = Result (state u) [Node Subscribe (trace s); Node Unsubscribe (trace u)]
                     (outcome_of u)) as ->.
  { subst r. unfold u, eventChannel. fold s.
    rewrite and_then_returned by done. simpl.
    rewrite Hfun. simpl. rewrite (Hc1 eq_refl). unfold call_unsubscribe. simpl.
    done. }
  simpl. repeat split; auto.
  change [Node Subscribe (trace s); Node Unsubscribe (trace u)]
    with ([Node Subscribe (trace s)] ++ [Node Unsubscribe (trace u)]).
  rewrite everything_app, !everything_node, filter_app, length_app, !filter_cons.
  simpl. rewrite (count_none _ Hq1), (count_none _ Hq2). done.
Qed.

Lemma C10_end_during_subscribe_witness :
  let s := subscribed eager (run true eager 6) (Ring none []) in
  let u := script (run true eager 6) (on_unsubscribe eager)
                  (EChan (closed (state s)) (Once true) (chan (state s))) in
  let r := eventChannel eager (run true eager 6) (Ring none []) in
  direct (trace r) = [Subscribe; Unsubscribe] ∧
  length (filter (λ l, l = Unsubscribe) (everything (trace r))) = 1 ∧
  Channel.closed (chan (state r)) = true ∧
  outcome_of r = outcome_of u ∧
  (outcome_of u = Returned → outcome_of r = Returned) ∧
  (outcome_of u = Thrown → outcome_of r = Thrown).
Proof.
  apply (C10_end_during_subscribe ring true eager 6 (Ring none []) END).
  - reflexivity.
  - reflexivity.
  - apply list_elem_of_In. simpl. tauto.
  - vm_compute. reflexivity.
Defined.

End EventChannelFacts.

(** ** Multicast channel *)

Module SnapshotFacts.
Import Multicast Listeners Snapshot.

Section Facts.
Variable dev : bool.
Variable react : nat → input → list op.
Variable pattern : nat → option (input → bool).
Variables (arr : nat) (X : list nat).
Implicit Types (s : mchan) (rec : jump → mchan → res).

Lemma array_snapshot s : keeps_snapshot arr X s → array s arr = X.
Proof. intros [H _]. unfold array. by rewrite H. Qed.

Lemma ensure_keeps s :
  keeps_snapshot arr X s →
  keeps_snapshot arr X (ensureCanMutateNextTakers s) ∧
  arr ≠ nextTakers (ensureCanMutateNextTakers s).
Proof.
  intros [Ha Hn]. unfold ensureCanMutateNextTakers.
  pose proof (lookup_lt_Some _ _ _ Ha) as Hlt.
  case_bool_decide as Hsh; simpl.
  - repeat split; simpl; [by apply lookup_app_l_Some | lia | lia].
  - repeat split; auto.
Qed.

Lemma mutate_keeps f s :
  keeps_snapshot arr X s → arr ≠ nextTakers s →
  keeps_snapshot arr X (mutate_next f s).
Proof.
  intros [Ha Hn] Hne. split; simpl; [|done].
  by rewrite list_lookup_insert_ne.
Qed.

Lemma call_once_kept k s s' :
  kept pattern arr X s → call_once k s = Some s' → kept pattern arr X s'.
Proof.
  intros [Hk Hs] Hc. unfold call_once in Hc.
  destruct (onces s !! k) as [[cb []]|]; simplify_eq; [done|].
  set (s1 := MChan _ _ _ _ _ _ _).
  assert (keeps_snapshot arr X s1) as H1 by done.
  destruct (ensure_keeps s1 H1) as [H2 H3].
  split; [by apply mutate_keeps|].
  unfold mutate_next, ensureCanMutateNextTakers, stable. subst s1. simpl.
  case_bool_decide; simpl; apply Hs.
Qed.

Lemma register_kept cb m s :
  kept pattern arr X s → compile m = pattern cb → kept pattern arr X (register cb m s).
Proof.
  intros [Hk Hs] Hm. unfold register.
  set (s1 := MChan _ _ _ _ (<[cb:=compile m]> (MATCH s)) _ _).
  assert (keeps_snapshot arr X s1) as H1 by done.
  destruct (ensure_keeps s1 H1) as [H2 H3].
  pose proof (mutate_keeps (λ l, l ++ [cb]) _ H2 H3) as [H4 H5].
  split; [done|].
  intros c p. unfold mutate_next, ensureCanMutateNextTakers. subst s1. simpl.
  case_bool_decide; simpl; (destruct (decide (cb = c)) as [->|Hne];
    [rewrite lookup_insert_eq; congruence | rewrite lookup_insert_ne by done; apply Hs]).
Qed.

Lemma cancel_keeps cb s :
  kept pattern arr X s → kept pattern arr X (state (cancel (L:=event) whole cb s)).
Proof.
  intros Hs. unfold cancel. simpl.
  destruct (cancel_of s !! cb) as [k|]; [|done].
  destruct (call_once k s) as [s'|] eqn:E; [|done].
  by apply (call_once_kept k s).
Qed.

Section Step.
Variable rec : jump → mchan → res.
Hypothesis react_stable : ∀ cb v, Forall (stable_op pattern) (react cb v).
Hypothesis rec_keeps :
  ∀ j s, stable_jump pattern j → kept pattern arr X s → kept pattern arr X (state (rec j s)).

Lemma script_kept os : Forall (stable_op pattern) os →
  ∀ s, kept pattern arr X s → kept pattern arr X (state (script rec os s)).
Proof.
  induction 1 as [|o os Ho _ IH]; intros s Hs; simpl; [done|].
  pose proof (rec_keeps (Do o) s Ho Hs) as H1.
  unfold and_then. simpl. destruct (outcome_of (rec (Do o) s)); simpl; auto.
Qed.

Lemma invoke_kept cb v s :
  kept pattern arr X s → kept pattern arr X (state (invoke react rec cb v s)).
Proof. intros Hs. simpl. by apply script_kept. Qed.

Lemma walk_keeps a i v s :
  kept pattern arr X s →
  kept pattern arr X
    (state (walk whole (invoke react rec) (walk_again rec) a i v s)).
Proof.
  intros Hs. unfold walk. simpl.
  destruct (array s a !! i) as [taker|]; [|done].
  destruct (MATCH s !! taker) as [[p|]|]; try done.
  destruct (p v); [|by apply rec_keeps].
  pose proof (cancel_keeps taker s Hs) as H1.
  unfold and_then at 1. destruct (outcome_of (cancel whole taker s)); simpl; try done.
  pose proof (invoke_kept taker v _ H1) as H2.
  unfold and_then. simpl in *.
  destruct (outcome_of (script rec (react taker v) _)); simpl; try done.
  by apply rec_keeps.
Qed.

Lemma close_walk_keeps a i s :
  kept pattern arr X s →
  kept pattern arr X
    (state (close_walk whole (invoke react rec) (close_again rec) a i s)).
Proof.
  intros Hs. unfold close_walk. simpl.
  destruct (array s a !! i) as [taker|]; [|done].
  pose proof (invoke_kept taker END _ Hs) as H2.
  unfold and_then. simpl in *.
  destruct (outcome_of (script rec (react taker END) _)); simpl; try done.
  by apply rec_keeps.
Qed.

Lemma close_keeps s :
  kept pattern arr X s →
  kept pattern arr X (state (close whole (invoke react rec) (close_again rec) s)).
Proof.
  intros [[Ha Hn] Hs]. unfold close. simpl.
  set (s1 := MChan true _ _ _ _ _ _).
  assert (kept pattern arr X s1) as H1 by done.
  pose proof (close_walk_keeps (nextTakers s) 0 s1 H1) as [[Ha2 Hn2] Hs2].
  unfold and_then.
  destruct (outcome_of (close_walk _ _ _ _ _ s1)); simpl; try done.
  pose proof (lookup_lt_Some _ _ _ Ha2) as Hlt.
  repeat split; simpl; [by apply lookup_app_l_Some | lia | done].
Qed.

Lemma step_kept j s :
  stable_jump pattern j → kept pattern arr X s →
  kept pattern arr X (state (step dev react rec j s)).
Proof.
  intros Hj Hs. destruct j as [[v|cb m| |cb|]|a i v|a i]; simpl.
  - unfold put. simpl.
    destruct (dev && _); [done|].
    destruct (closed s); [done|].
    destruct (isEnd v); [by apply close_keeps|].
    apply walk_keeps. by destruct Hs as [[??]?].
  - unfold take. simpl. destruct (closed s); [by apply invoke_kept|].
    by apply register_kept.
  - by apply close_keeps.
  - by apply cancel_keeps.
  - done.
  - by apply walk_keeps.
  - by apply close_walk_keeps.
Qed.
End Step.

Hypothesis react_stable : ∀ cb v, Forall (stable_op pattern) (react cb v).

Lemma run_kept fuel : ∀ j s,
  stable_jump pattern j → kept pattern arr X s →
  kept pattern arr X (state (run dev react fuel j s)).
Proof.
  induction fuel as [|f IH]; intros j s Hj Hs; [done|].
  simpl. by apply step_kept.
Qed.

(** The loop of [put] over the array at [arr], from index [i]: it calls,
    in order, the takers of [X] from [i] on that accept [v]. *)
Lemma walk_calls v fuel : ∀ i s,
  kept pattern arr X s →
  let r := run dev react fuel (Walk arr i v) s in
  direct (trace r) `prefix_of` expected pattern v (drop i X) ∧
  (outcome_of r = Returned → direct (trace r) = expected pattern v (drop i X)).
Proof.
  induction fuel as [|f IH]; intros i s Hs; simpl.
  { split; [apply prefix_nil | done]. }
  unfold walk. simpl. rewrite (array_snapshot s (proj1 Hs)).
  destruct (X !! i) as [taker|] eqn:Ei.
  2:{ apply lookup_ge_None in Ei. rewrite drop_ge by done. done. }
  rewrite (drop_S _ _ _ Ei). unfold expected. rewrite filter_cons.
  fold (expected pattern v (drop (S i) X)).
  destruct (MATCH s !! taker) as [[p|]|] eqn:Em;
    try (split; [apply prefix_nil | done]).
  pose proof (proj2 Hs taker _ Em) as Hp.
  assert (accepts pattern v taker = p v) as Hacc
    by (unfold accepts; by rewrite <- Hp).
  destruct (p v) eqn:Epv.
  - rewrite decide_True by done. simpl.
    pose proof (cancel_keeps taker s Hs) as H1.
    assert (trace (cancel (L:=event) whole taker s) = []) as Hct.
    { unfold cancel. simpl. destruct (cancel_of s !! taker); [|done].
      by destruct (call_once _ s). }
    destruct (and_then_cases (cancel whole taker s)
                (λ g1, and_then (invoke react (run dev react f) taker v g1)
                                (walk_again (run dev react f) arr (S i) v)))
      as [[Hc ->]|[Hc ->]]; simpl.
    2:{ rewrite Hct. split; [apply prefix_nil | done]. }
    rewrite Hct. simpl.
    set (s1 := state (cancel whole taker s)) in *.
    pose proof (invoke_kept (run dev react f) react_stable (run_kept f) taker v s1 H1)
      as H2.
    destruct (IH (S i) _ H2) as [IH1 IH2].
    destruct (and_then_cases (invoke react (run dev react f) taker v s1)
                (walk_again (run dev react f) arr (S i) v))
      as [[Hi ->]|[Hi ->]]; simpl.
    + rewrite direct_cons. simpl. split; [by apply prefix_cons|].
      intros Ho. f_equal. by apply IH2.
    + rewrite direct_cons, direct_nil. simpl. split; [|done].
      apply prefix_cons, prefix_nil.
  - rewrite decide_False by (by rewrite Hacc). by apply IH.
Qed.

Lemma run_all_kept fuel ops : Forall (stable_op pattern) ops →
  ∀ s, kept pattern arr X s → kept pattern arr X (state (run_all dev react fuel ops s)).
Proof.
  induction 1 as [|o ops Ho _ IH]; intros s Hs; simpl; [done|].
  pose proof (run_kept fuel (Do o) s Ho Hs) as H1.
  unfold then_anyway. destruct (outcome_of (run dev react fuel (Do o) s)); simpl; auto.
Qed.
End Facts.

Lemma initial_kept pattern : kept pattern 0 [] initial.
Proof. split; [done|]. intros cb p. simpl. by rewrite lookup_empty. Qed.

Lemma expected_subset pattern v X cb :
  Call cb v ∈ expected pattern v X → cb ∈ X.
Proof.
  unfold expected. intros (c & Heq & Hc)%list_elem_of_fmap.
  apply list_elem_of_filter in Hc as [_ Hc]. by simplify_eq.
Qed.

Lemma expected_NoDup pattern v X : NoDup X → NoDup (expected pattern v X).
Proof.
  intros HX. unfold expected. apply NoDup_fmap_2.
  - intros a b Hab. by simplify_eq.
  - by apply NoDup_filter.
Qed.

(** Callback 0, when called, cancels callback 1, which comes after it in
    the array the put walks over; callback 1 is removed while the put
    iterates and is called by this put all the same. *)
Lemma removed_taker_still_called :
  ¬ put_as_specified false meddling everyone 9 tick two_waiting.
Proof.
  intros [_ Hnot]. apply (Hnot 1).
  - right. apply list_elem_of_In. vm_compute. tauto.
  - apply list_elem_of_In. vm_compute. tauto.
Qed.

(** The predicate of callback 1 refuses the input at entry to the put;
    callback 0, when called, registers callback 1 again, for every input.
    The loop reads [taker[MATCH]] when it comes to callback 1, finds the new
    predicate, and calls it. *)
Lemma reregistered_taker_called :
  direct (trace (run false reregistering 10 (Do (Put tick)) one_refusing))
  = [Call 0 tick; Call 1 tick] ∧
  expected at_entry tick (array one_refusing (nextTakers one_refusing)) = [Call 0 tick] ∧
  ¬ put_as_specified false reregistering at_entry 9 tick one_refusing.
Proof.
  assert (direct (trace (run false reregistering 10 (Do (Put tick)) one_refusing))
          = [Call 0 tick; Call 1 tick]) as H1 by (by vm_compute).
  assert (expected at_entry tick (array one_refusing (nextTakers one_refusing))
          = [Call 0 tick]) as H2 by (by vm_compute).
  split; [done|]. split; [done|].
  intros [Heq _]. rewrite H1, H2 in Heq. discriminate.
Qed.




End SnapshotFacts.

(** ** Standard channel *)

(** What the multicast functions and the scheduler functions keep, whatever
    the program state around them: here only which callbacks are made. *)
Section CallsOnly.
Context {G L : Type} (E : L → Prop).

Definition only (f : G → result G L) : Prop := sound (λ _, True) E f.

Lemma only_ret : only ret.
Proof. apply sound_ret. Qed.

Lemma only_throw : only throw.
Proof. apply sound_throw. Qed.

Lemma only_and_then f k : only f → only k → only (λ g, and_then (f g) k).
Proof. apply sound_and_then. Qed.

Lemma only_at f g : only f → True ∧ Forall E (everything (trace (f g))).
Proof. intros Hf. by apply (Hf g). Qed.

Lemma only_and_then_at f k g :
  only f → only k → Forall E (everything (trace (and_then (f g) k))).
Proof. intros Hf Hk. by apply (only_and_then f k Hf Hk g). Qed.

Section MulticastCalls.
Import Multicast.
Context (here : lens G mchan) (dev : bool).
Variable invoke : nat → input → G → result G L.
Variable walk_again : nat → nat → input → G → result G L.
Variable close_again : nat → nat → G → result G L.
Hypothesis invoke_only : ∀ cb v, only (invoke cb v).
Hypothesis walk_again_only : ∀ arr i v, only (walk_again arr i v).
Hypothesis close_again_only : ∀ arr i, only (close_again arr i).

Lemma cancel_only cb : only (cancel here cb).
Proof using Type.
  intros g _. split; [done|]. unfold cancel.
  destruct (cancel_of _ !! cb); [|apply Forall_nil_2].
  destruct (call_once _ _); apply Forall_nil_2.
Qed.

Lemma close_walk_only arr i : only (close_walk here invoke close_again arr i).
Proof using invoke_only close_again_only.
  intros g _. split; [done|]. unfold close_walk.
  destruct (array _ arr !! i) as [taker|]; [|apply Forall_nil_2].
  by apply only_and_then_at.
Qed.

Lemma close_only : only (close here invoke close_again).
Proof using invoke_only close_again_only.
  intros g _. split; [done|]. unfold close.
  apply (only_and_then_at (close_walk here invoke close_again _ 0)).
  - apply close_walk_only.
  - intros g2 _. split; [done | apply Forall_nil_2].
Qed.

Lemma walk_only arr i v : only (walk here invoke walk_again arr i v).
Proof using invoke_only walk_again_only.
  intros g _. split; [done|]. unfold walk.
  destruct (array _ arr !! i) as [taker|]; [|apply Forall_nil_2].
  destruct (MATCH _ !! taker) as [[p|]|]; try apply Forall_nil_2.
  destruct (p v); [|by apply walk_again_only].
  apply (only_and_then_at (cancel here taker)); [apply cancel_only|].
  apply (only_and_then (invoke taker v)); auto.
Qed.

Lemma put_only v : only (put here dev invoke walk_again close_again v).
Proof.
  intros g _. split; [done|]. unfold put.
  destruct (dev && _); [apply Forall_nil_2|].
  destruct (closed _); [apply Forall_nil_2|].
  destruct (isEnd v); [by apply close_only | by apply walk_only].
Qed.

Lemma take_only cb m : only (take here invoke cb m).
Proof using invoke_only.
  intros g _. split; [done|]. unfold take.
  destruct (closed _); [by apply invoke_only | apply Forall_nil_2].
Qed.
End MulticastCalls.

Section SchedulerCalls.
Import Scheduler.
Context {T : Type} (here : lens G (sched T)).
Variable call_task : T → G → result G L.
Variable again : G → result G L.
Variable began : T → Z → L.
Hypothesis call_task_only : ∀ t, only (call_task t).
Hypothesis again_only : only again.
Hypothesis lens_law : ∀ s g, view here (update here s g) = s.
Hypothesis began_released : ∀ t, E (began t 0%Z).

(** The loop starts a closure only when it finds the semaphore at 0. *)
Lemma flush_loop_only : only (flush_loop here call_task again began).
Proof.
  intros g _. split; [done|]. unfold flush_loop.
  case_bool_decide as Hz; [|apply Forall_nil_2].
  destruct (queue (view here g)) as [|t q]; [apply Forall_nil_2|].
  apply everything_and_then; [|intros _; by apply again_only].
  unfold exec. cbn [trace]. rewrite everything_node. constructor.
  - unfold over. rewrite lens_law. simpl. rewrite Hz. apply began_released.
  - by apply call_task_only.
Qed.

Lemma flush_only : only (flush here call_task again began).
Proof. intros g _. unfold flush. by apply flush_loop_only. Qed.

Lemma asap_only t : only (asap here call_task again began t).
Proof.
  intros g _. split; [done|]. unfold asap.
  case_bool_decide; [by apply flush_only | apply Forall_nil_2].
Qed.
End SchedulerCalls.
End CallsOnly.

Module StdFacts.
Import Std.

Section Facts.
Variable dev : bool.
Variable react : nat → input → list op.
Variable body : nat → list op.

Lemma script_only rec os :
  (∀ j, only released (rec j)) → only released (script rec os).
Proof.
  intros Hrec. induction os as [|o os IH]; simpl; [apply only_ret|].
  by apply (only_and_then released (rec (Do o))).
Qed.

Lemma invoke_only rec cb v :
  (∀ j, only released (rec j)) → only released (invoke react rec cb v).
Proof.
  intros Hrec. apply (sound_under _ _ (Call cb v)); [done|]. by apply script_only.
Qed.

Lemma step_only rec j :
  (∀ j, only released (rec j)) → only released (step dev react body rec j).
Proof.
  intros Hrec.
  assert (∀ cb v, only released (invoke react rec cb v)) as Hi
    by (intros; by apply invoke_only).
  assert (∀ v, only released (multicast_put dev react rec v)) as Hp
    by (intros v; apply put_only; auto).
  assert (∀ t, released (Begin t 0)) as Hb by done.
  assert (∀ t, only released (asap rec t)) as Ha
    by (intros t; apply asap_only; auto).
  intros w _.
  destruct j as [[v|cb m| |cb|n| | |]|[v|n]| |arr i v|arr i]; cbn [step]; cbn beta.
  - destruct v as [|a]; [by apply only_throw|]. unfold put.
    destruct (saga_action a); apply only_at; [apply Hp | apply Ha].
  - apply only_at, take_only; auto.
  - apply only_at, close_only; auto.
  - apply only_at, cancel_only; auto.
  - apply only_at, Ha.
  - split; [done | apply Forall_nil_2].
  - apply only_at, flush_only; auto.
  - by apply only_throw.
  - apply only_at, Hp.
  - by apply only_at, script_only.
  - apply only_at, flush_loop_only; auto.
  - apply only_at, walk_only; auto.
  - apply only_at, close_walk_only; auto.
Qed.

(** In every run, every queued closure is started with the semaphore at 0. *)
Lemma run_only fuel : ∀ j, only released (run dev react body fuel j).
Proof.
  induction fuel as [|f IH]; intros j; simpl.
  - apply sound_out_of_fuel.
  - by apply step_only.
Qed.
End Facts.




End StdFacts.

(** ** Completion of an effect *)

Module DigestFacts.
Import Digest.

Lemma count_app f (a b : list (tree event)) : count f (a ++ b) = count f a + count f b.
Proof. unfold count. by rewrite everything_app, filter_app, length_app. Qed.

Lemma count_nil f : count f [] = 0.
Proof. done. Qed.

Lemma count_node f l (s : list (tree event)) :
  count f [Node l s] = (if f l then 1 else 0) + count f s.
Proof.
  unfold count. rewrite everything_node, filter_cons.
  destruct (f l); [by rewrite decide_True | by rewrite decide_False].
Qed.

Lemma count_cons f (t : tree event) (tr : list (tree event)) :
  count f (t :: tr) = count f [t] + count f tr.
Proof. by rewrite <- count_app. Qed.

Lemma count_and_then f (r : res) k :
  count f (trace (and_then r k)) =
  count f (trace r) +
  (if decide (outcome_of r = Returned) then count f (trace (k (state r))) else 0).
Proof.
  destruct (and_then_cases r k) as [[Ho ->]|[Ho ->]]; simpl.
  - by rewrite count_app, decide_True.
  - rewrite decide_False by done. lia.
Qed.

Lemma count_then_anyway f (r : res) k :
  count f (trace (then_anyway r k)) ≤ count f (trace r) + count f (trace (k (state r))).
Proof.
  unfold then_anyway. destruct (outcome_of r); simpl; rewrite ?count_app; lia.
Qed.

Section Facts.
Variable monitor : bool.
Variable code : user.
Implicit Types (s : effect) (rec : op → effect → res).

Lemma tell_silent l s :
  settles l = false → effectSettled s = true → silent (tell monitor l s).
Proof.
  intros Hl Hs. unfold tell, silent. destruct monitor; simpl; [|done].
  split; [done|]. by rewrite count_node, Hl.
Qed.

Lemma tell_state l s : state (tell monitor l s) = s.
Proof. unfold tell. by destruct monitor. Qed.

Lemma tell_returned l s : outcome_of (tell monitor l s) = Returned.
Proof. unfold tell. by destruct monitor. Qed.

Section Step.
Variable rec : op → effect → res.
Hypothesis rec_silent : ∀ o s, effectSettled s = true → silent (rec o s).

Lemma script_silent os : ∀ s, effectSettled s = true → silent (script rec os s).
Proof.
  induction os as [|o os IH]; intros s Hs; simpl; [done|].
  destruct (rec_silent o s Hs) as [H1 H2].
  destruct (and_then_cases (rec o s) (script rec os)) as [[Ho ->]|[Ho ->]]; [|done].
  destruct (IH _ H1) as [H3 H4]. split; simpl; [done|].
  rewrite count_app. lia.
Qed.

(** Once the effect is settled, a completion and the installed cancel do
    nothing. *)
Lemma step_settled o s :
  effectSettled s = true → silent (step monitor code rec o s).
Proof.
  intros Hs. destruct o as [r isErr| | |k|]; simpl.
  - unfold currCb. by rewrite Hs.
  - unfold installed_cancel. by rewrite Hs.
  - unfold installed_cancel. rewrite Hs. by destruct (cb_cancel s).
  - done.
  - done.
Qed.

Lemma currCb_once r isErr s : once_at_most s (currCb monitor code rec r isErr s).
Proof.
  unfold currCb. destruct (effectSettled s) eqn:Es.
  { split; simpl; [rewrite count_nil; lia | done]. }
  set (s1 := Effect true false _ _).
  rewrite and_then_returned by apply tell_returned. rewrite tell_state. simpl.
  set (s3 := Effect true false _ _).
  destruct (script_silent (on_continue code r isErr) s3 eq_refl) as [H1 H2].
  assert (count settles (trace (tell monitor (if isErr then effectRejected r
                                               else effectResolved r) s1)) = 0) as H0.
  { apply tell_silent; [by destruct isErr | done]. }
  split; simpl; [|done].
  rewrite count_app, count_node, H0, H2. simpl. lia.
Qed.

Lemma try_downstream_silent s :
  effectSettled s = true → silent (try_downstream code rec s).
Proof.
  intros Hs. unfold try_downstream. destruct (currCb_cancel s) as [k|]; [|done].
  destruct (script_silent (on_downstream code k) s Hs) as [H1 H2].
  assert (count settles [Node (Downstream k) (trace (script rec (on_downstream code k) s))]
          = 0) as H3 by (by rewrite count_node).
  simpl. destruct (outcome_of (script rec (on_downstream code k) s)); split; simpl;
    try done.
  rewrite count_cons, H3. by rewrite count_node.
Qed.

Lemma installed_cancel_once s : once_at_most s (installed_cancel monitor code rec s).
Proof.
  unfold installed_cancel. destruct (effectSettled s) eqn:Es.
  { split; simpl; [rewrite count_nil; lia | done]. }
  set (s1 := Effect true _ _ _).
  destruct (try_downstream_silent s1 eq_refl) as [H1 H2].
  set (k := λ s2, tell monitor effectCancelled _).
  assert (effectSettled (state (and_then (try_downstream code rec s1) k)) = true ∧
          count settles (trace (and_then (try_downstream code rec s1) k)) = 0)
    as [H3 H4].
  { destruct (and_then_cases (try_downstream code rec s1) k) as [[Ho ->]|[Ho ->]];
      [|done].
    subst k. simpl. rewrite tell_state. simpl. split; [done|].
    rewrite count_app, H2. simpl. by apply tell_silent. }
  split; simpl; [|done].
  rewrite count_node, H4. simpl. lia.
Qed.

Lemma step_once o s : once_at_most s (step monitor code rec o s).
Proof.
  destruct o as [r isErr| | |k|]; simpl.
  - apply currCb_once.
  - apply installed_cancel_once.
  - destruct (cb_cancel s); [apply installed_cancel_once|].
    split; simpl; [rewrite count_nil; lia | by intros [|]].
  - split; simpl; [rewrite count_nil; lia | by intros [|]].
  - split; simpl; [rewrite count_nil; lia | by intros [|]].
Qed.
End Step.

Lemma run_settled fuel : ∀ o s,
  effectSettled s = true → silent (run monitor code fuel o s).
Proof.
  induction fuel as [|f IH]; intros o s Hs; [done|].
  simpl. by apply step_settled.
Qed.

Lemma run_once fuel o s : once_at_most s (run monitor code fuel o s).
Proof.
  destruct fuel as [|f]; simpl.
  - split; simpl; [rewrite count_nil; lia | by intros [|]].
  - apply step_once. apply run_settled.
Qed.

Lemma once_seq s (r1 r2 : res) o :
  once_at_most s r1 →
  (effectSettled (state r1) = true → silent r2) →
  once_at_most (state r1) r2 →
  once_at_most s (Result (state r2) (trace r1 ++ trace r2) o).
Proof.
  intros [H1 H2] Hsil [H3 H4]. unfold once_at_most. simpl. rewrite count_app.
  destruct (effectSettled (state r1)) eqn:Es.
  - destruct (Hsil eq_refl) as [H5 H6]. rewrite H6. split; [lia | auto].
  - assert (count settles (trace r1) = 0) as H0.
    { destruct (decide (count settles (trace r1) = 1)) as [E|E]; [|lia].
      by specialize (H2 (or_introl E)). }
    rewrite H0. split; [lia|].
    intros [Hc|Hs]; [apply H4; left; lia|].
    by specialize (H2 (or_intror Hs)).
Qed.

Lemma script_once fuel os : ∀ s, once_at_most s (script (run monitor code fuel) os s).
Proof.
  induction os as [|o os IH]; intros s; simpl.
  { split; simpl; [rewrite count_nil; lia | by intros [|]]. }
  destruct (and_then_cases (run monitor code fuel o s) (script (run monitor code fuel) os))
    as [[Ho ->]|[Ho ->]]; [|apply run_once].
  apply once_seq; [apply run_once | | apply IH].
  apply script_silent. apply run_settled.
Qed.

Lemma run_all_settled fuel ops : ∀ s,
  effectSettled s = true → silent (run_all monitor code fuel ops s).
Proof.
  induction ops as [|o ops IH]; intros s Hs; simpl; [done|].
  destruct (run_settled fuel o s Hs) as [H1 H2].
  destruct (IH _ H1) as [H3 H4].
  unfold then_anyway. destruct (outcome_of (run monitor code fuel o s)); try done;
    split; simpl; try done; rewrite count_app; lia.
Qed.

Lemma run_all_once fuel ops : ∀ s,
  once_at_most s (run_all monitor code fuel ops s).
Proof.
  induction ops as [|o ops IH]; intros s; simpl.
  { split; simpl; [rewrite count_nil; lia | by intros [|]]. }
  unfold then_anyway.
  destruct (outcome_of (run monitor code fuel o s)) eqn:Eo; [| |apply run_once];
    (apply once_seq; [apply run_once | apply run_all_settled | apply IH]).
Qed.

(** From [digestEffect] on, and whatever is called later, the effect is
    settled at most once. *)
Lemma life_once fuel later :
  count settles (trace (life monitor code fuel later)) ≤ 1.
Proof.
  unfold life, digestEffect.
  set (s0 := Effect false true None false).
  assert (once_at_most s0
            (and_then (tell monitor effectTriggered s0)
                      (script (run monitor code fuel) (runner code)))) as Hd.
  { rewrite and_then_returned by apply tell_returned. rewrite tell_state.
    apply (once_seq s0 (tell monitor effectTriggered s0)
             (script (run monitor code fuel) (runner code) s0)).
    - unfold tell. destruct monitor; split; simpl;
        rewrite ?count_node, ?count_nil; simpl; try lia; by intros [|].
    - by rewrite tell_state.
    - rewrite tell_state. apply script_once. }
  set (d := and_then _ _) in *.
  unfold then_anyway. destruct (outcome_of d); [| |apply Hd];
    (apply (once_seq s0 d (run_all monitor code fuel later (state d)));
       [done | apply run_all_settled | apply run_all_once]).
Qed.

(** A completion and the installed cancel leave the effect settled, however
    they end. *)
Lemma settled_after fuel s r isErr :
  effectSettled (state (run monitor code (S fuel) (Complete r isErr) s)) = true ∧
  effectSettled (state (run monitor code (S fuel) CancelInstalled s)) = true.
Proof.
  split; simpl.
  - unfold currCb. destruct (effectSettled s) eqn:Es; [done|].
    rewrite and_then_returned by apply tell_returned. rewrite tell_state. simpl.
    by apply script_silent; [apply run_settled|].
  - unfold installed_cancel. destruct (effectSettled s) eqn:Es; [done|].
    set (s1 := Effect true _ _ _). simpl.
    destruct (try_downstream_silent (run monitor code fuel) (run_settled fuel) s1 eq_refl)
      as [H1 H2].
    destruct (and_then_cases (try_downstream code (run monitor code fuel) s1)
                (λ s2, tell monitor effectCancelled
                         (Effect (effectSettled s2) (cb_cancel s2) None (crashedEffect s2))))
      as [[Ho ->]|[Ho ->]]; [|done].
    simpl. by rewrite tell_state.
Qed.

Lemma continue_settles (tr : list (tree event)) : count is_continue tr ≤ count settles tr.
Proof.
  unfold count. induction (everything tr) as [|l ls IH]; [done|].
  rewrite !filter_cons. destruct l; simpl; lia.
Qed.
End Facts.

(** C1: in the life of an effect, from [digestEffect] on and whatever is
    called later or by the callbacks themselves, the continuation [cb] is
    called at most once, and completions and cancels that take effect are at
    most one together.  Once the effect is settled, a completion, the
    installed cancel and [cb.cancel()] do nothing; and a completion or the
    installed cancel leaves it settled from the moment it is called. *)
Theorem C1_settled_at_most_once (monitor : bool) (code : user) (fuel : nat)
    (later : list op) :
  let r := life monitor code fuel later in
  count is_continue (trace r) ≤ 1 ∧
  count settles (trace r) ≤ 1 ∧
  (∀ s res isErr, effectSettled s = true →
     run monitor code (S fuel) (Complete res isErr) s = ret s ∧
     run monitor code (S fuel) CancelInstalled s = ret s ∧
     run monitor code (S fuel) CancelProperty s = ret s) ∧
  (∀ s res isErr,
     effectSettled (state (run monitor code (S fuel) (Complete res isErr) s)) = true ∧
     effectSettled (state (run monitor code (S fuel) CancelInstalled s)) = true).
Proof.
  intros r. pose proof (life_once monitor code fuel later) as H1.
  pose proof (continue_settles (trace r)) as H2.
  repeat split.
  - subst r. lia.
  - done.
  - simpl. unfold currCb. by rewrite H.
  - simpl. unfold installed_cancel. by rewrite H.
  - simpl. unfold installed_cancel. rewrite H. by destruct (cb_cancel s).
  - apply settled_after.
  - apply (settled_after monitor code fuel s 0 false).
Qed.

Lemma C1_settled_at_most_once_witness :
  count is_continue
        (trace (life true pending 6 [CancelInstalled; Complete 5 true; CancelProperty])) ≤ 1 ∧
  run true pending 7 CancelInstalled settled_one = ret settled_one.
Proof.
  split.
  - apply (C1_settled_at_most_once true pending 6).
  - apply (C1_settled_at_most_once true pending 6 []). exact 0. exact false.
    reflexivity.
Defined.

End DigestFacts.

(** ** Fork queue and task *)

Module ProcFacts.
Import ForkQueue Proc Later.

Lemma later_refl p : later p p.
Proof. by repeat split. Qed.

Lemma later_trans p1 p2 p3 : later p1 p2 → later p2 p3 → later p1 p3.
Proof.
  intros (A1 & B1 & C1) (A2 & B2 & C2). split; [|split].
  - intros Hc. destruct (A1 Hc) as [H1 H2]. destruct (A2 H1) as [H3 H4].
    split; [done | by etrans].
  - by etrans.
  - auto.
Qed.

Lemma propagations_app (a b : list (tree event)) :
  propagations (a ++ b) = propagations a + propagations b.
Proof. unfold propagations. by rewrite everything_app, filter_app, length_app. Qed.

Lemma propagations_node l (s : list (tree event)) :
  propagations [Node l s] = (if decide (l = Propagate) then 1 else 0) + propagations s.
Proof.
  unfold propagations. rewrite everything_node, filter_cons.
  by destruct (decide (l = Propagate)).
Qed.

Lemma good_ret p p' : later p p' → good p (ret p').
Proof. intros H. repeat split; simpl; try apply H; try done; unfold propagations; simpl; lia. Qed.

Lemma good_throw p p' : later p p' → good p (throw p').
Proof. intros H. repeat split; simpl; try apply H; try done; unfold propagations; simpl; lia. Qed.

Lemma good_out_of_fuel p : good p (out_of_fuel p).
Proof. repeat split; simpl; try done; unfold propagations; simpl; lia. Qed.

Lemma good_leaf l p p' : l ≠ Propagate → later p p' → good p (leaf l p').
Proof.
  intros Hl H. unfold good. simpl. rewrite propagations_node, decide_False by done.
  repeat split; try apply H; try done; unfold propagations; simpl; lia.
Qed.

Lemma good_and_then p (r : res) k :
  good p r → (∀ p', good p' (k p')) → good p (and_then r k).
Proof.
  intros (L1 & A1 & B1 & C1) Hk.
  destruct (and_then_cases r k) as [[Ho ->]|[Ho ->]]; [|done].
  destruct (Hk (state r)) as (L2 & A2 & B2 & C2).
  destruct L1 as (La & Lb & Lc). pose proof L2 as (La2 & Lb2 & Lc2).
  unfold good. simpl. rewrite propagations_app. split; [|split; [|split]].
  - by apply (later_trans p (state r)).
  - destruct (decide (propagations (trace r) = 1)) as [E|E].
    + rewrite (B2 (C1 E)). lia.
    + lia.
  - intros Hd. rewrite (B1 Hd), (B2 (Lc Hd)). done.
  - intros Hc. destruct (decide (propagations (trace r) = 1)) as [E|E].
    + apply Lc2, C1, E.
    + apply C2. lia.
Qed.

Lemma good_under l p (r : res) : l ≠ Propagate → good p r → good p (under l r).
Proof.
  intros Hl (L1 & A1 & B1 & C1). unfold good. simpl.
  rewrite propagations_node, decide_False by done. done.
Qed.

Lemma good_pre p p1 (r : res) : later p p1 → good p1 r → good p r.
Proof.
  intros L (L1 & A1 & B1 & C1). repeat split; try apply (later_trans p p1 _ L L1); auto.
  intros Hd. apply B1. by apply L.
Qed.

(** A call from a queue that was not completed, followed by a change of
    the queue alone. *)
Lemma good_reset p p1 (r : res) (h : proc → proc) :
  later p p1 → good p1 r → completed (queue p) = false →
  (∀ p', cancelledDueToErrorTasks (h p') = cancelledDueToErrorTasks p' ∧
         (dead p' → dead (h p'))) →
  good p (and_then r (λ g, ret (h g))).
Proof.
  intros L1 Hg Hc Hh.
  destruct (and_then_cases r (λ g, ret (h g))) as [[Ho ->]|[Ho ->]];
    [|by apply (good_pre p p1)].
  destruct Hg as ((_ & Lb & Lc) & A & B & C). destruct L1 as (_ & Lb1 & Lc1).
  destruct (Hh (state r)) as [Hn Hd].
  unfold good. simpl. rewrite propagations_app. unfold propagations at 2 4 6. simpl.
  rewrite Nat.add_0_r. split; [|split; [|split]]; auto.
  split; [|split].
  - intros Hc'. congruence.
  - rewrite Hn. by etrans.
  - auto.
Qed.

(** Solves [later p p'] where [p'] is [p] with some fields changed. *)
Ltac later_fields :=
  unfold later, dead; simpl;
  repeat match goal with
         | |- _ ∧ _ => split
         | |- _ → _ => intro
         end;
  simpl in *; try done; try (by left); try (by right); auto;
  try (by apply prefix_app_r); try congruence;
  try (match goal with H : _ ∨ _ |- _ => destruct H end;
       first [by left | by right | left; congruence | right; congruence | congruence]).

Section Step.
Variable name : nat → nat.
Variables (has_cont has_onError : bool).
Variable code : user.
Variable rec : op → proc → res.
Hypothesis rec_good : ∀ o p, good p (rec o p).

Lemma script_good os : ∀ p, good p (script rec os p).
Proof.
  induction os as [|o os IH]; intros p; simpl.
  - apply good_ret, later_refl.
  - by apply good_and_then.
Qed.

Lemma cancel_member_good t p : good p (cancel_member code rec t p).
Proof. apply good_under; [done | apply script_good]. Qed.

Lemma onAbort_good p : good p (onAbort name p).
Proof. apply good_leaf; [done|]. later_fields. Qed.

Lemma each_joiner_good r isErr n : ∀ k p, good p (each_joiner code rec r isErr n k p).
Proof.
  induction n as [|n IH]; intros k p; simpl.
  - apply good_ret, later_refl.
  - destruct (joiners p !! k) as [j|]; [|apply IH].
    apply good_and_then; [|apply IH].
    apply good_under; [done | apply script_good].
Qed.

Lemma settle_good l p p' : l ≠ Propagate → later p p' → good p (settle l p').
Proof.
  intros Hl H. unfold settle. destruct (deferredEnd p'); [by apply good_leaf | by apply good_ret].
Qed.

Lemma end_good r isErr p : good p (end_ has_cont has_onError code rec r isErr p).
Proof.
  unfold end_. apply good_and_then.
  - destruct isErr.
    + apply good_and_then.
      * destruct has_cont; [apply good_ret | apply good_leaf; [by destruct has_onError|]];
          later_fields.
      * intros p2. apply settle_good; [done|]. later_fields.
    + apply settle_good; [done|]. later_fields.
  - intros p3. apply good_and_then.
    + destruct has_cont; [|apply good_ret, later_refl].
      apply good_under; [done | apply script_good].
    + intros p4. destruct (joiners_null p4); [apply good_throw, later_refl|].
      apply good_and_then; [apply each_joiner_good|].
      intros p5. apply good_ret. later_fields.
Qed.

Lemma queue_cb_good r isErr p : good p (queue_cb has_cont has_onError code rec r isErr p).
Proof. apply good_under; [done | apply end_good]. Qed.

Lemma cancel_each_good n : ∀ k p,
  good p (cancel_each the_queue (cancel_member code rec) n k p).
Proof.
  induction n as [|n IH]; intros k p; simpl.
  - apply good_ret, later_refl.
  - destruct (tasks (queue p) !! k) as [t|]; [|apply IH].
    apply good_and_then; [|apply IH].
    eapply good_pre; [|apply cancel_member_good]. later_fields.
Qed.

Lemma cancelAll_good p : good p (cancelAll the_queue (cancel_member code rec) p).
Proof.
  unfold cancelAll. simpl. destruct (completed (queue p)) eqn:Ec.
  { apply good_ret, later_refl. }
  set (p1 := Proc _ _ _ _ _ _ _ _ _ _).
  assert (later p p1) as L1 by (subst p1; later_fields).
  apply (good_reset p p1); try done.
  apply cancel_each_good.
Qed.

Lemma abort_good err p :
  good p (abort the_queue (cancel_member code rec) (onAbort name)
                (queue_cb has_cont has_onError code rec) err p).
Proof.
  unfold abort. apply good_and_then; [apply onAbort_good|].
  intros p1. apply good_and_then; [apply cancelAll_good|].
  intros p2. apply queue_cb_good.
Qed.

Lemma continuation_good t r isErr p :
  good p (continuation the_queue (cancel_member code rec) (onAbort name)
                       (queue_cb has_cont has_onError code rec) t r isErr p).
Proof.
  unfold continuation. simpl. destruct (completed (queue p)) eqn:Ec.
  { apply good_ret, later_refl. }
  destruct isErr.
  - eapply good_pre; [|apply abort_good]. later_fields.
  - destruct (remove t (tasks (queue p))).
    + eapply good_pre; [|apply queue_cb_good]. later_fields.
    + apply good_ret. later_fields.
Qed.

Lemma cancel_good p : good p (cancel has_cont has_onError code rec p).
Proof.
  unfold cancel. destruct (isRunning p) eqn:Er, (isCancelled p) eqn:Ecc; simpl;
    try (apply good_ret, later_refl).
  set (p1 := Proc _ _ _ true _ _ _ _ _ _).
  assert (dead p1) as Hd1 by (by right).
  assert (later p p1) as L1 by (subst p1; later_fields).
  assert (good p1 (and_then (cancelAll the_queue (cancel_member code rec) p1)
                            (queue_cb has_cont has_onError code rec TASK_CANCEL false)))
    as (L & A & B & C).
  { apply good_and_then; [apply cancelAll_good | intros; apply queue_cb_good]. }
  unfold good. cbn [state trace under].
  rewrite propagations_node, decide_True by done. rewrite (B Hd1).
  split; [by apply (later_trans p p1)|]. split; [lia|]. split.
  - intros [Hd|Hd]; congruence.
  - intros _. by apply L.
Qed.

Lemma sealed_later T p p' : sealed T p → later p p' → sealed T p'.
Proof.
  intros [Hc HT] (L & _ & _). destruct (L Hc) as [Hc' HT'].
  split; [done | by etrans].
Qed.

(** The loop of [cancelAll] over a queue whose array begins with [T], and
    only grows meanwhile: it cancels the members in [T], in order. *)
Lemma cancel_each_calls T n : ∀ k p,
  sealed T p → n + k = length T →
  let r := cancel_each the_queue (cancel_member code rec) n k p in
  direct (trace r) `prefix_of` map CancelMember (drop k T) ∧
  (outcome_of r = Returned → direct (trace r) = map CancelMember (drop k T)).
Proof.
  induction n as [|n IH]; intros k p Hs Hk; simpl.
  { rewrite drop_ge by lia. done. }
  destruct (lookup_lt_is_Some_2 T k ltac:(lia)) as [t Ht].
  destruct Hs as [Hc HT].
  rewrite (prefix_lookup_Some _ _ _ _ Ht HT), (drop_S _ _ _ Ht). simpl.
  set (p' := Proc _ _ _ _ _ _ _ _ _ _).
  assert (sealed T p') as Hs' by done.
  pose proof (cancel_member_good t p') as (L & _).
  pose proof (sealed_later T _ _ Hs' L) as Hs''.
  destruct (IH (S k) _ Hs'' ltac:(lia)) as [IH1 IH2].
  destruct (and_then_cases (cancel_member code rec t p')
              (cancel_each the_queue (cancel_member code rec) n (S k)))
    as [[Ho ->]|[Ho ->]]; simpl.
  - rewrite direct_cons. simpl. split; [by apply prefix_cons|].
    intros Hr. f_equal. by apply IH2.
  - rewrite direct_cons, direct_nil. simpl. split; [|done].
    apply prefix_cons, prefix_nil.
Qed.

(** [cancelAll] on a queue that has not completed cancels its members, in
    order. *)
Lemma cancelAll_calls p :
  completed (queue p) = false →
  let r := cancelAll the_queue (cancel_member code rec) p in
  direct (trace r) `prefix_of` map CancelMember (tasks (queue p)) ∧
  (outcome_of r = Returned → direct (trace r) = map CancelMember (tasks (queue p))).
Proof.
  intros Hc. unfold cancelAll. simpl. rewrite Hc.
  set (p1 := Proc _ _ _ _ _ _ _ _ _ _).
  assert (sealed (tasks (queue p)) p1) as Hs by done.
  destruct (cancel_each_calls (tasks (queue p)) (length (tasks (queue p))) 0 p1 Hs
              ltac:(lia)) as [H1 H2].
  rewrite drop_0 in H1, H2.
  match goal with |- context [and_then ?r ?k] =>
    destruct (and_then_cases r k) as [[Ho ->]|[Ho ->]] end; simpl.
  - rewrite direct_app, direct_nil, app_nil_r. auto.
  - done.
Qed.

Lemma step_good o p : good p (step name has_cont has_onError code rec o p).
Proof.
  destruct o as [t r isErr|t|err| |j|j| |]; simpl.
  - unfold cont. case_bool_decide; [apply continuation_good | apply good_ret, later_refl].
  - unfold addTask. apply good_ret. later_fields.
  - apply abort_good.
  - apply cancel_good.
  - unfold join. destruct (isRunning p) eqn:Er.
    + apply good_ret. later_fields.
    + destruct (isAborted p); (apply good_under; [done | apply script_good]).
  - unfold unjoin. destruct (joiners_null p); [apply good_throw, later_refl|].
    apply good_ret. later_fields.
  - unfold toPromise. destruct (deferredEnd p); [apply good_ret, later_refl|].
    simpl. destruct (isRunning p) eqn:Er; [apply good_ret; later_fields|].
    destruct (isAborted p); (apply good_leaf; [done | later_fields]).
  - apply good_throw, later_refl.
Qed.
End Step.

Lemma run_good name has_cont has_onError code fuel : ∀ o p,
  good p (run name has_cont has_onError code fuel o p).
Proof.
  induction fuel as [|f IH]; intros o p; simpl.
  - apply good_out_of_fuel.
  - by apply step_good.
Qed.

Lemma good_then_anyway p (r : res) k :
  good p r → (∀ p', good p' (k p')) → good p (then_anyway r k).
Proof.
  intros Hr Hk. unfold then_anyway.
  assert (good p (Result (state (k (state r))) (trace r ++ trace (k (state r)))
                         (outcome_of (k (state r))))) as Hg.
  { pose proof (good_and_then p (Result (state r) (trace r) Returned) k) as H.
    rewrite and_then_returned in H by done. simpl in H. apply H; [|done].
    exact Hr. }
  by destruct (outcome_of r).
Qed.

Lemma run_all_good name has_cont has_onError code fuel ops : ∀ p,
  good p (run_all name has_cont has_onError code fuel ops p).
Proof.
  induction ops as [|o ops IH]; intros p; simpl.
  - apply good_ret, later_refl.
  - apply good_then_anyway; [apply run_good | apply IH].
Qed.

Lemma cancel_dead has_cont has_onError code rec p :
  dead p → cancel has_cont has_onError code rec p = ret p.
Proof.
  intros [Hd|Hd]; unfold cancel; rewrite Hd; [done|]. by rewrite andb_false_r.
Qed.

(** [cancel] on a task that is over (done, aborted or cancelled) or
    already cancelled does nothing: no change, no call.  A task is over as
    soon as [end] has run, with a result or with an error, and a task that is
    over or cancelled stays so whatever is called later.  After any call of
    [cancel] the task is cancelled or over, so that a second call does
    nothing.  In any series of calls, also ones made by the callbacks, [cancel]
    gets past its guard at most once, and never on a task that was over or
    cancelled at the start.  When it does, it cancels the members of the
    queue, in order, and then calls [end] with [TASK_CANCEL]. *)
Lemma cancel_guarded_once (name : nat → nat) (has_cont has_onError : bool) (code : user)
    (fuel : nat) (p : proc) (ops : list op) :
  let r := run name has_cont has_onError code (S fuel) Cancel p in
  let series := run_all name has_cont has_onError code fuel ops p in
  (dead p → r = ret p) ∧
  (∀ v isErr,
     dead (state (end_ has_cont has_onError code
                    (run name has_cont has_onError code fuel) v isErr p))) ∧
  (dead p → dead (state series)) ∧
  dead (state r) ∧
  run name has_cont has_onError code (S fuel) Cancel (state r) = ret (state r) ∧
  propagations (trace series) ≤ 1 ∧
  (dead p → propagations (trace series) = 0) ∧
  (¬ dead p → completed (queue p) = false →
   ∃ calls, trace r = [Node Propagate calls] ∧
     direct calls `prefix_of`
       map CancelMember (tasks (queue p)) ++ [Ended TASK_CANCEL false] ∧
     (outcome_of r = Returned →
      direct calls = map CancelMember (tasks (queue p)) ++ [Ended TASK_CANCEL false])).
Proof.
  intros r series.
  set (rec := run name has_cont has_onError code fuel).
  assert (∀ o p, good p (rec o p)) as Hrec by apply run_good.
  assert (dead (state r)) as Hdead.
  { destruct (decide (isRunning p = true ∧ isCancelled p = false)) as [[Hr Hc]|Hn].
    - subst r. simpl. unfold cancel. rewrite Hr, Hc. simpl.
      set (p1 := Proc _ _ _ true _ _ _ _ _ _).
      assert (good p1 (and_then (cancelAll the_queue (cancel_member code rec) p1)
                         (queue_cb has_cont has_onError code rec TASK_CANCEL false)))
        as ((_ & _ & Ld) & _).
      { apply good_and_then; [by apply cancelAll_good | intros; by apply queue_cb_good]. }
      apply Ld. by right.
    - assert (dead p) as Hd.
      { unfold dead. destruct (isRunning p) eqn:E1, (isCancelled p) eqn:E2; auto.
        all: by destruct Hn. }
      subst r. simpl. by rewrite cancel_dead. }
  destruct (run_all_good name has_cont has_onError code fuel ops p)
    as ((_ & _ & D) & A & B & _).
  split; [|split; [|split; [|split; [|split; [|split; [|split]]]]]]; try done.
  - intros Hd. subst r. simpl. by apply cancel_dead.
  - intros v isErr. fold rec.
    set (p0 := Proc (queue p) (cancelledDueToErrorTasks p) false (isCancelled p)
                 (isAborted p) (task_result p) (task_error p) (joiners p)
                 (joiners_null p) (deferredEnd p)).
    change (end_ has_cont has_onError code rec v isErr p)
      with (end_ has_cont has_onError code rec v isErr p0).
    destruct (end_good has_cont has_onError code rec Hrec v isErr p0)
      as ((_ & _ & Ld) & _).
    apply Ld. by left.
  - simpl. by apply cancel_dead.
  - intros Hlive Hc.
    assert (isRunning p = true ∧ isCancelled p = false) as [Hr Hcc].
    { unfold dead in Hlive.
      destruct (isRunning p) eqn:E1, (isCancelled p) eqn:E2; try done;
        exfalso; apply Hlive; auto. }
    subst r. simpl. unfold cancel. rewrite Hr, Hcc. simpl. fold rec.
    set (p1 := Proc _ _ _ true _ _ _ _ _ _).
    eexists. split; [done|].
    assert (completed (queue p1) = false) as Hc1 by done.
    destruct (cancelAll_calls code rec Hrec p1 Hc1) as [Ha Hb].
    destruct (and_then_cases (cancelAll the_queue (cancel_member code rec) p1)
                (queue_cb has_cont has_onError code rec TASK_CANCEL false))
      as [[Ho ->]|[Ho ->]]; simpl.
    + rewrite direct_app, (Hb Ho). done.
    + split; [by apply prefix_app_r | done].
Qed.

End ProcFacts.

(** ** Scheduler: order and locks *)

Module FifoFacts.
Import Scheduler Tasks Fifo.

Lemma asaps_app a b : asaps (a ++ b) = asaps a ++ asaps b.
Proof. unfold asaps. by rewrite everything_app, flat_map_app. Qed.

Lemma begins_app a b : begins (a ++ b) = begins a ++ begins b.
Proof. unfold begins. by rewrite everything_app, flat_map_app. Qed.

Lemma asaps_node l tr : asaps [Node l tr] = asapped l ++ asaps tr.
Proof. unfold asaps. by rewrite everything_node. Qed.

Lemma begins_node l tr : begins [Node l tr] = begun l ++ begins tr.
Proof. unfold begins. by rewrite everything_node. Qed.

Lemma in_order_ret s : in_order s (ret s).
Proof. unfold in_order. simpl. by rewrite app_nil_r. Qed.

Lemma in_order_seq (s : st) (r : res) (k : st → res) :
  in_order s r → (∀ s', in_order s' (k s')) →
  queue s ++ asaps (trace r ++ trace (k (state r)))
  = begins (trace r ++ trace (k (state r))) ++ queue (state (k (state r))).
Proof.
  unfold in_order. intros H1 H2.
  rewrite asaps_app, begins_app, app_assoc, H1, <- !app_assoc. f_equal. apply H2.
Qed.

Lemma in_order_and_then (s : st) (r : res) k :
  in_order s r → (∀ s', in_order s' (k s')) → in_order s (and_then r k).
Proof.
  intros H1 H2. unfold and_then.
  destruct (outcome_of r); try done. by apply in_order_seq.
Qed.

Lemma in_order_then_anyway (s : st) (r : res) k :
  in_order s r → (∀ s', in_order s' (k s')) → in_order s (then_anyway r k).
Proof.
  intros H1 H2. unfold then_anyway.
  destruct (outcome_of r); try done; by apply in_order_seq.
Qed.

Section Step.
Variable body : nat → list cmd.
Variable rec : jump → st → res.
Hypothesis rec_in_order : ∀ j s, in_order s (rec j s).

Lemma flush_loop_in_order s :
  in_order s (flush_loop whole (λ t, rec (Body t)) (rec Again) Begin s).
Proof.
  unfold flush_loop. simpl. case_bool_decide; [|apply in_order_ret].
  destruct (queue s) as [|t q] eqn:Eq; [apply in_order_ret|].
  set (e := exec _ _ _ _ _).
  assert (t :: q ++ asaps (trace e) = begins (trace e) ++ queue (state e)) as He.
  { subst e. unfold exec. cbn [trace state]. rewrite asaps_node, begins_node.
    cbn [asapped begun app]. f_equal.
    change (suspend whole (Sched (semaphore s) q)) with (Sched (semaphore s + 1) q).
    pose proof (rec_in_order (Body t) (Sched (semaphore s + 1) q)) as Hb.
    unfold in_order in Hb. cbn [queue] in Hb. rewrite Hb.
    by destruct (outcome_of (rec (Body t) _)). }
  unfold in_order, and_then. rewrite Eq.
  destruct (outcome_of e); try exact He.
  cbn [trace state]. rewrite asaps_app, begins_app, app_assoc.
  change ((t :: q) ++ asaps (trace e)) with (t :: q ++ asaps (trace e)).
  rewrite He, <- !app_assoc. f_equal. apply rec_in_order.
Qed.

Lemma called_in_order c s :
  in_order s (under (Called c (semaphore s)) (call rec c s)).
Proof.
  unfold in_order, under. cbn [trace state]. rewrite asaps_node, begins_node.
  cbn [begun app].
  destruct c as [t| | |]; cbn [asapped call app].
  - unfold asap. cbn [view whole over update].
    case_bool_decide; cbn [trace state ret queue].
    + pose proof (flush_loop_in_order (Sched (semaphore s + 1 - 1) (queue s ++ [t]))) as Hf.
      unfold in_order in Hf. cbn [queue] in Hf. unfold flush.
      change (release whole (suspend whole (Sched (semaphore s) (queue s ++ [t]))))
        with (Sched (semaphore s + 1 - 1) (queue s ++ [t])).
      rewrite <- Hf. by rewrite <- !app_assoc.
    + done.
  - apply (in_order_ret (Sched (semaphore s + 1) (queue s))).
  - apply (flush_loop_in_order (Sched (semaphore s - 1) (queue s))).
  - apply in_order_ret.
Qed.

Lemma run_cmds_in_order cs : ∀ s, in_order s (run_cmds rec cs s).
Proof.
  induction cs as [|c cs IH]; intros s; simpl; [apply in_order_ret|].
  apply in_order_and_then; [apply called_in_order | apply IH].
Qed.

Lemma step_in_order j s : in_order s (step body rec j s).
Proof.
  destruct j; simpl; [apply run_cmds_in_order | apply flush_loop_in_order].
Qed.
End Step.

Lemma run_in_order body fuel : ∀ j s, in_order s (run body fuel j s).
Proof.
  induction fuel as [|f IH]; intros j s; simpl; [apply in_order_ret|].
  by apply step_in_order.
Qed.

(** The scheduler is first in, first out: on every trace of scheduler calls,
    whatever the tasks do, the tasks started are, in order, the tasks that
    were waiting followed by the tasks handed to [asap], and those not yet
    started are what is left in the queue.  No task is started twice or
    skipped, and none is started that was not queued. *)
Theorem scheduler_first_in_first_out (body : nat → list cmd) (fuel : nat)
    (ops : list cmd) (s : st) :
  let r := run_trace body fuel ops s in
  queue s ++ asaps (trace r) = begins (trace r) ++ queue (state r) ∧
  begins (trace r) `prefix_of` queue s ++ asaps (trace r).
Proof.
  assert (∀ ops s, in_order s (run_trace body fuel ops s)) as H.
  { clear. induction ops as [|c ops IH]; intros s; simpl; [apply in_order_ret|].
    apply in_order_then_anyway; [|apply IH].
    apply called_in_order, run_in_order. }
  intros r. split; [apply H|]. exists (queue (state r)). apply H.
Qed.

Lemma steady_and_then (s : st) (r : res) k :
  steady s r → (∀ s', steady s' (k s')) → steady s (and_then r k).
Proof.
  unfold steady, and_then. intros H1 H2.
  destruct (outcome_of r) eqn:E; simpl.
  - intros Ho. rewrite (H2 _ Ho). by apply H1.
  - intros _. by apply H1.
  - done.
Qed.

Section Plain.
Variable body : nat → list cmd.
Hypothesis all_plain : ∀ t, plain (body t) = true.
Variable rec : jump → st → res.
Hypothesis rec_steady : ∀ j s, steady s (rec j s).
Hypothesis rec_drained : ∀ s, drained (rec Again s).

Lemma flush_loop_steady s :
  steady s (flush_loop whole (λ t, rec (Body t)) (rec Again) Begin s) ∧
  drained (flush_loop whole (λ t, rec (Body t)) (rec Again) Begin s).
Proof.
  unfold flush_loop. simpl. case_bool_decide as Hz.
  - destruct (queue s) as [|t q] eqn:Eq; [split; [done | by intros _ _]|].
    set (s1 := Sched (semaphore s) q).
    assert (steady s1 (exec whole (λ t, rec (Body t)) Begin t s1)) as He.
    { unfold steady, exec. simpl. intros Ho.
      pose proof (rec_steady (Body t) (Sched (semaphore s + 1) q) Ho) as Hb.
      simpl in Hb. destruct (outcome_of (rec (Body t) _)); simpl; try done; lia. }
    split.
    + apply (steady_and_then s1); [done | intros; apply rec_steady].
    + unfold drained, and_then.
      destruct (outcome_of (exec _ _ _ _ _)) eqn:E; simpl; try done.
      apply rec_drained.
  - split; [done|]. intros _ Hs. simpl in Hs. done.
Qed.

Lemma asap_steady t s :
  steady s (asap whole (λ t, rec (Body t)) (rec Again) Begin t s) ∧
  drained (asap whole (λ t, rec (Body t)) (rec Again) Begin t s).
Proof.
  unfold asap. cbn [view whole over update]. case_bool_decide as Hz.
  - unfold flush.
    change (release whole (suspend whole (Sched (semaphore s) (queue s ++ [t]))))
      with (Sched (semaphore s + 1 - 1) (queue s ++ [t])).
    destruct (flush_loop_steady (Sched (semaphore s + 1 - 1) (queue s ++ [t])))
      as [H1 H2].
    split; [|done]. intros Ho. rewrite (H1 Ho). simpl. lia.
  - split; [done|]. intros _ Hs. simpl in Hs. done.
Qed.

Lemma plain_cmds_steady cs : plain cs = true → ∀ s, steady s (run_cmds rec cs s).
Proof.
  induction cs as [|c cs IH]; intros Hp s; simpl; [done|].
  simpl in Hp. apply andb_true_iff in Hp as [Hc Hp].
  apply steady_and_then; [|intros; by apply IH].
  destruct c; try done. apply asap_steady.
Qed.

Lemma plain_step_steady j s :
  steady s (step body rec j s) ∧ (j = Again → drained (step body rec j s)).
Proof.
  destruct j as [t|]; simpl.
  - split; [by apply plain_cmds_steady | done].
  - split; [apply flush_loop_steady | intros _; apply flush_loop_steady].
Qed.
End Plain.

Lemma plain_run_steady body fuel :
  (∀ t, plain (body t) = true) →
  ∀ j s, steady s (run body fuel j s) ∧ (j = Again → drained (run body fuel j s)).
Proof.
  intros Hp. induction fuel as [|f IH]; intros j s; simpl; [by split|].
  apply plain_step_steady; [done | intros; apply IH | intros; by apply IH].
Qed.

(** When the queued tasks take no lock of their own, a call of [asap] that
    ends leaves the semaphore as it found it, also when a task throws: the
    [finally] of [exec] gives the lock back.  If it returns and the scheduler
    is released, the queue is empty: every task was run.  (After a throw the
    tasks behind the one that threw are still queued.) *)
Theorem asap_gives_locks_back (body : nat → list cmd) (fuel : nat) (t : nat) (s : st) :
  (∀ t, plain (body t) = true) →
  let r := call (run body fuel) (Asap t) s in
  outcome_of r ≠ OutOfFuel →
  semaphore (state r) = semaphore s ∧
  (outcome_of r = Returned → semaphore s = 0%Z → queue (state r) = []).
Proof.
  intros Hp r Ho.
  destruct (asap_steady (run body fuel)
              (λ j s, proj1 (plain_run_steady body fuel Hp j s))
              (λ s, proj2 (plain_run_steady body fuel Hp Again s) eq_refl) t s)
    as [H1 H2].
  split; [by apply H1|]. intros Hr Hs. apply H2; [done|]. rewrite (H1 Ho). done.
Qed.

Lemma asap_gives_locks_back_witness :
  let r := call (run failing_body 9) (Asap 0) initial in
  outcome_of r = Thrown ∧ queue (state r) = [1] ∧
  semaphore (state r) = 0%Z ∧
  (outcome_of r = Returned → semaphore (@initial nat) = 0%Z → queue (state r) = []).
Proof.
  split; [reflexivity|]. split; [reflexivity|].
  apply (asap_gives_locks_back failing_body 9 0 initial).
  - intros [|[|t]]; reflexivity.
  - discriminate.
Defined.

End FifoFacts.

(** ** Single-consumer channel: no internal error, closing, cancelling *)

Module GentleFacts.
Import Channel Callers Gentle ChannelFacts.

Section Facts.
Context {B : Type} `{Buffer B}.
Variable dev : bool.
Variable react : nat → arg → list op.
Variable Good : B → Prop.
Variable K : gset nat.
Hypothesis good_buffers : accepting Good.
Hypothesis react_gentle : ∀ cb a, Forall (gentle dev K) (react cb a).
Implicit Types (c : chan B) (rec : op → chan B → res B) (o : op).

Lemma script_safe rec os : safe dev Good K rec →
  ∀ c, Forall (gentle dev K) os → at_ease Good K c →
       at_ease Good K (state (script rec os c)) ∧ outcome_of (script rec os c) ≠ Thrown.
Proof.
  intros Hrec. induction os as [|o os IH]; intros c Hos Hc; simpl; [done|].
  inversion_clear Hos as [|?? Ho Hos'].
  destruct (Hrec o c Ho Hc) as [H1 H2].
  unfold and_then. destruct (outcome_of (rec o c)); simpl; auto.
Qed.

Lemma invoke_safe rec cb a c : safe dev Good K rec → at_ease Good K c →
  at_ease Good K (state (invoke react rec cb a c)) ∧
  outcome_of (invoke react rec cb a c) ≠ Thrown.
Proof. intros Hrec Hc. simpl. by apply script_safe. Qed.

Lemma end_all_safe rec arr : safe dev Good K rec →
  ∀ c, at_ease Good K c →
       at_ease Good K (state (end_all (invoke react rec) arr c)) ∧
       outcome_of (end_all (invoke react rec) arr c) ≠ Thrown.
Proof.
  intros Hrec. induction arr as [|t arr IH]; intros c Hc; simpl; [done|].
  destruct (invoke_safe rec t (One END) c Hrec Hc) as [H1 H2].
  unfold and_then. simpl in *.
  destruct (outcome_of (script rec (react t (One END)) c)); simpl; auto.
Qed.

Lemma step_safe rec : safe dev Good K rec → safe dev Good K (step dev react rec).
Proof.
  intros Hrec o c Ho (Hc & HK & Hb).
  pose proof (proj2 (checkForbiddenStates_invariant c) Hc) as Hf.
  pose proof Hc as [Hc1 Hc2].
  destruct (good_buffers _ Hb) as (Hput & Htake & Hflush & Hempty).
  destruct o as [v|cb|cb| |cb|]; simpl.
  - (* put *)
    unfold put. simpl. rewrite Hf.
    assert (dev && negb (notUndef v) = false) as ->.
    { destruct Ho as [->|Hv]; [done|]. destruct v; [done|]. apply andb_false_r. }
    destruct (closed c) eqn:Ecl; [done|].
    destruct (takers c) as [|t ts] eqn:Et.
    + destruct (Hput v) as (b' & -> & Hb'). simpl.
      repeat split; simpl; try done; congruence.
    + apply invoke_safe; [done|]. repeat split; simpl; try done.
      intros _. by apply Hc2.
  - (* take *)
    unfold take. simpl. rewrite Hf.
    destruct (closed c) eqn:Ecl, (isEmpty (buffer c)) eqn:Eem; simpl.
    + by apply invoke_safe.
    + destruct (buf_take (buffer c)) as [v b] eqn:Et.
      apply invoke_safe; [done|].
      repeat split; simpl; auto;
        try (intros Hne; specialize (Hc1 eq_refl); congruence).
    + repeat split; simpl; auto; try set_solver.
    + destruct (buf_take (buffer c)) as [v b] eqn:Et.
      apply invoke_safe; [done|].
      repeat split; simpl; auto;
        try (intros Hne; specialize (Hc2 Hne); congruence).
  - (* flush *)
    unfold flush. simpl. rewrite Hf.
    destruct (closed c && isEmpty (buffer c)) eqn:E;
      [by apply invoke_safe|].
    destruct (buf_flush (buffer c)) as [vs b] eqn:Ef.
    apply invoke_safe; [done|]. repeat split; simpl; auto.
  - (* close *)
    unfold close. simpl. rewrite Hf.
    destruct (closed c) eqn:Ecl; [done|].
    apply end_all_safe; [done|]. by repeat split.
  - (* cancel *)
    unfold cancel. simpl. rewrite bool_decide_eq_true_2 by set_solver. simpl.
    repeat split; simpl; try done.
    + intros Hcl. by rewrite (Hc1 Hcl).
    + intros Hne. apply Hc2. intros Hnil. by rewrite Hnil in Hne.
  - done.
Qed.

Lemma run_safe fuel : safe dev Good K (run dev react fuel).
Proof.
  induction fuel as [|f IH]; [by intros o c|].
  simpl. by apply step_safe.
Qed.

(** Once closed, a channel stays closed. *)
Lemma run_stays_closed fuel : ∀ o c,
  closed c = true → closed (state (run dev react fuel o c)) = true.
Proof using Type.
  induction fuel as [|f IH]; intros o c Hc; [done|].
  assert (∀ os c, closed c = true → closed (state (script (run dev react f) os c)) = true)
    as Hscript.
  { induction os as [|o' os IHos]; intros c' Hc'; simpl; [done|].
    pose proof (IH o' c' Hc') as H1.
    unfold and_then. destruct (outcome_of (run dev react f o' c')); simpl; auto. }
  destruct o as [v|cb|cb| |cb|]; simpl.
  - unfold put. simpl. destruct (checkForbiddenStates c); [done|].
    destruct (dev && _); [done|]. by rewrite Hc.
  - unfold take. simpl. destruct (checkForbiddenStates c); [done|].
    rewrite Hc. simpl. destruct (isEmpty (buffer c)); simpl; [by apply Hscript|].
    destruct (buf_take (buffer c)). by apply Hscript.
  - unfold flush. simpl. destruct (checkForbiddenStates c); [done|].
    rewrite Hc. simpl. destruct (isEmpty (buffer c)); simpl; [by apply Hscript|].
    destruct (buf_flush (buffer c)). by apply Hscript.
  - unfold close. simpl. destruct (checkForbiddenStates c); [done|]. by rewrite Hc.
  - unfold cancel. simpl. by case_bool_decide.
  - done.
Qed.

Lemma end_all_ends fuel ts : ∀ c,
  closed c = true →
  let r := end_all (invoke react (run dev react fuel)) ts c in
  direct (trace r) `prefix_of` ends ts ∧
  (outcome_of r = Returned → direct (trace r) = ends ts) ∧
  closed (state r) = true.
Proof using Type.
  induction ts as [|t ts IH]; intros c Hc; [done|].
  cbn zeta. cbn [end_all].
  set (i := invoke react (run dev react fuel) t (One END) c).
  assert (closed (state i) = true) as Hi.
  { subst i. simpl.
    assert (∀ os c, closed c = true →
              closed (state (script (run dev react fuel) os c)) = true) as Hscript.
    { induction os as [|o' os IHos]; intros c' Hc'; simpl; [done|].
      pose proof (run_stays_closed fuel o' c' Hc') as H1.
      unfold and_then. destruct (outcome_of (run dev react fuel o' c')); simpl; auto. }
    by apply Hscript. }
  destruct (IH (state i) Hi) as (I1 & I2 & I3).
  destruct (and_then_cases i (end_all (invoke react (run dev react fuel)) ts))
    as [[Ho ->]|[Ho ->]]; simpl.
  - rewrite direct_cons. simpl. repeat split; [by apply prefix_cons | | done].
    intros Hr. f_equal. by apply I2.
  - subst i. simpl in *. rewrite direct_cons, direct_nil. simpl.
    repeat split; [apply prefix_cons, prefix_nil | done | done].
Qed.
End Facts.

Lemma remove_last (cb : nat) (l : list nat) : cb ∉ l → remove cb (l ++ [cb]) = l.
Proof.
  induction l as [|x l IH]; intros Hn; simpl.
  - by rewrite bool_decide_eq_true_2.
  - rewrite bool_decide_eq_false_2 by set_solver. f_equal. apply IH. set_solver.
Qed.

Lemma unbounded_accepting : accepting unbounded.
Proof.
  intros [pol items] Hb. unfold unbounded in *. simpl in Hb.
  split; [|split; [|split]].
  - intros v. simpl. unfold ring_put. simpl.
    destruct pol; try done; try case_bool_decide; eexists; split; done.
  - simpl. unfold ring_take. simpl. by destruct items.
  - done.
  - done.
Qed.

(** The internal errors of [checkForbiddenStates] are unreachable: on a
    channel in an allowed state, whose buffer never refuses an input, calls
    that are no programmer error never throw, whatever the callbacks do in
    turn (as long as they make such calls only), and they leave the channel
    in an allowed state again. *)
Theorem channel_never_throws {B} `{Buffer B} (dev : bool) (react : nat → arg → list op)
    (Good : B → Prop) (K : gset nat) (fuel : nat) (o : op) (c : chan B) :
  accepting Good →
  (∀ cb a, Forall (gentle dev K) (react cb a)) →
  gentle dev K o →
  invariant c → K ⊆ cancels c → Good (buffer c) →
  let r := run dev react fuel o c in
  outcome_of r ≠ Thrown ∧
  invariant (state r) ∧ K ⊆ cancels (state r) ∧ Good (buffer (state r)).
Proof.
  intros Hgood Hreact Ho Hc HK Hb r.
  destruct (run_safe dev react Good K Hgood Hreact fuel o c Ho) as [(H1 & H2 & H3) H4].
  { unfold at_ease. auto. }
  auto.
Qed.

Lemma channel_never_throws_witness :
  let r := run true busy 9 Close two_takers in
  outcome_of r ≠ Thrown ∧
  invariant (state r) ∧ {[3; 4]} ⊆ cancels (state r) ∧ unbounded (buffer (state r)).
Proof.
  apply (channel_never_throws true busy unbounded {[3; 4]} 9 Close two_takers).
  - apply unbounded_accepting.
  - intros [|[|[|[|[|cb]]]]] a; simpl;
      repeat (apply Forall_cons_2; [first [exact I | right; discriminate]|]);
      apply Forall_nil_2.
  - exact I.
  - split; [discriminate | reflexivity].
  - reflexivity.
  - exact I.
Defined.

(** [close] on an open channel calls every waiting taker with [END], in
    the order they were queued, once each (all of them when it returns;
    up to the one that did not return otherwise), whatever the takers do in
    turn.  The channel is closed from then on and has no takers, and a
    second [close] does nothing. *)
Theorem close_ends_all_takers {B} `{Buffer B} (dev : bool) (react : nat → arg → list op)
    (fuel : nat) (c : chan B) :
  (∀ b : B, isEmpty b = true → isEmpty (buf_flush b).2 = true) →
  invariant c →
  closed c = false →
  let r := run dev react (S fuel) Close c in
  direct (trace r) `prefix_of` ends (takers c) ∧
  (outcome_of r = Returned → direct (trace r) = ends (takers c)) ∧
  closed (state r) = true ∧ takers (state r) = [] ∧
  run dev react (S fuel) Close (state r) = ret (state r).
Proof.
  intros Hflush Hc Hopen r.
  assert (invariant (state r)) as Hinv.
  { apply (run_keeps dev react (λ _, True)); auto. intros. by apply Forall_true. }
  assert (direct (trace r) `prefix_of` ends (takers c) ∧
          (outcome_of r = Returned → direct (trace r) = ends (takers c)) ∧
          closed (state r) = true) as (H1 & H2 & H3).
  { subst r. simpl. unfold close. simpl.
    rewrite (proj2 (checkForbiddenStates_invariant c) Hc), Hopen.
    by apply end_all_ends. }
  repeat split; try done.
  - by apply Hinv.
  - simpl. unfold close. simpl.
    by rewrite (proj2 (checkForbiddenStates_invariant _) Hinv), H3.
Qed.

Lemma close_ends_all_takers_witness :
  let r := run true busy 9 Close two_takers in
  direct (trace r) `prefix_of` ends [3; 4] ∧
  (outcome_of r = Returned → direct (trace r) = ends [3; 4]) ∧
  closed (state r) = true ∧ takers (state r) = [] ∧
  run true busy 9 Close (state r) = ret (state r).
Proof.
  apply (close_ends_all_takers true busy 8 two_takers).
  - intros b _. reflexivity.
  - split; [discriminate | reflexivity].
  - reflexivity.
Defined.

(** A taker that cancels is forgotten: on an open channel with nothing
    buffered, [take(cb)] followed by the [cancel] it left on [cb] puts the
    takers queue back as it was, when [cb] was not waiting already; no
    callback is called. *)
Theorem take_then_cancel {B} `{Buffer B} (dev : bool) (react : nat → arg → list op)
    (fuel : nat) (cb : nat) (c : chan B) :
  invariant c →
  closed c = false →
  isEmpty (buffer c) = true →
  cb ∉ takers c →
  run_all dev react (S fuel) [Take cb; Cancel cb] c
  = ret (Chan false (takers c) (buffer c) (cancels c ∪ {[cb]})).
Proof.
  intros Hc Hopen Hempty Hcb.
  pose proof (proj2 (checkForbiddenStates_invariant c) Hc) as Hf.
  simpl. unfold take. simpl. rewrite Hf, Hopen, Hempty. simpl.
  unfold then_anyway. simpl. unfold cancel. simpl.
  rewrite bool_decide_eq_true_2 by set_solver. simpl.
  by rewrite remove_last.
Qed.

Lemma take_then_cancel_witness :
  run_all true busy 3 [Take 7; Cancel 7] two_takers
  = ret (Chan false [3; 4] (Ring (sliding 2) []) ({[3; 4]} ∪ {[7]})).
Proof.
  apply (take_then_cancel true busy 2 7 two_takers).
  - split; [discriminate | reflexivity].
  - reflexivity.
  - reflexivity.
  - cbv. intros Hin. by repeat (apply elem_of_cons in Hin as [Hin|Hin]; [discriminate|]);
      apply elem_of_nil in Hin.
Defined.

End GentleFacts.

(** ** Budgets *)

Lemma weight_app {L} (w : L → nat) (a b : list (tree L)) :
  weight w (a ++ b) = weight w a + weight w b.
Proof. unfold weight. by rewrite everything_app, sum_list_with_app. Qed.

Lemma weight_node {L} (w : L → nat) (l : L) (s : list (tree L)) :
  weight w [Node l s] = w l + weight w s.
Proof. unfold weight. by rewrite everything_node. Qed.

Lemma weight_nil {L} (w : L → nat) : weight w [] = 0.
Proof. done. Qed.

Section Paid.
Context {G L : Type} (I : G → Prop) (m : G → nat) (w : L → nat).
Implicit Types (f k : G → result G L).

Lemma paid_ret : paid I m w ret.
Proof. intros g Hg. split; [done|]. simpl. rewrite ?weight_nil. lia. Qed.

Lemma paid_throw : paid I m w throw.
Proof. intros g Hg. split; [done|]. simpl. rewrite ?weight_nil. lia. Qed.

Lemma paid_out_of_fuel : paid I m w out_of_fuel.
Proof. intros g Hg. split; [done|]. simpl. rewrite ?weight_nil. lia. Qed.

Lemma paid_and_then f k : paid I m w f → paid I m w k → paid I m w (λ g, and_then (f g) k).
Proof.
  intros Hf Hk g Hg. destruct (Hf g Hg) as [H1 H2].
  unfold and_then. destruct (outcome_of (f g)); simpl; try done.
  destruct (Hk _ H1) as [H3 H4]. split; [done|].
  rewrite weight_app. lia.
Qed.

Lemma paid_then_anyway f k :
  paid I m w f → paid I m w k → paid I m w (λ g, then_anyway (f g) k).
Proof.
  intros Hf Hk g Hg. destruct (Hf g Hg) as [H1 H2].
  unfold then_anyway. destruct (Hk _ H1) as [H3 H4].
  destruct (outcome_of (f g)); simpl; try done; (split; [done|]);
    rewrite weight_app; lia.
Qed.

Lemma paid_under l f : w l = 0 → paid I m w f → paid I m w (λ g, under l (f g)).
Proof.
  intros Hl Hf g Hg. destruct (Hf g Hg) as [H1 H2]. split; [done|].
  simpl. rewrite weight_node. lia.
Qed.

Lemma paid_before f (h : G → G) :
  (∀ g, I g → I (h g) ∧ m (h g) ≤ m g) → paid I m w f → paid I m w (λ g, f (h g)).
Proof.
  intros Hh Hf g Hg. destruct (Hh g Hg) as [H1 H2]. destruct (Hf _ H1) as [H3 H4].
  split; [done | lia].
Qed.

Lemma paid_at f g g' : paid I m w f → I g' → m g' ≤ m g → I g →
  I (state (f g')) ∧ weight w (trace (f g')) + m (state (f g')) ≤ m g.
Proof. intros Hf Hg' Hm _. destruct (Hf g' Hg') as [H1 H2]. split; [done | lia]. Qed.
End Paid.

(** What the channel functions pay: nothing of their own, for a budget and
    a property that do not look at the channel. *)
Section ChannelPaid.
Import Channel.
Context {G B L : Type} `{Buffer B} (here : lens G (chan B)).
Variable dev : bool.
Variable invoke : nat → arg → G → result G L.
Variables (I : G → Prop) (m : G → nat) (w : L → nat).
Hypothesis frame : ∀ g c, I g → I (update here c g) ∧ m (update here c g) = m g.
Hypothesis invoke_paid : ∀ cb a, paid I m w (invoke cb a).

Lemma invoke_paid_at cb a g c : I g →
  I (state (invoke cb a (update here c g))) ∧
  weight w (trace (invoke cb a (update here c g)))
  + m (state (invoke cb a (update here c g))) ≤ m g.
Proof.
  intros Hg. destruct (frame g c Hg) as [H1 H2].
  destruct (invoke_paid cb a _ H1) as [H3 H4]. split; [done | lia].
Qed.

Lemma ret_paid_at g c : I g →
  I (state (ret (L:=L) (update here c g))) ∧
  weight w (trace (ret (L:=L) (update here c g)))
  + m (state (ret (L:=L) (update here c g))) ≤ m g.
Proof.
  intros Hg. destruct (frame g c Hg) as [H1 H2]. simpl. rewrite ?weight_nil.
  split; [done | lia].
Qed.

Lemma put_paid v : paid I m w (put here dev invoke v).
Proof.
  intros g Hg. unfold put.
  destruct (checkForbiddenStates _); [by apply paid_throw|].
  destruct (dev && _); [by apply paid_throw|].
  destruct (closed (view here g)); [by apply paid_ret|].
  destruct (takers (view here g)) as [|t ts].
  - destruct (buf_put _ v); [|by apply paid_throw]. by apply ret_paid_at.
  - by apply invoke_paid_at.
Qed.

Lemma take_paid cb : paid I m w (take here invoke cb).
Proof.
  intros g Hg. unfold take.
  destruct (checkForbiddenStates _); [by apply paid_throw|].
  destruct (closed _ && isEmpty _); [by apply invoke_paid|].
  destruct (negb _).
  - destruct (buf_take _) as [v b]. by apply invoke_paid_at.
  - by apply ret_paid_at.
Qed.

Lemma flush_paid cb : paid I m w (flush here invoke cb).
Proof.
  intros g Hg. unfold flush.
  destruct (checkForbiddenStates _); [by apply paid_throw|].
  destruct (closed _ && isEmpty _); [by apply invoke_paid|].
  destruct (buf_flush _) as [vs b]. by apply invoke_paid_at.
Qed.

Lemma cancel_paid cb : paid I m w (cancel (L:=L) here cb).
Proof.
  intros g Hg. unfold cancel.
  case_bool_decide; [by apply ret_paid_at | by apply paid_throw].
Qed.

Lemma end_all_paid arr : paid I m w (end_all invoke arr).
Proof.
  induction arr as [|t arr IH]; simpl; [apply paid_ret|].
  by apply (paid_and_then _ _ _ (invoke t (One END))).
Qed.

Lemma close_paid : paid I m w (close here invoke).
Proof.
  intros g Hg. unfold close.
  destruct (checkForbiddenStates _); [by apply paid_throw|].
  destruct (closed (view here g)); [by apply paid_ret|].
  destruct (frame g (Chan true [] (buffer (view here g)) (cancels (view here g))) Hg)
    as [H1 H2].
  destruct (end_all_paid (takers (view here g)) _ H1) as [H3 H4].
  split; [done | lia].
Qed.
End ChannelPaid.

(** ** Event channel: unsubscribing *)

Module SubscriptionFacts.
Import EventChannel Subscription.

Section Facts.
Context {B : Type} `{Buffer B}.
Variable dev : bool.
Variable code : user.
Implicit Types (e : echan B) (rec : op → echan B → res B).

Lemma inner_frame e c :
  wrapped e → wrapped (update inner c e) ∧ owed (update inner c e) = owed e.
Proof. done. Qed.

Section Step.
Variable rec : op → echan B → res B.
Hypothesis rec_paid : ∀ o, paid wrapped owed unsubscribing (rec o).

Lemma script_paid os : paid wrapped owed unsubscribing (script rec os).
Proof.
  induction os as [|o os IH]; simpl; [apply paid_ret|].
  by apply (paid_and_then _ _ _ (rec o)).
Qed.

Lemma invoke_paid cb x : paid wrapped owed unsubscribing (invoke code rec cb x).
Proof. apply (paid_under _ _ _ (Call cb x)); [done | apply script_paid]. Qed.

Lemma call_unsubscribe_paid : paid wrapped owed unsubscribing (call_unsubscribe code rec).
Proof.
  intros e He. unfold call_unsubscribe.
  destruct (unsubscribe e) as [|[]|[]] eqn:Eu; try (by apply paid_ret); [done|].
  set (e1 := EChan (closed e) (Once true) (chan e)).
  assert (wrapped e1) as H1 by done.
  destruct (script_paid (on_unsubscribe code) e1 H1) as [H2 H3].
  split; [done|]. cbn [trace state under]. rewrite weight_node.
  cbn [unsubscribing]. unfold owed at 2. rewrite Eu. change (owed e1) with 0 in H3. lia.
Qed.

Lemma close_paid_here : paid wrapped owed unsubscribing (close code rec).
Proof.
  apply (paid_and_then _ _ _ (call_unsubscribe code rec)).
  - apply call_unsubscribe_paid.
  - apply close_paid; [apply inner_frame | apply invoke_paid].
Qed.

Lemma step_paid o : paid wrapped owed unsubscribing (step dev code rec o).
Proof.
  destruct o as [v|cb|cb| |cb|]; simpl.
  - intros e He. unfold step, emitter. destruct (isEnd v).
    + refine (paid_and_then wrapped owed unsubscribing (close code rec)
                (λ e', ret (EChan true (unsubscribe e') (chan e'))) _ _ e He).
      * apply close_paid_here.
      * intros e' He'. split; [done|]. simpl. rewrite ?weight_nil. done.
    + apply put_paid; [apply inner_frame | apply invoke_paid | done].
  - apply take_paid; [apply inner_frame | apply invoke_paid].
  - apply flush_paid; [apply inner_frame | apply invoke_paid].
  - apply close_paid_here.
  - apply cancel_paid with (invoke := invoke code rec);
      [apply inner_frame | apply invoke_paid].
  - apply paid_throw.
Qed.
End Step.

Lemma run_paid fuel : ∀ o, paid wrapped owed unsubscribing (run dev code fuel o).
Proof.
  induction fuel as [|f IH]; intros o; simpl.
  - apply paid_out_of_fuel.
  - by apply step_paid.
Qed.

Lemma run_all_paid fuel ops : paid wrapped owed unsubscribing (run_all dev code fuel ops).
Proof.
  induction ops as [|o ops IH]; simpl; [apply paid_ret|].
  apply (paid_then_anyway _ _ _ (run dev code fuel o)); [apply run_paid | apply IH].
Qed.

Lemma eventChannel_paid fuel buffer :
  let r := eventChannel code (run dev code fuel) buffer in
  wrapped (state r) ∧ unsubscribes (trace r) + owed (state r) ≤ 1 ∧
  (returns_function code = false →
   outcome_of r ≠ Returned ∧ unsubscribes (trace r) + owed (state r) = 0).
Proof.
  cbn zeta. unfold eventChannel, subscribed, unsubscribes.
  set (e0 := EChan false Unset (Channel.fresh buffer)).
  assert (wrapped e0) as H0 by done.
  destruct (script_paid (run dev code fuel) (run_paid fuel) (on_subscribe code) e0 H0)
    as [H1 H2].
  change (owed e0) with 0 in H2.
  set (s := script (run dev code fuel) (on_subscribe code) e0) in *.
  match goal with
  | |- context [and_then ?r ?k] => destruct (and_then_cases r k) as [[Ho ->]|[Ho ->]]
  end; cbn [trace state outcome_of under] in *.
  - destruct (returns_function code) eqn:Ef; cbn [negb].
    + set (e3 := EChan (closed (state s)) (Once false) (chan (state s))).
      assert (wrapped e3) as H3 by done.
      destruct (closed (state s)).
      * destruct (call_unsubscribe_paid (run dev code fuel) (run_paid fuel) e3 H3)
          as [H4 H5].
        change (owed e3) with 1 in H5.
        rewrite weight_app, weight_node. cbn [unsubscribing].
        change (closed e3) with true. cbn iota.
        repeat split; try done. lia.
      * change (closed e3) with false. cbn iota.
        cbn [trace state ret]. rewrite weight_app, weight_node, weight_nil.
        cbn [unsubscribing]. change (owed e3) with 1.
        repeat split; try done. lia.
    + cbn [trace state outcome_of throw]. rewrite weight_app, weight_node, weight_nil.
      cbn [unsubscribing]. unfold owed. cbn [unsubscribe].
      repeat split; try done; lia.
  - rewrite weight_node. cbn [unsubscribing]. repeat split; try done; lia.
Qed.
End Facts.

(** In the life of an event channel, from its construction on and whatever
    is called later or by the callbacks, the function that [subscribe]
    returned is called at most once.  When [subscribe] returns something that
    is not a function, the construction does not return, and nothing is ever
    called to unsubscribe. *)
Theorem unsubscribe_at_most_once (B : Type) `{Buffer B} (dev : bool) (code : user)
    (fuel : nat) (buffer : B) (later : list op) :
  let r := life dev code fuel buffer later in
  unsubscribes (trace r) ≤ 1 ∧
  (returns_function code = false →
   outcome_of (eventChannel code (run dev code fuel) buffer) ≠ Returned ∧
   unsubscribes (trace r) = 0).
Proof.
  intros r. subst r. unfold life.
  destruct (eventChannel_paid dev code fuel buffer) as (H1 & H2 & H3).
  set (c := eventChannel code (run dev code fuel) buffer) in *.
  destruct (run_all_paid dev code fuel later (state c) H1) as [H4 H5].
  unfold unsubscribes in *.
  assert (weight unsubscribing (trace (then_anyway c (run_all dev code fuel later)))
          ≤ weight unsubscribing (trace c) + owed (state c)) as Hle.
  { unfold then_anyway. destruct (outcome_of c); simpl; rewrite ?weight_app; lia. }
  split; [lia|]. intros Hf. destruct (H3 Hf) as [H6 H7]. split; [done | lia].
Qed.

Lemma unsubscribe_at_most_once_witness :
  let r := life true closing 9 (Ring expanding []) [Take 0; Close; Emit END; Close] in
  unsubscribes (trace r) = 1 ∧ unsubscribes (trace r) ≤ 1.
Proof.
  split; [reflexivity|].
  apply (unsubscribe_at_most_once ring true closing 9 (Ring expanding [])).
Defined.

End SubscriptionFacts.

(** ** Multicast channel: closing, cancelling, matchers that are no functions *)

Module BroadcastFacts.
Import Multicast Listeners Snapshot Broadcast SnapshotFacts.

Section Facts.
Variable dev : bool.
Variable react : nat → input → list op.
Variables (arr : nat) (X : list nat) (was : bool).
Implicit Types (s : mchan) (rec : jump → mchan → res).

Lemma call_once_held k s s' :
  held arr X was s → call_once k s = Some s' → held arr X was s'.
Proof.
  intros [Hk Hc] Hco. unfold call_once in Hco.
  destruct (onces s !! k) as [[cb []]|]; simplify_eq; [done|].
  set (s1 := MChan _ _ _ _ _ _ _).
  assert (keeps_snapshot arr X s1) as H1 by done.
  destruct (ensure_keeps arr X s1 H1) as [H2 H3].
  split; [by apply mutate_keeps|].
  unfold mutate_next, ensureCanMutateNextTakers. subst s1. simpl.
  case_bool_decide; simpl; apply Hc.
Qed.

Lemma register_held cb m s : held arr X was s → held arr X was (register cb m s).
Proof.
  intros [Hk Hc]. unfold register.
  set (s1 := MChan _ _ _ _ (<[cb:=compile m]> (MATCH s)) _ _).
  assert (keeps_snapshot arr X s1) as H1 by done.
  destruct (ensure_keeps arr X s1 H1) as [H2 H3].
  pose proof (mutate_keeps arr X (λ l, l ++ [cb]) _ H2 H3) as [H4 H5].
  split; [done|].
  unfold mutate_next, ensureCanMutateNextTakers. subst s1. simpl.
  case_bool_decide; simpl; apply Hc.
Qed.

Lemma cancel_held cb s :
  held arr X was s → held arr X was (state (cancel (L:=event) whole cb s)).
Proof.
  intros Hs. unfold cancel. simpl.
  destruct (cancel_of s !! cb) as [k|]; [|done].
  destruct (call_once k s) as [s'|] eqn:E; [|done].
  by apply (call_once_held k s).
Qed.

Section Step.
Variable rec : jump → mchan → res.
Hypothesis rec_held : ∀ j s, held arr X was s → held arr X was (state (rec j s)).

Lemma script_held os : ∀ s, held arr X was s → held arr X was (state (script rec os s)).
Proof.
  induction os as [|o os IH]; intros s Hs; simpl; [done|].
  pose proof (rec_held (Do o) s Hs) as H1.
  unfold and_then. simpl. destruct (outcome_of (rec (Do o) s)); simpl; auto.
Qed.

Lemma invoke_held cb v s :
  held arr X was s → held arr X was (state (invoke react rec cb v s)).
Proof. intros Hs. simpl. by apply script_held. Qed.

Lemma walk_held a i v s :
  held arr X was s →
  held arr X was (state (walk whole (invoke react rec) (walk_again rec) a i v s)).
Proof.
  intros Hs. unfold walk. simpl.
  destruct (array s a !! i) as [taker|]; [|done].
  destruct (MATCH s !! taker) as [[p|]|]; try done.
  destruct (p v); [|by apply rec_held].
  pose proof (cancel_held taker s Hs) as H1.
  unfold and_then at 1. destruct (outcome_of (cancel whole taker s)); simpl; try done.
  pose proof (invoke_held taker v _ H1) as H2.
  unfold and_then. simpl in *.
  destruct (outcome_of (script rec (react taker v) _)); simpl; try done.
  by apply rec_held.
Qed.

Lemma close_walk_held a i s :
  held arr X was s →
  held arr X was (state (close_walk whole (invoke react rec) (close_again rec) a i s)).
Proof.
  intros Hs. unfold close_walk. simpl.
  destruct (array s a !! i) as [taker|]; [|done].
  pose proof (invoke_held taker END _ Hs) as H2.
  unfold and_then. simpl in *.
  destruct (outcome_of (script rec (react taker END) _)); simpl; try done.
  by apply rec_held.
Qed.

Lemma close_held s :
  held arr X was s →
  held arr X was (state (close whole (invoke react rec) (close_again rec) s)).
Proof.
  intros [[Ha Hn] Hc]. unfold close. simpl.
  set (s1 := MChan true _ _ _ _ _ _).
  assert (held arr X was s1) as H1 by done.
  pose proof (close_walk_held (nextTakers s) 0 s1 H1) as [[Ha2 Hn2] Hc2].
  unfold and_then.
  destruct (outcome_of (close_walk _ _ _ _ _ s1)); simpl; try done.
  pose proof (lookup_lt_Some _ _ _ Ha2) as Hlt.
  repeat split; simpl; [by apply lookup_app_l_Some | lia | done].
Qed.

Lemma step_held j s :
  held arr X was s → held arr X was (state (step dev react rec j s)).
Proof.
  intros Hs. destruct j as [[v|cb m| |cb|]|a i v|a i]; simpl.
  - unfold put. simpl.
    destruct (dev && _); [done|].
    destruct (closed s) eqn:Ecl; [done|].
    destruct (isEnd v); [by apply close_held|].
    apply walk_held. destruct Hs as [[??] Hc]. repeat split; simpl; try done.
    intros Hw. specialize (Hc Hw). congruence.
  - unfold take. simpl. destruct (closed s); [by apply invoke_held|].
    by apply register_held.
  - by apply close_held.
  - by apply cancel_held.
  - done.
  - by apply walk_held.
  - by apply close_walk_held.
Qed.
End Step.

Lemma run_held fuel : ∀ j s,
  held arr X was s → held arr X was (state (run dev react fuel j s)).
Proof.
  induction fuel as [|f IH]; intros j s Hs; [done|].
  simpl. by apply step_held.
Qed.

(** The loop of [close] over the array at [arr], from index [i]: it calls
    with [END], in order, the takers of [X] from [i] on. *)
Lemma close_walk_calls fuel : ∀ i s,
  held arr X was s →
  let r := run dev react fuel (CloseWalk arr i) s in
  direct (trace r) `prefix_of` farewells (drop i X) ∧
  (outcome_of r = Returned → direct (trace r) = farewells (drop i X)).
Proof.
  induction fuel as [|f IH]; intros i s Hs; simpl.
  { split; [apply prefix_nil | done]. }
  unfold close_walk. simpl. rewrite (array_snapshot arr X s (proj1 Hs)).
  destruct (X !! i) as [taker|] eqn:Ei.
  2:{ apply lookup_ge_None in Ei. rewrite drop_ge by done. done. }
  rewrite (drop_S _ _ _ Ei). unfold farewells. rewrite fmap_cons.
  fold (farewells (drop (S i) X)).
  pose proof (invoke_held (run dev react f) (run_held f) taker END s Hs) as H2.
  destruct (IH (S i) _ H2) as [IH1 IH2].
  destruct (and_then_cases (invoke react (run dev react f) taker END s)
              (close_again (run dev react f) arr (S i)))
    as [[Hi ->]|[Hi ->]]; simpl.
  - rewrite direct_cons. simpl. split; [by apply prefix_cons|].
    intros Ho. f_equal. by apply IH2.
  - rewrite direct_cons, direct_nil. simpl. split; [|done].
    apply prefix_cons, prefix_nil.
Qed.
End Facts.

(** [close], and a put of the end on an open channel, call every waiting
    taker with [END]: the takers of the array that [nextTakers] refers to
    at entry, in order, once per entry (all of them when the call returns),
    also when the callbacks register, cancel or close meanwhile.  The channel
    is closed from then on, and when the call returns no taker is left
    waiting. *)
Theorem close_tells_every_taker (dev : bool) (react : nat → input → list op)
    (fuel : nat) (s : mchan) (X : list nat) :
  arrays s !! nextTakers s = Some X →
  let r := run dev react (S fuel) (Do Close) s in
  direct (trace r) `prefix_of` farewells X ∧
  (outcome_of r = Returned → direct (trace r) = farewells X ∧ waiting (state r) = []) ∧
  closed (state r) = true ∧
  (closed s = false → r = run dev react (S fuel) (Do (Put END)) s).
Proof.
  intros HX r.
  set (s1 := MChan true (arrays s) (nextTakers s) (nextTakers s)
                   (MATCH s) (cancel_of s) (onces s)).
  assert (held (nextTakers s) X true s1) as H1 by done.
  set (w := run dev react (S fuel) (CloseWalk (nextTakers s) 0) s1).
  destruct (close_walk_calls dev react (nextTakers s) X true (S fuel) 0 s1 H1)
    as [H2 H3].
  rewrite drop_0 in H2, H3. fold w in H2, H3.
  pose proof (run_held dev react (nextTakers s) X true (S fuel)
                (CloseWalk (nextTakers s) 0) s1 H1) as [_ H4].
  fold w in H4. specialize (H4 eq_refl).
  assert (r = and_then w (λ g2,
            ret (MChan (closed g2) (arrays g2 ++ [[]]) (currentTakers g2)
                       (length (arrays g2)) (MATCH g2) (cancel_of g2) (onces g2))))
    as Hr by done.
  split; [|split; [|split]].
  - rewrite Hr. destruct (and_then_cases w (λ g2,
            ret (MChan (closed g2) (arrays g2 ++ [[]]) (currentTakers g2)
                       (length (arrays g2)) (MATCH g2) (cancel_of g2) (onces g2))))
      as [[Ho ->]|[Ho ->]]; simpl; [by rewrite app_nil_r | done].
  - rewrite Hr. intros Ho. apply and_then_outcome in Ho as Ho'. destruct Ho' as [Ho1 _].
    rewrite and_then_returned by done. simpl. rewrite app_nil_r. split; [by apply H3|].
    unfold waiting, array. simpl. by rewrite lookup_app_r, Nat.sub_diag.
  - rewrite Hr. unfold and_then. by destruct (outcome_of w).
  - intros Hopen. subst r. simpl. unfold put. simpl.
    rewrite Hopen. by destruct dev.
Qed.

Lemma close_tells_every_taker_witness :
  let r := run false restless 9 (Do Close) two_waiting in
  direct (trace r) `prefix_of` farewells [0; 1] ∧
  (outcome_of r = Returned → direct (trace r) = farewells [0; 1] ∧ waiting (state r) = []) ∧
  closed (state r) = true ∧
  (closed two_waiting = false → r = run false restless 9 (Do (Put END)) two_waiting).
Proof.
  apply (close_tells_every_taker false restless 8 two_waiting [0; 1]).
  reflexivity.
Defined.

Section Null.
Variable dev : bool.
Variable react : nat → input → list op.
Variable pattern : nat → option (input → bool).
Variables (arr : nat) (X : list nat).
Hypothesis react_stable : ∀ cb v, Forall (stable_op pattern) (react cb v).

(** The loop of [put] does not get past a taker whose matcher cannot be
    called. *)
Lemma walk_stops v taker j fuel : ∀ i s,
  kept pattern arr X s →
  X !! j = Some taker → pattern taker = None → i ≤ j →
  outcome_of (run dev react fuel (Walk arr i v) s) ≠ Returned.
Proof.
  induction fuel as [|f IH]; intros i s Hs Hj Hp Hij; [done|].
  simpl. unfold walk. simpl. rewrite (array_snapshot arr X s (proj1 Hs)).
  destruct (X !! i) as [t|] eqn:Ei.
  2:{ apply lookup_ge_None in Ei. apply lookup_lt_Some in Hj. lia. }
  destruct (MATCH s !! t) as [[p|]|] eqn:Em; try done.
  destruct (decide (i = j)) as [->|Hne].
  { assert (t = taker) as -> by congruence.
    pose proof (proj2 Hs taker _ Em) as Hst. congruence. }
  assert (S i ≤ j) as Hlt by lia.
  destruct (p v).
  - pose proof (cancel_keeps pattern arr X t s Hs) as H1.
    intros Ho. apply and_then_outcome in Ho as [_ Ho].
    apply and_then_outcome in Ho as [_ Ho]. revert Ho.
    apply IH; try done.
    by apply (invoke_kept react pattern arr X (run dev react f) react_stable
                (run_kept dev react pattern arr X react_stable f)).
  - by apply IH.
Qed.
End Null.

(** A taker whose matcher is not a function (a take without a pattern is
    registered with [null] by [runTakeEffect], and [take] replaces only a
    matcher that is left out) breaks the channel: while it waits, no put
    of an input other than the end returns: the put throws when it comes to
    that taker, and the takers behind it are not called. *)
Theorem put_throws_on_null_matcher (dev : bool) (react : nat → input → list op)
    (pattern : nat → option (input → bool)) (fuel : nat) (v : input)
    (s : mchan) (X : list nat) (taker : nat) :
  (∀ cb w, Forall (stable_op pattern) (react cb w)) →
  stable pattern s →
  arrays s !! nextTakers s = Some X →
  closed s = false →
  isEnd v = false →
  taker ∈ X →
  pattern taker = None →
  outcome_of (run dev react (S fuel) (Do (Put v)) s) ≠ Returned.
Proof.
  intros Hreact Hst HX Hcl Hv Hin Hp.
  apply list_elem_of_lookup in Hin as [j Hj].
  simpl. unfold put. simpl.
  destruct (dev && negb (notUndef v)); [done|].
  rewrite Hcl, Hv.
  set (s1 := MChan _ _ _ _ _ _ _).
  assert (kept pattern (nextTakers s) X s1) as H1 by done.
  change (walk whole (invoke react (run dev react fuel))
               (walk_again (run dev react fuel)) (nextTakers s) 0 v s1)
    with (run dev react (S fuel) (Walk (nextTakers s) 0 v) s1).
  apply (walk_stops dev react pattern (nextTakers s) X Hreact v taker j); try done. lia.
Qed.

Lemma put_throws_on_null_matcher_witness :
  outcome_of (run false (λ _ _, []) 9 (Do (Put tick)) with_null) = Thrown ∧
  outcome_of (run false (λ _ _, []) 9 (Do (Put tick)) with_null) ≠ Returned.
Proof.
  split; [reflexivity|].
  apply (put_throws_on_null_matcher false (λ _ _, []) null_for_1 8 tick with_null [0; 1] 1).
  - intros. apply Forall_nil_2.
  - intros cb p Hm.
    change (MATCH with_null) with (<[1:=None]> (<[0:=Some wildcard]> ∅) : gmap nat _) in Hm.
    destruct cb as [|[|cb]]; simpl.
    + rewrite lookup_insert_ne, lookup_insert_eq in Hm by done. by simplify_eq.
    + rewrite lookup_insert_eq in Hm. by simplify_eq.
    + by rewrite !lookup_insert_ne, lookup_empty in Hm.
  - reflexivity.
  - reflexivity.
  - reflexivity.
  - apply list_elem_of_In. simpl. tauto.
  - reflexivity.
Defined.

End BroadcastFacts.

(** ** Multicast channel: takers wait once *)

Module OneShotFacts.
Import Multicast Listeners Snapshot Broadcast OneShot SnapshotFacts.

Lemma remove_middle (t : nat) (A B : list nat) :
  t ∉ A → remove t (A ++ t :: B) = A ++ B.
Proof.
  induction A as [|x A IH]; intros Hn; simpl.
  - by rewrite bool_decide_eq_true_2.
  - rewrite bool_decide_eq_false_2 by set_solver. f_equal. apply IH. set_solver.
Qed.

Lemma waiting_ensure s :
  nextTakers s < length (arrays s) →
  waiting (ensureCanMutateNextTakers s) = waiting s ∧
  nextTakers (ensureCanMutateNextTakers s) < length (arrays (ensureCanMutateNextTakers s)).
Proof.
  intros Hlt. unfold ensureCanMutateNextTakers, waiting, array.
  case_bool_decide as Hsh; simpl; [|done].
  rewrite lookup_app_r, Nat.sub_diag, length_app by done. simpl.
  rewrite Hsh. split; [done | lia].
Qed.

Lemma waiting_mutate f s :
  nextTakers s < length (arrays s) →
  waiting (mutate_next f s) = f (waiting s) ∧
  nextTakers (mutate_next f s) < length (arrays (mutate_next f s)).
Proof.
  intros Hlt. unfold mutate_next, waiting, array. simpl.
  rewrite list_lookup_insert_eq, length_insert by done. done.
Qed.

Section Walk.
Variable dev : bool.
Variables (acc : nat → bool) (v : input) (arr : nat) (X : list nat).
Hypothesis X_NoDup : NoDup X.

Lemma cancel_walking i t s :
  X !! i = Some t → acc t = true → walking acc v arr X i s →
  ∃ s', cancel (L:=event) whole t s = ret s' ∧ walking acc v arr X (S i) s'.
Proof.
  intros Hi Hacc (Hk & Hlt & Hw & Harm).
  assert (t ∈ drop i X) as Hin.
  { rewrite (drop_S _ _ _ Hi). apply elem_of_cons. by left. }
  destruct (Harm t Hin) as [[_ (k & Hk1 & Hk2)] _].
  unfold cancel, call_once. simpl. rewrite Hk1, Hk2.
  set (s1 := MChan _ _ _ _ _ _ (<[k:=(t, true)]> (onces s))).
  eexists. split; [done|].
  assert (keeps_snapshot arr X s1) as H1 by done.
  assert (nextTakers s1 < length (arrays s1)) as Hlt1 by done.
  destruct (ensure_keeps arr X s1 H1) as [H2 H3].
  destruct (waiting_ensure s1 Hlt1) as [Hw2 Hlt2].
  destruct (waiting_mutate (remove t) _ Hlt2) as [Hw3 Hlt3].
  assert (t ∉ firstn i X) as Hnot.
  { intros Ht. apply list_elem_of_lookup in Ht as [j Hj].
    pose proof (lookup_lt_Some _ _ _ Hj) as Hjl. rewrite length_take in Hjl.
    rewrite lookup_take_lt in Hj by lia.
    pose proof (NoDup_lookup _ _ _ _ X_NoDup Hi Hj). lia. }
  split; [by apply mutate_keeps|]. split; [done|]. split.
  - rewrite Hw3, Hw2. change (waiting s1) with (waiting s). rewrite Hw.
    rewrite (drop_S _ _ _ Hi), remove_middle.
    2:{ intros Ht. apply list_elem_of_filter in Ht as [_ Ht]. done. }
    rewrite (take_S_r _ _ _ Hi), filter_app, filter_cons_False, filter_nil, app_nil_r.
    + done.
    + rewrite Hacc. done.
  - intros cb Hcb'.
    assert (cb ∈ drop i X) as Hcb.
    { rewrite (drop_S _ _ _ Hi). apply elem_of_cons. by right. }
    destruct (Harm cb Hcb) as [[Hp (k' & Hk1' & Hk2')] Hm].
    assert (k' ≠ k) as Hne.
    { intros ->. rewrite Hk2 in Hk2'. simplify_eq.
      apply list_elem_of_lookup in Hcb' as [j Hj].
      rewrite lookup_drop in Hj.
      pose proof (NoDup_lookup _ _ _ _ X_NoDup Hi Hj). lia. }
    split; [split|].
    + unfold mutate_next, ensureCanMutateNextTakers. subst s1. simpl.
      case_bool_decide; simpl; done.
    + exists k'.
      unfold mutate_next, ensureCanMutateNextTakers. subst s1. simpl.
      case_bool_decide; simpl; (split; [done|]); by rewrite list_lookup_insert_ne.
    + rewrite <- Hm.
      unfold matches, mutate_next, ensureCanMutateNextTakers. subst s1. simpl.
      by case_bool_decide.
Qed.

Lemma skip_walking i t s :
  X !! i = Some t → acc t = false → walking acc v arr X i s → walking acc v arr X (S i) s.
Proof.
  intros Hi Hacc (Hk & Hlt & Hw & Harm).
  split; [done|]. split; [done|]. split.
  - rewrite Hw, (drop_S _ _ _ Hi), (take_S_r _ _ _ Hi), filter_app, filter_cons_True by done.
    rewrite filter_nil, <- app_assoc. done.
  - intros cb Hcb. apply Harm. rewrite (drop_S _ _ _ Hi). apply elem_of_cons. by right.
Qed.

Lemma walk_one_shot fuel : ∀ i s,
  walking acc v arr X i s →
  i ≤ length X →
  length X < i + fuel →
  let r := run dev inert fuel (Walk arr i v) s in
  outcome_of r = Returned ∧
  direct (trace r) = map (λ cb, Call cb v) (filter (λ cb, acc cb = true) (drop i X)) ∧
  waiting (state r) = filter (λ cb, acc cb = false) X.
Proof.
  induction fuel as [|f IH]; intros i s Hs Hle Hfuel; [lia|].
  pose proof Hs as (Hk & Hlt & Hw & Harm).
  simpl. unfold walk. simpl. rewrite (array_snapshot arr X s Hk).
  destruct (X !! i) as [t|] eqn:Ei.
  2:{ apply lookup_ge_None in Ei. simpl.
      rewrite Hw, take_ge, !drop_ge, app_nil_r by lia. done. }
  assert (t ∈ drop i X) as Hin.
  { rewrite (drop_S _ _ _ Ei). apply elem_of_cons. by left. }
  destruct (Harm t Hin) as [[[p Hp] _] Hm].
  rewrite Hp. unfold matches in Hm. rewrite Hp in Hm.
  rewrite (drop_S _ _ _ Ei).
  destruct (p v) eqn:Epv.
  - destruct (cancel_walking i t s Ei (eq_sym Hm) Hs) as (s' & -> & Hs').
    rewrite and_then_ret_l. unfold invoke, inert. simpl.
    pose proof (lookup_lt_Some _ _ _ Ei) as Hlen.
    destruct (IH (S i) s' Hs') as (I1 & I2 & I3); [lia|lia|].
    change (walk_again (run dev (λ _ _, []) f) arr (S i) v s')
      with (run dev inert f (Walk arr (S i) v) s').
    rewrite filter_cons_True by done. rewrite direct_cons. simpl.
    repeat split; [done | by f_equal | done].
  - pose proof (lookup_lt_Some _ _ _ Ei) as Hlen.
    destruct (IH (S i) s (skip_walking i t s Ei (eq_sym Hm) Hs)) as (I1 & I2 & I3);
      [lia|lia|].
    unfold walk_again. rewrite filter_cons_False by (rewrite <- Hm; done).
    done.
Qed.
End Walk.

(** On an open channel where every waiting taker is registered once, a put
    of an input that is not the end, to takers that call nothing back,
    returns (given fuel for one step per taker), calls the takers whose
    predicate accepts the input, in order, and takes exactly these off: the
    others keep waiting, in the order they were in. *)
Theorem put_takes_matched_takers_off (dev : bool) (fuel : nat) (v : input)
    (s : mchan) (X : list nat) :
  tidy s X →
  closed s = false →
  isEnd v = false →
  dev = false ∨ v ≠ undefined →
  length X ≤ fuel →
  let r := run dev inert (S fuel) (Do (Put v)) s in
  outcome_of r = Returned ∧
  direct (trace r) = map (λ cb, Call cb v) (filter (λ cb, matches s v cb = true) X) ∧
  waiting (state r) = filter (λ cb, matches s v cb = false) X.
Proof.
  intros (HX & Hnd & Harm) Hcl Hv Hdev Hfuel.
  simpl. unfold put. simpl.
  assert (dev && negb (notUndef v) = false) as ->.
  { destruct Hdev as [->|Hd]; [done|]. destruct v; [done|]. apply andb_false_r. }
  rewrite Hcl, Hv.
  set (s1 := MChan _ _ _ _ _ _ _).
  assert (walking (matches s v) v (nextTakers s) X 0 s1) as H1.
  { repeat split; try done.
    - by apply lookup_lt_Some in HX.
    - unfold waiting, array. simpl. by rewrite HX, drop_0.
    - rewrite drop_0 in H. by apply Harm.
    - rewrite drop_0 in H. by apply Harm. }
  change (walk whole (invoke inert (run dev inert fuel))
               (walk_again (run dev inert fuel)) (nextTakers s) 0 v s1)
    with (run dev inert (S fuel) (Walk (nextTakers s) 0 v) s1).
  destruct (walk_one_shot dev (matches s v) v (nextTakers s) X Hnd (S fuel) 0 s1 H1)
    as (R1 & R2 & R3); [lia|lia|].
  rewrite drop_0 in R2. done.
Qed.

Lemma put_takes_matched_takers_off_witness :
  let r := run true inert 4 (Do (Put tick)) three_waiting in
  outcome_of r = Returned ∧
  direct (trace r) = [Call 0 tick; Call 2 tick] ∧
  waiting (state r) = [1].
Proof.
  apply (put_takes_matched_takers_off true 3 tick three_waiting [0; 1; 2]).
  - split; [reflexivity|]. split.
    + compute_done.
    + intros cb Hcb. apply list_elem_of_In in Hcb. simpl in Hcb.
      destruct Hcb as [<-|[<-|[<-|[]]]]; (split; [eexists|eexists; split]); reflexivity.
  - reflexivity.
  - reflexivity.
  - right. discriminate.
  - simpl. lia.
Defined.

Lemma register_waiting cb m s X :
  arrays s !! nextTakers s = Some X →
  waiting (register cb m s) = X ++ [cb] ∧
  nextTakers (register cb m s) < length (arrays (register cb m s)) ∧
  cancel_of (register cb m s) !! cb = Some (length (onces s)) ∧
  onces (register cb m s) = onces s ++ [(cb, false)].
Proof.
  intros HX. pose proof (lookup_lt_Some _ _ _ HX) as Hlt. unfold register.
  set (s1 := MChan (closed s) (arrays s) (currentTakers s) (nextTakers s)
                   (<[cb:=compile m]> (MATCH s)) (cancel_of s) (onces s)).
  assert (nextTakers s1 < length (arrays s1)) as Hlt1 by done.
  destruct (waiting_ensure s1 Hlt1) as [Hw2 Hlt2].
  destruct (waiting_mutate (λ l, l ++ [cb]) _ Hlt2) as [Hw3 Hlt3].
  assert (waiting s1 = X) as Hw1 by (unfold waiting, array; simpl; by rewrite HX).
  set (s3 := mutate_next (λ l, l ++ [cb]) (ensureCanMutateNextTakers s1)) in *.
  assert (onces s3 = onces s) as Ho.
  { subst s3. unfold mutate_next, ensureCanMutateNextTakers. simpl.
    by case_bool_decide. }
  split; [|split; [|split]].
  - change (waiting (MChan (closed s3) (arrays s3) (currentTakers s3) (nextTakers s3)
              (MATCH s3) (<[cb := length (onces s3)]> (cancel_of s3))
              (onces s3 ++ [(cb, false)])))
      with (waiting s3).
    by rewrite Hw3, Hw2, Hw1.
  - done.
  - cbn [cancel_of]. by rewrite lookup_insert_eq, Ho.
  - cbn [onces]. by rewrite Ho.
Qed.

Lemma call_once_fresh k cb s :
  onces s !! k = Some (cb, false) → nextTakers s < length (arrays s) →
  ∃ s', call_once k s = Some s' ∧ waiting s' = remove cb (waiting s) ∧
        onces s' = <[k := (cb, true)]> (onces s) ∧ cancel_of s' = cancel_of s.
Proof.
  intros Hk Hlt. unfold call_once. rewrite Hk.
  set (s1 := MChan _ _ _ _ _ _ (<[k:=(cb, true)]> (onces s))).
  assert (nextTakers s1 < length (arrays s1)) as Hlt1 by done.
  destruct (waiting_ensure s1 Hlt1) as [Hw2 Hlt2].
  destruct (waiting_mutate (remove cb) _ Hlt2) as [Hw3 Hlt3].
  eexists. split; [done|]. split; [by rewrite Hw3, Hw2|].
  unfold mutate_next, ensureCanMutateNextTakers. subst s1. simpl.
  by case_bool_decide.
Qed.

(** A taker that cancels is forgotten: on an open channel, [take(cb)]
    followed by the [cancel] it left on [cb] leaves the same takers
    waiting, when [cb] was not waiting already; and the [cancel] works
    once: a second call changes nothing. *)
Theorem multicast_take_then_cancel (dev : bool) (react : nat → input → list op)
    (fuel : nat) (cb : nat) (m : matcher) (s : mchan) (X : list nat) :
  closed s = false →
  arrays s !! nextTakers s = Some X →
  cb ∉ X →
  let r1 := run_all dev react (S fuel) [Take cb m] s in
  let r2 := run_all dev react (S fuel) [Take cb m; Cancel cb] s in
  let r3 := run_all dev react (S fuel) [Take cb m; Cancel cb; Cancel cb] s in
  waiting (state r1) = X ++ [cb] ∧
  waiting (state r2) = X ∧
  r3 = r2 ∧ outcome_of r2 = Returned ∧ trace r2 = [].
Proof.
  intros Hcl HX Hcb.
  destruct (register_waiting cb m s X HX) as (Hw & Hlt & Hc & Ho).
  assert (run dev react (S fuel) (Do (Take cb m)) s = ret (register cb m s)) as Htake.
  { simpl. unfold take. simpl. by rewrite Hcl. }
  assert (onces (register cb m s) !! length (onces s) = Some (cb, false)) as Hk.
  { rewrite Ho, lookup_app_r, Nat.sub_diag by done. done. }
  destruct (call_once_fresh _ cb _ Hk Hlt) as (s' & Hco & Hw' & Ho' & Hc').
  assert (run dev react (S fuel) (Do (Cancel cb)) (register cb m s) = ret s') as Hcancel.
  { change (run dev react (S fuel) (Do (Cancel cb)) (register cb m s))
      with (cancel (L:=event) whole cb (register cb m s)).
    unfold cancel. cbn [view whole update]. by rewrite Hc, Hco. }
  assert (run dev react (S fuel) (Do (Cancel cb)) s' = ret s') as Hagain.
  { change (run dev react (S fuel) (Do (Cancel cb)) s')
      with (cancel (L:=event) whole cb s').
    unfold cancel, call_once. cbn [view whole update]. rewrite Hc', Hc, Ho'.
    rewrite list_lookup_insert_eq; [done|]. by apply lookup_lt_Some in Hk. }
  assert (∀ g (k : mchan → res), then_anyway (ret g) k = k g) as Hret.
  { intros g k. unfold then_anyway. simpl. by destruct (k g). }
  cbn zeta.
  repeat (cbn [run_all]; rewrite ?Htake, ?Hcancel, ?Hagain, ?Hret).
  cbn [outcome_of ret state trace].
  split; [done|]. split; [|done].
  rewrite Hw', Hw. by apply GentleFacts.remove_last.
Qed.

Lemma multicast_take_then_cancel_witness :
  let r1 := run_all false restless 3 [Take 5 Default] two_waiting in
  let r2 := run_all false restless 3 [Take 5 Default; Cancel 5] two_waiting in
  let r3 := run_all false restless 3 [Take 5 Default; Cancel 5; Cancel 5] two_waiting in
  waiting (state r1) = [0; 1] ++ [5] ∧
  waiting (state r2) = [0; 1] ∧
  r3 = r2 ∧ outcome_of r2 = Returned ∧ trace r2 = [].
Proof.
  apply (multicast_take_then_cancel false restless 2 5 Default two_waiting [0; 1]).
  - reflexivity.
  - reflexivity.
  - compute_done.
Defined.

End OneShotFacts.

(** ** Moving forward *)

Section Advances.
Context {G L : Type} (R : G → G → Prop) `{!PreOrder R}.
Implicit Types (f k : G → result G L).

Lemma advances_ret : advances (L:=L) R ret.
Proof. intros g. simpl. reflexivity. Qed.

Lemma advances_throw : advances (L:=L) R throw.
Proof. intros g. simpl. reflexivity. Qed.

Lemma advances_out_of_fuel : advances (L:=L) R out_of_fuel.
Proof. intros g. simpl. reflexivity. Qed.

Lemma advances_and_then f k : advances R f → advances R k → advances R (λ g, and_then (f g) k).
Proof.
  intros Hf Hk g. unfold and_then. destruct (outcome_of (f g)); simpl; try apply Hf.
  etrans; [apply Hf | apply Hk].
Qed.

Lemma advances_then_anyway f k :
  advances R f → advances R k → advances R (λ g, then_anyway (f g) k).
Proof.
  intros Hf Hk g. unfold then_anyway. destruct (outcome_of (f g)); simpl; try apply Hf;
    (etrans; [apply Hf | apply Hk]).
Qed.

Lemma advances_under l f : advances R f → advances R (λ g, under l (f g)).
Proof. intros Hf g. apply Hf. Qed.

Lemma advances_before f (h : G → G) :
  (∀ g, R g (h g)) → advances R f → advances R (λ g, f (h g)).
Proof. intros Hh Hf g. etrans; [apply Hh | apply Hf]. Qed.

Lemma advances_at f g g' : advances R f → R g g' → R g (state (f g')).
Proof. intros Hf Hg. etrans; [apply Hg | apply Hf]. Qed.
End Advances.

(** ** Effects run together *)

Module ParallelFacts.
Import Parallel.

Ltac nothing_paid :=
  split; [done | simpl; rewrite ?weight_nil; unfold open_calls; simpl; lia].

Lemma weight_logged (w : event → nat) (tr : list (tree event)) :
  w logError = 0 → weight w (tr ++ [Node logError []]) = weight w tr.
Proof. intros H. rewrite weight_app, weight_node, weight_nil, H. lia. Qed.

Lemma started_app (a b : list (tree event)) : started (a ++ b) = started a ++ started b.
Proof. unfold started. by rewrite direct_app, flat_map_app. Qed.

Lemma started_digest_child monitor code rec key s :
  started (trace (digest_child monitor code rec key s)) `prefix_of` [key] ∧
  (outcome_of (digest_child monitor code rec key s) = Returned →
   started (trace (digest_child monitor code rec key s)) = [key]).
Proof.
  unfold digest_child, tell.
  destruct monitor; cbn [leaf].
  - rewrite and_then_returned by done. cbn [trace state under]. done.
  - rewrite and_then_ret_l. cbn [trace under]. done.
Qed.

(** In a race that is over no child is started. *)
Lemma race_over_starts_none monitor code rec ks s :
  completed s = true → digest_children true monitor code rec ks s = ret s.
Proof. intros Hc. induction ks as [|key ks IH]; simpl; [done|]. by rewrite Hc. Qed.

Section Facts.
Variable race : bool.
Variable monitor : bool.
Variable keys : list nat.
Variable code : user.
Implicit Types (s : par) (rec : op → par → res).

Section Step.
Variable rec : op → par → res.
Variables (I : par → Prop) (m : par → nat).
Hypothesis rec_paid : ∀ o, paid I m reporting (rec o).

Lemma par_script_paid os : paid I m reporting (script rec os).
Proof.
  induction os as [|o os IH]; simpl; [apply paid_ret|].
  by apply (paid_and_then _ _ _ (rec o)).
Qed.
End Step.

Section Quiet.
Variable rec : op → par → res.
Hypothesis rec_quiet : ∀ o, paid over_ (λ _, 0) reporting (rec o).

Lemma tell_quiet l : reporting l = 0 → paid over_ (λ _, 0) reporting (tell monitor l).
Proof.
  intros Hl s Hs. unfold tell. destruct monitor; [|nothing_paid].
  split; [done|]. cbn [trace leaf]. rewrite weight_node, weight_nil, Hl. done.
Qed.

Lemma child_cancel_quiet key c : paid over_ (λ _, 0) reporting (child_cancel monitor code rec key c).
Proof.
  intros s Hs. unfold child_cancel.
  destruct (effectSettled c); [nothing_paid|].
  set (s1 := with_child key _ s).
  assert (over_ s1) as H1 by done.
  match goal with
  | |- context [and_then ?r ?k] =>
      assert (over_ (state r) ∧ weight reporting (trace r) + 0 ≤ 0) as [H2 H3]
  end.
  { destruct (attached c) as [k|]; [|nothing_paid].
    destruct (par_script_paid rec over_ (λ _, 0) rec_quiet (on_downstream code key k) s1 H1)
      as [H2 H3].
    cbn [outcome_of under].
    destruct (outcome_of (script rec (on_downstream code key k) s1));
      cbn [state trace under]; rewrite ?weight_app, ?weight_node, ?weight_nil;
      simpl; split; try done; lia. }
  match goal with
  | |- context [and_then ?r ?k] => destruct (and_then_cases r k) as [[Ho ->]|[Ho ->]]
  end; cbn [state trace]; [|done].
  match goal with
  | |- context [tell monitor ?l ?s] =>
      destruct (tell_quiet l eq_refl s) as [H4 H5]
  end.
  { by destruct (children _ !! key). }
  rewrite weight_app. split; [done | lia].
Qed.

Lemma cancel_children_quiet ks : paid over_ (λ _, 0) reporting (cancel_children monitor code rec ks).
Proof.
  induction ks as [|key ks IH]; simpl; [apply paid_ret|].
  apply (paid_and_then _ _ _ (cancel_child monitor code rec key)); [|done].
  intros s Hs. unfold cancel_child.
  destruct (children s !! key) as [c|]; [|nothing_paid].
  destruct (installed c); [by apply child_cancel_quiet | nothing_paid].
Qed.

Lemma step_quiet o : paid over_ (λ _, 0) reporting (step race monitor keys code rec o).
Proof.
  intros s Hs. destruct o as [key a isErr|key k| |]; simpl.
  - unfold currCb. destruct (children s !! key) as [c|]; [|nothing_paid].
    destruct (effectSettled c); [nothing_paid|].
    set (s1 := with_child key _ s).
    assert (over_ s1) as H1 by done.
    match goal with
    | |- context [tell monitor ?l ?s] =>
        assert (reporting l = 0) as Hl by (by destruct isErr);
        destruct (tell_quiet l Hl s H1) as [H2 H3]
    end.
    cbn [state trace under]. rewrite weight_node. cbn [reporting].
    match goal with
    | |- context [and_then ?r ?k] => destruct (and_then_cases r k) as [[Ho ->]|[Ho ->]]
    end; cbn [state trace]; [|split; [done | lia]].
    rewrite weight_app.
    unfold over_ in H2.
    destruct race; unfold race_child_done, all_child_done; cbn [completed];
      rewrite H2; cbn [state trace ret]; rewrite weight_nil; split; try done; lia.
  - destruct (children s !! key); [nothing_paid | nothing_paid].
  - unfold cb_dot_cancel, cancel_all. unfold over_ in Hs. rewrite Hs.
    destruct (cb_cancel s); simpl; by rewrite ?weight_nil.
  - nothing_paid.
Qed.
End Quiet.

Lemma run_quiet fuel : ∀ o, paid over_ (λ _, 0) reporting (run race monitor keys code fuel o).
Proof.
  induction fuel as [|f IH]; intros o; simpl.
  - apply paid_out_of_fuel.
  - by apply step_quiet.
Qed.

Lemma script_quiet fuel os :
  paid over_ (λ _, 0) reporting (script (run race monitor keys code fuel) os).
Proof. apply par_script_paid, run_quiet. Qed.

(** With no child digested, nothing is reported either. *)
Lemma run_childless fuel : ∀ o, paid childless (λ _, 0) reporting (run race monitor keys code fuel o).
Proof.
  induction fuel as [|f IH]; intros o s Hs; simpl; [nothing_paid|].
  unfold childless in Hs.
  destruct o as [key a isErr|key k| |]; simpl.
  - unfold currCb. rewrite Hs, lookup_empty. nothing_paid.
  - rewrite Hs, lookup_empty. nothing_paid.
  - assert (∀ ks s', childless s' →
              cancel_children monitor code (run race monitor keys code f) ks s' = ret s')
      as Hnone.
    { induction ks as [|key ks IHk]; intros s' Hs'; simpl; [done|].
      unfold cancel_child. unfold childless in Hs'. rewrite Hs', lookup_empty.
      rewrite and_then_ret_l. by apply IHk. }
    unfold cb_dot_cancel, cancel_all.
    destruct (cb_cancel s); [|by (cbn [outcome_of ret state trace]; rewrite weight_nil)].
    destruct (completed s); [by (cbn [outcome_of ret state trace]; rewrite weight_nil)|].
    rewrite Hnone by done. cbn [outcome_of under ret state trace].
    rewrite weight_node, weight_nil. done.
  - nothing_paid.
Qed.

Section Guarded.
Variable rec : op → par → res.
Hypothesis rec_paid : ∀ o, paid guarded open_calls reporting (rec o).

Lemma quiet_of_paid (f : par → res) :
  paid guarded open_calls reporting f → paid over_ (λ _, 0) reporting f.
Proof.
  intros Hf s Hs. unfold over_ in *.
  assert (guarded s) as Hg by (intros Hc; congruence).
  destruct (Hf s Hg) as [H1 H2]. unfold open_calls in H2. rewrite Hs in H2.
  destruct (completed (state (f s))) eqn:E; [split; [done | lia] | lia].
Qed.

Lemma paid_of_quiet (f : par → res) s :
  paid over_ (λ _, 0) reporting f → over_ s →
  guarded (state (f s)) ∧ weight reporting (trace (f s)) + open_calls (state (f s)) ≤ 0.
Proof.
  intros Hf Hs. destruct (Hf s Hs) as [H1 H2]. unfold over_ in H1.
  split; [intros Hc; congruence|]. unfold open_calls. rewrite H1. lia.
Qed.

Lemma rec_quiet o : paid over_ (λ _, 0) reporting (rec o).
Proof. apply quiet_of_paid, rec_paid. Qed.

Lemma cancel_all_paid s :
  completed s = false →
  over_ (state (cancel_all monitor keys code rec s)) ∧
  weight reporting (trace (cancel_all monitor keys code rec s)) = 0.
Proof.
  intros Hc. unfold cancel_all. rewrite Hc.
  destruct (cancel_children_quiet rec rec_quiet keys (with_completed true s))
    as [H1 H2]; [done|].
  cbn [state trace under]. rewrite weight_node. cbn [reporting]. split; [done | lia].
Qed.

Lemma pass_quiet a isErr s :
  over_ s →
  over_ (state (pass code rec a isErr s)) ∧
  weight reporting (trace (pass code rec a isErr s)) = 1.
Proof.
  intros Hs. unfold pass.
  destruct (par_script_paid rec over_ (λ _, 0) rec_quiet (on_passed code a isErr) s Hs)
    as [H1 H2].
  cbn [state trace under]. rewrite weight_node. cbn [reporting]. split; [done | lia].
Qed.

Lemma gather_quiet g s :
  over_ s →
  over_ (state (gather code rec g s)) ∧
  weight reporting (trace (gather code rec g s)) = 1.
Proof.
  intros Hs. unfold gather.
  destruct (par_script_paid rec over_ (λ _, 0) rec_quiet (on_gathered code g) s Hs)
    as [H1 H2].
  cbn [state trace under]. rewrite weight_node. cbn [reporting]. split; [done | lia].
Qed.

(** Cancelling, then telling the parent: what both chCbAtKey do on an
    error, from a state that is not completed. *)
Lemma cancel_then_tell (k : par → res) s :
  guarded s → completed s = false →
  (∀ s', over_ s' → over_ (state (k s')) ∧ weight reporting (trace (k s')) = 1) →
  guarded (state (and_then (cb_dot_cancel monitor keys code rec s) k)) ∧
  weight reporting (trace (and_then (cb_dot_cancel monitor keys code rec s) k))
  + open_calls (state (and_then (cb_dot_cancel monitor keys code rec s) k)) ≤ 1.
Proof.
  intros Hg Hc Hk. unfold cb_dot_cancel. rewrite (Hg Hc).
  destruct (cancel_all_paid s Hc) as [H1 H2].
  destruct (and_then_cases (cancel_all monitor keys code rec s) k)
    as [[Ho ->]|[Ho ->]]; cbn [state trace].
  - destruct (Hk _ H1) as [H3 H4]. rewrite weight_app.
    unfold over_ in H3. unfold open_calls. rewrite H3.
    split; [intros ?; congruence | lia].
  - unfold over_ in H1. unfold open_calls. rewrite H1.
    split; [intros ?; congruence | lia].
Qed.

Lemma child_done_paid key a isErr s :
  guarded s →
  let r := if race then race_child_done monitor keys code rec key a isErr s
           else all_child_done monitor keys code rec key a isErr s in
  guarded (state r) ∧ weight reporting (trace r) + open_calls (state r) ≤ open_calls s.
Proof.
  intros Hg. cbn zeta.
  destruct (completed s) eqn:Ec.
  { unfold race_child_done, all_child_done. rewrite Ec. destruct race; nothing_paid. }
  assert (open_calls s = 1) as -> by (unfold open_calls; by rewrite Ec).
  destruct race.
  - unfold race_child_done. rewrite Ec.
    destruct isErr.
    + apply cancel_then_tell; try done. intros. by apply pass_quiet.
    + destruct (stops a); cbn [negb].
      * split; [done|]. cbn [state trace ret]. rewrite weight_nil.
        unfold open_calls. rewrite Ec. lia.
      * apply cancel_then_tell; try done. intros. by apply gather_quiet.
  - unfold all_child_done. rewrite Ec.
    destruct (isErr || stops a).
    + apply cancel_then_tell; try done. intros. by apply pass_quiet.
    + cbn [completedCount].
      case_bool_decide.
      * match goal with
        | |- context [gather code rec ?g ?s'] =>
            destruct (gather_quiet g s') as [H1 H2]; [done|]
        end.
        unfold over_ in H1. unfold open_calls. rewrite H1.
        split; [intros ?; congruence | lia].
      * split; [intros _; by apply Hg|]. cbn [state trace ret]. rewrite weight_nil.
        unfold open_calls. cbn [completed]. lia.
Qed.

Lemma tell_paid l :
  reporting l = 0 → paid guarded open_calls reporting (tell monitor l).
Proof.
  intros Hl s Hs. unfold tell. destruct monitor; [|nothing_paid].
  split; [done|]. cbn [trace state leaf]. rewrite weight_node, weight_nil, Hl. lia.
Qed.

Lemma par_step_paid o : paid guarded open_calls reporting (step race monitor keys code rec o).
Proof.
  intros s Hs. destruct o as [key a isErr|key k| |]; simpl.
  - unfold currCb. destruct (children s !! key) as [c|]; [|nothing_paid].
    destruct (effectSettled c); [nothing_paid|].
    set (s1 := with_child key _ s).
    assert (guarded s1) as H1 by done.
    cbn [state trace under]. rewrite weight_node. cbn [reporting].
    match goal with
    | |- context [tell monitor ?l ?s] =>
        assert (reporting l = 0) as Hl by (by destruct isErr);
        destruct (tell_paid l Hl s H1) as [H2 H3]
    end.
    match goal with
    | |- context [and_then ?r ?k] => destruct (and_then_cases r k) as [[Ho ->]|[Ho ->]]
    end; cbn [state trace]; [|split; [done|]; change (open_calls s1) with (open_calls s) in H3; lia].
    rewrite weight_app.
    match goal with
    | |- context [race_child_done _ _ _ _ _ _ _ ?s3] =>
        destruct (child_done_paid key a isErr s3) as [H4 H5];
        [intros Hc; by apply H2|];
        change (open_calls s3) with (open_calls (state (tell monitor
          (if isErr then effectRejected key a else effectResolved key a) s1))) in H5
    end.
    change (open_calls s1) with (open_calls s) in H3.
    split; [done | lia].
  - destruct (children s !! key); nothing_paid.
  - unfold cb_dot_cancel.
    destruct (cb_cancel s) eqn:Ecb.
    + destruct (completed s) eqn:Ec.
      * unfold cancel_all. rewrite Ec. cbn [outcome_of ret state trace].
        rewrite weight_nil. split; [intros Hc; simpl in Hc; congruence|].
        unfold open_calls. simpl. rewrite Ec. lia.
      * destruct (cancel_all_paid s Ec) as [H1 H2]. unfold over_ in H1.
        destruct (outcome_of (cancel_all monitor keys code rec s)); cbn [state trace].
        -- split; [intros Hc; simpl in Hc; congruence|].
           unfold open_calls. cbn [completed]. rewrite H1, Ec. lia.
        -- rewrite weight_logged by done.
           split; [intros Hc; simpl in Hc; congruence|].
           unfold open_calls. cbn [completed]. rewrite H1, Ec. lia.
        -- split; [intros Hc; congruence|].
           unfold open_calls. rewrite H1, Ec. lia.
    + cbn [outcome_of ret state trace]. rewrite weight_nil.
      assert (completed s = true) as Ec.
      { destruct (completed s) eqn:E; [done|]. specialize (Hs E). congruence. }
      split; [intros Hc; simpl in Hc; congruence|].
      unfold open_calls. simpl. rewrite Ec. lia.
  - nothing_paid.
Qed.
Lemma digest_child_paid key : paid guarded open_calls reporting (digest_child monitor code rec key).
Proof.
  unfold digest_child.
  apply (paid_and_then _ _ _ (tell monitor (effectTriggered key))).
  - by apply tell_paid.
  - intros s1 Hs1.
    destruct (par_script_paid rec guarded open_calls rec_paid (runner code key)
                (with_child key (Child false true None) s1))
      as [H1 H2]; [done|].
    cbn [state trace under]. rewrite weight_node. cbn [reporting].
    change (open_calls (with_child key (Child false true None) s1)) with (open_calls s1) in H2.
    split; [done | lia].
Qed.

Lemma digest_children_paid ks :
  paid guarded open_calls reporting (digest_children race monitor code rec ks).
Proof.
  induction ks as [|key ks IH]; simpl; [apply paid_ret|].
  intros s Hs. destruct (race && completed s); [by apply IH|].
  exact (paid_and_then _ _ _ (digest_child monitor code rec key) _
           (digest_child_paid key) IH s Hs).
Qed.

Lemma digest_children_started ks : ∀ s,
  guarded s →
  let r := digest_children race monitor code rec ks s in
  started (trace r) `prefix_of` ks ∧
  (outcome_of r = Returned →
   (race = false → started (trace r) = ks) ∧
   (started (trace r) ≠ ks → completed (state r) = true)).
Proof.
  induction ks as [|key ks IH]; intros s Hs; simpl; [done|].
  destruct (race && completed s) eqn:Eskip.
  { apply andb_true_iff in Eskip as [Hr Hc]. subst race.
    rewrite race_over_starts_none by done. cbn [trace state outcome_of ret].
    split; [apply prefix_nil|]. intros _. split; [done|]. intros _. done. }
  destruct (started_digest_child monitor code rec key s) as [D1 D2].
  destruct (digest_child_paid key s Hs) as [D3 _].
  destruct (IH _ D3) as [I1 I2].
  destruct (and_then_cases (digest_child monitor code rec key s)
              (digest_children race monitor code rec ks)) as [[Ho ->]|[Ho ->]];
    cbn [trace state outcome_of].
  - rewrite started_app, (D2 Ho). simpl. split; [by apply prefix_cons|].
    intros Hr. destruct (I2 Hr) as [I3 I4]. split.
    + intros Hrace. f_equal. by apply I3.
    + intros Hne. apply I4. intros Heq. apply Hne. by f_equal.
  - split; [|done]. destruct D1 as [rest Hrest].
    destruct (started (trace (digest_child monitor code rec key s))) as [|x xs].
    + apply prefix_nil.
    + simpl in Hrest. injection Hrest as <- Hxs.
      apply prefix_cons. destruct xs; [apply prefix_nil | done].
Qed.
End Guarded.

Lemma par_run_paid fuel : ∀ o, paid guarded open_calls reporting (run race monitor keys code fuel o).
Proof.
  induction fuel as [|f IH]; intros o; simpl.
  - apply paid_out_of_fuel.
  - by apply par_step_paid.
Qed.

Lemma par_run_all_paid fuel ops :
  paid guarded open_calls reporting (run_all race monitor keys code fuel ops).
Proof.
  induction ops as [|o ops IH]; simpl; [apply paid_ret|].
  apply (paid_then_anyway _ _ _ (run race monitor keys code fuel o)); [apply par_run_paid | apply IH].
Qed.

Lemma run_all_childless fuel ops :
  paid childless (λ _, 0) reporting (run_all race monitor keys code fuel ops).
Proof.
  induction ops as [|o ops IH]; simpl; [apply paid_ret|].
  apply (paid_then_anyway _ _ _ (run race monitor keys code fuel o));
    [apply run_childless | apply IH].
Qed.

End Facts.

(** [runAllEffect] and [runRaceEffect] call the continuation [cb] at most
    once in the life of the effect: whatever the effect runners of the
    children do, however often and in whatever order the children complete or
    fail, also while they are being cancelled, and whenever the effect is
    cancelled itself. *)
Theorem all_and_race_report_once (race monitor : bool) (keys : list nat) (code : user)
    (fuel : nat) (later : list op) :
  reports (trace (life race monitor keys code fuel later)) ≤ 1.
Proof.
  unfold life, run_effect, reports.
  set (s0 := Par 0 false ∅ ∅ (cb_cancel before) (crashedEffect before)).
  destruct (negb race && bool_decide (keys = [])) eqn:E.
  - assert (childless s0) as H0 by done.
    destruct (par_script_paid (run race monitor keys code fuel) childless (λ _, 0)
                (run_childless race monitor keys code fuel) (on_gathered code ∅) s0 H0)
      as [H1 H2].
    destruct (run_all_childless race monitor keys code fuel later _ H1) as [H3 H4].
    unfold then_anyway, gather. cbn [outcome_of under state trace].
    destruct (outcome_of (script _ _ s0)); cbn [trace under];
      rewrite ?weight_app, weight_node; cbn [reporting]; lia.
  - set (s1 := Par _ _ _ _ true _).
    assert (guarded s1) as H0 by done.
    destruct (digest_children_paid race monitor code (run race monitor keys code fuel)
                (par_run_paid race monitor keys code fuel) keys s1 H0) as [H1 H2].
    destruct (par_run_all_paid race monitor keys code fuel later _ H1) as [H3 H4].
    change (open_calls s1) with 1 in H2.
    unfold then_anyway.
    destruct (outcome_of (digest_children _ _ _ _ _ s1)); cbn [trace];
      rewrite ?weight_app; lia.
Qed.

(** Which children are started.  [runAllEffect] starts the effect runner
    of every key, in order, as long as none throws: also after a child has
    failed or ended at once, when the effect is completed and its
    continuation was called.  [runRaceEffect] starts them in order too and
    leaves keys out only once the race is over. *)
Theorem all_starts_every_child (race monitor : bool) (keys : list nat) (code : user)
    (fuel : nat) (s : par) :
  let r := run_effect race monitor keys code (run race monitor keys code fuel) s in
  started (trace r) `prefix_of` keys ∧
  (outcome_of r = Returned →
   (race = false → started (trace r) = keys) ∧
   (started (trace r) ≠ keys → completed (state r) = true)).
Proof.
  cbn zeta. unfold run_effect.
  destruct (negb race && bool_decide (keys = [])) eqn:E.
  { apply andb_true_iff in E as [_ E]. apply bool_decide_eq_true in E. subst keys.
    unfold gather. cbn [trace under]. done. }
  apply digest_children_started; [|done]. intros o. apply par_run_paid.
Qed.

Lemma all_starts_every_child_witness :
  let r := run_effect false false [0; 1; 2] failing_second
             (run false false [0; 1; 2] failing_second 9) before in
  outcome_of r = Returned ∧ completed (state r) = true ∧
  (∃ c, children (state r) !! 2 = Some c ∧ effectSettled c = false) ∧
  (false = false → started (trace r) = [0; 1; 2]).
Proof.
  split; [reflexivity|]. split; [reflexivity|]. split.
  - eexists. split; reflexivity.
  - apply (all_starts_every_child false false [0; 1; 2] failing_second 9 before).
    reflexivity.
Defined.

Global Instance grown_preorder keys : PreOrder (grown keys).
Proof.
  split.
  - intros s. repeat split; auto. intros key c Hc Hs. eauto.
  - intros s1 s2 s3 (A1 & A2 & A3 & A4 & A5) (B1 & B2 & B3 & B4 & B5).
    repeat split; auto.
    intros key c Hc Hs. destruct (A2 key c Hc Hs) as (c' & Hc' & Hs'). eauto.
Qed.

Lemma grown_with_child keys key c c' s :
  children s !! key = Some c →
  (effectSettled c = true → effectSettled c' = true) →
  (effectSettled c' = false → installed c = true → installed c' = true) →
  grown keys s (with_child key c' s).
Proof.
  intros Hc Hs Hi. unfold grown, cancellable, within, with_child. simpl.
  split; [|split; [|split; [|split]]].
  - intros k Hk. rewrite lookup_insert_ne; [done|]. intros ->. congruence.
  - intros k ck Hk Hsk. destruct (decide (key = k)) as [->|Hne].
    + rewrite lookup_insert_eq. simplify_eq. eauto.
    + rewrite lookup_insert_ne by done. eauto.
  - done.
  - intros Hcan k ck Hk Hsk. destruct (decide (key = k)) as [->|Hne].
    + rewrite lookup_insert_eq in Hk. simplify_eq. apply Hi; [done|].
      apply (Hcan k c Hc). destruct (effectSettled c); [|done].
      specialize (Hs eq_refl). congruence.
    + rewrite lookup_insert_ne in Hk by done. eauto.
  - intros Hw k Hk. destruct (decide (key = k)) as [->|Hne].
    + apply Hw. eauto.
    + rewrite lookup_insert_ne in Hk by done. auto.
Qed.

Lemma grown_same_children keys s s' :
  children s' = children s → (completed s = true → completed s' = true) → grown keys s s'.
Proof.
  intros Hc Hd. unfold grown, cancellable, within. rewrite Hc.
  repeat split; auto. eauto.
Qed.

Section Grown.
Variable race : bool.
Variable monitor : bool.
Variable keys : list nat.
Variable code : user.
Variable rec : op → par → res.
Hypothesis rec_grown : ∀ o, advances (grown keys) (rec o).

Lemma script_grown os : advances (grown keys) (script rec os).
Proof.
  induction os as [|o os IH]; simpl; [apply advances_ret, _|].
  by apply (advances_and_then _ (rec o)).
Qed.

Lemma tell_grown l : advances (grown keys) (tell monitor l).
Proof. intros s. unfold tell. destruct monitor; simpl; reflexivity. Qed.

Lemma child_cancel_grown key c s :
  children s !! key = Some c →
  grown keys s (state (child_cancel monitor code rec key c s)) ∧
  (outcome_of (child_cancel monitor code rec key c s) = Returned →
   ∃ c', children (state (child_cancel monitor code rec key c s)) !! key = Some c' ∧
         effectSettled c' = true).
Proof.
  intros Hc. unfold child_cancel.
  destruct (effectSettled c) eqn:Es.
  { split; [reflexivity|]. intros _. eauto. }
  set (s1 := with_child key (Child true (installed c) (attached c)) s).
  assert (grown keys s s1) as H1 by (by apply (grown_with_child keys key c)).
  assert (∃ c1, children s1 !! key = Some c1 ∧ effectSettled c1 = true) as Hk1.
  { eexists. split; [apply lookup_insert_eq | done]. }
  match goal with
  | |- context [and_then ?r ?k] =>
      assert (grown keys s1 (state r)) as H2
  end.
  { destruct (attached c) as [k|]; [|reflexivity].
    cbn [outcome_of under].
    pose proof (script_grown (on_downstream code key k) s1) as Hd.
    destruct (outcome_of (script rec (on_downstream code key k) s1)); apply Hd. }
  match goal with
  | |- context [and_then ?r ?k] => set (d := r) in *
  end.
  destruct Hk1 as (c1 & Hc1 & Hs1).
  destruct (proj1 (proj2 H2) key c1 Hc1 Hs1) as (c2 & Hc2 & Hs2).
  assert (grown keys (state d)
            (with_child key (Child (effectSettled c2) (installed c2) None) (state d))) as H3.
  { apply (grown_with_child keys key c2); [done | done | simpl; congruence]. }
  match goal with
  | |- context [and_then d ?k] => destruct (and_then_cases d k) as [[Ho ->]|[Ho ->]]
  end; cbn [state outcome_of]; rewrite ?Hc2.
  - split.
    + etrans; [apply H1|]. etrans; [apply H2|]. etrans; [apply H3|]. apply tell_grown.
    + intros _. unfold tell. destruct monitor; simpl;
        (eexists; split; [apply lookup_insert_eq | done]).
  - split; [|done]. etrans; [apply H1 | apply H2].
Qed.

Lemma cancel_child_grown key : advances (grown keys) (cancel_child monitor code rec key).
Proof.
  intros s. unfold cancel_child.
  destruct (children s !! key) as [c|] eqn:Ec; [|reflexivity].
  destruct (installed c); [|reflexivity]. by apply child_cancel_grown.
Qed.

Lemma cancel_children_grown ks : advances (grown keys) (cancel_children monitor code rec ks).
Proof.
  induction ks as [|key ks IH]; simpl; [apply advances_ret, _|].
  apply (advances_and_then _ (cancel_child monitor code rec key)); [|done].
  apply cancel_child_grown.
Qed.

(** After [keys.forEach(key => childCbs[key].cancel())] every child at
    one of these keys is settled. *)
Lemma cancel_children_settle ks : ∀ s,
  cancellable s →
  outcome_of (cancel_children monitor code rec ks s) = Returned →
  ∀ key c, key ∈ ks →
    children (state (cancel_children monitor code rec ks s)) !! key = Some c →
    effectSettled c = true.
Proof.
  induction ks as [|k ks IH]; intros s Hcan Ho key c Hin Hc; [by apply elem_of_nil in Hin|].
  simpl in *. apply and_then_outcome in Ho as Ho'. destruct Ho' as [Ho1 Ho2].
  rewrite and_then_returned in Hc by done. simpl in Hc.
  set (s1 := state (cancel_child monitor code rec k s)) in *.
  pose proof (cancel_child_grown k s) as G1. fold s1 in G1.
  pose proof (cancel_children_grown ks s1) as G2.
  assert (cancellable s1) as Hcan1 by (by apply G1).
  destruct (decide (key ∈ ks)) as [Hks|Hks]; [by apply (IH s1 Hcan1 Ho2 key c)|].
  apply elem_of_cons in Hin as [->|?]; [|done].
  assert (∀ c1, children s1 !! k = Some c1 → effectSettled c1 = true) as Hk.
  { intros c1 Hc1. subst s1. unfold cancel_child in *.
    destruct (children s !! k) as [c0|] eqn:E0.
    - destruct (installed c0) eqn:Ei.
      + destruct (child_cancel_grown k c0 s E0) as [_ Hset].
        destruct (Hset Ho1) as (c' & Hc' & Hs'). congruence.
      + simpl in Hc1. simplify_eq.
        destruct (effectSettled c0) eqn:Es; [done|].
        specialize (Hcan k c0 E0 Es). congruence.
    - simpl in Hc1. congruence. }
  destruct (children s1 !! k) as [c1|] eqn:E1.
  - destruct (proj1 (proj2 G2) k c1 E1 (Hk c1 eq_refl)) as (c' & Hc' & Hs'). congruence.
  - pose proof (proj1 G2 k E1). congruence.
Qed.

Lemma cancel_all_grown : advances (grown keys) (cancel_all monitor keys code rec).
Proof.
  intros s. unfold cancel_all. destruct (completed s) eqn:Ec; [reflexivity|].
  cbn [state under].
  etrans; [|apply cancel_children_grown]. by apply grown_same_children.
Qed.

Lemma cb_dot_cancel_grown : advances (grown keys) (cb_dot_cancel monitor keys code rec).
Proof.
  intros s. unfold cb_dot_cancel. destruct (cb_cancel s); [apply cancel_all_grown | reflexivity].
Qed.

Lemma pass_grown a isErr : advances (grown keys) (pass code rec a isErr).
Proof. intros s. apply script_grown. Qed.

Lemma gather_grown g : advances (grown keys) (gather code rec g).
Proof. intros s. apply script_grown. Qed.

Lemma child_done_grown key a isErr :
  advances (grown keys)
    (λ s, if race then race_child_done monitor keys code rec key a isErr s
          else all_child_done monitor keys code rec key a isErr s).
Proof.
  intros s. destruct race.
  - unfold race_child_done. destruct (completed s) eqn:Ec; [reflexivity|].
    destruct isErr.
    + apply (advances_and_then _ (cb_dot_cancel monitor keys code rec));
        [apply cb_dot_cancel_grown | apply pass_grown].
    + destruct (negb (stops a)); [|reflexivity].
      apply (advances_and_then _ (cb_dot_cancel monitor keys code rec));
        [apply cb_dot_cancel_grown|].
      intros s1. etrans; [|apply gather_grown]. by apply grown_same_children.
  - unfold all_child_done. destruct (completed s) eqn:Ec; [reflexivity|].
    destruct (isErr || stops a).
    + apply (advances_and_then _ (cb_dot_cancel monitor keys code rec));
        [apply cb_dot_cancel_grown | apply pass_grown].
    + case_bool_decide.
      * etrans; [|apply gather_grown]. apply grown_same_children; [done|]. simpl. congruence.
      * simpl. apply grown_same_children; [done|]. simpl. congruence.
Qed.

Lemma step_grown o : advances (grown keys) (step race monitor keys code rec o).
Proof.
  intros s. destruct o as [key a isErr|key k| |]; simpl.
  - unfold currCb. destruct (children s !! key) as [c|] eqn:Ec; [|reflexivity].
    destruct (effectSettled c) eqn:Es; [reflexivity|].
    cbn [state under].
    set (s1 := with_child key (Child true false (attached c)) s).
    assert (grown keys s s1) as H1 by (by apply (grown_with_child keys key c)).
    etrans; [apply H1|].
    apply (advances_and_then _ (tell monitor _)); [apply tell_grown|].
    intros s2.
    match goal with
    | |- context [race_child_done _ _ _ _ _ _ _ ?s3] =>
        etrans; [|apply (child_done_grown key a isErr s3)]
    end.
    by apply grown_same_children.
  - destruct (children s !! key) as [c|] eqn:Ec; [|reflexivity].
    simpl. by apply (grown_with_child keys key c).
  - match goal with
    | |- context [outcome_of ?r] => pose proof (cb_dot_cancel_grown s) as H1
    end.
    destruct (outcome_of (cb_dot_cancel monitor keys code rec s)); cbn [state]; try done;
      (etrans; [apply H1|]; by apply grown_same_children).
  - reflexivity.
Qed.

Lemma digest_child_grown key s :
  key ∈ keys → children s !! key = None →
  (cancellable s → cancellable (state (digest_child monitor code rec key s))) ∧
  (within keys s → within keys (state (digest_child monitor code rec key s))) ∧
  (completed s = true → completed (state (digest_child monitor code rec key s)) = true) ∧
  (∀ k, k ≠ key → children s !! k = None →
        children (state (digest_child monitor code rec key s)) !! k = None).
Proof.
  intros Hin Hnone. unfold digest_child.
  assert (state (tell monitor (effectTriggered key) s) = s
          ∧ outcome_of (tell monitor (effectTriggered key) s) = Returned) as [Ht Ho].
  { unfold tell. by destruct monitor. }
  rewrite and_then_returned by done. cbn [state under]. rewrite Ht.
  set (s1 := with_child key (Child false true None) s).
  pose proof (script_grown (runner code key) s1) as (G1 & G2 & G3 & G4 & G5).
  split; [|split; [|split]].
  - intros Hcan. apply G4. intros k ck Hk Hs. subst s1. simpl in Hk.
    destruct (decide (key = k)) as [->|Hne].
    + rewrite lookup_insert_eq in Hk. by simplify_eq.
    + rewrite lookup_insert_ne in Hk by done. eauto.
  - intros Hw. apply G5. intros k Hk. subst s1. simpl in Hk.
    destruct (decide (key = k)) as [->|Hne]; [done|].
    rewrite lookup_insert_ne in Hk by done. auto.
  - intros Hc. by apply G3.
  - intros k Hne Hk. apply G1. subst s1. simpl. by rewrite lookup_insert_ne.
Qed.
End Grown.

Lemma run_grown race monitor keys code fuel :
  ∀ o, advances (grown keys) (run race monitor keys code fuel o).
Proof.
  induction fuel as [|f IH]; intros o; simpl.
  - apply advances_out_of_fuel, _.
  - by apply step_grown.
Qed.

Lemma and_then_assoc {S L} (r : result S L) (k1 k2 : S → result S L) :
  and_then r (λ s, and_then (k1 s) k2) = and_then (and_then r k1) k2.
Proof.
  unfold and_then. destruct (outcome_of r) eqn:E; simpl; rewrite ?E; try done.
  destruct (outcome_of (k1 (state r))) eqn:E1; simpl; try done.
  by rewrite app_assoc.
Qed.

(** What the effect is left in by [runAllEffect] or [runRaceEffect]. *)
Lemma run_effect_ready race monitor keys code fuel s :
  let r := run_effect race monitor keys code (run race monitor keys code fuel) s in
  keys ≠ [] →
  guarded (state r) ∧ cancellable (state r) ∧ within keys (state r).
Proof.
  cbn zeta. intros Hne. unfold run_effect.
  rewrite bool_decide_eq_false_2, andb_false_r by done.
  set (s1 := Par _ _ _ _ true _).
  assert (guarded s1) as G0 by done.
  split.
  { by apply (digest_children_paid race monitor code _ (par_run_paid race monitor keys code fuel)). }
  assert (cancellable s1 ∧ within keys s1) as H0.
  { split; intros k; unfold s1; simpl; [intros c|]; rewrite lookup_empty;
      [done | by intros [? ?]]. }
  assert (∀ ks s', (∀ k, k ∈ ks → k ∈ keys) → cancellable s' ∧ within keys s' →
    cancellable (state (digest_children race monitor code
                          (run race monitor keys code fuel) ks s')) ∧
    within keys (state (digest_children race monitor code
                          (run race monitor keys code fuel) ks s'))) as Hind.
  { induction ks as [|k ks IH]; intros s' Hks Hs'; simpl; [done|].
    assert (∀ k', k' ∈ ks → k' ∈ keys) as Hks'
      by (intros k' Hk'; apply Hks, elem_of_cons; by right).
    destruct (race && completed s'); [by apply IH|].
    assert (cancellable (state (digest_child monitor code (run race monitor keys code fuel) k s'))
            ∧ within keys (state (digest_child monitor code
                                   (run race monitor keys code fuel) k s'))) as Hd.
    { unfold digest_child.
      assert (state (tell monitor (effectTriggered k) s') = s'
              ∧ outcome_of (tell monitor (effectTriggered k) s') = Returned) as [Ht Ho].
      { unfold tell. by destruct monitor. }
      rewrite and_then_returned by done. cbn [state under]. rewrite Ht.
      set (s2 := with_child k (Child false true None) s').
      pose proof (script_grown keys (run race monitor keys code fuel)
                    (run_grown race monitor keys code fuel) (runner code k) s2)
        as (_ & _ & _ & G4 & G5).
      destruct Hs' as [Hc Hw]. split.
      - apply G4. intros k' ck Hk Hs. subst s2. simpl in Hk.
        destruct (decide (k = k')) as [->|Hn].
        + rewrite lookup_insert_eq in Hk. by simplify_eq.
        + rewrite lookup_insert_ne in Hk by done. eauto.
      - apply G5. intros k' Hk. subst s2. simpl in Hk.
        destruct (decide (k = k')) as [->|Hn]; [apply Hks, elem_of_cons; by left|].
        rewrite lookup_insert_ne in Hk by done. auto. }
    destruct (and_then_cases (digest_child monitor code (run race monitor keys code fuel) k s')
                (digest_children race monitor code (run race monitor keys code fuel) ks))
      as [[Ho ->]|[Ho ->]]; cbn [state]; [by apply IH | done]. }
  by apply Hind.
Qed.

(** When a child fails (in [runAllEffect] also when it ends with [END],
    [CHANNEL_END] or [TASK_CANCEL]) while the effect is not completed, the
    effect is completed and every child started so far is settled (it had
    completed, or its cancel has run) by the time the continuation is called
    with the failure. *)
Theorem failure_settles_started_children (race monitor : bool) (keys : list nat)
    (code : user) (fuel : nat) (key : nat) (a : answer) (isErr : bool)
    (s : par) (c : child) :
  guarded s → cancellable s → within keys s →
  completed s = false →
  children s !! key = Some c → effectSettled c = false →
  (if race then isErr else isErr || stops a) = true →
  let rec := run race monitor keys code fuel in
  ∃ x, run race monitor keys code (S fuel) (Complete key a isErr) s
       = under (Settled key a isErr) (and_then x (pass code rec a isErr)) ∧
       (outcome_of x = Returned → all_settled (state x) ∧ completed (state x) = true).
Proof.
  intros Hg Hcan Hw Hc Hk Hs Hfail rec.
  set (s1 := with_child key (Child true false (attached c)) s).
  set (l := if isErr then effectRejected key a else effectResolved key a).
  set (s3 := λ s2, Par (completedCount s2) (completed s2) (results s2) (children s2)
                      (cb_cancel s2) (if isErr then Some key else crashedEffect s2)).
  exists (and_then (tell monitor l s1) (λ s2, cb_dot_cancel monitor keys code rec (s3 s2))).
  assert (state (tell monitor l s1) = s1 ∧ outcome_of (tell monitor l s1) = Returned)
    as [Ht Ho].
  { unfold tell. by destruct monitor. }
  split.
  - simpl. unfold currCb. rewrite Hk, Hs. fold s1 l. f_equal.
    rewrite <- and_then_assoc. rewrite !(and_then_returned (tell monitor l s1)) by done.
    rewrite Ht. f_equal; fold (s3 s1).
    all: destruct race; [subst isErr; unfold race_child_done
                        | unfold all_child_done; rewrite Hfail];
      cbn [completed s3]; change (completed s1) with (completed s); by rewrite Hc.
  - rewrite and_then_returned by done. cbn [outcome_of state]. rewrite Ht.
    unfold cb_dot_cancel. cbn [cb_cancel s3]. change (cb_cancel s1) with (cb_cancel s).
    rewrite (Hg Hc). unfold cancel_all. cbn [completed s3].
    change (completed s1) with (completed s). rewrite Hc. cbn [outcome_of state under].
    intros Hret.
    set (s4 := with_completed true (s3 s1)) in *.
    assert (grown keys s s4) as G0.
    { etrans; [apply (grown_with_child keys key c (Child true false (attached c)) s);
               [done | done | simpl; congruence]|].
      by apply grown_same_children. }
    pose proof (cancel_children_grown monitor keys code rec
                  (run_grown race monitor keys code fuel) keys s4) as G1.
    assert (cancellable s4) as Hcan4 by (by apply G0).
    assert (within keys (state (cancel_children monitor code rec keys s4))) as Hw5.
    { apply G1. by apply G0. }
    split.
    + intros k ck Hck. apply (cancel_children_settle monitor keys code rec
                                (run_grown race monitor keys code fuel) keys s4 Hcan4 Hret k ck);
        [|done]. apply Hw5. eauto.
    + by apply G1.
Qed.

Lemma failure_settles_started_children_witness :
  let s := state (run_effect false true [0; 1; 2] patient
                    (run false true [0; 1; 2] patient 5) before) in
  let rec := run false true [0; 1; 2] patient 5 in
  ∃ x, run false true [0; 1; 2] patient 6 (Complete 1 AnEnd false) s
       = under (Settled 1 AnEnd false) (and_then x (pass patient rec AnEnd false)) ∧
       (outcome_of x = Returned → all_settled (state x) ∧ completed (state x) = true).
Proof.
  destruct (run_effect_ready false true [0; 1; 2] patient 5 before) as (H1 & H2 & H3);
    [discriminate|].
  apply (failure_settles_started_children false true [0; 1; 2] patient 5 1 AnEnd false
           _ (Child false true (Some 11)) H1 H2 H3); reflexivity.
Defined.

(** *** The results of [runAllEffect] *)

Lemma recorded_later keys h x s : recorded keys h s → recorded keys (h ++ x) s.
Proof.
  intros (H1 & H2 & H3 & H4). repeat split; try done.
  intros key a Hk. apply elem_of_app. left. by apply H1.
Qed.

Lemma complete_for_later keys h x m : complete_for keys h m → complete_for keys (h ++ x) m.
Proof.
  intros [H1 H2]. split; [done|]. intros key a Hk. apply elem_of_app. left. by apply H2.
Qed.

Lemma recorded_same keys h s s' :
  results s' = results s → completedCount s' = completedCount s →
  children s' = children s → recorded keys h s → recorded keys h s'.
Proof. unfold recorded, within. intros -> -> ->. done. Qed.

Lemma recorded_with_child keys h key c c' s :
  children s !! key = Some c →
  (effectSettled c = true → effectSettled c' = true) →
  recorded keys h s → recorded keys h (with_child key c' s).
Proof.
  intros Hc Hs (H1 & H2 & H3 & H4). unfold recorded, within, with_child. simpl.
  repeat split; try done.
  - intros k Hk. destruct (H3 k Hk) as (ck & Hck & Hsk).
    destruct (decide (key = k)) as [->|Hne].
    + rewrite lookup_insert_eq. simplify_eq. eauto.
    + rewrite lookup_insert_ne by done. eauto.
  - intros k Hk. destruct (decide (key = k)) as [->|Hne].
    + apply H4. eauto.
    + rewrite lookup_insert_ne in Hk by done. auto.
Qed.

Lemma recorded_new_child keys h key c s :
  children s !! key = None → key ∈ keys →
  recorded keys h s → recorded keys h (with_child key c s).
Proof.
  intros Hn Hin (H1 & H2 & H3 & H4). unfold recorded, within, with_child. simpl.
  repeat split; try done.
  - intros k Hk. destruct (H3 k Hk) as (ck & Hck & Hsk).
    destruct (decide (key = k)) as [->|Hne]; [congruence|].
    rewrite lookup_insert_ne by done. eauto.
  - intros k Hk. destruct (decide (key = k)) as [->|Hne]; [done|].
    rewrite lookup_insert_ne in Hk by done. auto.
Qed.

Section Tracked.
Variable keys : list nat.
Hypothesis keys_NoDup : NoDup keys.
Implicit Types (f k : par → res) (s : par) (h : list event).

Lemma tracked_ret : tracked keys ret.
Proof.
  intros h s Hs. simpl. rewrite everything_nil, app_nil_r. split; [done|].
  intros m Hm. rewrite everything_nil in Hm. by apply elem_of_nil in Hm.
Qed.

Lemma tracked_throw : tracked keys throw.
Proof. exact tracked_ret. Qed.

Lemma tracked_out_of_fuel : tracked keys out_of_fuel.
Proof. exact tracked_ret. Qed.

Lemma tracked_seq h (r1 : res) (r2 : res) :
  recorded keys (h ++ everything (trace r1)) (state r1) ∧ gathers_well keys h (trace r1) →
  (recorded keys (h ++ everything (trace r1)) (state r1) →
   recorded keys ((h ++ everything (trace r1)) ++ everything (trace r2)) (state r2) ∧
   gathers_well keys (h ++ everything (trace r1)) (trace r2)) →
  recorded keys (h ++ everything (trace r1 ++ trace r2)) (state r2) ∧
  gathers_well keys h (trace r1 ++ trace r2).
Proof.
  intros [H1 H2] H. destruct (H H1) as [H3 H4].
  unfold gathers_well. rewrite everything_app, app_assoc. split; [done|].
  intros m Hm. apply elem_of_app in Hm as [Hm|Hm].
  - by apply complete_for_later, H2.
  - by apply H4.
Qed.

Lemma tracked_and_then f k : tracked keys f → tracked keys k → tracked keys (λ s, and_then (f s) k).
Proof.
  intros Hf Hk h s Hs. unfold and_then.
  destruct (outcome_of (f s)); cbn [state trace]; try by apply Hf.
  apply tracked_seq; [by apply Hf | intros H1; by apply Hk].
Qed.

Lemma tracked_then_anyway f k :
  tracked keys f → tracked keys k → tracked keys (λ s, then_anyway (f s) k).
Proof.
  intros Hf Hk h s Hs. unfold then_anyway.
  destruct (outcome_of (f s)); cbn [state trace]; try by apply Hf.
  all: apply tracked_seq; [by apply Hf | intros H1; by apply Hk].
Qed.

Lemma tracked_under_at l h (r : res) :
  (∀ m, l ≠ Gathered m) →
  recorded keys ((h ++ [l]) ++ everything (trace r)) (state r) ∧
  gathers_well keys (h ++ [l]) (trace r) →
  recorded keys (h ++ everything (trace (under l r))) (state (under l r)) ∧
  gathers_well keys h (trace (under l r)).
Proof.
  intros Hl [H1 H2]. cbn [trace state under]. unfold gathers_well.
  rewrite everything_node.
  rewrite <- app_assoc in H1. split; [done|].
  intros m Hm. apply elem_of_cons in Hm as [Hm|Hm]; [by destruct (Hl m)|].
  specialize (H2 m Hm). by rewrite <- app_assoc in H2.
Qed.

Lemma tracked_under l f : (∀ m, l ≠ Gathered m) → tracked keys f → tracked keys (λ s, under l (f s)).
Proof.
  intros Hl Hf h s Hs. apply tracked_under_at; [done|].
  apply Hf. by apply recorded_later.
Qed.

Lemma tracked_logged h tr s :
  recorded keys (h ++ everything tr) s ∧ gathers_well keys h tr →
  recorded keys (h ++ everything (tr ++ [Node logError []])) s ∧
  gathers_well keys h (tr ++ [Node logError []]).
Proof.
  intros [D1 D2]. unfold gathers_well. rewrite everything_app, app_assoc.
  split; [by apply recorded_later|].
  intros m Hm. apply elem_of_app in Hm as [Hm|Hm].
  - apply complete_for_later. by apply D2.
  - rewrite everything_node, everything_nil in Hm.
    apply elem_of_cons in Hm as [Hm|Hm]; [done | by apply elem_of_nil in Hm].
Qed.

Variable monitor : bool.
Variable code : user.
Variable rec : op → par → res.
Hypothesis rec_tracked : ∀ o, tracked keys (rec o).

Lemma script_tracked os : tracked keys (script rec os).
Proof.
  induction os as [|o os IH]; simpl; [apply tracked_ret|].
  by apply (tracked_and_then (rec o)).
Qed.

Lemma tell_tracked l : (∀ m, l ≠ Gathered m) → tracked keys (tell monitor l).
Proof.
  intros Hl. unfold tell. destruct monitor; [|apply tracked_ret].
  intros h s Hs. unfold leaf, gathers_well. cbn [trace state].
  rewrite everything_node, everything_nil.
  split; [by apply recorded_later|].
  intros m Hm. apply elem_of_cons in Hm as [Hm|Hm]; [by destruct (Hl m)|].
  by apply elem_of_nil in Hm.
Qed.

Lemma pass_tracked a isErr : tracked keys (pass code rec a isErr).
Proof. apply tracked_under; [done | apply script_tracked]. Qed.

Lemma gather_tracked m h s :
  recorded keys h s → complete_for keys h m →
  recorded keys (h ++ everything (trace (gather code rec m s))) (state (gather code rec m s)) ∧
  gathers_well keys h (trace (gather code rec m s)).
Proof.
  intros Hs Hm. unfold gather, gathers_well. cbn [trace state under].
  rewrite everything_node.
  destruct (script_tracked (on_gathered code m) (h ++ [Gathered m]) s) as [H1 H2];
    [by apply recorded_later|].
  rewrite <- app_assoc in H1. split; [done|].
  intros m' Hm'. apply elem_of_cons in Hm' as [Hm'|Hm'].
  - simplify_eq. by apply complete_for_later.
  - specialize (H2 m' Hm'). by rewrite <- app_assoc in H2.
Qed.

Lemma child_cancel_tracked key c s h :
  children s !! key = Some c → recorded keys h s →
  recorded keys (h ++ everything (trace (child_cancel monitor code rec key c s)))
           (state (child_cancel monitor code rec key c s)) ∧
  gathers_well keys h (trace (child_cancel monitor code rec key c s)).
Proof.
  intros Hc Hs. unfold child_cancel.
  destruct (effectSettled c) eqn:Es; [by apply tracked_ret|].
  set (s1 := with_child key (Child true (installed c) (attached c)) s).
  assert (recorded keys h s1) as H1 by (by apply (recorded_with_child keys h key c)).
  match goal with
  | |- context [and_then ?r ?k] =>
      assert (recorded keys (h ++ everything (trace r)) (state r) ∧
              gathers_well keys h (trace r)) as H2
  end.
  { destruct (attached c) as [k|]; [|by apply tracked_ret].
    pose proof (tracked_under (Downstream key k) (script rec (on_downstream code key k))
                  ltac:(done) (script_tracked _) h s1 H1) as [D1 D2].
    cbn [outcome_of under] in *.
    destruct (outcome_of (script rec (on_downstream code key k) s1)); try done.
    cbn [state trace under] in *. unfold gathers_well. rewrite everything_app, app_assoc.
    split; [by apply recorded_later|].
    intros m Hm. apply elem_of_app in Hm as [Hm|Hm].
    - apply complete_for_later. by apply D2.
    - rewrite everything_node, everything_nil in Hm.
      apply elem_of_cons in Hm as [Hm|Hm]; [done | by apply elem_of_nil in Hm]. }
  match goal with
  | |- context [and_then ?r ?k] => set (d := r) in *
  end.
  unfold and_then. destruct (outcome_of d); cbn [state trace]; try done.
  apply tracked_seq; [done|]. intros H3.
  apply tell_tracked; [done|].
  destruct (children (state d) !! key) as [c2|] eqn:E2; [|done].
  by apply (recorded_with_child keys _ key c2).
Qed.

Lemma cancel_children_tracked ks : tracked keys (cancel_children monitor code rec ks).
Proof.
  induction ks as [|key ks IH]; simpl; [apply tracked_ret|].
  apply (tracked_and_then (cancel_child monitor code rec key)); [|done].
  intros h s Hs. unfold cancel_child.
  destruct (children s !! key) as [c|] eqn:Ec; [|by apply tracked_ret].
  destruct (installed c); [by apply child_cancel_tracked | by apply tracked_ret].
Qed.

Lemma cb_dot_cancel_tracked : tracked keys (cb_dot_cancel monitor keys code rec).
Proof.
  intros h s Hs. unfold cb_dot_cancel, cancel_all.
  destruct (cb_cancel s); [|by apply tracked_ret].
  destruct (completed s); [by apply tracked_ret|].
  apply tracked_under_at; [done|].
  apply cancel_children_tracked. apply recorded_later.
  by apply (recorded_same keys h s).
Qed.

Lemma all_child_done_tracked key a isErr h s :
  recorded keys h s →
  Settled key a isErr ∈ h →
  results s !! key = None →
  (∃ c, children s !! key = Some c ∧ effectSettled c = true) →
  let r := all_child_done monitor keys code rec key a isErr s in
  recorded keys (h ++ everything (trace r)) (state r) ∧ gathers_well keys h (trace r).
Proof.
  intros Hs Hmark Hnone Hchild. cbn zeta. unfold all_child_done.
  destruct (completed s); [by apply tracked_ret|].
  destruct (isErr || stops a) eqn:Efail.
  { apply (tracked_and_then (cb_dot_cancel monitor keys code rec) (pass code rec a isErr));
      [apply cb_dot_cancel_tracked | apply pass_tracked | done]. }
  apply orb_false_iff in Efail as [-> _].
  set (s1 := Par (S (completedCount s)) _ (<[key:=a]> (results s)) _ _ _).
  pose proof Hs as (H1 & H2 & H3 & H4).
  assert (recorded keys h s1) as Hs1.
  { unfold recorded, within. subst s1. simpl. repeat split; try done.
    - intros k b Hk. destruct (decide (key = k)) as [->|Hne].
      + rewrite lookup_insert_eq in Hk. by simplify_eq.
      + rewrite lookup_insert_ne in Hk by done. by apply H1.
    - rewrite map_size_insert_None by done. by rewrite H2.
    - intros k Hk. destruct (decide (key = k)) as [->|Hne]; [done|].
      rewrite lookup_insert_ne in Hk by done. by apply H3. }
  case_bool_decide as Hcount.
  - apply gather_tracked.
    + by apply (recorded_same keys h s1).
    + destruct Hs1 as (R1 & R2 & R3 & R4). split; [|done].
      apply set_subseteq_size_eq.
      * intros k Hk. apply elem_of_dom in Hk. apply elem_of_list_to_set.
        destruct (R3 k Hk) as (ck & Hck & _). apply R4. eauto.
      * rewrite size_list_to_set, size_dom by done. lia.
  - by apply tracked_ret.
Qed.

Lemma step_tracked o : tracked keys (step false monitor keys code rec o).
Proof.
  intros h s Hs. destruct o as [key a isErr|key k| |]; simpl.
  - unfold currCb. destruct (children s !! key) as [c|] eqn:Ec; [|by apply tracked_ret].
    destruct (effectSettled c) eqn:Es; [by apply tracked_ret|].
    set (s1 := with_child key (Child true false (attached c)) s).
    assert (recorded keys h s1) as H1 by (by apply (recorded_with_child keys h key c)).
    assert (results s !! key = None) as Hnone.
    { destruct (results s !! key) eqn:E; [|done].
      destruct (proj1 (proj2 (proj2 Hs)) key ltac:(eauto)) as (c' & Hc' & Hs').
      congruence. }
    apply tracked_under_at; [done|].
    unfold and_then.
    match goal with
    | |- context [tell monitor ?l ?s] =>
        assert (state (tell monitor l s) = s
                ∧ outcome_of (tell monitor l s) = Returned) as [Ht Ho]
          by (unfold tell; by destruct monitor);
        destruct (tell_tracked l ltac:(by destruct isErr) (h ++ [Settled key a isErr]) s1)
          as [T1 T2]; [by apply recorded_later|]
    end.
    rewrite Ho. cbn [state trace].
    apply tracked_seq; [done|]. intros _.
    rewrite Ht in *.
    apply all_child_done_tracked.
    + by apply (recorded_same keys _ s1).
    + apply elem_of_app. left. apply elem_of_app. right. apply list_elem_of_singleton. done.
    + done.
    + eexists. split; [apply lookup_insert_eq | done].
  - destruct (children s !! key) as [c|] eqn:Ec; [|by apply tracked_ret].
    cbn [trace state ret]. rewrite everything_nil, app_nil_r. split.
    + by apply (recorded_with_child keys h key c).
    + intros m Hm. rewrite everything_nil in Hm. by apply elem_of_nil in Hm.
  - destruct (cb_dot_cancel_tracked h s Hs) as [H1 H2].
    destruct (outcome_of (cb_dot_cancel monitor keys code rec s)); cbn [state trace]; try done.
    all: try apply tracked_logged.
    all: split; [|done].
    all: by apply (recorded_same keys _ (state (cb_dot_cancel monitor keys code rec s))).
  - by apply tracked_throw.
Qed.

Hypothesis rec_grown : ∀ o, advances (grown keys) (rec o).

Lemma digest_child_tracked key h s :
  key ∈ keys → children s !! key = None → recorded keys h s →
  recorded keys (h ++ everything (trace (digest_child monitor code rec key s)))
           (state (digest_child monitor code rec key s)) ∧
  gathers_well keys h (trace (digest_child monitor code rec key s)).
Proof.
  intros Hin Hn Hs. unfold digest_child.
  assert (state (tell monitor (effectTriggered key) s) = s
          ∧ outcome_of (tell monitor (effectTriggered key) s) = Returned) as [Ht Ho].
  { unfold tell. by destruct monitor. }
  destruct (tell_tracked (effectTriggered key) ltac:(done) h s Hs) as [T1 T2].
  unfold and_then. rewrite Ho. cbn [state trace].
  apply tracked_seq; [done|]. intros _. rewrite Ht in *.
  apply tracked_under_at; [done|].
  apply script_tracked. apply recorded_later.
  by apply recorded_new_child.
Qed.

Lemma digest_children_tracked ks : ∀ h s,
  NoDup ks → (∀ i, i ∈ ks → i ∈ keys) → (∀ i, i ∈ ks → children s !! i = None) →
  recorded keys h s →
  recorded keys (h ++ everything (trace (digest_children false monitor code rec ks s)))
           (state (digest_children false monitor code rec ks s)) ∧
  gathers_well keys h (trace (digest_children false monitor code rec ks s)).
Proof.
  induction ks as [|key ks IH]; intros h s Hnd Hin Hnone Hs; simpl; [by apply tracked_ret|].
  apply NoDup_cons in Hnd as [Hnotin Hnd].
  assert (key ∈ keys) as Hkey by (apply Hin, elem_of_cons; by left).
  assert (children s !! key = None) as Hk by (apply Hnone, elem_of_cons; by left).
  destruct (digest_child_tracked key h s Hkey Hk Hs) as [D1 D2].
  destruct (digest_child_grown monitor keys code rec rec_grown key s Hkey Hk)
    as (_ & _ & _ & G).
  unfold and_then.
  destruct (outcome_of (digest_child monitor code rec key s)); cbn [state trace]; try done.
  apply tracked_seq; [done|]. intros _.
  apply IH; [done | | | done].
  - intros i Hi. apply Hin, elem_of_cons. by right.
  - intros i Hi. apply G.
    + intros ->. done.
    + apply Hnone, elem_of_cons. by right.
Qed.

Lemma run_effect_tracked : tracked keys (run_effect false monitor keys code rec).
Proof.
  intros h s _. unfold run_effect. cbn [negb andb].
  assert (∀ b, recorded keys h (Par 0 false ∅ ∅ b (crashedEffect s))) as H0.
  { intros b. repeat split.
    - intros key a Hk. simpl in Hk. by rewrite lookup_empty in Hk.
    - intros key [a Hk]. simpl in Hk. by rewrite lookup_empty in Hk.
    - intros key [c Hk]. simpl in Hk. by rewrite lookup_empty in Hk. }
  case_bool_decide as Hk.
  - apply gather_tracked; [done|]. subst keys. split; [|intros key a Hk; by rewrite lookup_empty in Hk].
    by rewrite dom_empty_L.
  - by apply digest_children_tracked.
Qed.
End Tracked.

Lemma run_tracked keys monitor code fuel :
  NoDup keys → ∀ o, tracked keys (run false monitor keys code fuel o).
Proof.
  intros Hnd. induction fuel as [|f IH]; intros o; simpl.
  - by apply tracked_out_of_fuel.
  - by apply step_tracked.
Qed.

Lemma run_all_tracked keys monitor code fuel ops :
  NoDup keys → tracked keys (run_all false monitor keys code fuel ops).
Proof.
  intros Hnd. induction ops as [|o ops IH]; simpl; [by apply tracked_ret|].
  apply (tracked_then_anyway keys Hnd (run false monitor keys code fuel o)); [|done].
  by apply run_tracked.
Qed.

(** *** A child is completed or cancelled, once *)

Lemma unsettled_same key s s' : children s' = children s → unsettled key s' = unsettled key s.
Proof. unfold unsettled. by intros ->. Qed.

Lemma unsettled_with_child key k c c' s :
  children s !! k = Some c → (effectSettled c = true → effectSettled c' = true) →
  unsettled key (with_child k c' s) ≤ unsettled key s.
Proof.
  intros Hc Hs. unfold unsettled, with_child. simpl.
  destruct (decide (k = key)) as [->|Hne].
  - rewrite lookup_insert_eq, Hc.
    destruct (effectSettled c); [by rewrite Hs | destruct (effectSettled c'); lia].
  - by rewrite lookup_insert_ne.
Qed.

Lemma unsettled_settled key c' s :
  effectSettled c' = true → unsettled key (with_child key c' s) = 0.
Proof. intros H. unfold unsettled, with_child. simpl. by rewrite lookup_insert_eq, H. Qed.

Lemma unsettled_open key c s :
  children s !! key = Some c → effectSettled c = false → unsettled key s = 1.
Proof. intros H1 H2. unfold unsettled. by rewrite H1, H2. Qed.

Lemma unsettled_other key k c' s : k ≠ key → unsettled key (with_child k c' s) = unsettled key s.
Proof. intros H. unfold unsettled, with_child. simpl. by rewrite lookup_insert_ne. Qed.

Lemma unsettled_new key k c' s :
  children s !! k = None → unsettled key (with_child k c' s) ≤ unsettled key s.
Proof.
  intros H. destruct (decide (k = key)) as [->|Hne]; [|by rewrite unsettled_other].
  unfold unsettled, with_child. simpl. rewrite lookup_insert_eq, H.
  destruct (effectSettled c'); lia.
Qed.

(** Passing the guard of the child at [k], in [currCb] or in the cancel
    installed for it, uses up what the mark [l] counts. *)
Lemma settle_pays key k c c' l s :
  children s !! k = Some c → effectSettled c = false → effectSettled c' = true →
  settling key l = (if bool_decide (k = key) then 1 else 0) →
  settling key l + unsettled key (with_child k c' s) ≤ unsettled key s.
Proof.
  intros Hc Hs Hs' ->. case_bool_decide as Hk.
  - subst k. rewrite unsettled_settled by done. by rewrite (unsettled_open key c s).
  - by rewrite unsettled_other.
Qed.

Section Once.
Variable race : bool.
Variable monitor : bool.
Variable keys : list nat.
Variable code : user.
Variable rec : op → par → res.
Variable key : nat.
Hypothesis rec_once : ∀ o, paid (λ _, True) (unsettled key) (settling key) (rec o).
Implicit Types (s : par) (f : par → res).

Lemma once_at f s :
  paid (λ _, True) (unsettled key) (settling key) f →
  weight (settling key) (trace (f s)) + unsettled key (state (f s)) ≤ unsettled key s.
Proof. intros H. by apply H. Qed.

Lemma once_of f :
  (∀ s, weight (settling key) (trace (f s)) + unsettled key (state (f s)) ≤ unsettled key s) →
  paid (λ _, True) (unsettled key) (settling key) f.
Proof. intros H s _. split; [done | apply H]. Qed.

Lemma par_script_once os : paid (λ _, True) (unsettled key) (settling key) (script rec os).
Proof.
  induction os as [|o os IH]; simpl; [apply paid_ret|].
  by apply (paid_and_then _ _ _ (rec o)).
Qed.

Lemma tell_once l :
  settling key l = 0 → paid (λ _, True) (unsettled key) (settling key) (tell monitor l).
Proof.
  intros Hl. apply once_of. intros s. unfold tell.
  destruct monitor; cbn [trace state leaf ret]; rewrite ?weight_node, ?weight_nil, ?Hl; lia.
Qed.

Lemma pass_once a isErr :
  paid (λ _, True) (unsettled key) (settling key) (pass code rec a isErr).
Proof. apply (paid_under _ _ _ (Passed a isErr)); [done | apply par_script_once]. Qed.

Lemma gather_once m :
  paid (λ _, True) (unsettled key) (settling key) (gather code rec m).
Proof. apply (paid_under _ _ _ (Gathered m)); [done | apply par_script_once]. Qed.

Lemma child_cancel_once k c s :
  children s !! k = Some c →
  weight (settling key) (trace (child_cancel monitor code rec k c s))
  + unsettled key (state (child_cancel monitor code rec k c s)) ≤ unsettled key s.
Proof.
  intros Hc. unfold child_cancel.
  destruct (effectSettled c) eqn:Es; [cbn [trace state ret]; rewrite weight_nil; lia|].
  set (s1 := with_child k (Child true (installed c) (attached c)) s).
  match goal with
  | |- context [and_then ?r ?kk] => set (d := r); set (kont := kk)
  end.
  assert (weight (settling key) (trace d) + unsettled key (state d) ≤ unsettled key s) as Hd.
  { subst d. destruct (attached c) as [k'|].
    - pose proof (once_at _ s1 (par_script_once (on_downstream code k k'))) as H.
      pose proof (settle_pays key k c (Child true (installed c) (Some k')) (Downstream k k') s
                    Hc Es eq_refl eq_refl) as Hpay.
      fold s1 in Hpay. cbn [outcome_of under].
      destruct (outcome_of (script rec (on_downstream code k k') s1));
        cbn [state trace under]; rewrite ?weight_app, ?weight_node, ?weight_nil;
        change (settling key logError) with 0; lia.
    - cbn [ret trace state]. rewrite weight_nil.
      pose proof (unsettled_with_child key k c (Child true (installed c) None) s Hc
                    ltac:(done)). fold s1 in H. lia. }
  destruct (and_then_cases d kont) as [[Ho ->]|[Ho ->]]; cbn [state trace]; [|done].
  subst kont. cbn beta.
  match goal with
  | |- context [tell monitor ?l ?s'] =>
      pose proof (once_at _ s' (tell_once l eq_refl)) as Ht;
      assert (unsettled key s' ≤ unsettled key (state d)) as Hle
  end.
  { destruct (children (state d) !! k) as [c2|] eqn:E2; [|done].
    by apply (unsettled_with_child key k c2). }
  rewrite weight_app. lia.
Qed.

Lemma cancel_children_once ks :
  paid (λ _, True) (unsettled key) (settling key) (cancel_children monitor code rec ks).
Proof.
  induction ks as [|k ks IH]; simpl; [apply paid_ret|].
  apply (paid_and_then _ _ _ (cancel_child monitor code rec k)); [|done].
  apply once_of. intros s. unfold cancel_child.
  destruct (children s !! k) as [c|] eqn:Ec;
    [destruct (installed c); [by apply child_cancel_once|]|];
    cbn [trace state ret]; rewrite weight_nil; lia.
Qed.

Lemma cb_dot_cancel_once :
  paid (λ _, True) (unsettled key) (settling key) (cb_dot_cancel monitor keys code rec).
Proof.
  apply once_of. intros s. unfold cb_dot_cancel, cancel_all.
  destruct (cb_cancel s); [destruct (completed s)|];
    try (cbn [trace state ret]; rewrite weight_nil; lia).
  pose proof (once_at _ (with_completed true s) (cancel_children_once keys)) as H.
  cbn [trace state under]. rewrite weight_node. cbn [settling].
  rewrite (unsettled_same key s (with_completed true s)) in H by done. lia.
Qed.

Lemma child_done_once k a isErr :
  paid (λ _, True) (unsettled key) (settling key)
    (if race then race_child_done monitor keys code rec k a isErr
     else all_child_done monitor keys code rec k a isErr).
Proof.
  assert (∀ m s s', children s' = children s →
            weight (settling key) (trace (gather code rec m s'))
            + unsettled key (state (gather code rec m s')) ≤ unsettled key s) as Hg.
  { intros m s s' Hsame. pose proof (once_at _ s' (gather_once m)) as H.
    by rewrite (unsettled_same key s s') in H. }
  apply once_of. intros s. destruct race.
  - unfold race_child_done.
    destruct (completed s); [cbn [trace state ret]; rewrite weight_nil; lia|].
    destruct isErr.
    { apply (once_at (λ s, and_then (cb_dot_cancel monitor keys code rec s) (pass code rec a true))).
      apply paid_and_then; [apply cb_dot_cancel_once | apply pass_once]. }
    destruct (stops a); cbn [negb]; [cbn [trace state ret]; rewrite weight_nil; lia|].
    apply (once_at (λ s, and_then (cb_dot_cancel monitor keys code rec s)
                           (λ s1, gather code rec {[k := a]} (with_completed true s1)))).
    apply paid_and_then; [apply cb_dot_cancel_once|].
    apply once_of. intros s'. by apply Hg.
  - unfold all_child_done.
    destruct (completed s); [cbn [trace state ret]; rewrite weight_nil; lia|].
    destruct (isErr || stops a).
    { apply (once_at (λ s, and_then (cb_dot_cancel monitor keys code rec s) (pass code rec a isErr))).
      apply paid_and_then; [apply cb_dot_cancel_once | apply pass_once]. }
    case_bool_decide; [by apply Hg|].
    cbn [trace state ret]. rewrite weight_nil.
    match goal with
    | |- _ + unsettled key ?s' ≤ _ => rewrite (unsettled_same key s s') by done
    end. lia.
Qed.

Lemma par_step_once o :
  paid (λ _, True) (unsettled key) (settling key) (step race monitor keys code rec o).
Proof.
  apply once_of. intros s. destruct o as [k a isErr|k k'| |]; simpl.
  - unfold currCb. destruct (children s !! k) as [c|] eqn:Ec;
      [|cbn [trace state throw]; rewrite weight_nil; lia].
    destruct (effectSettled c) eqn:Es; [cbn [trace state ret]; rewrite weight_nil; lia|].
    set (s1 := with_child k (Child true false (attached c)) s).
    pose proof (settle_pays key k c (Child true false (attached c)) (Settled k a isErr) s
                  Ec Es eq_refl eq_refl) as Hpay.
    fold s1 in Hpay.
    cbn [state trace under]. rewrite weight_node.
    match goal with
    | |- context [and_then (tell monitor ?l s1) ?kk] =>
        pose proof (once_at (λ s, and_then (tell monitor l s) kk) s1) as H
    end.
    cbn beta in H.
    cut (paid (λ _, True) (unsettled key) (settling key)
           (λ s, and_then (tell monitor (if isErr then effectRejected k a else effectResolved k a) s)
              (λ s2, let s3 := Par (completedCount s2) (completed s2) (results s2) (children s2)
                                   (cb_cancel s2)
                                   (if isErr then Some k else crashedEffect s2) in
                     if race then race_child_done monitor keys code rec k a isErr s3
                     else all_child_done monitor keys code rec k a isErr s3))).
    { intros Hp. specialize (H Hp). cbn zeta in H. lia. }
    apply paid_and_then; [apply tell_once; by destruct isErr|].
    apply once_of. intros s2. cbn zeta.
    match goal with
    | |- context [race_child_done _ _ _ _ _ _ _ ?s3] =>
        pose proof (once_at _ s3 (child_done_once k a isErr)) as Hd;
        rewrite (unsettled_same key s2 s3) in Hd by done
    end.
    by destruct race.
  - destruct (children s !! k) as [c|] eqn:Ec;
      [|cbn [trace state throw]; rewrite weight_nil; lia].
    cbn [trace state ret]. rewrite weight_nil.
    pose proof (unsettled_with_child key k c (Child (effectSettled c) (installed c) (Some k')) s
                  Ec ltac:(done)). lia.
  - pose proof (once_at _ s cb_dot_cancel_once) as H.
    destruct (outcome_of (cb_dot_cancel monitor keys code rec s)); cbn [state trace];
      rewrite ?weight_logged by done; try done.
    all: match goal with
         | |- _ + unsettled key ?s' ≤ _ =>
             rewrite (unsettled_same key (state (cb_dot_cancel monitor keys code rec s)) s')
               by done
         end; done.
  - unfold weight. simpl. lia.
Qed.

Hypothesis rec_grown : ∀ o, advances (grown keys) (rec o).

Lemma digest_child_once k s :
  children s !! k = None →
  weight (settling key) (trace (digest_child monitor code rec k s))
  + unsettled key (state (digest_child monitor code rec k s)) ≤ unsettled key s.
Proof.
  intros Hn. unfold digest_child.
  pose proof (unsettled_new key k (Child false true None) s Hn) as Hnew.
  set (s1 := with_child k (Child false true None) s) in *.
  assert (paid (λ _, True) (unsettled key) (settling key)
            (λ s', under (Runner k) (script rec (runner code k) s'))) as Hr.
  { apply (paid_under _ _ _ (Runner k)); [done | apply par_script_once]. }
  pose proof (once_at _ s1 Hr) as H. cbn beta in H.
  unfold tell. destruct monitor.
  - rewrite and_then_returned by done. cbn [trace state leaf].
    rewrite weight_app, weight_node, weight_nil. cbn [settling]. fold s1. lia.
  - rewrite and_then_ret_l. fold s1. lia.
Qed.

Lemma digest_children_once ks : ∀ s,
  NoDup ks → (∀ i, i ∈ ks → i ∈ keys) → (∀ i, i ∈ ks → children s !! i = None) →
  weight (settling key) (trace (digest_children race monitor code rec ks s))
  + unsettled key (state (digest_children race monitor code rec ks s)) ≤ unsettled key s.
Proof.
  induction ks as [|k ks IH]; intros s Hnd Hin Hnone; simpl;
    [unfold weight; simpl; lia|].
  apply NoDup_cons in Hnd as [Hnotin Hnd].
  assert (∀ i, i ∈ ks → i ∈ keys) as Hin' by (intros i Hi; apply Hin, elem_of_cons; by right).
  assert (∀ i, i ∈ ks → children s !! i = None) as Hnone'
    by (intros i Hi; apply Hnone, elem_of_cons; by right).
  destruct (race && completed s); [by apply IH|].
  assert (k ∈ keys) as Hk by (apply Hin, elem_of_cons; by left).
  assert (children s !! k = None) as Hkn by (apply Hnone, elem_of_cons; by left).
  pose proof (digest_child_once k s Hkn) as Hd.
  destruct (digest_child_grown monitor keys code rec rec_grown k s Hk Hkn) as (_ & _ & _ & G).
  destruct (and_then_cases (digest_child monitor code rec k s)
              (digest_children race monitor code rec ks)) as [[Ho ->]|[Ho ->]];
    cbn [state trace]; [|done].
  rewrite weight_app.
  specialize (IH (state (digest_child monitor code rec k s)) Hnd Hin').
  assert (∀ i, i ∈ ks → children (state (digest_child monitor code rec k s)) !! i = None) as Hn2.
  { intros i Hi. apply G; [by intros -> | by apply Hnone']. }
  specialize (IH Hn2). lia.
Qed.

Lemma run_effect_once s :
  NoDup keys →
  weight (settling key) (trace (run_effect race monitor keys code rec s))
  + unsettled key (state (run_effect race monitor keys code rec s)) ≤ 1.
Proof.
  intros Hnd. unfold run_effect.
  destruct (negb race && bool_decide (keys = [])).
  - match goal with
    | |- context [gather code rec ?m ?s'] => pose proof (once_at _ s' (gather_once m)) as H
    end.
    etrans; [exact H|]. unfold unsettled. simpl. by rewrite lookup_empty.
  - match goal with
    | |- context [digest_children race monitor code rec keys ?s'] =>
        pose proof (digest_children_once keys s' Hnd ltac:(done)) as H
    end.
    etrans; [apply H|].
    + intros i _. simpl. apply lookup_empty.
    + unfold unsettled. simpl. by rewrite lookup_empty.
Qed.
End Once.

Lemma par_run_once race monitor keys code key fuel :
  ∀ o, paid (λ _, True) (unsettled key) (settling key) (run race monitor keys code fuel o).
Proof.
  induction fuel as [|f IH]; intros o; simpl.
  - apply paid_out_of_fuel.
  - by apply par_step_once.
Qed.

Lemma par_run_all_once race monitor keys code key fuel ops :
  paid (λ _, True) (unsettled key) (settling key) (run_all race monitor keys code fuel ops).
Proof.
  induction ops as [|o ops IH]; simpl; [apply paid_ret|].
  apply (paid_then_anyway _ _ _ (run race monitor keys code fuel o)); [|done].
  apply par_run_once.
Qed.

(** The completions of a child that [digestEffect] passes on to the effect,
    and the calls of the cancel logic attached for the child, are at most
    one together: a child completes once, or is cancelled once. *)
Theorem child_completes_or_is_cancelled_once (race monitor : bool) (keys : list nat)
    (code : user) (fuel : nat) (later : list op) (key : nat) :
  NoDup keys →
  weight (settling key) (trace (life race monitor keys code fuel later)) ≤ 1.
Proof.
  intros Hnd. unfold life.
  pose proof (run_effect_once race monitor keys code (run race monitor keys code fuel) key
                (par_run_once race monitor keys code key fuel)
                (run_grown race monitor keys code fuel) before Hnd) as H1.
  set (r := run_effect race monitor keys code (run race monitor keys code fuel) before) in *.
  pose proof (par_run_all_once race monitor keys code key fuel later (state r) I) as [_ H2].
  unfold then_anyway. destruct (outcome_of r); cbn [trace]; rewrite ?weight_app; lia.
Qed.

Lemma child_completes_or_is_cancelled_once_witness :
  weight (settling 0) (trace (life false true [0; 1; 2] failing_second 5 [Complete 0 AnEnd false]))
  ≤ 1.
Proof.
  apply (child_completes_or_is_cancelled_once false true [0; 1; 2] failing_second 5).
  apply NoDup_cons. split; [intros H; repeat (apply elem_of_cons in H as [H|H]; [discriminate|]); by apply elem_of_nil in H|].
  apply NoDup_cons. split; [intros H; repeat (apply elem_of_cons in H as [H|H]; [discriminate|]); by apply elem_of_nil in H|].
  apply NoDup_singleton.
Defined.

(** When [runAllEffect] calls the continuation with the results, there is a
    result for every key and for nothing else, and each one is an answer
    that the child at its key completed with, without error. *)
Theorem all_gathers_every_answer (monitor : bool) (keys : list nat) (code : user)
    (fuel : nat) (later : list op) (m : gmap nat answer) :
  NoDup keys →
  Gathered m ∈ everything (trace (life false monitor keys code fuel later)) →
  dom m = list_to_set keys ∧
  ∀ key a, m !! key = Some a →
           Settled key a false ∈ everything (trace (life false monitor keys code fuel later)).
Proof.
  intros Hnd Hm.
  assert (tracked keys (λ s, life false monitor keys code fuel later)) as H.
  { apply (tracked_then_anyway keys Hnd
             (λ s, run_effect false monitor keys code (run false monitor keys code fuel) before)).
    - intros h s Hs.
      apply (run_effect_tracked keys Hnd monitor code _ (run_tracked keys monitor code fuel Hnd)
               (run_grown false monitor keys code fuel) h before).
      repeat split.
      + intros key a Hk. simpl in Hk. by rewrite lookup_empty in Hk.
      + intros key [a Hk]. simpl in Hk. by rewrite lookup_empty in Hk.
      + intros key [c Hk]. simpl in Hk. by rewrite lookup_empty in Hk.
    - by apply run_all_tracked. }
  destruct (H [] before) as [_ H2].
  { repeat split.
    - intros key a Hk. simpl in Hk. by rewrite lookup_empty in Hk.
    - intros key [a Hk]. simpl in Hk. by rewrite lookup_empty in Hk.
    - intros key [c Hk]. simpl in Hk. by rewrite lookup_empty in Hk. }
  exact (H2 m Hm).
Qed.

Lemma all_gathers_every_answer_witness :
  let m : gmap nat answer := <[0 := Plain 10]> (<[1 := Plain 11]> ∅) in
  dom m = list_to_set [0; 1] ∧
  ∀ key a, m !! key = Some a →
           Settled key a false ∈ everything (trace (life false true [0; 1] both_at_once 5 [])).
Proof.
  apply (all_gathers_every_answer true [0; 1] both_at_once 5 []).
  - apply NoDup_cons. split; [|apply NoDup_singleton].
    intros H. apply list_elem_of_singleton in H. discriminate.
  - compute_done.
Defined.

End ParallelFacts.
(** ** The fork queue completes *)

Module CompletionFacts.
Import ForkQueue Proc Completion.

Lemma remove_perm (t : nat) (l : list nat) : t ∈ l → l ≡ₚ t :: remove t l.
Proof.
  induction l as [|x l IH]; intros Hin; [by apply elem_of_nil in Hin|].
  simpl. case_bool_decide as Hx; [by subst|].
  apply elem_of_cons in Hin as [->|Hin]; [done|].
  rewrite (IH Hin) at 1. apply Permutation_swap.
Qed.

Lemma main_result_absent d rs : mainTask ∉ rs.*1 → main_result d rs = d.
Proof.
  revert d. induction rs as [|[k v] rs IH]; intros d Hn; [done|].
  unfold main_result. simpl. fold (main_result (if bool_decide (k = mainTask) then v else d) rs).
  rewrite fmap_cons in Hn. apply not_elem_of_cons in Hn as [Hk Hn]. simpl in Hk.
  rewrite bool_decide_eq_false_2 by done. by apply IH.
Qed.

Lemma main_result_present d rs v :
  NoDup rs.*1 → (mainTask, v) ∈ rs → main_result d rs = v.
Proof.
  revert d. induction rs as [|[k w] rs IH]; intros d Hnd Hin; [by apply elem_of_nil in Hin|].
  rewrite fmap_cons in Hnd. apply NoDup_cons in Hnd as [Hk Hnd]. simpl in Hk.
  unfold main_result. simpl. fold (main_result (if bool_decide (k = mainTask) then w else d) rs).
  apply elem_of_cons in Hin as [Heq|Hin].
  - injection Heq as <- <-. rewrite bool_decide_eq_true_2 by done.
    by apply main_result_absent.
  - by apply IH.
Qed.

Lemma main_result_snoc d rs t r :
  main_result d (rs ++ [(t, r)])
  = if bool_decide (t = mainTask) then r else main_result d rs.
Proof. unfold main_result. by rewrite foldl_app. Qed.

Section Facts.
Variable name : nat → nat.
Variables has_cont has_onError : bool.
Variable code : user.

(** Members that end while others are still in the queue: nothing is
    called. *)
Lemma finishing_waits fuel rs : ∀ p T,
  completed (queue p) = false →
  NoDup (tasks (queue p)) →
  (∀ x, x ∈ tasks (queue p) → x ∈ live (queue p)) →
  tasks (queue p) ≡ₚ rs.*1 ++ T → T ≠ [] →
  let b := run_all name has_cont has_onError code (S fuel) (finishing rs) p in
  trace b = [] ∧ outcome_of b = Returned ∧
  completed (queue (state b)) = false ∧
  NoDup (tasks (queue (state b))) ∧
  (∀ x, x ∈ tasks (queue (state b)) → x ∈ live (queue (state b))) ∧
  tasks (queue (state b)) ≡ₚ T ∧
  queue_result (queue (state b)) = main_result (queue_result (queue p)) rs.
Proof.
  induction rs as [|[t r] rs IH]; intros p T Hc Hnd Hl Hp HT; cbn zeta.
  { simpl. done. }
  simpl in Hp.
  assert (t ∈ tasks (queue p)) as Ht by (rewrite Hp; apply elem_of_cons; by left).
  pose proof (remove_perm t _ Ht) as Hrem.
  assert (NoDup (t :: remove t (tasks (queue p)))) as Hnd2 by (by rewrite <- Hrem).
  apply NoDup_cons in Hnd2 as [Hnotin Hnd2].
  assert (remove t (tasks (queue p)) ≡ₚ rs.*1 ++ T) as Hp2.
  { apply (Permutation_cons_inv (a := t)). by rewrite <- Hrem. }
  assert (remove t (tasks (queue p)) ≠ []) as Hne.
  { intros E. rewrite E in Hp2. apply Permutation_nil_l in Hp2. symmetry in Hp2.
    apply app_eq_nil in Hp2 as [_ ?]. done. }
  set (q2 := FQ (remove t (tasks (queue p)))
                (if bool_decide (t = mainTask) then r else queue_result (queue p))
                false (live (queue p) ∖ {[t]})).
  assert (run name has_cont has_onError code (S fuel) (Cont t r false) p
          = ret (update the_queue q2 p)) as Hrun.
  { simpl. unfold cont. simpl. rewrite bool_decide_eq_true_2 by (by apply Hl).
    unfold continuation. simpl. rewrite Hc.
    destruct (remove t (tasks (queue p))) eqn:E; [done|]. done. }
  change (run_all name has_cont has_onError code (S fuel) (finishing ((t, r) :: rs)) p)
    with (then_anyway (run name has_cont has_onError code (S fuel) (Cont t r false) p)
            (run_all name has_cont has_onError code (S fuel) (finishing rs))).
  rewrite Hrun.
  assert (∀ k : proc → res, then_anyway (ret (update the_queue q2 p)) k
                           = k (update the_queue q2 p)) as Hta.
  { intros k. unfold then_anyway. simpl. by destruct (k _). }
  rewrite Hta.
  destruct (IH (update the_queue q2 p) T) as (I1 & I2 & I3 & I4 & I5 & I6 & I7); try done.
  { intros x Hx. simpl in *. apply elem_of_difference. split.
    - apply Hl. rewrite Hrem. apply elem_of_cons. by right.
    - intros Hx'. apply elem_of_singleton in Hx'. by subst. }
Qed.
End Facts.

(** The fork queue calls its continuation, which is [end], when the last
    of its members has ended, not before, and with the result of the main
    task: whatever the order the members end in. *)
Theorem queue_completes_with_main_result (name : nat → nat) (has_cont has_onError : bool)
    (code : user) (fuel : nat) (p : proc) (rs : list (nat * value)) (t : nat) (r : value) :
  completed (queue p) = false →
  NoDup (tasks (queue p)) →
  (∀ x, x ∈ tasks (queue p) → x ∈ live (queue p)) →
  (rs ++ [(t, r)]).*1 ≡ₚ tasks (queue p) →
  let b := run_all name has_cont has_onError code (S fuel) (finishing rs) p in
  let e := run name has_cont has_onError code (S fuel) (Cont t r false) (state b) in
  trace b = [] ∧ outcome_of b = Returned ∧ completed (queue (state b)) = false ∧
  ∃ res, direct (trace e) = [Ended res false] ∧
         (∀ v, (mainTask, v) ∈ rs ++ [(t, r)] → res = v) ∧
         (mainTask ∉ tasks (queue p) → res = queue_result (queue p)).
Proof.
  intros Hc Hnd Hl Hp b e.
  rewrite fmap_app in Hp. simpl in Hp.
  destruct (finishing_waits name has_cont has_onError code fuel rs p [t])
    as (I1 & I2 & I3 & I4 & I5 & I6 & I7); try done.
  fold b in I1, I2, I3, I4, I5, I6, I7.
  apply Permutation_singleton_r in I6.
  repeat split; try done.
  exists (main_result (queue_result (queue p)) (rs ++ [(t, r)])).
  split; [|split].
  - subst e. simpl. unfold cont. simpl.
    rewrite bool_decide_eq_true_2 by (apply I5; rewrite I6; by apply list_elem_of_singleton).
    unfold continuation. simpl. rewrite I3, I6. simpl.
    rewrite bool_decide_eq_true_2 by done. simpl.
    unfold queue_cb. cbn [trace under]. rewrite direct_cons, direct_nil. simpl.
    by rewrite main_result_snoc, I7.
  - intros v Hv. apply main_result_present; [|done].
    rewrite fmap_app. simpl. by rewrite Hp.
  - intros Hn. apply main_result_absent. rewrite fmap_app. simpl. by rewrite Hp.
Qed.

Lemma queue_completes_with_main_result_witness :
  let b := run_all id true false family 9 (finishing [(2, Val 5); (0, Val 7)]) with_children in
  let e := run id true false family 9 (Cont 1 (Val 9) false) (state b) in
  trace b = [] ∧ outcome_of b = Returned ∧ completed (queue (state b)) = false ∧
  ∃ res, direct (trace e) = [Ended res false] ∧
         (∀ v, (mainTask, v) ∈ [(2, Val 5); (0, Val 7)] ++ [(1, Val 9)] → res = v) ∧
         (mainTask ∉ tasks (queue with_children) → res = queue_result (queue with_children)).
Proof.
  apply (queue_completes_with_main_result id true false family 8 with_children
           [(2, Val 5); (0, Val 7)] 1 (Val 9)).
  - reflexivity.
  - change (tasks (queue with_children)) with [0; 1; 2].
    apply (bool_decide_unpack (NoDup [0; 1; 2])). by vm_compute.
  - change (tasks (queue with_children)) with [0; 1; 2].
    change (live (queue with_children)) with ({[0; 1; 2]} : gset nat).
    apply Forall_forall.
    repeat (apply Forall_cons_2; [by vm_compute|]). apply Forall_nil_2.
  - simpl. change (tasks (queue with_children)) with [0; 1; 2].
    etrans; [apply Permutation_swap|]. apply Permutation_skip, Permutation_swap.
Defined.

End CompletionFacts.
(** ** The generator driver *)

Module DriverFacts.
Import Driver.

Section Facts.
Context {T : Type}.
Variable iterate : T → resume → T * reply.
Variable has_return : bool.
Variable monitor : bool.
Variable code : user.
Implicit Types (s : drv T) (r : result (drv T) event).

Lemma resumes_app (a b : list (tree event)) : resumes (a ++ b) = resumes a + resumes b.
Proof. apply weight_app. Qed.

Lemma digested_app (a b : list (tree event)) : digested (a ++ b) = digested a + digested b.
Proof. apply weight_app. Qed.

Lemma driven_ret s : one_pending s → driven 0 s (ret s).
Proof. intros H. split; [done|]. cbn [trace state ret]. unfold resumes, digested, weight. simpl. lia. Qed.

Lemma driven_throw s : one_pending s → driven 0 s (throw s).
Proof. exact (driven_ret s). Qed.

Lemma driven_out_of_fuel s : one_pending s → driven 0 s (out_of_fuel s).
Proof. exact (driven_ret s). Qed.

Lemma driven_weaken c c' s r : c ≤ c' → driven c s r → driven c' s r.
Proof. intros Hc [H1 H2]. split; [done | lia]. Qed.

(** The same result, seen from a state before. *)
Lemma driven_before c c' s0 s r :
  pending s + token s + c ≤ pending s0 + token s0 + c' → driven c s r → driven c' s0 r.
Proof. intros Hc [H1 H2]. split; [done | lia]. Qed.

Lemma driven_leaf l s : one_pending s → driven (resuming l) s (leaf l s).
Proof.
  intros H. split; [done|]. cbn [trace state leaf].
  unfold resumes, digested. rewrite !weight_node, !weight_nil. lia.
Qed.

Lemma driven_and_then c1 c2 s r (k : drv T → result (drv T) event) :
  driven c1 s r → (one_pending (state r) → driven c2 (state r) (k (state r))) →
  driven (c1 + c2) s (and_then r k).
Proof.
  intros [H1 H2] Hk. unfold driven, and_then.
  destruct (outcome_of r); cbn [state trace]; try (split; [done | lia]).
  destruct (Hk H1) as [H3 H4]. split; [done|].
  rewrite resumes_app, digested_app. lia.
Qed.

Lemma driven_then_anyway c1 c2 s r (k : drv T → result (drv T) event) :
  driven c1 s r → (one_pending (state r) → driven c2 (state r) (k (state r))) →
  driven (c1 + c2) s (then_anyway r k).
Proof.
  intros [H1 H2] Hk. unfold driven, then_anyway.
  destruct (Hk H1) as [H3 H4].
  destruct (outcome_of r); cbn [state trace]; try (split; [done | lia]).
  all: split; [done|]; rewrite resumes_app, digested_app; lia.
Qed.

Lemma driven_under l c s r : resuming l = 0 → driven c s r → driven c s (under l r).
Proof.
  intros Hl [H1 H2]. split; [done|]. cbn [trace state under].
  unfold resumes, digested in *. rewrite !weight_node, Hl. lia.
Qed.

(** After [r], which logged an error. *)
Lemma driven_logged c s r err :
  driven c s r → driven c s (Result (state r) (trace r ++ [Node (logError err) []]) Returned).
Proof.
  intros [H1 H2]. split; [done|]. cbn [trace state].
  rewrite resumes_app, digested_app.
  unfold resumes, digested in *. rewrite !weight_node, !weight_nil. simpl. lia.
Qed.

Lemma one_pending_settle i c s :
  one_pending s → effects s !! i = Some c → effectSettled c = false →
  all_settled (with_effect i (Effect true (attached c)) s).
Proof.
  intros Hs Hi Hc j cj Hj. simpl in Hj.
  destruct (decide (i = j)) as [->|Hne].
  - rewrite lookup_insert_eq in Hj. by simplify_eq.
  - rewrite lookup_insert_ne in Hj by done.
    destruct (effectSettled cj) eqn:E; [done|].
    pose proof (Hs j cj Hj E) as H1. pose proof (Hs i c Hi Hc) as H2. congruence.
Qed.

Lemma all_settled_one_pending s : all_settled s → one_pending s.
Proof. intros Hs j c Hj Hc. rewrite (Hs j c Hj) in Hc. done. Qed.

Lemma all_settled_keep i c c2 s :
  all_settled s → effects s !! i = Some c2 → 
  all_settled (with_effect i (Effect (effectSettled c2) c) s).
Proof.
  intros Hs Hi j cj Hj. simpl in Hj.
  destruct (decide (i = j)) as [->|Hne].
  - rewrite lookup_insert_eq in Hj. simplify_eq. simpl. by apply (Hs j c2).
  - rewrite lookup_insert_ne in Hj by done. by apply (Hs j cj).
Qed.

Lemma one_pending_keep i c c2 s :
  one_pending s → effects s !! i = Some c2 →
  one_pending (with_effect i (Effect (effectSettled c2) c) s).
Proof.
  intros Hs Hi j cj Hj Hc. simpl in *.
  destruct (decide (i = j)) as [->|Hne].
  - rewrite lookup_insert_eq in Hj. simplify_eq. simpl in Hc. by apply (Hs j c2).
  - rewrite lookup_insert_ne in Hj by done. by apply (Hs j cj).
Qed.

Lemma pending_keep i c c2 s :
  effects s !! i = Some c2 →
  pending (with_effect i (Effect (effectSettled c2) c) s) = pending s.
Proof.
  intros Hi. unfold pending. simpl. destruct (next_cancel s) as [j|]; [|done].
  destruct (decide (i = j)) as [->|Hne].
  - by rewrite lookup_insert_eq, Hi.
  - by rewrite lookup_insert_ne.
Qed.

Lemma pending_settle i c s :
  pending (with_effect i (Effect true c) s) ≤ pending s.
Proof.
  unfold pending. simpl. destruct (next_cancel s) as [j|]; [|done].
  destruct (decide (i = j)) as [->|Hne].
  - rewrite lookup_insert_eq. simpl. lia.
  - by rewrite lookup_insert_ne.
Qed.

Section Step.
Variable rec : op → drv T → result (drv T) event.
Hypothesis rec_driven : ∀ o s, one_pending s → driven 0 s (rec o s).
Hypothesis rec_quiet : ∀ o s, quiet s → quiet (state (rec o s)).

Lemma script_driven os : ∀ s, one_pending s → driven 0 s (script rec os s).
Proof.
  induction os as [|o os IH]; intros s Hs; simpl; [by apply driven_ret|].
  apply (driven_and_then 0 0); [by apply rec_driven | apply IH].
Qed.

Lemma drv_script_quiet os : ∀ s, quiet s → quiet (state (script rec os s)).
Proof.
  induction os as [|o os IH]; intros s Hs; simpl; [done|].
  pose proof (rec_quiet o s Hs) as H.
  destruct (and_then_cases (rec o s) (script rec os)) as [[Ho ->]|[Ho ->]];
    cbn [state]; [by apply IH | done].
Qed.

Lemma tell_driven l s : resuming l = 0 → one_pending s → driven 0 s (tell monitor l s).
Proof.
  intros Hl Hs. unfold tell. destruct monitor; [|by apply driven_ret].
  rewrite <- Hl. by apply driven_leaf.
Qed.

Lemma drv_tell_state l s : state (tell monitor l s) = s.
Proof. unfold tell. by destruct monitor. Qed.

Lemma drv_tell_returned l s : outcome_of (tell monitor l s) = Returned.
Proof. unfold tell. by destruct monitor. Qed.

Lemma main_cont_driven v isErr s :
  one_pending s → driven 0 s (main_cont code rec v isErr s).
Proof.
  intros Hs. unfold main_cont. apply driven_under; [done|].
  apply (driven_before 0 0 s (main_over s)); [done|].
  by apply script_driven.
Qed.

Lemma handler_driven err s : one_pending s → driven 0 s (handler code rec err s).
Proof.
  intros Hs. unfold handler.
  apply (driven_and_then 0 0).
  - destruct (isCancelled s); [by apply (driven_leaf (logError err)) | by apply driven_ret].
  - intros H. by apply main_cont_driven.
Qed.

Lemma tried_driven c s r : driven c s r → driven c s (tried code rec r).
Proof.
  intros Hr. unfold tried. destruct (outcome_of r) eqn:Ho; try done.
  destruct Hr as [H1 H2].
  destruct (handler_driven Caught (state r) H1) as [H3 H4].
  split; [done|]. cbn [state trace]. rewrite resumes_app, digested_app. lia.
Qed.

Lemma digestEffect_driven e s :
  all_settled s → driven 0 s (digestEffect monitor code rec e s).
Proof.
  intros Hs. unfold digestEffect.
  set (i := nextEffectId s).
  set (s1 := Drv _ _ _ _ _ _ (S i) _).
  rewrite and_then_returned by apply drv_tell_returned.
  rewrite drv_tell_state.
  set (s3 := with_next_cancel (Some i) (with_effect i (Effect false None) s1)).
  assert (one_pending s3) as H3.
  { intros j c Hj Hc. unfold s3 in *. simpl in *.
    destruct (decide (i = j)) as [->|Hne]; [done|].
    rewrite lookup_insert_ne in Hj by done. rewrite (Hs j c Hj) in Hc. done. }
  destruct (script_driven (runner code i e) s3 H3) as [H4 H5].
  assert (pending s3 = 1) as Hp.
  { unfold pending, s3. simpl. by rewrite lookup_insert_eq. }
  assert (token s3 = token s) as Ht by done.
  split; [done|]. cbn [state trace under].
  rewrite resumes_app, digested_app.
  assert (resumes (trace (tell monitor (effectTriggered i) s1)) = 0) as Hr.
  { unfold tell. destruct monitor; cbn [trace leaf ret]; unfold resumes;
      rewrite ?weight_node, ?weight_nil; done. }
  unfold resumes, digested in *. rewrite !weight_node. cbn [resuming digesting].
  lia.
Qed.

Lemma go_driven x s : all_settled s → driven 1 s (go iterate monitor code rec x s).
Proof.
  intros Hs. unfold go.
  set (s1 := with_iterator _ s).
  assert (all_settled s1) as Hs1 by done.
  assert (one_pending s1) as Ho1.
  { intros j c Hj Hc. rewrite (Hs1 j c Hj) in Hc. done. }
  assert (driven 1 s (leaf (Resumed x) s1)) as Hl.
  { apply (driven_before 1 1 s s1); [done|]. by apply (driven_leaf (Resumed x)). }
  destruct ((iterate (iterator s) x).2) as [e|v|err].
  - apply tried_driven. apply (driven_and_then 1 0); [done|].
    intros _. by apply digestEffect_driven.
  - apply tried_driven. apply (driven_and_then 1 0); [done|].
    intros H. by apply main_cont_driven.
  - apply (driven_and_then 1 0); [done|]. intros H. by apply handler_driven.
Qed.

(** The state that the installed cancel leaves once the cancel logic has
    run. *)
Lemma detach_driven i s :
  one_pending s →
  driven 0 s (tell monitor (effectCancelled i)
                (match effects s !! i with
                 | Some c2 => with_effect i (Effect (effectSettled c2) None) s
                 | None => s
                 end)).
Proof.
  intros Hs. destruct (effects s !! i) as [c2|] eqn:E; [|by apply tell_driven].
  apply (driven_before 0 0 s (with_effect i (Effect (effectSettled c2) None) s)).
  - rewrite pending_keep by done. done.
  - apply tell_driven; [done|]. by apply one_pending_keep.
Qed.

Lemma installed_cancel_driven i s :
  one_pending s → driven 0 s (installed_cancel monitor code rec i s).
Proof.
  intros Hs. unfold installed_cancel.
  destruct (effects s !! i) as [c|] eqn:Ei; [|by apply driven_ret].
  destruct (effectSettled c) eqn:Ec; [by apply driven_ret|].
  set (s1 := with_effect i (Effect true (attached c)) s).
  assert (all_settled s1) as Ha1 by (by apply one_pending_settle).
  assert (one_pending s1) as Ho1 by (by apply all_settled_one_pending).
  assert (pending s1 + token s1 + 0 ≤ pending s + token s + 0) as Hle.
  { pose proof (pending_settle i (attached c) s). fold s1 in H.
    change (token s1) with (token s). lia. }
  apply (driven_and_then 0 0).
  - apply (driven_before 0 0 s s1); [done|].
    destruct (attached c) as [k|]; [|by apply driven_ret].
    pose proof (driven_under (Downstream i k) 0 s1 _ eq_refl
                  (script_driven (on_downstream code i k) s1 Ho1)) as Hd.
    cbn [outcome_of under] in *.
    destruct (outcome_of (script rec (on_downstream code i k) s1)); try done.
    by apply driven_logged.
  - intros H. by apply detach_driven.
Qed.

Lemma installed_cancel_quiet i s :
  one_pending s → isCancelled s = true → next_cancel s = Some i →
  quiet (state (installed_cancel monitor code rec i s)).
Proof.
  intros Hs Hc Hn. unfold installed_cancel.
  assert (∀ c, effects s !! i = Some c → effectSettled c = true → all_settled s) as Hall.
  { intros c Hi Hset j cj Hj. destruct (effectSettled cj) eqn:E; [done|].
    pose proof (Hs j cj Hj E) as Hp. rewrite Hn in Hp. injection Hp as <-. congruence. }
  destruct (effects s !! i) as [c|] eqn:Ei.
  2:{ split; [|done]. intros j cj Hj. destruct (effectSettled cj) eqn:E; [done|].
      pose proof (Hs j cj Hj E) as Hp. rewrite Hn in Hp. injection Hp as <-.
      simpl in Hj. congruence. }
  destruct (effectSettled c) eqn:Ec; [split; [by apply (Hall c) | done]|].
  set (s1 := with_effect i (Effect true (attached c)) s).
  assert (quiet s1) as Hq1 by (split; [by apply one_pending_settle | done]).
  match goal with
  | |- context [and_then ?d ?k] => assert (quiet (state d)) as Hd
  end.
  { destruct (attached c) as [k|]; [|done].
    pose proof (drv_script_quiet (on_downstream code i k) s1 Hq1) as Hq.
    cbn [outcome_of under].
    destruct (outcome_of (script rec (on_downstream code i k) s1)); done. }
  match goal with
  | |- context [and_then ?d ?k] =>
      destruct (and_then_cases d k) as [[Ho ->]|[Ho ->]]; cbn [state]; [|done];
      set (s2 := state d) in *
  end.
  rewrite drv_tell_state. destruct Hd as [Hd1 Hd2].
  destruct (effects s2 !! i) as [c2|] eqn:E2; [|done].
  split; [by apply all_settled_keep | done].
Qed.

Lemma next_dot_cancel_driven s : one_pending s → driven 0 s (next_dot_cancel monitor code rec s).
Proof.
  intros Hs. unfold next_dot_cancel.
  destruct (next_cancel s); [by apply installed_cancel_driven | by apply driven_ret].
Qed.

Lemma next_dot_cancel_quiet s :
  one_pending s → isCancelled s = true → quiet (state (next_dot_cancel monitor code rec s)).
Proof.
  intros Hs Hc. unfold next_dot_cancel.
  destruct (next_cancel s) as [i|] eqn:En; [by apply installed_cancel_quiet|].
  split; [|done]. intros j cj Hj. destruct (effectSettled cj) eqn:E; [done|].
  pose proof (Hs j cj Hj E). congruence.
Qed.

Lemma next_driven a isErr s :
  one_pending s → all_settled s ∨ (a = TASK_CANCEL ∧ isErr = false) →
  driven 1 s (next iterate has_return monitor code rec a isErr s).
Proof.
  intros Hs Hcase. unfold next.
  destruct (isRunning s); cbn [negb]; [|apply (driven_weaken 0); [lia | by apply driven_throw]].
  assert (a = TASK_CANCEL ∧ isErr = false ∨ (all_settled s ∧ (isErr = true ∨ a ≠ TASK_CANCEL)))
    as [[-> ->]|[Hall Hnot]].
  { destruct Hcase as [Hall|?]; [|by left].
    destruct isErr; [right; split; [done | by left]|].
    destruct (decide (a = TASK_CANCEL)) as [->|Hne]; [by left | right; split; [done | by right]]. }
  - set (s1 := with_cancelled s).
    assert (one_pending s1) as Ho1 by done.
    pose proof (next_dot_cancel_driven s1 Ho1) as Hd.
    pose proof (next_dot_cancel_quiet s1 Ho1 eq_refl) as [Hq _].
    assert (pending s1 + token s1 + 0 ≤ pending s + token s + 0) as Hle.
    { change (pending s1) with (pending s). unfold token. simpl. destruct (isCancelled s); lia. }
    pose proof (driven_before 0 0 s s1 _ Hle Hd) as Hd'.
    destruct (outcome_of (next_dot_cancel monitor code rec s1)) eqn:Ho.
    + apply (driven_and_then 0 1); [done|]. intros H.
      destruct has_return; [by apply go_driven|].
      apply tried_driven. apply (driven_weaken 0); [lia|]. by apply main_cont_driven.
    + apply (driven_weaken 0); [lia|]. by apply tried_driven.
    + apply (driven_and_then 0 1); [done|]. intros H.
      destruct has_return; [by apply go_driven|].
      apply tried_driven. apply (driven_weaken 0); [lia|]. by apply main_cont_driven.
  - pose proof (all_settled_one_pending s Hall) as Ho.
    destruct isErr; [by apply go_driven|].
    destruct Hnot as [?|Hne]; [done|].
    destruct a; try (by apply go_driven); try done.
    destruct has_return; [by apply go_driven|].
    apply tried_driven. apply (driven_weaken 0); [lia|]. by apply main_cont_driven.
Qed.

Lemma step_driven o s : one_pending s → driven 0 s (step iterate has_return monitor code rec o s).
Proof.
  intros Hs. destruct o as [i a isErr|i k| |]; simpl.
  - unfold currCb. destruct (effects s !! i) as [c|] eqn:Ei; [|by apply driven_throw].
    destruct (effectSettled c) eqn:Ec; [by apply driven_ret|].
    set (s1 := with_next_cancel None (with_effect i (Effect true (attached c)) s)).
    assert (all_settled s1) as Ha1.
    { pose proof (one_pending_settle i c s Hs Ei Ec) as H. done. }
    assert (pending s = 1) as Hp.
    { unfold pending. by rewrite (Hs i c Ei Ec), Ei, Ec. }
    assert (pending s1 = 0) as Hp1 by done.
    rewrite and_then_returned by apply drv_tell_returned. rewrite drv_tell_state.
    match goal with
    | |- context [next _ _ _ _ _ _ _ ?s2] =>
        pose proof (next_driven a isErr s2 (all_settled_one_pending s2 Ha1)
                      (or_introl Ha1)) as [H1 H2];
        change (pending s2) with 0 in H2; change (token s2) with (token s) in H2
    end.
    assert (resumes (trace (tell monitor (if isErr then effectRejected i a
                                          else effectResolved i a) s1)) = 0
            ∧ digested (trace (tell monitor (if isErr then effectRejected i a
                                             else effectResolved i a) s1)) = 0) as [Hr Hd].
    { unfold tell. destruct monitor, isErr; cbn [trace leaf ret]; unfold resumes, digested;
        rewrite ?weight_node, ?weight_nil; done. }
    split; [done|]. cbn [state trace]. rewrite resumes_app, digested_app. lia.
  - destruct (effects s !! i) as [c|] eqn:Ei; [|by apply driven_throw].
    apply (driven_before 0 0 s (with_effect i (Effect (effectSettled c) (Some k)) s)).
    + rewrite pending_keep by done. done.
    + apply driven_ret. by apply one_pending_keep.
  - unfold cancelMain. destruct (isRunning s); [|by apply driven_ret].
    destruct (isCancelled s) eqn:Ec; [by apply driven_ret|]. cbn [andb negb].
    apply (driven_before 1 0 s (with_cancelled s)).
    + change (pending (with_cancelled s)) with (pending s). unfold token. simpl.
      rewrite Ec. lia.
    + apply next_driven; [done | by right].
  - by apply driven_throw.
Qed.

Lemma drv_step_quiet o s : quiet s → quiet (state (step iterate has_return monitor code rec o s)).
Proof.
  intros [Ha Hc]. destruct o as [i a isErr|i k| |]; simpl; try done.
  - unfold currCb. destruct (effects s !! i) as [c|] eqn:Ei; [|done].
    by rewrite (Ha i c Ei).
  - destruct (effects s !! i) as [c|] eqn:Ei; [|done].
    split; [by apply all_settled_keep | done].
  - unfold cancelMain. rewrite Hc, andb_false_r. done.
Qed.
End Step.

Lemma run_driven_quiet fuel :
  (∀ o s, one_pending s → driven 0 s (run iterate has_return monitor code fuel o s)) ∧
  (∀ o s, quiet s → quiet (state (run iterate has_return monitor code fuel o s))).
Proof.
  induction fuel as [|f [IH1 IH2]]; split; intros o s Hs; simpl.
  - by apply driven_out_of_fuel.
  - done.
  - by apply step_driven.
  - by apply drv_step_quiet.
Qed.

Lemma run_driven fuel o s :
  one_pending s → driven 0 s (run iterate has_return monitor code fuel o s).
Proof. apply run_driven_quiet. Qed.

Lemma drv_run_quiet fuel o s :
  quiet s → quiet (state (run iterate has_return monitor code fuel o s)).
Proof. apply run_driven_quiet. Qed.

Lemma run_all_driven fuel ops :
  ∀ s, one_pending s → driven 0 s (run_all iterate has_return monitor code fuel ops s).
Proof.
  induction ops as [|o ops IH]; intros s Hs; simpl; [by apply driven_ret|].
  apply (driven_then_anyway 0 0); [by apply run_driven | apply IH].
Qed.

Lemma life_driven it fuel later :
  driven 1 (fresh_main it) (life iterate has_return monitor code it fuel later).
Proof.
  unfold life.
  assert (all_settled (fresh_main it)) as Ha.
  { intros i c Hi. simpl in Hi. by rewrite lookup_empty in Hi. }
  apply (driven_then_anyway 1 0).
  - apply next_driven; [intros o s; apply run_driven | intros o s; apply drv_run_quiet
                       | by apply all_settled_one_pending | by left].
  - intros H. by apply run_all_driven.
Qed.
End Facts.

(** The main task waits on one effect at a time.  After any calls, also
    ones made while others run, at most one of the effects that were
    digested is not settled, and it is the one that [next.cancel] cancels:
    the one [cancelMain] cancels before it resumes the generator. *)
Theorem one_effect_pending_at_a_time {T : Type} (iterate : T → resume → T * reply)
    (has_return monitor : bool) (code : user) (it : T) (fuel : nat) (later : list op)
    (i j : nat) (ci cj : effect) :
  let s := state (life iterate has_return monitor code it fuel later) in
  effects s !! i = Some ci → effectSettled ci = false →
  effects s !! j = Some cj → effectSettled cj = false →
  i = j ∧ next_cancel s = Some i.
Proof.
  intros s Hi Hci Hj Hcj.
  destruct (life_driven iterate has_return monitor code it fuel later) as [H _].
  pose proof (H i ci Hi Hci) as H1. pose proof (H j cj Hj Hcj) as H2.
  fold s in H1, H2. split; [congruence | done].
Qed.

Lemma one_effect_pending_at_a_time_witness :
  let s := state (life three_steps true false eager_second 0 20 [Complete 0 (Other 1) false]) in
  2 = 2 ∧ next_cancel s = Some 2.
Proof.
  apply (one_effect_pending_at_a_time three_steps true false eager_second 0 20
           [Complete 0 (Other 1) false] 2 2 (Effect false (Some 0)) (Effect false (Some 0)));
    reflexivity.
Defined.

(** The generator is resumed at most once for each effect that was
    digested, besides the call that starts it and one more when the main
    task is cancelled: whatever the effect runners and the code around
    call, and however often. *)
Theorem generator_resumed_once_per_effect {T : Type} (iterate : T → resume → T * reply)
    (has_return monitor : bool) (code : user) (it : T) (fuel : nat) (later : list op) :
  let r := life iterate has_return monitor code it fuel later in
  resumes (trace r) ≤ digested (trace r) + 2 ∧
  (isCancelled (state r) = false → resumes (trace r) ≤ digested (trace r) + 1).
Proof.
  cbn zeta.
  destruct (life_driven iterate has_return monitor code it fuel later) as [_ H].
  change (pending (fresh_main it)) with 0 in H. change (token (fresh_main it)) with 1 in H.
  split; [lia|]. intros Hc. unfold token in H. rewrite Hc in H. lia.
Qed.

Lemma generator_resumed_once_per_effect_witness :
  let r := life three_steps true false eager_second 0 20
             [Complete 0 (Other 1) false; CancelMain; Complete 2 (Other 1) false] in
  resumes (trace r) ≤ digested (trace r) + 2 ∧
  (isCancelled (state r) = false → resumes (trace r) ≤ digested (trace r) + 1).
Proof.
  apply (generator_resumed_once_per_effect three_steps true false eager_second 0 20
           [Complete 0 (Other 1) false; CancelMain; Complete 2 (Other 1) false]).
Defined.

End DriverFacts.
(** ** The end of a task *)

Module EndingFacts.
Import ForkQueue Proc Ending.

Section Kept.
Variable I : proc → Prop.
Variable allowed : op → Prop.
(** [I] looks at [isRunning], [joiners] and [joiners_null] only, and stays
    when the task is over or [joiners] is set to [null]. *)
Hypothesis frame : ∀ p p',
  I p → (isRunning p' = false ∨ isRunning p' = isRunning p) → joiners p' = joiners p →
  (joiners_null p = true → joiners_null p' = true) → I p'.
Hypothesis join_ok : ∀ j p,
  I p → isRunning p = true →
  I (Proc (queue p) (cancelledDueToErrorTasks p) (isRunning p) (isCancelled p)
          (isAborted p) (task_result p) (task_error p) (joiners p ++ [j])
          (joiners_null p) (deferredEnd p)).
Hypothesis unjoin_ok : ∀ j p,
  allowed (Unjoin j) → I p → joiners_null p = false →
  I (Proc (queue p) (cancelledDueToErrorTasks p) (isRunning p) (isCancelled p)
          (isAborted p) (task_result p) (task_error p) (remove j (joiners p))
          (joiners_null p) (deferredEnd p)).

Variable name : nat → nat.
Variables has_cont has_onError : bool.
Variable code : user.
Hypothesis code_allowed : calls_only allowed code.
Section Step.
Variable rec : op → proc → res.
Hypothesis rec_kept : ∀ o, allowed o → kept I (rec o).

Lemma kept_and_then (f k : proc → res) : kept I f → kept I k → kept I (λ p, and_then (f p) k).
Proof.
  intros Hf Hk p Hp. pose proof (Hf p Hp) as H1.
  destruct (and_then_cases (f p) k) as [[Ho ->]|[Ho ->]]; cbn [state]; [by apply Hk | done].
Qed.

Lemma kept_at (f : proc → res) p p' : kept I f → I p' → I p → I (state (f p')).
Proof. intros Hf Hp' _. by apply Hf. Qed.

Lemma task_script_kept os : Forall allowed os → kept I (script rec os).
Proof.
  induction os as [|o os IH]; intros Hos; [by intros p Hp|].
  apply Forall_cons in Hos as [Ho Hos]. simpl.
  apply (kept_and_then (rec o)); [by apply rec_kept | by apply IH].
Qed.

Lemma cancel_member_kept t : kept I (cancel_member code rec t).
Proof. intros p Hp. unfold cancel_member. cbn [state under]. apply task_script_kept; [apply code_allowed | done]. Qed.

Lemma joiner_kept j v e : kept I (λ p, under (Joiner j v e) (script rec (on_joiner code j v e) p)).
Proof. intros p Hp. cbn [state under]. apply task_script_kept; [apply code_allowed | done]. Qed.

Lemma onAbort_kept : kept I (onAbort name).
Proof. intros p Hp. unfold onAbort, leaf. cbn [state]. apply (frame p); auto. Qed.

Lemma each_joiner_kept v e n : ∀ k, kept I (each_joiner code rec v e n k).
Proof.
  induction n as [|n IH]; intros k p Hp; simpl; [done|].
  destruct (joiners p !! k) as [j|]; [|by apply IH].
  apply (kept_and_then (λ p, under (Joiner j v e) (script rec (on_joiner code j v e) p)));
    [apply joiner_kept | apply IH | done].
Qed.

Lemma settle_kept l : kept I (settle l).
Proof. intros p Hp. unfold settle, leaf. by destruct (deferredEnd p). Qed.

Lemma end_kept v e : kept I (end_ has_cont has_onError code rec v e).
Proof.
  intros p Hp. unfold end_.
  set (p1 := Proc _ _ false _ _ _ _ _ _ _).
  assert (I p1) as H1 by (apply (frame p); auto).
  match goal with
  | |- context [and_then ?a ?k] => assert (I (state a)) as Ha
  end.
  { destruct e.
    - match goal with
      | |- context [and_then ?a ?k] =>
          destruct (and_then_cases a k) as [[Ho ->]|[Ho ->]]; cbn [state];
          assert (I (state a)) as Hs by (destruct has_cont; [done|]; by unfold leaf)
      end; [|done].
      apply settle_kept. match goal with | H : I ?q |- I ?q' => apply (frame q); auto end.
    - apply settle_kept. apply (frame p1); auto. }
  match goal with
  | |- context [and_then ?a ?k] =>
      destruct (and_then_cases a k) as [[Ho ->]|[Ho ->]]; cbn [state]; [|done];
      set (p3 := state a) in *
  end.
  match goal with
  | |- context [and_then ?a ?k] => assert (I (state a)) as Hc
  end.
  { destruct has_cont; [|done]. cbn [state under].
    apply task_script_kept; [apply code_allowed | done]. }
  match goal with
  | |- context [and_then ?a ?k] =>
      destruct (and_then_cases a k) as [[Ho' ->]|[Ho' ->]]; cbn [state]; [|done];
      set (p4 := state a) in *
  end.
  destruct (joiners_null p4) eqn:En; [done|].
  pose proof (each_joiner_kept v e (length (joiners p4)) 0 p4 Hc) as Hj.
  match goal with
  | |- context [and_then ?a ?k] =>
      destruct (and_then_cases a k) as [[Ho'' ->]|[Ho'' ->]]; cbn [state]; [|done]
  end.
  match goal with | H : I ?q |- I ?q' => apply (frame q); auto end.
Qed.

Lemma queue_cb_kept v e : kept I (queue_cb has_cont has_onError code rec v e).
Proof. intros p Hp. unfold queue_cb. cbn [state under]. by apply end_kept. Qed.

Lemma update_queue_kept q p : I p → I (update the_queue q p).
Proof. intros Hp. apply (frame p); auto. Qed.

Lemma cancel_each_kept n : ∀ k, kept I (cancel_each the_queue (cancel_member code rec) n k).
Proof.
  induction n as [|n IH]; intros k p Hp; simpl; [done|].
  destruct (tasks (queue p) !! k) as [t|]; [|by apply IH].
  match goal with
  | |- context [and_then ?a ?kk] =>
      assert (I (state a)) as Ha by (apply cancel_member_kept; by apply update_queue_kept);
      destruct (and_then_cases a kk) as [[Ho ->]|[Ho ->]]; cbn [state]; [by apply IH | done]
  end.
Qed.

Lemma cancelAll_kept : kept I (cancelAll the_queue (cancel_member code rec)).
Proof.
  intros p Hp. unfold cancelAll. cbn [view the_queue].
  destruct (completed (queue p)); [done|].
  match goal with
  | |- context [and_then ?a ?kk] =>
      assert (I (state a)) as Ha by (apply cancel_each_kept; by apply update_queue_kept);
      destruct (and_then_cases a kk) as [[Ho ->]|[Ho ->]]; cbn [state]; [|done]
  end.
  unfold over. by apply update_queue_kept.
Qed.

Lemma abort_kept err :
  kept I (abort the_queue (cancel_member code rec) (onAbort name)
            (queue_cb has_cont has_onError code rec) err).
Proof.
  unfold abort. apply (kept_and_then (onAbort name)); [apply onAbort_kept|].
  apply (kept_and_then (cancelAll the_queue (cancel_member code rec)));
    [apply cancelAll_kept | apply queue_cb_kept].
Qed.

Lemma cont_kept t v e :
  kept I (cont the_queue (cancel_member code rec) (onAbort name)
            (queue_cb has_cont has_onError code rec) t v e).
Proof.
  intros p Hp. unfold cont. case_bool_decide; [|done].
  unfold continuation. cbn [view the_queue].
  destruct (completed (queue p)); [done|].
  destruct e.
  - apply abort_kept. by apply update_queue_kept.
  - cbn [tasks].
    destruct (remove t (tasks (queue p))).
    + apply queue_cb_kept. by apply update_queue_kept.
    + cbn [state ret]. by apply update_queue_kept.
Qed.

Lemma task_step_kept o : allowed o → kept I (step name has_cont has_onError code rec o).
Proof.
  intros Ho p Hp. destruct o as [t v e|t|err| |j|j| |]; simpl.
  - by apply cont_kept.
  - unfold addTask, over. cbn [state ret]. by apply update_queue_kept.
  - by apply abort_kept.
  - unfold cancel. destruct (isRunning p && negb (isCancelled p)); [|done].
    cbn [state under].
    match goal with
    | |- context [cancelAll the_queue _ ?p1] =>
        assert (I p1) as H1 by (apply (frame p); auto);
        apply (kept_and_then (cancelAll the_queue (cancel_member code rec))
                 (queue_cb has_cont has_onError code rec TASK_CANCEL false)
                 cancelAll_kept (queue_cb_kept _ _) p1 H1)
    end.
  - unfold join. pose proof (join_ok j p Hp) as Hj.
    destruct (isRunning p) eqn:Er; [by apply Hj|].
    destruct (isAborted p); by apply joiner_kept.
  - unfold unjoin. pose proof (unjoin_ok j p Ho Hp) as Hj.
    destruct (joiners_null p) eqn:En; [done|]. by apply Hj.
  - unfold toPromise. destruct (deferredEnd p); [done|].
    match goal with
    | |- context [isRunning ?p1] => assert (I p1) as H1 by (apply (frame p); auto)
    end.
    cbn [isRunning isAborted]. destruct (isRunning p), (isAborted p); done.
  - done.
Qed.
End Step.

Lemma task_run_kept fuel : ∀ o, allowed o → kept I (run name has_cont has_onError code fuel o).
Proof.
  induction fuel as [|f IH]; intros o Ho; simpl; [by intros p Hp|].
  by apply task_step_kept.
Qed.
End Kept.

Lemma over_with_frame J (p p' : proc) :
  over_with J p → (isRunning p' = false ∨ isRunning p' = isRunning p) →
  joiners p' = joiners p → (joiners_null p = true → joiners_null p' = true) →
  over_with J p'.
Proof. intros [H1 H2] Hr Hj _. split; [destruct Hr; congruence | congruence]. Qed.

Lemma over_with_join J (j : nat) (p : proc) :
  over_with J p → isRunning p = true →
  over_with J (Proc (queue p) (cancelledDueToErrorTasks p) (isRunning p) (isCancelled p)
                 (isAborted p) (task_result p) (task_error p) (joiners p ++ [j])
                 (joiners_null p) (deferredEnd p)).
Proof. intros [H1 H2] Hr. congruence. Qed.

Lemma over_with_unjoin J (j : nat) (p : proc) :
  keeps_joins (Unjoin j) → over_with J p → joiners_null p = false →
  over_with J (Proc (queue p) (cancelledDueToErrorTasks p) (isRunning p) (isCancelled p)
                 (isAborted p) (task_result p) (task_error p) (remove j (joiners p))
                 (joiners_null p) (deferredEnd p)).
Proof. intros []. Qed.

Lemma nulled_frame (p p' : proc) :
  nulled p → (isRunning p' = false ∨ isRunning p' = isRunning p) →
  joiners p' = joiners p → (joiners_null p = true → joiners_null p' = true) → nulled p'.
Proof. intros Hp _ _ Hn. by apply Hn. Qed.

Lemma nulled_join (j : nat) (p : proc) :
  nulled p → isRunning p = true →
  nulled (Proc (queue p) (cancelledDueToErrorTasks p) (isRunning p) (isCancelled p)
            (isAborted p) (task_result p) (task_error p) (joiners p ++ [j])
            (joiners_null p) (deferredEnd p)).
Proof. by intros Hp _. Qed.

Lemma nulled_unjoin (j : nat) (p : proc) :
  (λ _ : op, True) (Unjoin j) → nulled p → joiners_null p = false →
  nulled (Proc (queue p) (cancelledDueToErrorTasks p) (isRunning p) (isCancelled p)
            (isAborted p) (task_result p) (task_error p) (remove j (joiners p))
            (joiners_null p) (deferredEnd p)).
Proof. intros _ Hp Hn. unfold nulled in Hp. congruence. Qed.

Lemma all_allowed (code : user) : calls_only (λ _, True) code.
Proof. repeat split; intros; apply Forall_forall; done. Qed.

Lemma over_with_run J name has_cont has_onError code fuel o :
  never_unjoins code → keeps_joins o →
  kept (over_with J) (run name has_cont has_onError code fuel o).
Proof.
  intros Hcode Ho.
  by apply (task_run_kept (over_with J) keeps_joins (over_with_frame J) (over_with_join J)
              (over_with_unjoin J) name has_cont has_onError code Hcode fuel o).
Qed.

Lemma over_with_script J name has_cont has_onError code fuel os :
  never_unjoins code → Forall keeps_joins os →
  kept (over_with J) (script (run name has_cont has_onError code fuel) os).
Proof.
  intros Hcode Hos.
  apply (task_script_kept (over_with J) keeps_joins (over_with_frame J) (over_with_join J)
           (over_with_unjoin J) code Hcode); [|done].
  intros o Ho. by apply over_with_run.
Qed.

Lemma nulled_run name has_cont has_onError code fuel o :
  kept nulled (run name has_cont has_onError code fuel o).
Proof.
  by apply (task_run_kept nulled (λ _, True) nulled_frame nulled_join nulled_unjoin
              name has_cont has_onError code (all_allowed code) fuel o).
Qed.

Lemma nulled_script name has_cont has_onError code fuel os :
  kept nulled (script (run name has_cont has_onError code fuel) os).
Proof.
  apply (task_script_kept nulled (λ _, True) nulled_frame nulled_join nulled_unjoin
           code (all_allowed code)).
  - intros o _. apply nulled_run.
  - apply Forall_forall. done.
Qed.

Lemma nulled_end name has_cont has_onError code fuel v e :
  kept nulled (end_ has_cont has_onError code (run name has_cont has_onError code fuel) v e).
Proof.
  apply (end_kept nulled (λ _, True) nulled_frame nulled_join nulled_unjoin
           has_cont has_onError code (all_allowed code)).
  intros o _. apply nulled_run.
Qed.

Lemma tells_ret p : tells [] (ret p).
Proof. split; [|intros _]; cbn [trace ret]; by rewrite direct_nil. Qed.

Lemma tells_leaf l p : tells [l] (leaf l p).
Proof. split; [|intros _]; cbn [trace leaf]; by rewrite direct_cons, direct_nil. Qed.

Lemma tells_under l (r : res) : tells [l] (under l r).
Proof. split; [|intros _]; cbn [trace under]; by rewrite direct_cons, direct_nil. Qed.

Lemma tells_and_then C1 C2 (r : res) (k : proc → res) :
  tells C1 r → (outcome_of r = Returned → tells C2 (k (state r))) →
  tells (C1 ++ C2) (and_then r k).
Proof.
  intros [H1 H2] Hk. unfold tells.
  destruct (and_then_cases r k) as [[Ho ->]|[Ho ->]]; cbn [trace outcome_of].
  - destruct (Hk Ho) as [H3 H4]. rewrite direct_app, (H2 Ho). split.
    + by apply prefix_app.
    + intros Hr. by rewrite (H4 Hr).
  - split; [by apply prefix_app_r | done].
Qed.

Section Order.
Variable name : nat → nat.
Variables has_cont has_onError : bool.
Variable code : user.
Hypothesis code_quiet : never_unjoins code.
Variable fuel : nat.

Lemma each_joiner_tells J v e n : ∀ k p,
  over_with J p →
  tells (map (λ j, Joiner j v e) (firstn n (drop k J)))
        (each_joiner code (run name has_cont has_onError code fuel) v e n k p) ∧
  over_with J (state (each_joiner code (run name has_cont has_onError code fuel) v e n k p)).
Proof.
  induction n as [|n IH]; intros k p Hp; simpl.
  { split; [apply tells_ret | done]. }
  destruct Hp as [Hr Hj]. rewrite Hj.
  destruct (J !! k) as [j|] eqn:Ek.
  - rewrite (drop_S _ _ _ Ek). simpl.
    set (a := under (Joiner j v e)
                (script (run name has_cont has_onError code fuel) (on_joiner code j v e) p)).
    assert (over_with J (state a)) as Ha.
    { subst a. cbn [state under].
      apply over_with_script; [done | apply code_quiet | done]. }
    destruct (IH (S k) (state a) Ha) as [I1 I2].
    split.
    + apply (tells_and_then [Joiner j v e]); [apply tells_under | done].
    + destruct (and_then_cases a (each_joiner code (run name has_cont has_onError code fuel)
                                    v e n (S k))) as [[Ho ->]|[Ho ->]]; done.
  - apply lookup_ge_None in Ek.
    rewrite drop_ge by done. simpl.
    destruct (IH (S k) p (conj Hr Hj)) as [I1 I2].
    rewrite drop_ge in I1 by lia. by destruct n.
Qed.
End Order.



End EndingFacts.

(** ** Callbacks that call back into the queue *)

Module ReentryFacts.
Import ForkQueue Proc Ending Reentry.

Lemma error_reports_none (tr : list (tree event)) :
  Forall no_error_report (everything tr) → error_reports tr = 0.
Proof.
  unfold error_reports, weight. induction 1 as [|l ls Hl _ IH]; [done|].
  simpl. rewrite Hl, IH. done.
Qed.

Lemma calls_only_weaken (P Q : op → Prop) (code : user) :
  (∀ o, P o → Q o) → calls_only P code → calls_only Q code.
Proof.
  intros HPQ (H1 & H2 & H3).
  repeat split; intros; (eapply Forall_impl; [|exact HPQ]); auto.
Qed.

Lemma sound_seq {G L} (I : G → Prop) (E : L → Prop) (r : result G L) (k : G → result G L) :
  I (state r) ∧ Forall E (everything (trace r)) → sound I E k →
  I (state (and_then r k)) ∧ Forall E (everything (trace (and_then r k))).
Proof.
  intros [H1 H2] Hk.
  destruct (and_then_cases r k) as [[Ho ->]|[Ho ->]]; cbn [state trace]; [|done].
  destruct (Hk _ H1) as [H3 H4]. split; [done|].
  rewrite everything_app. by apply Forall_app.
Qed.

(** *** Once the queue has completed, no error is reported any more *)

Section Aborted.
Variable name : nat → nat.
Variables has_cont has_onError : bool.
Variable code : user.
Hypothesis code_ok : never_aborts code.
Variable N : list nat.

Section Step.
Variable rec : op → proc → res.
Hypothesis rec_sound : ∀ o, no_abort o → sound (aborted_with N) no_error_report (rec o).

Lemma script_aborted os :
  Forall no_abort os → sound (aborted_with N) no_error_report (script rec os).
Proof.
  induction os as [|o os IH]; intros Hos; simpl; [apply sound_ret|].
  apply Forall_cons in Hos as [Ho Hos].
  apply (sound_and_then _ _ (rec o)); [by apply rec_sound | by apply IH].
Qed.

Lemma cancel_member_aborted t : sound (aborted_with N) no_error_report (cancel_member code rec t).
Proof.
  apply (sound_under _ _ (CancelMember t)); [done|].
  apply script_aborted, code_ok.
Qed.

Lemma joiner_aborted j v e :
  sound (aborted_with N) no_error_report
        (λ p, under (Joiner j v e) (script rec (on_joiner code j v e) p)).
Proof. apply (sound_under _ _ (Joiner j v e)); [done|]. apply script_aborted, code_ok. Qed.

Lemma each_joiner_aborted v e n :
  ∀ k, sound (aborted_with N) no_error_report (each_joiner code rec v e n k).
Proof.
  induction n as [|n IH]; intros k p Hp; simpl; [by apply sound_ret|].
  destruct (joiners p !! k) as [j|]; [|by apply IH].
  apply sound_seq; [by apply joiner_aborted | apply IH].
Qed.

Lemma leaf_aborted l p p' :
  no_error_report l → aborted_with N p → queue p' = queue p →
  cancelledDueToErrorTasks p' = cancelledDueToErrorTasks p →
  aborted_with N (state (leaf l p')) ∧ Forall no_error_report (everything (trace (leaf l p'))).
Proof.
  intros Hl [H1 H2] Hq Hn. split.
  - split; simpl; congruence.
  - cbn [trace leaf]. rewrite everything_node, everything_nil. by constructor.
Qed.

Lemma same_aborted p p' :
  aborted_with N p → queue p' = queue p →
  cancelledDueToErrorTasks p' = cancelledDueToErrorTasks p → aborted_with N p'.
Proof. intros [H1 H2] Hq Hn. split; congruence. Qed.

Lemma end_aborted v e : sound (aborted_with N) no_error_report (end_ has_cont has_onError code rec v e).
Proof.
  intros p Hp. unfold end_.
  set (p1 := Proc _ _ false _ _ _ _ _ _ _).
  assert (aborted_with N p1) as H1 by (by apply (same_aborted p)).
  match goal with
  | |- context [and_then ?a ?k] => set (A := a); set (K := k)
  end.
  assert (aborted_with N (state A) ∧ Forall no_error_report (everything (trace A))) as HA.
  { subst A. unfold settle. destruct e, has_cont, (deferredEnd p) eqn:Ed;
      rewrite ?and_then_ret_l; cbn [deferredEnd p1]; rewrite ?Ed;
      unfold leaf; rewrite ?and_then_returned by done; cbn [state trace deferredEnd];
      rewrite ?Ed; cbn [state trace app ret];
      (split; [by apply (same_aborted p)|]);
      rewrite ?everything_node, ?everything_nil; cbn [app];
      repeat (apply Forall_cons_2; [by destruct has_onError|]); apply Forall_nil_2. }
  apply sound_seq; [done|].
  clear HA. subst K. intros p3 H3. cbn beta.
  match goal with
  | |- context [and_then ?a ?k] => set (C := a); set (K2 := k)
  end.
  assert (aborted_with N (state C) ∧ Forall no_error_report (everything (trace C))) as HC.
  { subst C. destruct has_cont; [|by apply sound_ret].
    apply (sound_under _ _ (Continuation v e) (script rec (on_continuation code v e)));
      [done | apply script_aborted, code_ok | done]. }
  apply sound_seq; [done|].
  clear HC. subst K2. intros p4 H4. cbn beta.
  destruct (joiners_null p4); [by apply sound_throw|].
  apply sound_seq; [by apply each_joiner_aborted|].
  intros p5 H5. split; [by apply (same_aborted p5) | apply Forall_nil_2].
Qed.

Lemma cancel_each_aborted n :
  ∀ k, sound (aborted_with N) no_error_report (cancel_each the_queue (cancel_member code rec) n k).
Proof.
  induction n as [|n IH]; intros k p Hp; simpl; [by apply sound_ret|].
  destruct (tasks (queue p) !! k) as [t|]; [|by apply IH].
  apply sound_seq; [|apply IH].
  apply (cancel_member_aborted t). destruct Hp. by split.
Qed.

Lemma step_aborted o :
  no_abort o → sound (aborted_with N) no_error_report (step name has_cont has_onError code rec o).
Proof.
  intros Ho p Hp. pose proof Hp as [Hc Hn].
  destruct o as [t v e|t|err| |j|j| |]; simpl.
  - unfold cont. case_bool_decide; [|by apply sound_ret].
    unfold continuation. cbn [view the_queue]. rewrite Hc. by apply sound_ret.
  - unfold addTask, over. split; [by split | apply Forall_nil_2].
  - destruct Ho.
  - unfold cancel. destruct (isRunning p && negb (isCancelled p)); [|by apply sound_ret].
    apply (sound_under _ _ Propagate
             (λ p, and_then (cancelAll the_queue (cancel_member code rec) p)
                     (queue_cb has_cont has_onError code rec TASK_CANCEL false)));
      [done | | by apply (same_aborted p)].
    apply sound_and_then.
    + intros q Hq. unfold cancelAll. cbn [view the_queue]. destruct Hq as [Hq1 Hq2].
      rewrite Hq1. by apply sound_ret.
    + apply (sound_under _ _ (Ended TASK_CANCEL false)); [done | apply end_aborted].
  - unfold join. destruct (isRunning p).
    + split; [by split | apply Forall_nil_2].
    + destruct (isAborted p); by apply joiner_aborted.
  - unfold unjoin. destruct (joiners_null p); [by apply sound_throw|].
    split; [by split | apply Forall_nil_2].
  - unfold toPromise. destruct (deferredEnd p); [by apply sound_ret|].
    cbn [isRunning isAborted]. destruct (isRunning p); [split; [by split | apply Forall_nil_2]|].
    destruct (isAborted p); by apply (leaf_aborted _ p).
  - by apply sound_throw.
Qed.

Lemma cancelAll_aborted p :
  completed (queue p) = false → cancelledDueToErrorTasks p = N →
  let r := cancelAll the_queue (cancel_member code rec) p in
  aborted_with N (state r) ∧ Forall no_error_report (everything (trace r)).
Proof.
  intros Hc Hn. unfold cancelAll. cbn [view the_queue]. rewrite Hc.
  apply sound_seq.
  - apply cancel_each_aborted. by split.
  - intros q [Hq1 Hq2]. split; [by split | apply Forall_nil_2].
Qed.
End Step.

Lemma run_aborted fuel :
  ∀ o, no_abort o → sound (aborted_with N) no_error_report (run name has_cont has_onError code fuel o).
Proof.
  induction fuel as [|f IH]; intros o Ho; simpl; [apply sound_out_of_fuel|].
  by apply step_aborted.
Qed.
End Aborted.

(** C7 fails on the code.  In the procedure [with_children] the cancel of
    the main task has a fork fail at once, for which [runForkEffect] calls
    [abort].  When member 1 ends with an error, that [abort] runs inside the
    first one: [abort] has no [completed] guard, unlike [cancelAll] and the
    continuation of a member.  The names are recorded twice, the
    continuation of the queue is called with an error twice, and the second
    [end] throws. *)
Lemma C7_abort_inside_abort :
  let r := run id true false aborting 9 (Cont 1 (Val 4) true) with_children in
  completed (queue with_children) = false ∧ 1 ∈ live (queue with_children) ∧
  everything (trace r)
  = [OnAbort; CancelMember 0; OnAbort; Ended (Val 5) true; Continuation (Val 5) true;
     Joiner 7 (Val 5) true; CancelMember 2; Ended (Val 4) true; Continuation (Val 4) true] ∧
  cancelledDueToErrorTasks (state r) = [0; 2; 0; 2] ∧
  error_reports (trace r) = 2 ∧
  outcome_of r = Thrown ∧
  ¬ member_error_as_specified id true false aborting 8 1 (Val 4) with_children.
Proof.
  split; [done|]. split; [by vm_compute|]. split; [by vm_compute|].
  split; [by vm_compute|]. split; [by vm_compute|]. split; [by vm_compute|].
  intros (H & _). vm_compute in H. discriminate.
Qed.

(** When a member of a fork queue that has not completed ends with an
    error, and no callback called meanwhile makes the queue abort again,
    the names recorded are those of the members left in the queue, and
    no others; these members are cancelled, in order, all of them if each
    cancel returns, and nothing reports an error meanwhile; if a cancel does
    not return the series ends there and the error is not reported; if every
    cancel returns, the continuation of the queue is then called with the
    error, and in all that is called, at any depth, an error is reported
    exactly once. *)
Theorem member_error_reported_once (name : nat → nat) (has_cont has_onError : bool) (code : user)
    (fuel : nat) (t : nat) (err : value) (p : proc) :
  never_aborts code →
  completed (queue p) = false →
  t ∈ live (queue p) →
  let others := remove t (tasks (queue p)) in
  let rec := run name has_cont has_onError code fuel in
  let r := run name has_cont has_onError code (S fuel) (Cont t err true) p in
  let cancels := cancelAll the_queue (cancel_member code rec) (names_recorded name t p) in
  let fin := end_ has_cont has_onError code rec err true (state cancels) in
  cancelledDueToErrorTasks (state r) = cancelledDueToErrorTasks p ++ map name others ∧
  direct (trace cancels) `prefix_of` map CancelMember others ∧
  error_reports (trace cancels) = 0 ∧
  (outcome_of cancels ≠ Returned →
   trace r = [Node OnAbort []] ++ trace cancels ∧
   outcome_of r = outcome_of cancels ∧
   error_reports (trace r) = 0) ∧
  (outcome_of cancels = Returned →
   trace r = [Node OnAbort []] ++ trace cancels ++ [Node (Ended err true) (trace fin)] ∧
   outcome_of r = outcome_of fin ∧
   direct (trace r) = [OnAbort] ++ map CancelMember others ++ [Ended err true] ∧
   error_reports (trace r) = 1) ∧
  (outcome_of r = Returned →
   member_error_as_specified name has_cont has_onError code fuel t err p).
Proof.
  intros Hcode Hc Hl others rec r cancels fin.
  set (N := cancelledDueToErrorTasks p ++ map name others).
  set (p2 := names_recorded name t p) in *.
  assert (∀ o q, Later.good q (rec o q)) as Hgood by apply ProcFacts.run_good.
  assert (∀ o, no_abort o → sound (aborted_with N) no_error_report (rec o)) as Hrec.
  { intros o Ho. by apply run_aborted. }
  set (rest := and_then cancels (queue_cb has_cont has_onError code rec err true)).
  assert (r = Result (state rest) ([Node OnAbort []] ++ trace rest) (outcome_of rest))
    as Hr.
  { subst r. simpl. unfold cont. simpl. rewrite bool_decide_eq_true_2 by done.
    unfold continuation. simpl. rewrite Hc. unfold abort.
    rewrite and_then_returned by done.
    subst rest cancels p2. unfold names_recorded, left_by. simpl. by rewrite Hc. }
  assert (completed (queue p2) = false) as Hc2 by done.
  assert (cancelledDueToErrorTasks p2 = N) as Hn2 by done.
  destruct (cancelAll_aborted code Hcode N rec Hrec p2 Hc2 Hn2)
    as [Hs Hq].
  fold cancels in Hs, Hq.
  destruct (ProcFacts.cancelAll_calls code rec Hgood p2 Hc2) as [Ha Hb].
  fold cancels in Ha, Hb. change (tasks (queue p2)) with others in Ha, Hb.
  destruct (end_aborted has_cont has_onError code Hcode N rec Hrec err true _ Hs)
    as [Hfs Hfq].
  fold fin in Hfs, Hfq.
  pose proof (error_reports_none _ Hq) as Hq0.
  pose proof (error_reports_none _ Hfq) as Hf0.
  assert (outcome_of cancels ≠ Returned →
          trace r = [Node OnAbort []] ++ trace cancels ∧
          outcome_of r = outcome_of cancels ∧ error_reports (trace r) = 0 ∧
          cancelledDueToErrorTasks (state r) = N) as Hstop.
  { intros Ho. rewrite Hr. subst rest. rewrite and_then_stopped by done.
    cbn [state trace outcome_of]. split; [done|]. split; [done|]. split.
    - unfold error_reports in *. rewrite weight_app, weight_node, weight_nil, Hq0. done.
    - apply Hs. }
  assert (outcome_of cancels = Returned →
          trace r = [Node OnAbort []] ++ trace cancels ++ [Node (Ended err true) (trace fin)] ∧
          outcome_of r = outcome_of fin ∧
          direct (trace r) = [OnAbort] ++ map CancelMember others ++ [Ended err true] ∧
          error_reports (trace r) = 1 ∧
          cancelledDueToErrorTasks (state r) = N) as Hgo.
  { intros Ho. rewrite Hr. subst rest. rewrite and_then_returned by done.
    cbn [state trace outcome_of queue_cb under]. fold fin.
    split; [done|]. split; [done|]. split; [|split].
    - rewrite !direct_app, (Hb Ho). done.
    - unfold error_reports in *.
      rewrite !weight_app, !weight_node, weight_nil, Hq0, Hf0. done.
    - apply Hfs. }
  split.
  { destruct (decide (outcome_of cancels = Returned)) as [Ho|Ho].
    - by apply Hgo.
    - by apply Hstop. }
  split; [done|]. split; [done|]. split; [|split].
  - intros Ho. destruct (Hstop Ho) as (H1 & H2 & H3 & _). done.
  - intros Ho. destruct (Hgo Ho) as (H1 & H2 & H3 & H4 & _). done.
  - intros Ho.
    assert (outcome_of cancels = Returned) as Hoc.
    { rewrite Hr in Ho. cbn [outcome_of] in Ho. subst rest.
      by apply and_then_outcome in Ho as [Ho _]. }
    destruct (Hgo Hoc) as (H1 & H2 & H3 & H4 & H5). done.
Qed.

Lemma member_error_reported_once_witness :
  let r := run id true false family 9 (Cont 1 (Val 4) true) with_children in
  never_aborts family ∧
  cancelledDueToErrorTasks (state r) = [0; 2] ∧
  (outcome_of r = Returned →
   member_error_as_specified id true false family 8 1 (Val 4) with_children).
Proof.
  assert (never_aborts family) as Hcode.
  { repeat split; intros; unfold family; simpl;
      repeat (case_match; try apply Forall_nil_2);
      repeat (apply Forall_cons_2; [exact I|]); apply Forall_nil_2. }
  assert (1 ∈ live (queue with_children)) as Hl by (by vm_compute).
  pose proof (member_error_reported_once id true false family 8 1 (Val 4) with_children Hcode
                eq_refl Hl) as (H1 & _ & _ & _ & _ & H6).
  split; [exact Hcode|]. split; [exact H1 | exact H6].
Defined.

(** *** Cancelling a task whose queue has not completed *)

Lemma weight_none (w : event → nat) (E : event → Prop) (tr : list (tree event)) :
  (∀ l, E l → w l = 0) → Forall E (everything tr) → weight w tr = 0.
Proof.
  intros Hw. unfold weight. induction 1 as [|l ls Hl _ IH]; [done|].
  simpl. rewrite (Hw l Hl), IH. done.
Qed.

Lemma weight_seq (w : event → nat) (I : proc → Prop) (E : event → Prop) (r : res)
    (k : proc → res) :
  (∀ l, E l → w l = 0) → I (state r) → sound I E k →
  weight w (trace (and_then r k)) = weight w (trace r).
Proof.
  intros Hw Hr Hk.
  destruct (and_then_cases r k) as [[Ho ->]|[Ho ->]]; cbn [trace]; [|done].
  destruct (Hk _ Hr) as [_ H]. rewrite weight_app, (weight_none w E _ Hw H). lia.
Qed.

Section Cancelling.
Variable name : nat → nat.
Variables has_cont has_onError : bool.
Variable code : user.
Hypothesis code_tame : undisturbing code.
Variable J : list nat.

Section Step.
Variable rec : op → proc → res.
Hypothesis rec_sound : ∀ o, tame o → sound (cancelling J) is_cancel_member (rec o).

Lemma script_cancelling os :
  Forall tame os → sound (cancelling J) is_cancel_member (script rec os).
Proof.
  induction os as [|o os IH]; intros Hos; simpl; [apply sound_ret|].
  apply Forall_cons in Hos as [Ho Hos].
  apply (sound_and_then _ _ (rec o)); [by apply rec_sound | by apply IH].
Qed.

Lemma cancel_member_cancelling t :
  sound (cancelling J) is_cancel_member (cancel_member code rec t).
Proof.
  apply (sound_under _ _ (CancelMember t)); [done|].
  apply script_cancelling, code_tame.
Qed.

Lemma cancel_each_cancelling n :
  ∀ k, sound (cancelling J) is_cancel_member
         (cancel_each the_queue (cancel_member code rec) n k).
Proof.
  induction n as [|n IH]; intros k p Hp; simpl; [by apply sound_ret|].
  destruct (tasks (queue p) !! k) as [t|]; [|by apply IH].
  apply sound_seq; [|apply IH].
  apply (cancel_member_cancelling t). destruct Hp as (?&?&?&?&?). by repeat split.
Qed.

Lemma step_cancelling o :
  tame o → sound (cancelling J) is_cancel_member (step name has_cont has_onError code rec o).
Proof.
  intros Ho p Hp. pose proof Hp as (Hc & Hr & Hcc & Hn & HJ).
  destruct o as [t v e|t|err| |j|j| |]; simpl.
  - unfold cont. case_bool_decide; [|by apply sound_ret].
    unfold continuation. cbn [view the_queue]. rewrite Hc. by apply sound_ret.
  - unfold addTask, over. split; [by repeat split | apply Forall_nil_2].
  - destruct Ho.
  - unfold cancel. rewrite Hr, Hcc. by apply sound_ret.
  - unfold join. rewrite Hr. split; [|apply Forall_nil_2].
    repeat split; try done. cbn [state ret joiners]. by apply prefix_app_r.
  - destruct Ho.
  - unfold toPromise. destruct (deferredEnd p); [by apply sound_ret|].
    cbn [isRunning]. rewrite Hr. split; [by repeat split | apply Forall_nil_2].
  - by apply sound_throw.
Qed.

Lemma cancelAll_cancelling p :
  completed (queue p) = false → isRunning p = true → isCancelled p = true →
  joiners_null p = false → joiners p = J →
  let r := cancelAll the_queue (cancel_member code rec) p in
  cancelling J (state r) ∧ Forall is_cancel_member (everything (trace r)).
Proof.
  intros Hc Hr Hcc Hn HJ. unfold cancelAll. cbn [view the_queue]. rewrite Hc.
  apply sound_seq.
  - apply cancel_each_cancelling. repeat split; try done. by rewrite <- HJ.
  - intros q (?&?&?&?&?). split; [by repeat split | apply Forall_nil_2].
Qed.
End Step.

Lemma run_cancelling fuel :
  ∀ o, tame o →
       sound (cancelling J) is_cancel_member (run name has_cont has_onError code fuel o).
Proof.
  induction fuel as [|f IH]; intros o Ho; simpl; [apply sound_out_of_fuel|].
  by apply step_cancelling.
Qed.
End Cancelling.

(** *** Once the task is over and its queue has completed *)

Section Finished.
Variable name : nat → nat.
Variables has_cont has_onError : bool.
Variable code : user.
Hypothesis code_ok : never_aborts code.

Section Step.
Variable rec : op → proc → res.
Hypothesis rec_sound : ∀ o, no_abort o → sound finished aftermath (rec o).

Lemma script_finished os :
  Forall no_abort os → sound finished aftermath (script rec os).
Proof.
  induction os as [|o os IH]; intros Hos; simpl; [apply sound_ret|].
  apply Forall_cons in Hos as [Ho Hos].
  apply (sound_and_then _ _ (rec o)); [by apply rec_sound | by apply IH].
Qed.

Lemma joiner_finished j v e :
  sound finished aftermath (λ p, under (Joiner j v e) (script rec (on_joiner code j v e) p)).
Proof. apply (sound_under _ _ (Joiner j v e)); [done|]. apply script_finished, code_ok. Qed.

Lemma each_joiner_finished v e n :
  ∀ k, sound finished aftermath (each_joiner code rec v e n k).
Proof.
  induction n as [|n IH]; intros k p Hp; simpl; [by apply sound_ret|].
  destruct (joiners p !! k) as [j|]; [|by apply IH].
  apply sound_seq; [by apply joiner_finished | apply IH].
Qed.

Lemma step_finished o :
  no_abort o → sound finished aftermath (step name has_cont has_onError code rec o).
Proof.
  intros Ho p Hp. pose proof Hp as [Hc Hr].
  destruct o as [t v e|t|err| |j|j| |]; simpl.
  - unfold cont. case_bool_decide; [|by apply sound_ret].
    unfold continuation. cbn [view the_queue]. rewrite Hc. by apply sound_ret.
  - unfold addTask, over. split; [by split | apply Forall_nil_2].
  - destruct Ho.
  - unfold cancel. rewrite Hr. by apply sound_ret.
  - unfold join. rewrite Hr. destruct (isAborted p); by apply joiner_finished.
  - unfold unjoin. destruct (joiners_null p); [by apply sound_throw|].
    split; [by split | apply Forall_nil_2].
  - unfold toPromise. destruct (deferredEnd p); [by apply sound_ret|].
    cbn [isRunning isAborted]. rewrite Hr.
    destruct (isAborted p); (split; [by split|]); cbn [trace leaf];
      rewrite everything_node, everything_nil; by constructor.
  - by apply sound_throw.
Qed.

(** What [end] calls on a task whose queue has completed, weighed by a
    [w] that counts none of the calls made once the task is over: the
    continuation. *)
Lemma end_weight (w : event → nat) v e p :
  (∀ l, aftermath l → w l = 0) → completed (queue p) = true →
  weight w (trace (end_ has_cont has_onError code rec v e p))
  = if has_cont then w (Continuation v e) else 0.
Proof.
  intros Hw Hc. unfold end_.
  set (p1 := Proc _ _ false _ _ _ _ _ _ _).
  match goal with
  | |- context [and_then ?a ?k] => set (A := a); set (K := k)
  end.
  assert (finished (state A) ∧ Forall aftermath (everything (trace A)) ∧
          outcome_of A = Returned) as (HA1 & HA2 & HA3).
  { subst A. unfold settle. destruct e, has_cont, (deferredEnd p) eqn:Ed;
      rewrite ?and_then_ret_l; cbn [deferredEnd p1]; rewrite ?Ed;
      unfold leaf; rewrite ?and_then_returned by done; cbn [state trace deferredEnd];
      rewrite ?Ed; cbn [state trace outcome_of app ret];
      (split; [by split|]); (split; [|done]);
      rewrite ?everything_node, ?everything_nil; cbn [app];
      repeat (apply Forall_cons_2; [by destruct has_onError|]); apply Forall_nil_2. }
  rewrite and_then_returned by done. cbn [trace].
  rewrite weight_app, (weight_none w aftermath _ Hw HA2). cbn [Nat.add].
  generalize (state A) HA1. intros p3 H3. subst K. cbn beta.
  match goal with
  | |- context [and_then ?a ?k] => set (C := a); set (K2 := k)
  end.
  assert (sound finished aftermath K2) as HK2.
  { subst K2. intros p4 H4. destruct (joiners_null p4); [by apply sound_throw|].
    apply sound_seq; [by apply each_joiner_finished|].
    intros p5 [H5 H6]. split; [by split | apply Forall_nil_2]. }
  assert (finished (state C) ∧
          weight w (trace C) = if has_cont then w (Continuation v e) else 0) as [HC1 HC2].
  { subst C. destruct has_cont; [|by split].
    destruct (script_finished (on_continuation code v e)
                ltac:(apply code_ok) p3 H3) as [S1 S2].
    split; [done|]. cbn [trace under].
    rewrite weight_node, (weight_none w aftermath _ Hw S2). lia. }
  by rewrite (weight_seq w finished aftermath C K2 Hw HC1 HK2).
Qed.
End Step.

Lemma run_finished fuel :
  ∀ o, no_abort o → sound finished aftermath (run name has_cont has_onError code fuel o).
Proof.
  induction fuel as [|f IH]; intros o Ho; simpl; [apply sound_out_of_fuel|].
  by apply step_finished.
Qed.
End Finished.

(** [end] on a task with joiners calls the error sink, the promise, the
    continuation and the joiners, in this order, as long as each call
    returns and none cancels a join. *)
Lemma end_farewell (name : nat → nat) (has_cont has_onError : bool) (code : user)
    (fuel : nat) (v : value) (isErr : bool) (p : proc) :
  never_unjoins code →
  joiners_null p = false →
  tells (farewell has_cont has_onError v isErr p)
        (end_ has_cont has_onError code (run name has_cont has_onError code fuel) v isErr p).
Proof.
  intros Hcode Hn.
  set (rec := run name has_cont has_onError code fuel).
  set (J := joiners p).
  unfold end_.
  set (p1 := Proc _ _ false _ _ _ _ _ _ _).
  match goal with
  | |- context [and_then ?a ?k] => set (A := a); set (K := k)
  end.
  assert (tells ((if isErr && negb has_cont
                  then [if has_onError then onError v else logError v] else []) ++
                 (if deferredEnd p then [if isErr then Rejected v else Resolved v] else []))
                A ∧ over_with J (state A)) as [HA1 HA2].
  { subst A. unfold settle. destruct isErr, has_cont, (deferredEnd p) eqn:Ed;
      cbn [andb negb]; rewrite ?and_then_ret_l; cbn [deferredEnd p1]; rewrite ?Ed;
      (split; [|done]).
    all: try apply EndingFacts.tells_leaf; try apply EndingFacts.tells_ret.
    all: apply (EndingFacts.tells_and_then [_] _ (leaf _ p1)); [apply EndingFacts.tells_leaf|];
      intros _; cbn [state leaf deferredEnd p1]; rewrite ?Ed;
      try apply EndingFacts.tells_leaf; try apply EndingFacts.tells_ret. }
  assert (∀ p3, over_with J p3 →
            tells ((if has_cont then [Continuation v isErr] else []) ++
                   map (λ j, Joiner j v isErr) J) (K p3)) as HK.
  { intros p3 H3. subst K. cbn beta.
    match goal with
    | |- context [and_then ?a ?k] => set (C := a); set (K2 := k)
    end.
    assert (tells (if has_cont then [Continuation v isErr] else []) C ∧ over_with J (state C))
      as [HC1 HC2].
    { subst C. destruct has_cont; [|split; [apply EndingFacts.tells_ret | done]].
      split; [apply EndingFacts.tells_under|]. cbn [state under].
      apply EndingFacts.over_with_script; [done | apply Hcode | done]. }
    assert (tells (map (λ j, Joiner j v isErr) J) (K2 (state C))) as HK1.
    { subst K2. cbn beta. destruct (joiners_null (state C)).
      { split; [|done]. cbn [trace throw]. rewrite direct_nil. apply prefix_nil. }
      destruct (EndingFacts.each_joiner_tells name has_cont has_onError code Hcode fuel J v
                  isErr (length (joiners (state C))) 0 (state C) HC2) as [E1 E2].
      destruct HC2 as [HC2 HC3]. rewrite HC3 in *. rewrite drop_0, firstn_all in E1.
      rewrite <- (app_nil_r (map _ J)).
      apply EndingFacts.tells_and_then; [done|]. intros _. apply EndingFacts.tells_ret. }
    by apply EndingFacts.tells_and_then. }
  pose proof (HK (state A) HA2) as HK1.
  unfold farewell. rewrite app_assoc. by apply EndingFacts.tells_and_then.
Qed.

Lemma farewell_joiners has_cont has_onError v isErr p :
  filter is_joiner (farewell has_cont has_onError v isErr p)
  = map (λ j, Joiner j v isErr) (joiners p).
Proof.
  unfold farewell. rewrite !filter_app.
  assert (filter is_joiner (map (λ j, Joiner j v isErr) (joiners p))
          = map (λ j, Joiner j v isErr) (joiners p)) as ->.
  { induction (joiners p) as [|j js IH]; [done|].
    simpl. rewrite filter_cons_True by done. by rewrite IH. }
  by destruct isErr, has_cont, has_onError, (deferredEnd p).
Qed.

(** C8 fails on the code.  In the procedure [with_children] the cancel of
    the main task has a fork fail at once, for which [runForkEffect] calls
    [abort].  When the task is cancelled, that [abort] runs inside [cancel],
    after [cancelAll] has set [completed]: [abort] has no [completed] guard.
    The joiner is called with the error of the fork, the continuation is
    called twice, and [cancel] throws in its [end]: no joiner is called with
    [TASK_CANCEL]. *)
Lemma C8_abort_inside_cancel :
  let r := run id true false aborting 9 Cancel with_children in
  ¬ dead with_children ∧ completed (queue with_children) = false ∧
  joiners with_children = [7] ∧
  everything (trace r)
  = [Propagate; CancelMember 0; OnAbort; Ended (Val 5) true; Continuation (Val 5) true;
     Joiner 7 (Val 5) true; CancelMember 1; CancelMember 2; Ended TASK_CANCEL false;
     Continuation TASK_CANCEL false] ∧
  continuations (trace r) = 2 ∧
  endings (trace r) = 2 ∧
  outcome_of r = Thrown ∧
  ¬ cancel_as_specified id true false aborting 8 with_children.
Proof.
  split; [intros [H|H]; discriminate|]. split; [done|]. split; [done|].
  split; [by vm_compute|]. split; [by vm_compute|]. split; [by vm_compute|].
  split; [by vm_compute|].
  intros (calls & told & more & _ & _ & H & _). vm_compute in H. discriminate.
Qed.

(** [cancel] on a task that is over (done, aborted or cancelled) or
    already cancelled does nothing: no change, no call.  A task
    is over as soon as [end] has run, and a task that is over or cancelled
    stays so whatever is called later.  After any call of [cancel] the task
    is cancelled or over, so that a second call does nothing.  In any series
    of calls, also ones made by the callbacks, [cancel] gets past its guard
    at most once, and never on a task that was over or cancelled at the
    start.  When it does on a task whose queue has not completed, it cancels
    the members of the queue, in order, and then calls [end] with
    [TASK_CANCEL].  If, moreover, no callback called meanwhile aborts the
    queue or cancels a join, nothing but the cancels of the members is called
    before [end]; a cancel that does not return ends the series there; and
    if every cancel returns, [end] is called once and the continuation of the
    procedure, if it has one, once in all that is called, at any depth, and
    [end] calls the promise of [toPromise] if one was made, the continuation
    and then each joiner, those that joined meanwhile included, once, in the
    order they joined, with [TASK_CANCEL], as long as each of these calls
    returns. *)
Theorem cancel_propagates_once (name : nat → nat) (has_cont has_onError : bool) (code : user)
    (fuel : nat) (p : proc) (ops : list op) :
  let rec := run name has_cont has_onError code fuel in
  let r := run name has_cont has_onError code (S fuel) Cancel p in
  let series := run_all name has_cont has_onError code fuel ops p in
  let cancels := cancelAll the_queue (cancel_member code rec) (marked p) in
  let fin := end_ has_cont has_onError code rec TASK_CANCEL false (state cancels) in
  (dead p → r = ret p) ∧
  (∀ v isErr,
     dead (state (end_ has_cont has_onError code
                    (run name has_cont has_onError code fuel) v isErr p))) ∧
  (dead p → dead (state series)) ∧
  dead (state r) ∧
  run name has_cont has_onError code (S fuel) Cancel (state r) = ret (state r) ∧
  propagations (trace series) ≤ 1 ∧
  (dead p → propagations (trace series) = 0) ∧
  (¬ dead p → completed (queue p) = false →
   ∃ calls, trace r = [Node Propagate calls] ∧
     direct calls `prefix_of`
       map CancelMember (tasks (queue p)) ++ [Ended TASK_CANCEL false] ∧
     (outcome_of r = Returned →
      direct calls = map CancelMember (tasks (queue p)) ++ [Ended TASK_CANCEL false])) ∧
  (undisturbing code → ¬ dead p → completed (queue p) = false → joiners_null p = false →
   Forall is_cancel_member (everything (trace cancels)) ∧
   (outcome_of cancels ≠ Returned →
    trace r = [Node Propagate (trace cancels)] ∧ outcome_of r = outcome_of cancels) ∧
   (outcome_of cancels = Returned →
    trace r = [Node Propagate (trace cancels ++ [Node (Ended TASK_CANCEL false) (trace fin)])] ∧
    outcome_of r = outcome_of fin ∧
    direct (trace cancels) = map CancelMember (tasks (queue p)) ∧
    joiners p `prefix_of` joiners (state cancels) ∧
    tells (farewell has_cont has_onError TASK_CANCEL false (state cancels)) fin ∧
    endings (trace r) = 1 ∧
    continuations (trace r) = (if has_cont then 1 else 0)) ∧
   (outcome_of r = Returned → cancel_as_specified name has_cont has_onError code fuel p)).
Proof.
  intros rec r series cancels fin.
  destruct (ProcFacts.cancel_guarded_once name has_cont has_onError code fuel p ops)
    as (G1 & G2 & G3 & G4 & G5 & G6 & G7 & G8).
  do 8 (split; [done|]).
  intros Hcode Hlive Hc Hn.
  assert (isRunning p = true ∧ isCancelled p = false) as [Hr Hcc].
  { unfold dead in Hlive.
    destruct (isRunning p) eqn:E1, (isCancelled p) eqn:E2; try done;
      exfalso; apply Hlive; auto. }
  assert (never_aborts code) as Hna.
  { apply (calls_only_weaken tame); [|done]. by intros []. }
  assert (never_unjoins code) as Hnu.
  { apply (calls_only_weaken tame); [|done]. by intros []. }
  assert (∀ o q, Later.good q (rec o q)) as Hgood by apply ProcFacts.run_good.
  assert (r = under Propagate
                (and_then cancels (queue_cb has_cont has_onError code rec TASK_CANCEL false)))
    as Er.
  { subst r. simpl. unfold cancel.
    assert (isRunning p && negb (isCancelled p) = true) as -> by (by rewrite Hr, Hcc).
    done. }
  destruct (cancelAll_cancelling code Hcode (joiners p) rec
              (run_cancelling name has_cont has_onError code Hcode (joiners p) fuel)
              (marked p) Hc Hr eq_refl Hn eq_refl) as [Hs Hq].
  fold cancels in Hs, Hq.
  destruct Hs as (Hs1 & Hs2 & Hs3 & Hs4 & Hs5).
  destruct (ProcFacts.cancelAll_calls code rec Hgood (marked p) Hc) as [Ha Hb].
  fold cancels in Ha, Hb. change (tasks (queue (marked p))) with (tasks (queue p)) in Ha, Hb.
  pose proof (end_farewell name has_cont has_onError code fuel TASK_CANCEL false
                (state cancels) Hnu Hs4) as Hfare.
  fold rec in Hfare. fold fin in Hfare.
  assert (∀ w : event → nat, (∀ l, aftermath l → w l = 0) →
            weight w (trace fin) = if has_cont then w (Continuation TASK_CANCEL false) else 0)
    as Hw.
  { intros w Hw. subst fin.
    apply (end_weight has_cont has_onError code Hna rec); [|done|done].
    intros o Ho. by apply run_finished. }
  assert (∀ w : event → nat, (∀ l, is_cancel_member l → w l = 0) →
            weight w (trace cancels) = 0) as Hw0.
  { intros w Hw'. by apply (weight_none w is_cancel_member). }
  assert (outcome_of cancels = Returned →
          trace r = [Node Propagate
                       (trace cancels ++ [Node (Ended TASK_CANCEL false) (trace fin)])] ∧
          outcome_of r = outcome_of fin ∧
          direct (trace cancels) = map CancelMember (tasks (queue p)) ∧
          joiners p `prefix_of` joiners (state cancels) ∧
          tells (farewell has_cont has_onError TASK_CANCEL false (state cancels)) fin ∧
          endings (trace r) = 1 ∧
          continuations (trace r) = (if has_cont then 1 else 0)) as Hgo.
  { intros Ho. rewrite Er. rewrite and_then_returned by done.
    cbn [state trace outcome_of queue_cb under]. fold fin.
    split; [done|]. split; [done|]. split; [by apply Hb|]. split; [done|].
    split; [done|]. unfold endings, continuations.
    rewrite !weight_node, !weight_app, !weight_node.
    rewrite (Hw ending) by (by intros []). rewrite (Hw continuing) by (by intros []).
    rewrite (Hw0 ending) by (by intros []). rewrite (Hw0 continuing) by (by intros []).
    cbn [ending continuing]. split; destruct has_cont; lia. }
  split; [done|]. split; [|split; [done|]].
  - intros Ho. rewrite Er. rewrite and_then_stopped by done. done.
  - intros Ho.
    assert (outcome_of cancels = Returned) as Hoc.
    { rewrite Er in Ho. cbn [outcome_of under] in Ho.
      by apply and_then_outcome in Ho as [Ho _]. }
    assert (outcome_of fin = Returned) as Hof.
    { destruct (Hgo Hoc) as (_ & H2 & _). by rewrite <- H2. }
    destruct (Hgo Hoc) as (H1 & H2 & H3 & [more H4] & [_ H5] & H6 & H7).
    exists (trace cancels), (trace fin), more.
    split; [done|]. split; [done|]. split; [done|]. split; [done|].
    rewrite (H5 Hof), farewell_joiners, H4. done.
Qed.

Lemma cancel_propagates_once_witness :
  let r := run id true false family 9 Cancel with_children in
  undisturbing family ∧
  run id true false family 9 Cancel (state r) = ret (state r) ∧
  endings (trace r) = 1 ∧ continuations (trace r) = 1 ∧
  cancel_as_specified id true false family 8 with_children.
Proof.
  assert (undisturbing family) as Hcode.
  { repeat split; intros; unfold family; simpl;
      repeat (case_match; try apply Forall_nil_2);
      repeat (apply Forall_cons_2; [exact I|]); apply Forall_nil_2. }
  assert (¬ dead with_children) as Hlive by (intros [H|H]; discriminate).
  pose proof (cancel_propagates_once id true false family 8 with_children [])
    as (_ & _ & _ & _ & H5 & _ & _ & _ & H9).
  destruct (H9 Hcode Hlive eq_refl eq_refl) as (_ & _ & Hgo & Hspec).
  destruct (Hgo eq_refl) as (_ & _ & _ & _ & _ & H6 & H7).
  split; [exact Hcode|]. split; [exact H5|]. split; [exact H6|]. split; [exact H7|].
  apply Hspec. reflexivity.
Defined.

(** *** [end] after [end] *)

Lemma notices_no_joiner has_cont has_onError v isErr p j a b :
  Joiner j a b ∉ notices has_cont has_onError v isErr p.
Proof.
  unfold notices. intros H.
  destruct isErr, has_cont, has_onError, (deferredEnd p); cbn [andb negb app] in H;
    repeat (apply elem_of_cons in H as [H|H]; [discriminate|]);
    by apply elem_of_nil in H.
Qed.

(** [end] must not run twice.  Once it has set [task.joiners] to [null], a
    further [end] calls the error sink when it is called with an error and
    there is no continuation, the promise of [toPromise] if one was made, and
    the continuation, these and no others, in this order, and so no joiner;
    when the continuation returns, or there is none, it throws, on
    [task.joiners.forEach]; when the continuation does not return, [end] ends
    as the continuation did.  So it never returns, and [task.joiners] stays
    [null]. *)
Theorem end_after_end_throws (name : nat → nat) (has_cont has_onError : bool) (code : user)
    (fuel : nat) (v : value) (isErr : bool) (p : proc) :
  joiners_null p = true →
  let rec := run name has_cont has_onError code fuel in
  let r := end_ has_cont has_onError code rec v isErr p in
  let again := script rec (on_continuation code v isErr) (ended v isErr p) in
  direct (trace r) = notices has_cont has_onError v isErr p ∧
  (has_cont = false → outcome_of r = Thrown) ∧
  (has_cont = true → outcome_of again = Returned → outcome_of r = Thrown) ∧
  (has_cont = true → outcome_of again ≠ Returned → outcome_of r = outcome_of again) ∧
  outcome_of r ≠ Returned ∧
  joiners_null (state r) = true ∧
  ∀ j a b, Joiner j a b ∉ direct (trace r).
Proof.
  intros Hn rec r again.
  assert (nulled (state r)) as Hs by (by apply EndingFacts.nulled_end).
  assert (nulled (ended v isErr p)) as Hne by (by destruct isErr).
  assert (nulled (state again)) as Hna by (by apply EndingFacts.nulled_script).
  assert (direct (trace r) = notices has_cont has_onError v isErr p ∧
          outcome_of r = if has_cont
                         then match outcome_of again with Returned => Thrown | o => o end
                         else Thrown) as [Hd Ho].
  { subst r. unfold end_.
    set (p1 := Proc _ _ false _ _ _ _ _ _ _).
    match goal with
    | |- context [and_then ?a ?k] => set (A := a); set (K := k)
    end.
    assert (state A = ended v isErr p ∧ outcome_of A = Returned ∧
            direct (trace A)
            = (if isErr && negb has_cont
               then [if has_onError then onError v else logError v] else []) ++
              (if deferredEnd p then [if isErr then Rejected v else Resolved v] else []))
      as (HA1 & HA2 & HA3).
    { subst A. unfold settle, ended. destruct isErr, has_cont, (deferredEnd p) eqn:Ed;
        cbn [andb negb]; rewrite ?and_then_ret_l; cbn [deferredEnd p1]; rewrite ?Ed;
        unfold leaf; rewrite ?and_then_returned by done; cbn [state trace deferredEnd];
        rewrite ?Ed; cbn [state trace outcome_of app ret];
        rewrite ?direct_cons, ?direct_nil; done. }
    rewrite and_then_returned by done. cbn [trace outcome_of].
    rewrite direct_app, HA3, HA1. subst K. cbn beta. unfold notices.
    destruct has_cont.
    - fold again. unfold nulled in Hna.
      destruct (decide (outcome_of again = Returned)) as [Hr|Hr].
      + rewrite and_then_returned by done. cbn [state under trace outcome_of].
        rewrite Hna, Hr. cbn [trace outcome_of throw].
        rewrite direct_app, direct_cons, !direct_nil, app_nil_r, <- app_assoc. done.
      + rewrite and_then_stopped by done. cbn [trace outcome_of under].
        rewrite direct_cons, direct_nil, <- app_assoc. split; [done|].
        by destruct (outcome_of again).
    - rewrite and_then_ret_l. unfold nulled in Hne. rewrite Hne.
      cbn [trace outcome_of throw]. rewrite direct_nil, <- app_assoc. done. }
  split; [done|]. split; [|split; [|split; [|split; [|split; [exact Hs|]]]]].
  - intros ->. done.
  - intros -> Hr. by rewrite Ho, Hr.
  - intros -> Hr. rewrite Ho. by destruct (outcome_of again).
  - rewrite Ho. destruct has_cont; [|done]. by destruct (outcome_of again).
  - intros j a b. rewrite Hd. apply notices_no_joiner.
Qed.

Lemma end_after_end_throws_witness :
  let p := state (end_ true false rejoining (run id true false rejoining 9) (Val 3) false
                    two_joiners) in
  let r := end_ true false rejoining (run id true false rejoining 9) (Val 4) true p in
  joiners_null p = true ∧
  direct (trace r) = [Rejected (Val 4); Continuation (Val 4) true] ∧
  outcome_of r = Thrown.
Proof.
  set (p := state (end_ true false rejoining (run id true false rejoining 9) (Val 3) false
                     two_joiners)).
  assert (joiners_null p = true) as Hn by reflexivity.
  pose proof (end_after_end_throws id true false rejoining 9 (Val 4) true p Hn)
    as (H1 & _ & H3 & _).
  split; [exact Hn|]. split; [exact H1|]. apply H3; reflexivity.
Defined.

End ReentryFacts.
